(** * drsh: a shallow embedding of the shell's core and its checked properties

    The development follows [drsh.c] component by component: byte helpers,
    the byte expansion distance used to rank completions, the redisplay
    arithmetic, the atom table, the environment, the history, the program
    resolver, the tokenizer and canonicalizer with built-in dispatch, and
    the line editor.

    Conventions.
    - A C [char]/[unsigned char] is a [Z] in [0, 256); byte strings are
      [list Z].  The [|0x20] comparisons of the source promote both sides
      the same way, so the unsigned view decides them.
    - [size_t] and [uint32_t] values are [Z] with the wrap-around written
      out ([wrap64], [wrap32]) wherever the source computes with them.
    - A [DrshGrowBuffer] is the list of its first [count] bytes; capacity
      management ([drsh_gb_ensure]) is not observable and allocation is
      taken to succeed, so the [EC_OOM] paths are not modelled.
    - A pointer to an atom is the index of the atom in the table's [atoms]
      array: [drsh_at_atomize] allocates one atom per slot and never frees
      or moves it, so pointer equality is index equality.
    - Reading outside an array, dereferencing an invalid pointer and
      running out of loop fuel are reported as [UB]. *)

From Stdlib Require Import ZArith List Bool String Ascii Lia.
From Stdlib Require Import DecimalString.
From stdpp Require Import base numbers list.

Open Scope Z_scope.

(** ** Machine integers and bytes *)

Definition wrap32 (z : Z) : Z := z mod 2 ^ 32.
Definition wrap64 (z : Z) : Z := z mod 2 ^ 64.
(** Two's-complement reading of a 64-bit pattern ([ssize_t]). *)
Definition swrap64 (z : Z) : Z := (z + 2 ^ 63) mod 2 ^ 64 - 2 ^ 63.
(** Two's-complement reading of a 32-bit pattern ([int]). *)
Definition swrap32 (z : Z) : Z := (z + 2 ^ 31) mod 2 ^ 32 - 2 ^ 31.
Definition UINT32_MAX : Z := 2 ^ 32 - 1.

Definition len {A} (l : list A) : Z := Z.of_nat (length l).

Definition bytes_of (s : string) : list Z :=
  map (fun b => Z.of_N (Byte.to_N b)) (list_byte_of_string s).

(** [c | 0x20], the fold used by every case-insensitive comparison. *)
Definition or20 (c : Z) : Z := Z.lor 32 c.

(** The bytes of a NUL-terminated string starting at [s]: what [strlen],
    [strchr], [strcmp] and [%s] see. *)
Fixpoint c_str (s : list Z) : list Z :=
  match s with
  | [] => []
  | c :: s' => if c =? 0 then [] else c :: c_str s'
  end.

(** Result codes of the source ([DrshEC]). *)
Inductive DrshEC :=
| EC_OK | EC_OOM | EC_IO_ERROR | EC_ASSERTION_ERROR | EC_UNIMPLEMENTED_ERROR
| EC_VALUE_ERROR | EC_EOF | EC_NOT_FOUND | EC_EXIT.

(** Outcome of a modelled call: a value, an error code, or undefined
    behaviour (out-of-bounds access, invalid pointer, exhausted fuel). *)
Inductive res (A : Type) :=
| Ok (a : A)
| Fail (ec : DrshEC)
| UB.
Arguments Ok {A} a.
Arguments Fail {A} ec.
Arguments UB {A}.

Definition rbind {A B} (r : res A) (k : A -> res B) : res B :=
  match r with
  | Ok a => k a
  | Fail ec => Fail ec
  | UB => UB
  end.

Notation "'do' x <- r ; k" := (rbind r (fun x => k))
  (at level 10, x pattern, r at level 100, k at level 200).

(** ** Byte expansion distance (drsh.c 549-615) *)

Section ExpansionDistance.
(** [same a b] is the comparison of the two current bytes:
    [*haystack == *needle], or the same after [|0x20]. *)
Variable same : Z -> Z -> bool.

Inductive strip_result :=
| StripReturn (r : Z)
| StripBreak (haystack needle : list Z).

(** First inner loop: "Strip off the leading extent that matches". *)
Fixpoint strip_matching (haystack needle : list Z) (difference : Z) {struct needle}
  : strip_result :=
  match needle with
  | [] => StripReturn (swrap64 (difference + len haystack))
  | n :: needle' =>
      match haystack with
      | [] => StripReturn (-1)
      | h :: haystack' =>
          if same h n then strip_matching haystack' needle' difference
          else StripBreak haystack needle
      end
  end.

(** Second inner loop: "Strip off haystack until we find a match,
    counting each one".  [None] is the [return -1]. *)
Fixpoint skip_to_match (haystack : list Z) (n : Z) (difference : Z) : option (list Z * Z) :=
  match haystack with
  | [] => None
  | h :: haystack' =>
      if same h n then Some (haystack, difference)
      else skip_to_match haystack' n (swrap64 (difference + 1))
  end.

(** The outer [for(;;)]; one unit of fuel per iteration. *)
Fixpoint expansion_loop (fuel : nat) (haystack needle : list Z) (difference : Z) : res Z :=
  match fuel with
  | O => UB
  | S fuel' =>
      if len haystack <? len needle then Ok (-1)
      else match needle with
           | [] => Ok (swrap64 (difference + len haystack))
           | _ :: _ =>
               match strip_matching haystack needle difference with
               | StripReturn r => Ok r
               | StripBreak haystack1 needle1 =>
                   match skip_to_match haystack1 (hd 0 needle1) difference with
                   | None => Ok (-1)
                   | Some (haystack2, difference2) =>
                       expansion_loop fuel' haystack2 needle1 difference2
                   end
               end
           end
  end.

Definition expansion_distance (haystack needle : list Z) : res Z :=
  expansion_loop (S (length haystack)) haystack needle 0.
End ExpansionDistance.

Definition byte_expansion_distance : list Z -> list Z -> res Z :=
  expansion_distance Z.eqb.

Definition byte_expansion_distance_icase : list Z -> list Z -> res Z :=
  expansion_distance (fun h n => or20 h =? or20 n).

(** ** Data model (drsh.c 846-1026) *)

(** [struct DrshAtom].  [atom_txt] is the [len] bytes of [txt[]]; the
    terminating NUL the source stores after them is implicit. *)
Record DrshAtom := {
  atom_len : Z;
  atom_hash : Z;
  atom_iatom : option nat;
  atom_txt : list Z;
}.

(** [struct DrshAtomTable].  [data] holds the [atoms] array followed by the
    [idxes] array of [2*cap] 32-bit slots; [count] is [len at_atoms]. *)
Record DrshAtomTable := {
  at_atoms : list DrshAtom;
  at_cap : Z;
  at_idxes : list Z;
  at_special : list nat;
}.

Definition at_count (at' : DrshAtomTable) : Z := len (at_atoms at').

(** The [ATOM_x] enumeration, in the order of [ATOM_X]. *)
Definition ATOM_pwd : nat := 0.
Definition ATOM_cd : nat := 1.
Definition ATOM_echo : nat := 2.
Definition ATOM_set : nat := 3.
Definition ATOM_exit : nat := 4.
Definition ATOM_source : nat := 5.
Definition ATOM_time : nat := 6.
Definition ATOM_PWD : nat := 7.
Definition ATOM_HOME : nat := 8.
Definition ATOM_PATH : nat := 9.
Definition ATOM_PATHEXT : nat := 10.
Definition ATOM_COLUMNS : nat := 11.
Definition ATOM_LINES : nat := 12.
Definition ATOM_TERM : nat := 13.
Definition ATOM_USER : nat := 14.
Definition ATOM_SHELL : nat := 15.
Definition ATOM_SHLVL : nat := 16.
Definition ATOM_DRSH_HISTORY : nat := 17.
Definition ATOM_DRSH_CONFIG : nat := 18.
Definition ATOM_debug : nat := 19.
Definition ATOM_on : nat := 20.
Definition ATOM_off : nat := 21.
Definition ATOM_true : nat := 22.
Definition ATOM_false : nat := 23.
Definition ATOM_0 : nat := 24.
Definition ATOM_1 : nat := 25.
Definition ATOM_DOT : nat := 26.
Definition ATOM_MAX : nat := 27.

(** The spellings [drsh_at_init] interns, indexed by the enumeration. *)
Definition special_tokens : list (list Z) :=
  map bytes_of
    ["pwd"; "cd"; "echo"; "set"; "exit"; "source"; "time"; "PWD"; "HOME";
     "PATH"; "PATHEXT"; "COLUMNS"; "LINES"; "TERM"; "USER"; "SHELL"; "SHLVL";
     "DRSH_HISTORY"; "DRSH_CONFIG"; "debug"; "on"; "off"; "true"; "false";
     "0"; "1"; "."]%string.

Inductive OsFlavor := OS_APPLE | OS_WINDOWS | OS_LINUX | OS_OTHER.

(** [struct DrshEnvironment].  [data] holds [count] key/value pointer
    pairs ([env_entries]) followed by the [idxes] array of [2*cap] slots.
    The atom table [env->at] is passed next to the environment, and the
    scratch buffer [env->tmp] is local to each modelled call. *)
Record DrshEnvironment := {
  env_cwd : list Z;
  env_home : option nat;
  env_entries : list (nat * nat);
  env_cap : Z;
  env_idxes : list Z;
  env_sorted : bool;
  env_case_insensitive : bool;
  env_debug : bool;
  env_cols : Z;
  env_lines : Z;
  env_os_flavor : OsFlavor;
}.

Definition env_count (env : DrshEnvironment) : Z := len (env_entries env).

(** [struct DrshWord]: a ranked completion candidate. *)
Record DrshWord := {
  w_a : nat;
  w_distance : Z;
  w_idistance : Z;
  w_prefix_match : Z;
  w_iprefix_match : Z;
}.

(** [struct DrshInput]. *)
Record DrshInput := {
  read_buffer : list Z;
  read_cursor : Z;
  write_buffer : list Z;
  write_cursor : Z;
  prompt : list Z;
  needs_redisplay : bool;
  needs_clear_screen : bool;
  hist_start : Z;
  hist_buffer : list nat;
  hist_cursor : Z;
  prompt_visual_len : Z;
  tab_completion : bool;
  tab_completions : list DrshWord;
  tab_completion_cursor : Z;
}.

Definition inp_set_read (inp : DrshInput) (rb : list Z) (rc : Z) : DrshInput :=
  {| read_buffer := rb; read_cursor := rc;
     write_buffer := write_buffer inp; write_cursor := write_cursor inp;
     prompt := prompt inp; needs_redisplay := needs_redisplay inp;
     needs_clear_screen := needs_clear_screen inp; hist_start := hist_start inp;
     hist_buffer := hist_buffer inp; hist_cursor := hist_cursor inp;
     prompt_visual_len := prompt_visual_len inp;
     tab_completion := tab_completion inp; tab_completions := tab_completions inp;
     tab_completion_cursor := tab_completion_cursor inp |}.

Definition inp_set_write (inp : DrshInput) (wb : list Z) (wc : Z) : DrshInput :=
  {| read_buffer := read_buffer inp; read_cursor := read_cursor inp;
     write_buffer := wb; write_cursor := wc;
     prompt := prompt inp; needs_redisplay := needs_redisplay inp;
     needs_clear_screen := needs_clear_screen inp; hist_start := hist_start inp;
     hist_buffer := hist_buffer inp; hist_cursor := hist_cursor inp;
     prompt_visual_len := prompt_visual_len inp;
     tab_completion := tab_completion inp; tab_completions := tab_completions inp;
     tab_completion_cursor := tab_completion_cursor inp |}.

Definition inp_set_flags (inp : DrshInput) (redisplay clear_screen : bool) : DrshInput :=
  {| read_buffer := read_buffer inp; read_cursor := read_cursor inp;
     write_buffer := write_buffer inp; write_cursor := write_cursor inp;
     prompt := prompt inp; needs_redisplay := redisplay;
     needs_clear_screen := clear_screen; hist_start := hist_start inp;
     hist_buffer := hist_buffer inp; hist_cursor := hist_cursor inp;
     prompt_visual_len := prompt_visual_len inp;
     tab_completion := tab_completion inp; tab_completions := tab_completions inp;
     tab_completion_cursor := tab_completion_cursor inp |}.

Definition inp_set_hist (inp : DrshInput) (hb : list nat) (hc : Z) : DrshInput :=
  {| read_buffer := read_buffer inp; read_cursor := read_cursor inp;
     write_buffer := write_buffer inp; write_cursor := write_cursor inp;
     prompt := prompt inp; needs_redisplay := needs_redisplay inp;
     needs_clear_screen := needs_clear_screen inp; hist_start := hist_start inp;
     hist_buffer := hb; hist_cursor := hc;
     prompt_visual_len := prompt_visual_len inp;
     tab_completion := tab_completion inp; tab_completions := tab_completions inp;
     tab_completion_cursor := tab_completion_cursor inp |}.

Definition inp_set_prompt (inp : DrshInput) (p : list Z) (visual : Z) : DrshInput :=
  {| read_buffer := read_buffer inp; read_cursor := read_cursor inp;
     write_buffer := write_buffer inp; write_cursor := write_cursor inp;
     prompt := p; needs_redisplay := needs_redisplay inp;
     needs_clear_screen := needs_clear_screen inp; hist_start := hist_start inp;
     hist_buffer := hist_buffer inp; hist_cursor := hist_cursor inp;
     prompt_visual_len := visual;
     tab_completion := tab_completion inp; tab_completions := tab_completions inp;
     tab_completion_cursor := tab_completion_cursor inp |}.

Definition inp_set_tab (inp : DrshInput) (active : bool) (ws : list DrshWord) (c : Z)
  : DrshInput :=
  {| read_buffer := read_buffer inp; read_cursor := read_cursor inp;
     write_buffer := write_buffer inp; write_cursor := write_cursor inp;
     prompt := prompt inp; needs_redisplay := needs_redisplay inp;
     needs_clear_screen := needs_clear_screen inp; hist_start := hist_start inp;
     hist_buffer := hist_buffer inp; hist_cursor := hist_cursor inp;
     prompt_visual_len := prompt_visual_len inp;
     tab_completion := active; tab_completions := ws;
     tab_completion_cursor := c |}.

(** [DrshInput input = {0}; input.prompt = "> "] of [main]. *)
Definition input_zero : DrshInput :=
  {| read_buffer := []; read_cursor := 0; write_buffer := []; write_cursor := 0;
     prompt := bytes_of "> "; needs_redisplay := false; needs_clear_screen := false;
     hist_start := 0; hist_buffer := []; hist_cursor := 0; prompt_visual_len := 0;
     tab_completion := false; tab_completions := []; tab_completion_cursor := 0 |}.

(** ** Redisplay (drsh.c 1588-1633) *)

(** [%d] of [printf]. *)
Definition fmt_d (z : Z) : list Z := bytes_of (NilZero.string_of_int (Z.to_int z)).

Definition ESC : Z := 27.

(** The composition of the terminal update inside [drsh_read_line], from
    [drsh_gb_clear(termbuff)] to [drsh_ts_write]: the bytes written, the
    new [n_cols_up] and the input state with both flags cleared.  [cols]
    is [env->cols], an [int] that the divisions convert to [size_t];
    dividing by zero is undefined. *)
Definition redisplay (inp : DrshInput) (cols : Z) (n_cols_up : Z)
  : res (list Z * Z * DrshInput) :=
  let termbuff : list Z := [] in
  let termbuff :=
    if needs_clear_screen inp
    then termbuff ++ [ESC] ++ bytes_of "[2J" ++ [ESC] ++ bytes_of "[1;1H"
    else termbuff in
  let termbuff :=
    if n_cols_up =? 0 then termbuff
    else termbuff ++ [ESC] ++ bytes_of "[" ++ fmt_d (swrap32 n_cols_up) ++ bytes_of "A" in
  let termbuff := termbuff ++ [13; ESC] ++ bytes_of "[J" in
  let termbuff := termbuff ++ prompt inp in
  let count := len (write_buffer inp) in
  let visual_size := prompt_visual_len inp in
  let '(termbuff, visual_size) :=
    if count =? 0 then (termbuff, visual_size)
    else (termbuff ++ write_buffer inp, wrap64 (visual_size + count)) in
  let cursor_visual_position :=
    wrap64 (visual_size - wrap64 (count - write_cursor inp)) in
  let ucols := wrap64 cols in
  if ucols =? 0 then UB
  else
    let total_lines := wrap64 (wrap64 (visual_size - 1) / ucols + 1) in
    let cursor_line := wrap64 (wrap64 (cursor_visual_position - 1) / ucols + 1) in
    let n_cols_up := wrap64 (total_lines - 1) in
    let '(termbuff, n_cols_up) :=
      if cursor_line <? total_lines
      then
        let diff := swrap32 (total_lines - cursor_line) in
        (termbuff ++ [ESC] ++ bytes_of "[" ++ fmt_d diff ++ bytes_of "A",
         wrap64 (n_cols_up - diff))
      else (termbuff, n_cols_up) in
    let cur_col := swrap32 (wrap64 (cursor_visual_position - 1) mod ucols + 1) in
    let termbuff :=
      termbuff ++ [13; ESC] ++ bytes_of "[" ++ fmt_d cur_col ++ bytes_of "C" in
    Ok (termbuff, n_cols_up, inp_set_flags inp false false).

(** ** Hashing (drsh.c 330-524) *)

(** [drsh_hash_align1] is selected at compile time: CRC32C instructions
    on ARM and x86 builds that have them, MurmurHash32 otherwise.  The
    model is parametric in it; every use truncates the result to 32 bits,
    the function's return type. *)
Class Hash := drsh_hash_align1 : list Z -> Z.

Definition murmur_32_scramble (k : Z) : Z :=
  let k := wrap32 (k * 0xcc9e2d51) in
  let k := Z.lor (wrap32 (Z.shiftl k 15)) (Z.shiftr k 17) in
  wrap32 (k * 0x1b873593).

(** The loop "Read in groups of 4" with its little-endian unaligned
    loads, followed by "Read the rest" and the scramble of the tail. *)
Fixpoint murmur_blocks (key : list Z) (h : Z) : Z :=
  match key with
  | b0 :: b1 :: b2 :: b3 :: key' =>
      let k := b0 + Z.shiftl b1 8 + Z.shiftl b2 16 + Z.shiftl b3 24 in
      let h := Z.lxor h (murmur_32_scramble k) in
      let h := Z.lor (wrap32 (Z.shiftl h 13)) (Z.shiftr h 19) in
      let h := wrap32 (h * 5 + 0xe6546b64) in
      murmur_blocks key' h
  | tail =>
      let k := fold_left (fun k b => Z.lor (wrap32 (Z.shiftl k 8)) b) (rev tail) 0 in
      Z.lxor h (murmur_32_scramble k)
  end.

(** The fallback [drsh_hash_align1] (drsh.c 465-495). *)
Definition murmur_hash (key : list Z) : Z :=
  let h := murmur_blocks key 4253307714 in
  let h := wrap32 (Z.lxor h (len key)) in
  let h := Z.lxor h (Z.shiftr h 16) in
  let h := wrap32 (h * 0x85ebca6b) in
  let h := Z.lxor h (Z.shiftr h 13) in
  let h := wrap32 (h * 0xc2b2ae35) in
  Z.lxor h (Z.shiftr h 16).

Definition drsh_fast_reduce32 (x y : Z) : Z :=
  Z.shiftr (wrap32 x * wrap32 y) 32.

(** ** Open addressing (drsh.c 2748, 2765, 3065, 3096, 3111, 3165) *)

Inductive probe_result :=
| ProbeFound (i : Z)
| ProbeEmpty (idx : Z)
| ProbeUB.

(** The probe loop that every table walk of the source repeats:
    [while((i = idxes[idx])){ if(<match>) <found>; idx++; if(idx > 2*cap) idx = 0; }].
    [matches i] is the test of the walk on the entry numbered [i] (one
    more than its position); the rehash loops have none.  The loop ends on
    an empty slot or on a match; reading past the [2*cap] slots is
    undefined.  The walk visits at most every slot once before it leaves
    the array, which bounds the fuel. *)
Fixpoint probe (matches : Z -> res bool) (cap : Z) (idxes : list Z)
    (fuel : nat) (idx : Z) : probe_result :=
  match fuel with
  | O => ProbeUB
  | S fuel' =>
      match idxes !! Z.to_nat idx with
      | None => ProbeUB
      | Some i =>
          if i =? 0 then ProbeEmpty idx
          else match matches i with
               | Ok true => ProbeFound i
               | Ok false =>
                   let idx := wrap32 (idx + 1) in
                   let idx := if 2 * cap <? idx then 0 else idx in
                   probe matches cap idxes fuel' idx
               | _ => ProbeUB
               end
      end
  end.

Definition probe_fuel (idxes : list Z) : nat := S (length idxes).

(** The re-indexing loop run after a table grows or is sorted: entry [i]
    (with stored hash [hash]) goes to the first free slot at or after
    [drsh_fast_reduce32(hash, cap)]. *)
Fixpoint reindex (cap : Z) (hashes : list Z) (i : Z) (idxes : list Z) : res (list Z) :=
  match hashes with
  | [] => Ok idxes
  | hash :: hashes' =>
      match probe (fun _ => Ok false) cap idxes (probe_fuel idxes)
              (drsh_fast_reduce32 hash cap) with
      | ProbeEmpty idx =>
          reindex cap hashes' (i + 1) (<[Z.to_nat idx := wrap32 (wrap32 i + 1)]> idxes)
      | _ => UB
      end
  end.

(** ** Atom table (drsh.c 2723-2810, 3483-3505) *)

Definition atom_set_iatom (a : DrshAtom) (ia : option nat) : DrshAtom :=
  {| atom_len := atom_len a; atom_hash := atom_hash a; atom_iatom := ia;
     atom_txt := atom_txt a |}.

(** [DrshAtomTable at = {0}]. *)
Definition at_zero : DrshAtomTable :=
  {| at_atoms := []; at_cap := 0; at_idxes := []; at_special := [] |}.

Definition list_eqb (a b : list Z) : bool := bool_decide (a = b).

Section AtomTable.
Context `{Hash}.

(** The growth branch of [drsh_at_atomize]: doubled capacity (4 at
    first), zeroed slots, every atom re-indexed. *)
Definition at_grow (at' : DrshAtomTable) : res DrshAtomTable :=
  let old_cap := at_cap at' in
  let cap := if old_cap =? 0 then 4 else wrap64 (2 * old_cap) in
  do idxes <- reindex cap (atom_hash <$> at_atoms at') 0
                (replicate (Z.to_nat (2 * cap)) 0);
  Ok {| at_atoms := at_atoms at'; at_cap := cap; at_idxes := idxes;
        at_special := at_special at' |}.

(** The lookup of [drsh_at_atomize] and, on a miss, the allocation of the
    new atom with [iatom = NULL]: the function up to the fold loop.  The
    boolean tells whether the atom is new. *)
Definition at_find_or_add (at' : DrshAtomTable) (txt : list Z)
  : res (DrshAtomTable * nat * bool) :=
  let length := len txt in
  if UINT32_MAX <=? length then Fail EC_VALUE_ERROR
  else
    do at' <- (if at_cap at' <=? at_count at' * 10 / 8 then at_grow at' else Ok at');
    let cap := at_cap at' in
    let hash := wrap32 (drsh_hash_align1 txt) in
    let hash := if hash =? 0 then 1024 else hash in
    let idx := drsh_fast_reduce32 hash cap in
    let matches i :=
      match at_atoms at' !! Z.to_nat (i - 1) with
      | None => UB
      | Some atom =>
          Ok ((atom_hash atom =? hash) && (atom_len atom =? length)
              && list_eqb (atom_txt atom) txt)
      end in
    match probe matches cap (at_idxes at') (probe_fuel (at_idxes at')) idx with
    | ProbeUB => UB
    | ProbeFound i => Ok (at', Z.to_nat (i - 1), false)
    | ProbeEmpty idx =>
        let i := wrap32 (at_count at') in
        if negb (i =? at_count at') then UB (* the 32-bit entry number wrapped *)
        else
          let a := {| atom_len := wrap32 length; atom_hash := hash;
                      atom_iatom := None; atom_txt := txt |} in
          Ok ({| at_atoms := at_atoms at' ++ [a]; at_cap := cap;
                 at_idxes := <[Z.to_nat idx := wrap32 (i + 1)]> (at_idxes at');
                 at_special := at_special at' |},
              Z.to_nat i, true)
    end.

(** [drsh_at_atomize].  The fold loop ORs [0x20] into every byte; when
    that changes a byte the folded text is atomized by a recursive call
    and becomes the [iatom], otherwise the atom is its own [iatom].  One
    unit of fuel per nested call. *)
Fixpoint drsh_at_atomize_fuel (fuel : nat) (at' : DrshAtomTable) (txt : list Z)
  : res (DrshAtomTable * nat) :=
  match fuel with
  | O => UB
  | S fuel' =>
      do (at', a, fresh) <- at_find_or_add at' txt;
      if negb fresh then Ok (at', a)
      else
        let b := or20 <$> txt in
        let need_recursive_atomize := existsb (fun c => negb (or20 c =? c)) txt in
        do (at', ia) <- (if need_recursive_atomize
                          then drsh_at_atomize_fuel fuel' at' b
                          else Ok (at', a));
        Ok ({| at_atoms := alter (fun x => atom_set_iatom x (Some ia)) a (at_atoms at');
               at_cap := at_cap at'; at_idxes := at_idxes at';
               at_special := at_special at' |}, a)
  end.

(** The folded text folds to itself, so the recursion is two calls deep
    at most. *)
Definition drsh_at_atomize (at' : DrshAtomTable) (txt : list Z)
  : res (DrshAtomTable * nat) :=
  drsh_at_atomize_fuel 2 at' txt.

(** [drsh_at_init]: intern the well-known spellings in enumeration order. *)
Fixpoint at_init_loop (tokens : list (list Z)) (at' : DrshAtomTable)
  : res DrshAtomTable :=
  match tokens with
  | [] => Ok at'
  | tok :: tokens' =>
      do (at', a) <- drsh_at_atomize at' tok;
      at_init_loop tokens'
        {| at_atoms := at_atoms at'; at_cap := at_cap at'; at_idxes := at_idxes at';
           at_special := at_special at' ++ [a] |}
  end.

Definition drsh_at_init (at' : DrshAtomTable) : res DrshAtomTable :=
  at_init_loop special_tokens at'.

(** Dereference of an atom pointer. *)
Definition atom_at (at' : DrshAtomTable) (p : nat) : res DrshAtom :=
  match at_atoms at' !! p with
  | Some a => Ok a
  | None => UB
  end.

End AtomTable.

#[export] Instance murmur : Hash := murmur_hash.

(** ** Environment (drsh.c 3048-3193) *)

Fixpoint res_map {A B} (f : A -> res B) (l : list A) : res (list B) :=
  match l with
  | [] => Ok []
  | x :: l' => do y <- f x; do ys <- res_map f l'; Ok (y :: ys)
  end.

(** [DrshEnvironment env = {0}]. *)
Definition env_zero : DrshEnvironment :=
  {| env_cwd := []; env_home := None; env_entries := []; env_cap := 0;
     env_idxes := []; env_sorted := false; env_case_insensitive := false;
     env_debug := false; env_cols := 0; env_lines := 0; env_os_flavor := OS_APPLE |}.

(** Replacement of the table part of an environment. *)
Definition env_set_table (env : DrshEnvironment) (entries : list (nat * nat))
    (cap : Z) (idxes : list Z) (sorted : bool) : DrshEnvironment :=
  {| env_cwd := env_cwd env; env_home := env_home env; env_entries := entries;
     env_cap := cap; env_idxes := idxes; env_sorted := sorted;
     env_case_insensitive := env_case_insensitive env; env_debug := env_debug env;
     env_cols := env_cols env; env_lines := env_lines env;
     env_os_flavor := env_os_flavor env |}.

(** [key->iatom] followed by a use of the result: a dangling [key] or a
    null [iatom] is undefined. *)
Definition atom_iatom_at (at' : DrshAtomTable) (key : nat) : res nat :=
  do a <- atom_at at' key;
  match atom_iatom a with
  | Some l => Ok l
  | None => UB
  end.

(** The key an entry is indexed under: [v = atoms[2*i]; if(case_insensitive) v = v->iatom]. *)
Definition env_lkey (at' : DrshAtomTable) (case_insensitive : bool) (key : nat) : res nat :=
  if case_insensitive then atom_iatom_at at' key
  else do _ <- atom_at at' key; Ok key.

(** [v->hash] of that key. *)
Definition env_lhash (at' : DrshAtomTable) (case_insensitive : bool) (key : nat) : res Z :=
  do l <- env_lkey at' case_insensitive key;
  do a <- atom_at at' l;
  Ok (atom_hash a).

(** The re-indexing of all entries, shared by the growth branch of
    [drsh_env_set_env] and by [drsh_env_sort_env]. *)
Definition env_reindex (at' : DrshAtomTable) (case_insensitive : bool)
    (entries : list (nat * nat)) (cap : Z) : res (list Z) :=
  do hashes <- res_map (fun e => env_lhash at' case_insensitive (fst e)) entries;
  reindex cap hashes 0 (replicate (Z.to_nat (2 * cap)) 0).

Definition env_grow (at' : DrshAtomTable) (env : DrshEnvironment) : res DrshEnvironment :=
  let old_cap := env_cap env in
  let cap := if old_cap =? 0 then 32 else wrap64 (2 * old_cap) in
  do idxes <- env_reindex at' (env_case_insensitive env) (env_entries env) cap;
  Ok (env_set_table env (env_entries env) cap idxes (env_sorted env)).

(** [drsh_env_set_env]. *)
Definition drsh_env_set_env (at' : DrshAtomTable) (env : DrshEnvironment)
    (key value : nat) : res DrshEnvironment :=
  let case_insensitive := env_case_insensitive env in
  do lkey <- env_lkey at' case_insensitive key;
  do env <- (if env_cap env <=? env_count env * 10 / 8 then env_grow at' env else Ok env);
  let cap := env_cap env in
  do la <- atom_at at' lkey;
  let hash := atom_hash la in
  let idx := drsh_fast_reduce32 hash cap in
  let matches i :=
    match env_entries env !! Z.to_nat (i - 1) with
    | None => UB
    | Some (atom, _) =>
        if case_insensitive
        then do a <- atom_at at' atom; Ok (bool_decide (atom_iatom a = Some lkey))
        else Ok (bool_decide (atom = lkey))
    end in
  match probe matches cap (env_idxes env) (probe_fuel (env_idxes env)) idx with
  | ProbeUB => UB
  | ProbeFound i =>
      Ok (env_set_table env
            (alter (fun e => (if case_insensitive then key else fst e, value))
               (Z.to_nat (i - 1)) (env_entries env))
            cap (env_idxes env) (env_sorted env))
  | ProbeEmpty idx =>
      let i := wrap32 (env_count env) in
      if negb (i =? env_count env) then UB (* the 32-bit entry number wrapped *)
      else
        Ok (env_set_table env (env_entries env ++ [(key, value)]) cap
              (<[Z.to_nat idx := wrap32 (i + 1)]> (env_idxes env)) false)
  end.

(** The "slow and dumb" rescan of [drsh_env_get_env]. *)
Fixpoint env_scan (at' : DrshAtomTable) (key : nat) (entries : list (nat * nat))
  : res (option nat) :=
  match entries with
  | [] => Ok None
  | (atom, value) :: entries' =>
      do a <- atom_at at' atom;
      if bool_decide (atom_iatom a = Some key) then Ok (Some value)
      else env_scan at' key entries'
  end.

(** [drsh_env_get_env].  The probe compares the stored key itself with
    the (folded) lookup key; a case-insensitive miss falls back to the
    rescan, which compares folded keys. *)
Definition drsh_env_get_env (at' : DrshAtomTable) (env : DrshEnvironment) (key : nat)
  : res (option nat) :=
  let case_insensitive := env_case_insensitive env in
  do key <- (if case_insensitive then atom_iatom_at at' key else Ok key);
  let cap := env_cap env in
  do ka <- atom_at at' key;
  let hash := atom_hash ka in
  let idx := drsh_fast_reduce32 hash cap in
  let matches i :=
    match env_entries env !! Z.to_nat (i - 1) with
    | None => UB
    | Some (atom, _) => Ok (bool_decide (atom = key))
    end in
  match probe matches cap (env_idxes env) (probe_fuel (env_idxes env)) idx with
  | ProbeUB => UB
  | ProbeFound i =>
      match env_entries env !! Z.to_nat (i - 1) with
      | Some (_, value) => Ok (Some value)
      | None => UB
      end
  | ProbeEmpty _ =>
      if case_insensitive then env_scan at' key (env_entries env) else Ok None
  end.

Section EnvironmentText.
Context `{Hash}.

(** [drsh_env_set_env3]. *)
Definition drsh_env_set_env3 (at' : DrshAtomTable) (env : DrshEnvironment)
    (key : nat) (value_txt : list Z) : res (DrshAtomTable * DrshEnvironment) :=
  do (at', value) <- drsh_at_atomize at' value_txt;
  do env <- drsh_env_set_env at' env key value;
  Ok (at', env).

(** [drsh_env_set_env4]. *)
Definition drsh_env_set_env4 (at' : DrshAtomTable) (env : DrshEnvironment)
    (key_txt value_txt : list Z) : res (DrshAtomTable * DrshEnvironment) :=
  do (at', key) <- drsh_at_atomize at' key_txt;
  do (at', value) <- drsh_at_atomize at' value_txt;
  do env <- drsh_env_set_env at' env key value;
  Ok (at', env).

(** [drsh_env_get_env2]: a failed atomize is reported as "unset". *)
Definition drsh_env_get_env2 (at' : DrshAtomTable) (env : DrshEnvironment)
    (key : list Z) : res (DrshAtomTable * option nat) :=
  match drsh_at_atomize at' key with
  | Ok (at', key_atom) =>
      do v <- drsh_env_get_env at' env key_atom;
      Ok (at', v)
  | Fail _ => Ok (at', None)
  | UB => UB
  end.
End EnvironmentText.

(** ** Line editing primitives (drsh.c 1905-1951, 2305-2364) *)

Definition inp_redisplay (inp : DrshInput) : DrshInput :=
  inp_set_flags inp true (needs_clear_screen inp).

Definition drsh_inp_move_home (inp : DrshInput) : DrshInput :=
  inp_redisplay (inp_set_write inp (write_buffer inp) 0).

Definition drsh_inp_move_end (inp : DrshInput) : DrshInput :=
  inp_redisplay (inp_set_write inp (write_buffer inp) (len (write_buffer inp))).

Definition drsh_inp_move_left (inp : DrshInput) : DrshInput :=
  let inp :=
    if write_cursor inp =? 0 then inp
    else inp_set_write inp (write_buffer inp) (write_cursor inp - 1) in
  inp_redisplay inp.

Definition drsh_inp_move_right (inp : DrshInput) : DrshInput :=
  let inp :=
    if write_cursor inp <? len (write_buffer inp)
    then inp_set_write inp (write_buffer inp) (wrap64 (write_cursor inp + 1))
    else inp in
  inp_redisplay inp.

(** The common tail of [drsh_inp_move_up] and [drsh_inp_move_down]: the
    write buffer becomes the text of the history entry under the cursor.
    Reading the history vector outside its bounds, or through a dangling
    pointer, is undefined. *)
Definition inp_load_history (at' : DrshAtomTable) (inp : DrshInput) : res DrshInput :=
  match hist_buffer inp !! Z.to_nat (hist_cursor inp) with
  | None => UB
  | Some atom =>
      do a <- atom_at at' atom;
      let wb := take (Z.to_nat (atom_len a)) (atom_txt a) in
      Ok (inp_set_write inp wb (len wb))
  end.

Definition drsh_inp_move_up (at' : DrshAtomTable) (inp : DrshInput) : res DrshInput :=
  if hist_cursor inp =? 0 then Ok inp
  else
    let inp := inp_set_hist inp (hist_buffer inp) (hist_cursor inp - 1) in
    inp_load_history at' (inp_redisplay inp).

Definition drsh_inp_move_down (at' : DrshAtomTable) (inp : DrshInput) : res DrshInput :=
  let inp := inp_set_hist inp (hist_buffer inp) (wrap64 (hist_cursor inp + 1)) in
  let inp := inp_redisplay inp in
  if len (hist_buffer inp) <=? hist_cursor inp
  then
    let inp := inp_set_hist inp (hist_buffer inp) (len (hist_buffer inp)) in
    Ok (inp_set_write inp [] 0)
  else inp_load_history at' inp.

Definition drsh_end_tab_completion (inp : DrshInput) : DrshInput :=
  inp_set_tab inp false [] (tab_completion_cursor inp).

(** [memremove(whence, buff, bufflen, 1)] on the write buffer; its
    [assert] aborts (and without it the move reads outside the buffer)
    when the byte to remove is not inside. *)
Definition memremove1 (whence : Z) (buff : list Z) : res (list Z) :=
  if len buff <? wrap64 (1 + whence) then UB
  else Ok (take (Z.to_nat whence) buff ++ drop (S (Z.to_nat whence)) buff).

Definition drsh_inp_del_left (inp : DrshInput) : res DrshInput :=
  if write_cursor inp =? 0 then Ok inp
  else if write_cursor inp =? len (write_buffer inp)
  then
    let wb := take (Z.to_nat (len (write_buffer inp) - 1)) (write_buffer inp) in
    Ok (inp_redisplay (inp_set_write inp wb (write_cursor inp - 1)))
  else
    do wb <- memremove1 (write_cursor inp - 1) (write_buffer inp);
    Ok (inp_redisplay (inp_set_write inp wb (write_cursor inp - 1))).

Definition drsh_inp_del_right (inp : DrshInput) : res DrshInput :=
  if write_cursor inp =? len (write_buffer inp) then Ok inp
  else if write_cursor inp =? wrap64 (len (write_buffer inp) - 1)
  then
    let wb := take (Z.to_nat (len (write_buffer inp) - 1)) (write_buffer inp) in
    Ok (inp_redisplay (inp_set_write inp wb (write_cursor inp)))
  else
    do wb <- memremove1 (write_cursor inp) (write_buffer inp);
    Ok (inp_redisplay (inp_set_write inp wb (write_cursor inp))).

(** [count = write_cursor]: a truncation, the cursor being inside the
    buffer (beyond it the assignment would expose stale bytes). *)
Definition drsh_inp_kill_end_of_line (inp : DrshInput) : res DrshInput :=
  if len (write_buffer inp) =? write_cursor inp then Ok inp
  else if len (write_buffer inp) <? write_cursor inp then UB
  else
    Ok (inp_redisplay
          (inp_set_write inp (take (Z.to_nat (write_cursor inp)) (write_buffer inp))
             (write_cursor inp))).

(** [drsh_inp_input_one]: [meminsert] of one byte at the cursor, which
    fails when the cursor is beyond the end. *)
Definition drsh_inp_input_one (inp : DrshInput) (c : Z) : res DrshInput :=
  if len (write_buffer inp) <? write_cursor inp then Fail EC_ASSERTION_ERROR
  else
    let wb := take (Z.to_nat (write_cursor inp)) (write_buffer inp)
              ++ [c] ++ drop (Z.to_nat (write_cursor inp)) (write_buffer inp) in
    Ok (inp_redisplay (inp_set_write inp wb (wrap64 (write_cursor inp + 1)))).

Definition drsh_inp_clear (inp : DrshInput) : DrshInput :=
  if (write_cursor inp =? 0) && (len (write_buffer inp) =? 0) then inp
  else inp_redisplay (inp_set_write inp [] 0).

(** ** History (drsh.c 3507-3521) *)

(** [drsh_hist_add]. *)
Definition drsh_hist_add (at' : DrshAtomTable) (inp : DrshInput) (atom : nat)
  : res DrshInput :=
  do a <- atom_at at' atom;
  if atom_len a =? 0 then Ok inp
  else
    let atoms := hist_buffer inp in
    let inp := inp_set_hist inp atoms (len atoms) in
    if negb (len atoms =? 0) && bool_decide (last atoms = Some atom) then Ok inp
    else Ok (inp_set_hist inp (atoms ++ [atom]) (wrap64 (len atoms + 1))).

(** ** Program resolver (drsh.c 731-744, 835-844, 3244-3481) *)

(** [path.txt[i]] for an atom's text: the byte, or the terminator. *)
Definition txt_at (txt : list Z) (i : nat) : Z := nth i (txt ++ [0]) 0.

(** [drsh_path_is_abs]. *)
Definition drsh_path_is_abs (path : list Z) (windows_style : bool) : bool :=
  let is_abs := false in
  let is_abs :=
    if windows_style
    then
      let is_abs :=
        if (2 <? len path) && (txt_at path 1 =? 58)
           && ((txt_at path 2 =? 47) || (txt_at path 2 =? 92))
        then
          let c := or20 (txt_at path 0) in
          (97 <=? c) && (c <=? 122)
        else is_abs in
      is_abs || (txt_at path 0 =? 92)
    else is_abs in
  is_abs || (txt_at path 0 =? 47).

(** [memchr(mem, c, len) != NULL]. *)
Definition memchr_found (mem : list Z) (c : Z) : bool := existsb (Z.eqb c) mem.

(** [drsh_rb_iendswith2]. *)
Definition drsh_rb_iendswith2 (rb mem : list Z) : bool :=
  if len rb <? len mem then false
  else
    forallb (fun ab => or20 ab.1 =? or20 ab.2)
      (zip (drop (length rb - length mem) rb) mem).

(** [strchr(p, c)] for [c <> 0]: the offset of the first [c] before the
    terminator. *)
Fixpoint strchr (p : list Z) (c : Z) : option nat :=
  match p with
  | [] => None
  | x :: p' =>
      if x =? 0 then None
      else if x =? c then Some 0%nat
      else S <$> strchr p' c
  end.

(** The fields that the loops
    [for(front = ext, sep = drsh_memchr(ext, len, ';');; front = sep+1, ...)]
    visit: the [;]-separated pieces of the [len] bytes, empty ones
    included. *)
Fixpoint ext_fields (ext : list Z) (cur : list Z) : list (list Z) :=
  match ext with
  | [] => [cur]
  | x :: ext' =>
      if x =? 59 then cur :: ext_fields ext' [] else ext_fields ext' (cur ++ [x])
  end.

Section Resolver.
Context `{Hash}.
(** [drsh_exists], an OS query on a NUL-terminated path. *)
Variable drsh_exists : list Z -> bool.

(** The second extension loop: append each extension in turn and probe. *)
Fixpoint try_extensions (tmp : list Z) (exts : list (list Z)) : option (list Z) :=
  match exts with
  | [] => None
  | ext :: exts' =>
      let tmp' := tmp ++ ext ++ [0] in
      if drsh_exists (c_str tmp') then Some tmp' else try_extensions tmp exts'
  end.

(** [PATHEXT], or [".exe"] when it is unset or empty. *)
Definition pathext_of (at' : DrshAtomTable) (env : DrshEnvironment) : res (list (list Z)) :=
  match at_special at' !! ATOM_PATHEXT with
  | None => UB
  | Some key =>
      do pathexts <- drsh_env_get_env at' env key;
      match pathexts with
      | None => Ok (ext_fields (bytes_of ".exe") [])
      | Some p =>
          do a <- atom_at at' p;
          if atom_len a =? 0 then Ok (ext_fields (bytes_of ".exe") [])
          else Ok (ext_fields (take (Z.to_nat (atom_len a)) (atom_txt a)) [])
      end
  end.

(** The probe of one directory on the DOS family: [tmp] holds
    [directory/program].  [None] when nothing exists. *)
Definition probe_with_pathext (exts : list (list Z)) (tmp : list Z) : option (list Z) :=
  if existsb (drsh_rb_iendswith2 tmp) exts
  then
    let tmp' := tmp ++ [0] in
    if drsh_exists (c_str tmp') then Some tmp' else None
  else try_extensions tmp exts.

(** [directory/program] as the walk forms it.  [c] is the byte after the
    directory (the separator or the terminator), which the source tests
    to decide whether to add the slash. *)
Definition join_dir (windows_style : bool) (directory : list Z) (c : Z)
    (program : list Z) : list Z :=
  let append_slash := true in
  let append_slash := if windows_style && (c =? 92) then false else append_slash in
  let append_slash := if append_slash && (c =? 47) then false else append_slash in
  directory ++ (if append_slash then [47] else []) ++ program.

(** The [PATH] walk: one iteration per call, [p] being the rest of the
    value.  [None] when the walk ends without a hit. *)
Fixpoint path_walk (fuel : nat) (windows_style : bool) (exts : list (list Z))
    (program : list Z) (p : list Z) : res (option (list Z)) :=
  match fuel with
  | O => UB
  | S fuel' =>
      let path_separator := if windows_style then 59 else 58 in
      let s := strchr p path_separator in
      let directory :=
        match s with
        | None => c_str p
        | Some i => take i p
        end in
      let p' :=
        match s with
        | None => p
        | Some i => drop (S i) p
        end in
      if len directory =? 0
      then match s with
           | None => Ok None
           | Some _ => path_walk fuel' windows_style exts program p'
           end
      else
        let c := match s with None => 0 | Some _ => path_separator end in
        let tmp := join_dir windows_style directory c program in
        let hit :=
          if windows_style then probe_with_pathext exts tmp
          else
            let tmp' := tmp ++ [0] in
            if drsh_exists (c_str tmp') then Some tmp' else None in
        match hit with
        | Some r => Ok (Some r)
        | None =>
            match s with
            | None => Ok None
            | Some _ => path_walk fuel' windows_style exts program p'
            end
        end
  end.

(** [drsh_env_resolve_prog_path].  [tmp] is the caller's buffer; on
    success the result is its new contents, the resolved path with its
    terminator. *)
Definition drsh_env_resolve_prog_path (at' : DrshAtomTable) (env : DrshEnvironment)
    (tmp : list Z) (program : nat) (windows_style : bool)
  : res (DrshAtomTable * list Z) :=
  do pa <- atom_at at' program;
  let ptxt := take (Z.to_nat (atom_len pa)) (atom_txt pa) in
  let is_abs := drsh_path_is_abs ptxt windows_style in
  let has_dir := is_abs in
  let has_dir := if negb has_dir && memchr_found ptxt 47 then true else has_dir in
  let has_dir :=
    if negb has_dir && windows_style && memchr_found ptxt 92 then true else has_dir in
  if has_dir
  then
    let tmp := tmp ++ ptxt in
    if windows_style
    then
      do exts <- pathext_of at' env;
      if existsb (drsh_rb_iendswith2 tmp) exts
      then
        let tmp := tmp ++ [0] in
        if drsh_exists (c_str tmp) then Ok (at', tmp) else Fail EC_NOT_FOUND
      else
        match try_extensions tmp exts with
        | Some r => Ok (at', r)
        | None => Fail EC_NOT_FOUND
        end
    else Ok (at', tmp ++ [0])
  else
    do (at', path) <- drsh_env_get_env2 at' env (bytes_of "PATH");
    match path with
    | None => Fail EC_NOT_FOUND
    | Some path =>
        do patom <- atom_at at' path;
        do exts <- (if windows_style then pathext_of at' env else Ok []);
        do hit <- path_walk (S (length (atom_txt patom))) windows_style exts ptxt
                    (atom_txt patom);
        match hit with
        | Some r => Ok (at', r)
        | None =>
            if windows_style
            then
              match at_special at' !! ATOM_PWD with
              | None => UB
              | Some key =>
                  do dot <- drsh_env_get_env at' env key;
                  match dot with
                  | None => UB (* assert(dot) *)
                  | Some dot =>
                      do da <- atom_at at' dot;
                      let directory := take (Z.to_nat (atom_len da)) (atom_txt da) in
                      match probe_with_pathext exts (join_dir true directory 0 ptxt) with
                      | Some r => Ok (at', r)
                      | None => Fail EC_NOT_FOUND
                      end
                  end
              end
            else Fail EC_NOT_FOUND
        end
    end.
End Resolver.

(** ** Tokenizer (drsh.c 2366-2448) *)

(** [struct DrshToken], as an offset into the line and a length. *)
Record DrshToken := { tok_offset : Z; tok_length : Z }.

Definition is_space (c : Z) : bool :=
  (c =? 0) || (c =? 32) || (c =? 13) || (c =? 9) || (c =? 10) || (c =? 12).

Definition is_quote (c : Z) : bool := (c =? 34) || (c =? 39).

(** The loop variables of [drsh_tokenize_line]: [quoted] is the open
    quote character or [0]. *)
Record tok_state := {
  ts_tok_begin : option Z;
  ts_quoted : Z;
  ts_backslash : bool;
  ts_tokens : list DrshToken;
}.

(** One iteration of the loop, on the byte [c] at offset [i]. *)
Definition tokenize_step (st : tok_state) (i : Z) (c : Z) : tok_state :=
  match ts_tok_begin st with
  | None =>
      if is_space c then st
      else if is_quote c
      then {| ts_tok_begin := Some i; ts_quoted := c;
              ts_backslash := ts_backslash st; ts_tokens := ts_tokens st |}
      else {| ts_tok_begin := Some i; ts_quoted := ts_quoted st;
              ts_backslash := ts_backslash st; ts_tokens := ts_tokens st |}
  | Some b =>
      if ts_backslash st
      then {| ts_tok_begin := Some b; ts_quoted := ts_quoted st;
              ts_backslash := false; ts_tokens := ts_tokens st |}
      else if c =? 92
      then {| ts_tok_begin := Some b; ts_quoted := ts_quoted st;
              ts_backslash := true; ts_tokens := ts_tokens st |}
      else if c =? ts_quoted st
      then {| ts_tok_begin := Some b; ts_quoted := 0;
              ts_backslash := false; ts_tokens := ts_tokens st |}
      else if negb (ts_quoted st =? 0) then st
      else if is_space c
      then {| ts_tok_begin := None; ts_quoted := ts_quoted st;
              ts_backslash := false;
              ts_tokens := ts_tokens st ++ [{| tok_offset := b; tok_length := i - b |}] |}
      else if is_quote c
      then {| ts_tok_begin := Some b; ts_quoted := c;
              ts_backslash := false; ts_tokens := ts_tokens st |}
      else st
  end.

Fixpoint tokenize_loop (st : tok_state) (i : Z) (txt : list Z) : tok_state :=
  match txt with
  | [] => st
  | c :: txt' => tokenize_loop (tokenize_step st i c) (i + 1) txt'
  end.

(** [drsh_tokenize_line]. *)
Definition drsh_tokenize_line (rb : list Z) : list DrshToken :=
  let st := tokenize_loop {| ts_tok_begin := None; ts_quoted := 0;
                             ts_backslash := false; ts_tokens := [] |} 0 rb in
  match ts_tok_begin st with
  | Some b => ts_tokens st ++ [{| tok_offset := b; tok_length := len rb - b |}]
  | None => ts_tokens st
  end.

(** The bytes a token spans. *)
Definition token_bytes (line : list Z) (tok : DrshToken) : list Z :=
  take (Z.to_nat (tok_length tok)) (drop (Z.to_nat (tok_offset tok)) line).

(** ** Canonicalizer (drsh.c 2450-2558) *)

(** [case CASE_A_Z: case CASE_a_z: case CASE_0_9: case '_':]. *)
Definition is_name_byte (c : Z) : bool :=
  ((65 <=? c) && (c <=? 90)) || ((97 <=? c) && (c <=? 122))
  || ((48 <=? c) && (c <=? 57)) || (c =? 95).

(** The loop variables of [drsh_canonicalize]: [dollar] is the offset of
    the pending [$] in the token. *)
Record canon_state := {
  cs_dollar : option nat;
  cs_quoted : Z;
  cs_backslash : bool;
  cs_tmp : list Z;
}.

(** The loop body of [drsh_canonicalize] below its [if(dollar)] block:
    the switch on [c] (dollar, the two quotes, backslash), the backslash
    that is kept unless [c] is a space or a quote, and the append. *)
Definition canon_switch (st : canon_state) (p : nat) (c : Z) : canon_state :=
  let backslash := cs_backslash st in
  let quoted := cs_quoted st in
  if (c =? 36) && negb backslash
  then {| cs_dollar := Some p; cs_quoted := quoted;
          cs_backslash := backslash; cs_tmp := cs_tmp st |}
  else if is_quote c && negb backslash && (quoted =? c)
  then {| cs_dollar := cs_dollar st; cs_quoted := 0;
          cs_backslash := backslash; cs_tmp := cs_tmp st |}
  else if is_quote c && negb backslash && (quoted =? 0)
  then {| cs_dollar := cs_dollar st; cs_quoted := c;
          cs_backslash := backslash; cs_tmp := cs_tmp st |}
  else if (c =? 92) && negb backslash
  then {| cs_dollar := cs_dollar st; cs_quoted := quoted;
          cs_backslash := true; cs_tmp := cs_tmp st |}
  else
    let tmp :=
      if backslash && negb ((c =? 32) || is_quote c) then cs_tmp st ++ [92]
      else cs_tmp st in
    (* backslash = 0; if(dollar) continue; append c *)
    match cs_dollar st with
    | Some _ => {| cs_dollar := cs_dollar st; cs_quoted := quoted;
                   cs_backslash := false; cs_tmp := tmp |}
    | None => {| cs_dollar := None; cs_quoted := quoted;
                 cs_backslash := false; cs_tmp := tmp ++ [c] |}
    end.

Section Canonicalizer.
Context `{Hash}.

(** The expansion of the name [key = dollar+1 .. p): the value of the
    variable is appended when the name is not empty and the variable is
    set. *)
Definition expand_name (at' : DrshAtomTable) (env : DrshEnvironment)
    (tok : list Z) (dollar p : nat) (tmp : list Z) : res (DrshAtomTable * list Z) :=
  let key := take (p - S dollar) (drop (S dollar) tok) in
  if 0 <? len key
  then
    do (at', value) <- drsh_env_get_env2 at' env key;
    match value with
    | Some v =>
        do a <- atom_at at' v;
        Ok (at', tmp ++ take (Z.to_nat (atom_len a)) (atom_txt a))
    | None => Ok (at', tmp)
    end
  else Ok (at', tmp).

(** One iteration of the main loop, on the byte [c] at offset [p]: a
    pending [$] is continued by a name byte and expanded by any other
    byte, which is then handled as usual. *)
Definition canon_step (at' : DrshAtomTable) (env : DrshEnvironment) (tok : list Z)
    (st : canon_state) (p : nat) (c : Z) : res (DrshAtomTable * canon_state) :=
  match cs_dollar st with
  | Some d =>
      if is_name_byte c then Ok (at', st)
      else
        do (at', tmp) <- expand_name at' env tok d p (cs_tmp st);
        Ok (at', canon_switch {| cs_dollar := None; cs_quoted := cs_quoted st;
                                 cs_backslash := cs_backslash st; cs_tmp := tmp |} p c)
  | None => Ok (at', canon_switch st p c)
  end.

Fixpoint canon_loop (at' : DrshAtomTable) (env : DrshEnvironment) (tok : list Z)
    (st : canon_state) (p : nat) (rest : list Z) : res (DrshAtomTable * canon_state) :=
  match rest with
  | [] => Ok (at', st)
  | c :: rest' =>
      do (at', st) <- canon_step at' env tok st p c;
      canon_loop at' env tok st (S p) rest'
  end.

(** [drsh_canonicalize] on the bytes of one token. *)
Definition drsh_canonicalize (at' : DrshAtomTable) (env : DrshEnvironment)
    (tok : list Z) (backslash_is_sep : bool) : res (DrshAtomTable * nat) :=
  (* if(p != end && *p == '~' && env->home && env->home->len) *)
  do home <-
    match tok with
    | c :: tok' =>
        if c =? 126
        then match env_home env with
             | None => Ok None
             | Some h =>
                 do a <- atom_at at' h;
                 if atom_len a =? 0 then Ok None
                 else match tok' with
                      | [] => Ok (Some a)
                      | c1 :: _ =>
                          if (c1 =? 47) || (backslash_is_sep && (c1 =? 92))
                          then Ok (Some a) else Ok None
                      end
             end
        else Ok None
    | [] => Ok None
    end;
  let p := match home with Some _ => 1%nat | None => 0%nat end in
  let tmp :=
    match home with
    | Some ha => take (Z.to_nat (atom_len ha)) (atom_txt ha)
    | None => []
    end in
  do (at', st) <- canon_loop at' env tok
                    {| cs_dollar := None; cs_quoted := 0; cs_backslash := false;
                       cs_tmp := tmp |} p (drop p tok);
  do (at', tmp) <- match cs_dollar st with
                   | Some d => expand_name at' env tok d (length tok) (cs_tmp st)
                   | None => Ok (at', cs_tmp st)
                   end;
  drsh_at_atomize at' tmp.
End Canonicalizer.

(** ** Sorting the environment (drsh.c 986-1004, 3048-3072) *)

(** [strcmp] on the texts of two atoms, each followed in memory by its
    terminator; the sign of the result. *)
Fixpoint strcmp (a b : list Z) : Z :=
  match a, b with
  | [], [] => 0
  | [], d :: _ => if d =? 0 then 0 else -1
  | c :: _, [] => if c =? 0 then 0 else 1
  | c :: a', d :: b' =>
      if c =? d then (if c =? 0 then 0 else strcmp a' b')
      else if c <? d then -1 else 1
  end.

(** [drsh_atom_cmp] on two atom pointers that may be null. *)
Definition drsh_atom_cmp (at' : DrshAtomTable) (a b : option nat) : res Z :=
  if bool_decide (a = b) then Ok 0
  else match a, b with
       | Some a, Some b =>
           do x <- atom_at at' a;
           do y <- atom_at at' b;
           Ok (strcmp (atom_txt x) (atom_txt y))
       | _, _ => UB
       end.

(** [drsh_atom_icmp]. *)
Definition drsh_atom_icmp (at' : DrshAtomTable) (a b : nat) : res Z :=
  do x <- atom_at at' a;
  do y <- atom_at at' b;
  drsh_atom_cmp at' (atom_iatom x) (atom_iatom y).

(** [qsort] of the key/value pairs by their keys.  The library leaves the
    order of pairs that compare equal open; the model inserts each pair
    after the pairs that are not greater. *)
Fixpoint qsort_insert (cmp : nat -> nat -> res Z) (e : nat * nat)
    (sorted : list (nat * nat)) : res (list (nat * nat)) :=
  match sorted with
  | [] => Ok [e]
  | e' :: sorted' =>
      do c <- cmp (fst e) (fst e');
      if c <? 0 then Ok (e :: e' :: sorted')
      else do l <- qsort_insert cmp e sorted'; Ok (e' :: l)
  end.

Fixpoint qsort (cmp : nat -> nat -> res Z) (entries : list (nat * nat))
  : res (list (nat * nat)) :=
  match entries with
  | [] => Ok []
  | e :: entries' => do l <- qsort cmp entries'; qsort_insert cmp e l
  end.

(** [drsh_env_sort_env]. *)
Definition drsh_env_sort_env (at' : DrshAtomTable) (env : DrshEnvironment)
  : res DrshEnvironment :=
  let icmp := env_case_insensitive env in
  if env_sorted env then Ok env
  else if env_count env =? 0 then Ok env
  else
    do entries <- qsort (if icmp then drsh_atom_icmp at'
                         else fun a b => drsh_atom_cmp at' (Some a) (Some b))
                    (env_entries env);
    do idxes <- env_reindex at' icmp entries (env_cap env);
    Ok (env_set_table env entries (env_cap env) idxes true).

(** ** Start-up of the environment (drsh.c 2998-3046) *)

Definition env_set_home (env : DrshEnvironment) (home : option nat) : DrshEnvironment :=
  {| env_cwd := env_cwd env; env_home := home; env_entries := env_entries env;
     env_cap := env_cap env; env_idxes := env_idxes env; env_sorted := env_sorted env;
     env_case_insensitive := env_case_insensitive env; env_debug := env_debug env;
     env_cols := env_cols env; env_lines := env_lines env;
     env_os_flavor := env_os_flavor env |}.

Definition env_set_debug (env : DrshEnvironment) (debug : bool) : DrshEnvironment :=
  {| env_cwd := env_cwd env; env_home := env_home env; env_entries := env_entries env;
     env_cap := env_cap env; env_idxes := env_idxes env; env_sorted := env_sorted env;
     env_case_insensitive := env_case_insensitive env; env_debug := debug;
     env_cols := env_cols env; env_lines := env_lines env;
     env_os_flavor := env_os_flavor env |}.

Definition env_set_flavor (env : DrshEnvironment) (case_insensitive : bool)
    (flavor : OsFlavor) : DrshEnvironment :=
  {| env_cwd := env_cwd env; env_home := env_home env; env_entries := env_entries env;
     env_cap := env_cap env; env_idxes := env_idxes env; env_sorted := env_sorted env;
     env_case_insensitive := case_insensitive; env_debug := env_debug env;
     env_cols := env_cols env; env_lines := env_lines env;
     env_os_flavor := flavor |}.

(** [at->special[i]]; the array is zero until [drsh_at_init] fills it. *)
Definition special (at' : DrshAtomTable) (i : nat) : option nat := at_special at' !! i.

Section EnvironmentInit.
Context `{Hash}.

(** The two loops of [drsh_env_init] over the strings the process was
    started with, given without their terminators.  The DOS-family loop
    stops at the empty string and subtracts from the null pointer when a
    string has no [=]; the POSIX loop skips such a string. *)
Fixpoint env_init_loop (windows_style : bool) (envp : list (list Z))
    (at' : DrshAtomTable) (env : DrshEnvironment)
  : res (DrshAtomTable * DrshEnvironment) :=
  match envp with
  | [] => Ok (at', env)
  | p :: envp' =>
      let p := c_str p in
      if windows_style && (len p =? 0) then Ok (at', env)
      else
        match strchr p 61 with
        | None => if windows_style then UB else env_init_loop windows_style envp' at' env
        | Some eq =>
            do (at', env) <- drsh_env_set_env4 at' env (take eq p) (drop (S eq) p);
            env_init_loop windows_style envp' at' env
        end
  end.

(** [drsh_env_init]. *)
Definition drsh_env_init (flavor : OsFlavor) (env : DrshEnvironment)
    (at' : DrshAtomTable) (envp : list (list Z)) (windows_style : bool)
  : res (DrshAtomTable * DrshEnvironment) :=
  let env := env_set_flavor env windows_style flavor in
  do (at', env) <- env_init_loop windows_style envp at' env;
  match special at' ATOM_HOME with
  | None => UB
  | Some h =>
      do home <- drsh_env_get_env at' env h;
      Ok (at', env_set_home env home)
  end.
End EnvironmentInit.

(** ** Command lines (drsh.c 2560-2601, 3796-3902) *)

(** What [drsh_process_line] works on: the atom table, the environment
    and the bytes written to the terminal so far. *)
Record DrshState := {
  st_at : DrshAtomTable;
  st_env : DrshEnvironment;
  st_out : list Z;
}.

(** How a line ends: with a result code, or in one of the calls that
    leave the shell for the operating system ([drsh_chdir],
    [drsh_source_file], [drsh_spawn_process_and_wait]), given with their
    arguments. *)
Inductive DrshOutcome :=
| Returned (ec : DrshEC)
| CallChdir (argv : list nat)
| CallSourceFile (path : nat)
| CallSpawn (argv : list nat) (report_time : bool).

(** [drsh_ts_write] and [drsh_ts_printf] of already formatted bytes. *)
Definition drsh_ts_write (st : DrshState) (p : list Z) : DrshState :=
  {| st_at := st_at st; st_env := st_env st; st_out := st_out st ++ p |}.

Definition st_set_env (st : DrshState) (env : DrshEnvironment) : DrshState :=
  {| st_at := st_at st; st_env := env; st_out := st_out st |}.

(** The text [%s] prints for an atom. *)
Definition atom_str (at' : DrshAtomTable) (p : nat) : res (list Z) :=
  do a <- atom_at at' p; Ok (c_str (atom_txt a)).

Definition CRLF : list Z := [13; 10].

Section CommandLine.
Context `{Hash}.
(** The platform: [IS_WINDOWS], and on the other platforms [glob(3)]
    with [GLOB_BRACE|GLOB_NOCHECK], which gives the paths of a pattern or
    fails. *)
Variable IS_WINDOWS : bool.
Variable glob : list Z -> option (list (list Z)).

(** The inner loop of [drsh_tokens_to_argv] over the paths of one token. *)
Fixpoint argv_paths (at' : DrshAtomTable) (paths : list (list Z)) (out : list nat)
  : res (DrshAtomTable * list nat) :=
  match paths with
  | [] => Ok (at', out)
  | path :: paths' =>
      do (at', a) <- drsh_at_atomize at' (c_str path);
      argv_paths at' paths' (out ++ [a])
  end.

(** The loop of [drsh_tokens_to_argv]; the closing null pointer of the
    vector is left implicit. *)
Fixpoint tokens_to_argv_loop (line : list Z) (toks : list DrshToken)
    (env : DrshEnvironment) (at' : DrshAtomTable) (out : list nat)
  : res (DrshAtomTable * list nat) :=
  match toks with
  | [] => Ok (at', out)
  | tok :: toks' =>
      do (at', atom) <- drsh_canonicalize at' env (token_bytes line tok) IS_WINDOWS;
      do (at', out) <-
        (if IS_WINDOWS then Ok (at', out ++ [atom])
         else
           do p <- atom_str at' atom;
           match glob p with
           | Some paths => argv_paths at' paths out
           | None => Ok (at', out)
           end);
      tokens_to_argv_loop line toks' env at' out
  end.

Definition drsh_tokens_to_argv (line : list Z) (toks : list DrshToken)
    (env : DrshEnvironment) (at' : DrshAtomTable) : res (DrshAtomTable * list nat) :=
  tokens_to_argv_loop line toks env at' [].

(** The [echo] loop. *)
Fixpoint echo_args (at' : DrshAtomTable) (args : list nat) : res (list Z) :=
  match args with
  | [] => Ok []
  | p :: args' =>
      do s <- atom_str at' p;
      do rest <- echo_args at' args';
      Ok (s ++ [32] ++ rest)
  end.

(** The listing loop of [set] without arguments. *)
Fixpoint set_listing (at' : DrshAtomTable) (entries : list (nat * nat)) : res (list Z) :=
  match entries with
  | [] => Ok []
  | (key, value) :: entries' =>
      do k <- atom_str at' key;
      do v <- atom_str at' value;
      do line <-
        (if IS_WINDOWS
         then do ik <- atom_iatom_at at' key;
              do iks <- atom_str at' ik;
              Ok (k ++ bytes_of " (" ++ iks ++ bytes_of ")=" ++ v ++ CRLF)
         else Ok (k ++ [61] ++ v ++ CRLF));
      do rest <- set_listing at' entries';
      Ok (line ++ rest)
  end.

Definition is_special (at' : DrshAtomTable) (i : nat) (p : nat) : bool :=
  bool_decide (special at' i = Some p).

(** The part of [drsh_process_line] after the argument vector is built:
    [argv] without its closing null pointer, so that [targv.length] is
    one more than its length. *)
Definition dispatch (st : DrshState) (argv : list nat) : res (DrshState * DrshOutcome) :=
  let at' := st_at st in
  let env := st_env st in
  match argv with
  | [] =>
      (* drsh_spawn_process_and_wait: if(!argv[0]) return EC_VALUE_ERROR *)
      Ok (drsh_ts_write st (bytes_of "error" ++ CRLF), Returned EC_OK)
  | first :: args =>
      if is_special at' ATOM_cd first then Ok (st, CallChdir argv)
      else if is_special at' ATOM_echo first then
        do s <- echo_args at' args;
        Ok (drsh_ts_write (drsh_ts_write st s) CRLF, Returned EC_OK)
      else if is_special at' ATOM_exit first then Ok (st, Returned EC_EXIT)
      else if is_special at' ATOM_pwd first then
        do PWD <- drsh_env_get_env at' env first;
        match PWD with
        | Some v => do s <- atom_str at' v;
                    Ok (drsh_ts_write st (s ++ CRLF), Returned EC_OK)
        | None => Ok (st, Returned EC_OK)
        end
      else if is_special at' ATOM_set first then
        do st <-
          match args with
          | [] =>
              do env <- drsh_env_sort_env at' env;
              do s <- set_listing at' (env_entries env);
              Ok (drsh_ts_write (st_set_env st env) s)
          | _ => Ok st
          end;
        match args with
        | [key; value] =>
            do k <- atom_at at' key;
            if atom_len k =? 0 then Ok (st, Returned EC_OK)
            else
              do env <- drsh_env_set_env at' (st_env st) key value;
              Ok (st_set_env st env, Returned EC_OK)
        | _ => Ok (st, Returned EC_OK)
        end
      else if is_special at' ATOM_debug first then
        match args with
        | val :: _ =>
            if is_special at' ATOM_on val || is_special at' ATOM_true val
               || is_special at' ATOM_1 val
            then Ok (st_set_env st (env_set_debug env true), Returned EC_OK)
            else if is_special at' ATOM_off val || is_special at' ATOM_false val
                    || is_special at' ATOM_0 val
            then Ok (st_set_env st (env_set_debug env false), Returned EC_OK)
            else Ok (st, Returned EC_OK)
        | [] =>
            Ok (drsh_ts_write st
                  (bytes_of "debug = "
                   ++ bytes_of (if env_debug env then "true" else "false") ++ CRLF),
                Returned EC_OK)
        end
      else if is_special at' ATOM_source first || is_special at' ATOM_DOT first then
        match args with
        | path :: _ => Ok (st, CallSourceFile path)
        | [] => Ok (st, Returned EC_OK)
        end
      else if is_special at' ATOM_time first then
        match args with
        | _ :: _ => Ok (st, CallSpawn args true)
        | [] => Ok (st, Returned EC_OK)
        end
      else Ok (st, CallSpawn argv false)
  end.

(** [drsh_process_line].  A failure to build the argument vector ends
    the line with [EC_OK]. *)
Definition drsh_process_line (st : DrshState) (input_line : list Z)
  : res (DrshState * DrshOutcome) :=
  if bool_decide (input_line = [13]) || bool_decide (input_line = [10])
  then Ok (st, Returned EC_OK)
  else
    let toks := drsh_tokenize_line input_line in
    match drsh_tokens_to_argv input_line toks (st_env st) (st_at st) with
    | UB => UB
    | Fail _ => Ok (st, Returned EC_OK)
    | Ok (at', argv) =>
        dispatch {| st_at := at'; st_env := st_env st; st_out := st_out st |} argv
    end.
End CommandLine.

(** ** Key decoding and the editor loop (drsh.c 868-901, 1449-1567, 1572-1724) *)

(** [enum DrshCommand]. *)
Definition CMD_MOVE_HOME : Z := -1.
Definition CMD_MOVE_LEFT : Z := -2.
Definition CMD_INTERRUPT : Z := -3.
Definition CMD_DELETE_FORWARD_OR_EOF : Z := -4.
Definition CMD_MOVE_END : Z := -5.
Definition CMD_MOVE_RIGHT : Z := -6.
Definition CMD_DELETE_BACK : Z := -8.
Definition CMD_TAB : Z := -9.
Definition CMD_ACCEPT : Z := -10.
Definition CMD_KILL_END_OF_LINE : Z := -11.
Definition CMD_CLEAR_SCREEN : Z := -12.
Definition CMD_ENTER : Z := -13.
Definition CMD_MOVE_DOWN : Z := -14.
Definition CMD_MOVE_UP : Z := -16.
Definition CMD_ESC : Z := -27.
Definition CMD_DELETE_FORWARD : Z := -128.
Definition CMD_SHIFT_TAB : Z := -129.

(** The [switch(txt[2])] of [drsh_rb_to_cmd] after [ESC '[']: the final
    bytes [A B C D H F Z]. *)
Definition csi_final (c : Z) : option Z :=
  if c =? 65 then Some CMD_MOVE_UP
  else if c =? 66 then Some CMD_MOVE_DOWN
  else if c =? 67 then Some CMD_MOVE_RIGHT
  else if c =? 68 then Some CMD_MOVE_LEFT
  else if c =? 72 then Some CMD_MOVE_HOME
  else if c =? 70 then Some CMD_MOVE_END
  else if c =? 90 then Some CMD_SHIFT_TAB
  else None.

(** [drsh_rb_to_cmd] on the bytes ([unsigned char]) of the buffer: the
    command and the number of bytes it takes, or [None] for the return
    value 0, which leaves [*cmd] unwritten. *)
Definition drsh_rb_to_cmd (rb : list Z) : option (Z * Z) :=
  match rb with
  | [] => None
  | c :: _ =>
      if c <? 27 then Some (- c, 1)
      else if c =? 127 then Some (CMD_DELETE_BACK, 1)
      else if 27 <? c then Some (c, 1)
      else
        match rb with
        | _ :: t1 :: t2 :: rest =>
            if t1 =? 91
            then
              let tilde := match rest with t3 :: _ => t3 =? 126 | [] => false end in
              if (48 <=? t2) && (t2 <=? 57) && tilde && (t2 =? 51)
              then Some (CMD_DELETE_FORWARD, 4)
              else
                match csi_final t2 with
                | Some cmd => Some (cmd, 3)
                | None => None
                end
            else if (t1 =? 79) && (t2 =? 72) then Some (CMD_MOVE_HOME, 3)
            else if (t1 =? 79) && (t2 =? 70) then Some (CMD_MOVE_END, 3)
            else Some (CMD_ESC, 1)
        | _ => Some (CMD_ESC, 1)
        end
  end.

(** What one [read] on the input handle gives: [nread] bytes (none at
    the end of the input), [EINTR], or another error. *)
Inductive ReadEvent :=
| ReadBytes (l : list Z)
| ReadEintr
| ReadError.

(** [drsh_gb_readable_buffer] of the read buffer after
    [drsh_rb_shift(&rb, inp->read_cursor)]. *)
Definition inp_unread (inp : DrshInput) : list Z :=
  drop (Z.to_nat (read_cursor inp)) (read_buffer inp).

(** [len = drsh_rb_to_cmd(&rb, cmd); inp->read_cursor += len]. *)
Definition read_one_decode (inp : DrshInput) : option (DrshInput * Z) :=
  match drsh_rb_to_cmd (inp_unread inp) with
  | Some (cmd, n) =>
      Some (inp_set_read inp (read_buffer inp) (wrap64 (read_cursor inp + n)), cmd)
  | None => None
  end.

(** [drsh_read_one] (the branch of the source for POSIX), over the
    results of the reads still to come: [None] when the loop is left
    waiting in [read] after the last of them. *)
Fixpoint drsh_read_one (reads : list ReadEvent) (inp : DrshInput)
  : option (res (DrshInput * Z) * list ReadEvent) :=
  let pending :=
    if read_cursor inp =? 0 then inr inp
    else if read_cursor inp =? len (read_buffer inp) then inr (inp_set_read inp [] 0)
    else
      match read_one_decode inp with
      | Some r => inl r
      | None => inr inp
      end in
  match pending with
  | inl r => Some (Ok r, reads)
  | inr inp =>
      match reads with
      | [] => None
      | ReadEintr :: reads' => drsh_read_one reads' inp
      | ReadError :: reads' => Some (Fail EC_IO_ERROR, reads')
      | ReadBytes [] :: reads' => Some (Fail EC_IO_ERROR, reads')
      | ReadBytes l :: reads' =>
          let inp := inp_set_read inp (read_buffer inp ++ l) (read_cursor inp) in
          match read_one_decode inp with
          | Some r => Some (Ok r, reads')
          | None => drsh_read_one reads' inp
          end
      end
  end.

Section ReadLine.

(** The atom table the history entries point into. *)
Variable at' : DrshAtomTable.

(** The three completion commands, which list directories. *)
Variable drsh_tab_completion : DrshInput -> res DrshInput.
Variable drsh_tab_completion_prev : DrshInput -> res DrshInput.
Variable drsh_tab_completion_cancel : DrshInput -> res DrshInput.

(** [ts->in_is_terminal && ts->out_is_terminal], and for a terminal
    [drsh_refresh_size] and [drsh_refresh_prompt]: the input with its
    new prompt and [env->cols]. *)
Variable is_terminal : bool.
Variable refresh : DrshInput -> DrshInput * Z.

(** The body of the loop of [drsh_read_line] below [drsh_read_one]: the
    input after the command, and whether the line was accepted. *)
Definition read_line_cmd (inp : DrshInput) (cmd : Z) : res (DrshInput * bool) :=
  let inp :=
    if negb (cmd =? CMD_TAB) && negb (cmd =? CMD_SHIFT_TAB) && negb (cmd =? CMD_ESC)
    then drsh_end_tab_completion inp
    else inp in
  if cmd <? 0
  then
    if cmd =? CMD_DELETE_BACK
    then do inp <- drsh_inp_del_left inp; Ok (inp, false)
    else if cmd =? CMD_DELETE_FORWARD_OR_EOF
    then
      if len (write_buffer inp) =? 0 then Fail EC_EOF
      else do inp <- drsh_inp_del_right inp; Ok (inp, false)
    else if cmd =? CMD_DELETE_FORWARD
    then do inp <- drsh_inp_del_right inp; Ok (inp, false)
    else if cmd =? CMD_MOVE_RIGHT then Ok (drsh_inp_move_right inp, false)
    else if cmd =? CMD_MOVE_LEFT then Ok (drsh_inp_move_left inp, false)
    else if cmd =? CMD_MOVE_UP
    then do inp <- drsh_inp_move_up at' inp; Ok (inp, false)
    else if cmd =? CMD_MOVE_DOWN
    then do inp <- drsh_inp_move_down at' inp; Ok (inp, false)
    else if cmd =? CMD_MOVE_HOME then Ok (drsh_inp_move_home inp, false)
    else if cmd =? CMD_MOVE_END then Ok (drsh_inp_move_end inp, false)
    else if cmd =? CMD_INTERRUPT then Ok (drsh_inp_clear inp, false)
    else if cmd =? CMD_TAB
    then do inp <- drsh_tab_completion inp; Ok (inp, false)
    else if cmd =? CMD_SHIFT_TAB
    then do inp <- drsh_tab_completion_prev inp; Ok (inp, false)
    else if cmd =? CMD_KILL_END_OF_LINE
    then do inp <- drsh_inp_kill_end_of_line inp; Ok (inp, false)
    else if cmd =? CMD_CLEAR_SCREEN then Ok (inp_set_flags inp true true, false)
    else if (cmd =? CMD_ACCEPT) || (cmd =? CMD_ENTER) then Ok (inp, true)
    else if cmd =? CMD_ESC
    then
      if tab_completion inp
      then do inp <- drsh_tab_completion_cancel inp; Ok (inp, false)
      else Ok (inp, false)
    else Ok (inp, false)
  else
    do inp <- drsh_inp_input_one inp (cmd mod 256); Ok (inp, false).

(** What [drsh_read_line] has done when it returns: the input, the
    bytes written to the terminal, the reads left. *)
Record LineRead := {
  lr_inp : DrshInput;
  lr_out : list Z;
  lr_reads : list ReadEvent;
}.

(** The loop of [drsh_read_line], one command for each unit of [fuel]:
    [None] when it is left waiting for input (or the fuel is used up),
    [Ok] with the accepted line, which is the write buffer. *)
Fixpoint read_line_loop (fuel : nat) (reads : list ReadEvent) (inp : DrshInput)
    (n_cols_up : Z) (out : list Z) : option (res LineRead) :=
  match fuel with
  | O => None
  | S fuel =>
      let shown :=
        if needs_redisplay inp && is_terminal
        then
          let '(inp, cols) := refresh inp in
          do (termbuff, n_cols_up, inp) <- redisplay inp cols n_cols_up;
          Ok (inp, n_cols_up, out ++ termbuff)
        else Ok (inp, n_cols_up, out) in
      match shown with
      | Ok (inp, n_cols_up, out) =>
          match drsh_read_one reads inp with
          | None => None
          | Some (Ok (inp, cmd), reads) =>
              match read_line_cmd inp cmd with
              | Ok (inp, true) =>
                  Some (Ok {| lr_inp := inp; lr_out := out; lr_reads := reads |})
              | Ok (inp, false) => read_line_loop fuel reads inp n_cols_up out
              | Fail ec => Some (Fail ec)
              | UB => Some UB
              end
          | Some (Fail ec, _) => Some (Fail ec)
          | Some (UB, _) => Some UB
          end
      | Fail ec => Some (Fail ec)
      | UB => Some UB
      end
  end.

(** [drsh_read_line]: [raw] is the result of [drsh_ts_raw], an error
    only after the write buffer has been cleared. *)
Definition drsh_read_line (fuel : nat) (raw : DrshEC) (reads : list ReadEvent)
    (inp : DrshInput) : option (res LineRead) :=
  let inp := inp_set_flags (inp_set_write inp [] 0) true (needs_clear_screen inp) in
  match raw with
  | EC_OK => read_line_loop fuel reads inp 0 []
  | ec => Some (Fail ec)
  end.

End ReadLine.


(** ** The history file (drsh.c 1433-1447, 1370-1400, 3522-3543, 4024-4034) *)

(** [drsh_rb_to_line]: the first line of the buffer with the byte that
    ends it (0, line feed or carriage return); its length is the value
    returned, and [None] stands for 0, when no such byte is found. *)
Fixpoint drsh_rb_to_line (txt : list Z) : option (list Z) :=
  match txt with
  | [] => None
  | c :: txt' =>
      if (c =? 0) || (c =? 10) || (c =? 13) then Some [c]
      else
        match drsh_rb_to_line txt' with
        | Some line => Some (c :: line)
        | None => None
        end
  end.

(** [while(line.length && (line[length-1] == '\n' || ... == '\r'))
    line.length--], on the reversed line. *)
Fixpoint strip_eol_rev (r : list Z) : list Z :=
  match r with
  | [] => []
  | c :: r' => if (c =? 10) || (c =? 13) then strip_eol_rev r' else r
  end.

Definition strip_eol (line : list Z) : list Z := rev (strip_eol_rev (rev line)).

Definition inp_set_hist_start (inp : DrshInput) (hs : Z) : DrshInput :=
  {| read_buffer := read_buffer inp; read_cursor := read_cursor inp;
     write_buffer := write_buffer inp; write_cursor := write_cursor inp;
     prompt := prompt inp; needs_redisplay := needs_redisplay inp;
     needs_clear_screen := needs_clear_screen inp; hist_start := hs;
     hist_buffer := hist_buffer inp; hist_cursor := hist_cursor inp;
     prompt_visual_len := prompt_visual_len inp;
     tab_completion := tab_completion inp; tab_completions := tab_completions inp;
     tab_completion_cursor := tab_completion_cursor inp |}.

Section HistoryFile.
Context `{Hash}.

(** The loop of [main] over the text of the history file: every line
    without its line ends is interned and added; an error of either call
    is dropped.  One unit of fuel for each line. *)
Fixpoint load_history_loop (fuel : nat) (history : list Z) (at' : DrshAtomTable)
    (inp : DrshInput) : res (DrshAtomTable * DrshInput) :=
  match fuel with
  | O => UB
  | S fuel =>
      match drsh_rb_to_line history with
      | None => Ok (at', inp)
      | Some line =>
          let history := drop (length line) history in
          let line := strip_eol line in
          if len line =? 0 then load_history_loop fuel history at' inp
          else
            match drsh_at_atomize at' line with
            | Ok (at', l) =>
                match drsh_hist_add at' inp l with
                | Ok inp => load_history_loop fuel history at' inp
                | Fail _ => load_history_loop fuel history at' inp
                | UB => UB
                end
            | Fail _ => load_history_loop fuel history at' inp
            | UB => UB
            end
      end
  end.

(** The block of [main] that reads the history, from the text of the
    file on: the loop, then [input.hist_start = input.hist_cursor]. *)
Definition load_history (history : list Z) (at' : DrshAtomTable) (inp : DrshInput)
  : res (DrshAtomTable * DrshInput) :=
  do (at', inp) <- load_history_loop (S (length history)) history at' inp;
  Ok (at', inp_set_hist_start inp (hist_cursor inp)).

End HistoryFile.

(** The loop of [drsh_hist_dump] with [drsh_append_to_file]: the bytes
    appended to the history file once it is open, the entries from
    [hist_start] on, each followed by a line feed. *)
Fixpoint hist_dump_loop (at' : DrshAtomTable) (atoms : list nat) : res (list Z) :=
  match atoms with
  | [] => Ok []
  | atom :: atoms' =>
      do a <- atom_at at' atom;
      do out <- hist_dump_loop at' atoms';
      Ok (take (Z.to_nat (atom_len a)) (atom_txt a) ++ [10] ++ out)
  end.

Definition hist_dump_writes (at' : DrshAtomTable) (inp : DrshInput) : res (list Z) :=
  hist_dump_loop at' (drop (Z.to_nat (hist_start inp)) (hist_buffer inp)).


(** ** The working directory of the prompt (drsh.c 2815-2919) *)

(** The first loop of [drsh_dir_condense]: the index of the first [/],
    0 without one. *)
Fixpoint first_slash_from (p : list Z) (i : nat) : nat :=
  match p with
  | [] => 0%nat
  | c :: p' => if c =? 47 then i else first_slash_from p' (S i)
  end.

(** The second loop, from the end of the path ([r] is the path
    reversed): the index of the last [/], 0 without one. *)
Fixpoint last_slash_rev (r : list Z) : nat :=
  match r with
  | [] => 0%nat
  | c :: r' => if c =? 47 then length r' else last_slash_rev r'
  end.

(** The third loop, over the bytes from the first [/] to the last: a
    [/] is copied, and after it the first byte of the name. *)
Fixpoint condense_loop (p : list Z) (want_write : bool) : list Z :=
  match p with
  | [] => []
  | c :: p' =>
      if c =? 47 then c :: condense_loop p' true
      else if want_write then c :: condense_loop p' false
      else condense_loop p' want_write
  end.

(** [drsh_dir_condense]: the new contents of [cwd]. *)
Definition drsh_dir_condense (cwd : list Z) : list Z :=
  let first_slash := first_slash_from cwd 0 in
  let last_slash := last_slash_rev (rev cwd) in
  if (last_slash =? 0)%nat then cwd
  else
    let tmp := if (first_slash =? 0)%nat then [] else take first_slash cwd in
    let tmp := tmp ++ condense_loop (take (last_slash - first_slash) (drop first_slash cwd)) true in
    tmp ++ drop last_slash cwd.

Definition env_set_cwd (env : DrshEnvironment) (cwd : list Z) : DrshEnvironment :=
  {| env_cwd := cwd; env_home := env_home env; env_entries := env_entries env;
     env_cap := env_cap env; env_idxes := env_idxes env; env_sorted := env_sorted env;
     env_case_insensitive := env_case_insensitive env; env_debug := env_debug env;
     env_cols := env_cols env; env_lines := env_lines env;
     env_os_flavor := env_os_flavor env |}.

Section WorkingDirectory.
Context `{Hash}.

(** [drsh_refresh_cwd]; [wd] is the path [getcwd] (or
    [GetCurrentDirectoryA]) gives, empty when it fails.  The result of
    storing [PWD] is not looked at. *)
Definition drsh_refresh_cwd (wd : list Z) (at' : DrshAtomTable) (env : DrshEnvironment)
    (backslash_is_sep : bool) : res (DrshAtomTable * DrshEnvironment) :=
  do (at', env) <-
    (if len wd =? 0 then Ok (at', env)
     else
       match special at' ATOM_PWD with
       | None => UB
       | Some key =>
           match drsh_env_set_env3 at' env key wd with
           | Ok r => Ok r
           | Fail _ => Ok (at', env)
           | UB => UB
           end
       end);
  do home <-
    match env_home env with
    | None => Ok None
    | Some h => do a <- atom_at at' h; Ok (Some a)
    end;
  let matched :=
    match home with
    | None => false
    | Some h =>
        negb (atom_len h =? 0) && (atom_len h <=? len wd)
        && list_eqb (take (Z.to_nat (atom_len h)) wd)
                    (take (Z.to_nat (atom_len h)) (atom_txt h))
        && negb ((atom_len h <? len wd)
                 && (let c := nth (Z.to_nat (atom_len h)) wd 0 in
                     negb (c =? 47) && (backslash_is_sep && negb (c =? 92))))
    end in
  let cwd := if matched then [126] else [] in
  let wd :=
    match home with
    | Some h => if matched then drop (Z.to_nat (atom_len h)) wd else wd
    | None => wd
    end in
  let wd :=
    if backslash_is_sep then (fun c => if c =? 92 then 47 else c) <$> wd else wd in
  Ok (at', env_set_cwd env (drsh_dir_condense (cwd ++ wd))).

End WorkingDirectory.


(** ** The environment of a child (drsh.c 3195-3242) *)

(** The strings [drsh_env_get_envp] writes into [env->tmp], one
    [key=value] for each entry of the table. *)
Fixpoint envp_strings (at' : DrshAtomTable) (entries : list (nat * nat))
  : res (list (list Z)) :=
  match entries with
  | [] => Ok []
  | (key, value) :: entries' =>
      do k <- atom_at at' key;
      do v <- atom_at at' value;
      do strings <- envp_strings at' entries';
      Ok ((take (Z.to_nat (atom_len k)) (atom_txt k) ++ [61]
           ++ take (Z.to_nat (atom_len v)) (atom_txt v)) :: strings)
  end.

(** [drsh_env_get_envp]: the table is sorted, then the strings are
    written in its order.  [windows_style] selects the layout only: one
    block of terminated strings closed by an empty one, or a vector of
    pointers to terminated strings closed by a null pointer. *)
Definition drsh_env_get_envp (at' : DrshAtomTable) (env : DrshEnvironment)
    (windows_style : bool) : res (DrshEnvironment * list (list Z)) :=
  do env <- drsh_env_sort_env at' env;
  do strings <- envp_strings at' (env_entries env);
  Ok (env, strings).


(** ** Specification vocabulary *)

(** Executable test that [needle] is an in-order subsequence of
    [haystack]; [is_subseq_sublist] relates it to stdpp's [sublist]. *)
Fixpoint is_subseq (needle haystack : list Z) : bool :=
  match haystack with
  | [] => match needle with [] => true | _ :: _ => false end
  | h :: haystack' =>
      match needle with
      | [] => true
      | n :: needle' =>
          if h =? n then is_subseq needle' haystack' else is_subseq needle haystack'
      end
  end.

(** What the expansion distance is specified to be when the loop is
    entered with [difference] already counted: the needle must embed in
    order into the haystack (after [fold] on each byte), and then every
    haystack byte not used by the embedding is one insertion. *)
Definition distance_spec (fold : Z -> Z) (haystack needle : list Z) (difference : Z) : Z :=
  if is_subseq (fold <$> needle) (fold <$> haystack)
  then difference + len haystack - len needle
  else -1.

(** The cursor-positioning formulas as the specification words them. *)
Definition spec_visual_size (prompt_visual_len count : Z) : Z :=
  prompt_visual_len + count.
Definition spec_cursor_visual_position (prompt_visual_len count cursor : Z) : Z :=
  spec_visual_size prompt_visual_len count - (count - cursor).
Definition spec_total_lines (prompt_visual_len count cols : Z) : Z :=
  (spec_visual_size prompt_visual_len count - 1) / cols + 1.
Definition spec_cursor_line (prompt_visual_len count cursor cols : Z) : Z :=
  (spec_cursor_visual_position prompt_visual_len count cursor - 1) / cols + 1.

(** *** Open-addressing invariant

    [hashes] lists the stored hash of every entry of a table, in entry
    order.  Slots hold [0] or one more than an entry number; every entry
    has exactly one slot, at or after its home slot
    [drsh_fast_reduce32 hash cap], and no slot between the two is empty. *)
Record index_wf (cap : Z) (idxes hashes : list Z) : Prop := {
  iw_cap : 0 <= cap /\ 2 * cap < 2 ^ 32;
  iw_len : len idxes = 2 * cap;
  iw_load : len hashes <= cap;
  iw_range : forall (s : nat) v, idxes !! s = Some v -> v <> 0 -> 1 <= v <= len hashes;
  iw_inj : forall (s s' : nat) v,
      idxes !! s = Some v -> idxes !! s' = Some v -> v <> 0 -> s = s';
  iw_chain : forall (j : nat) h, hashes !! j = Some h ->
      exists s : nat,
        idxes !! s = Some (Z.of_nat j + 1)
        /\ drsh_fast_reduce32 h cap <= Z.of_nat s
        /\ forall t : nat, drsh_fast_reduce32 h cap <= Z.of_nat t < Z.of_nat s ->
             exists v, idxes !! t = Some v /\ v <> 0;
}.

(** *** Atom table invariant *)

(** The hash [drsh_at_atomize] stores: the 32-bit hash, with [0] replaced
    by [1024] so that it never marks an empty slot. *)
Definition norm_hash `{Hash} (txt : list Z) : Z :=
  let h := wrap32 (drsh_hash_align1 txt) in
  if h =? 0 then 1024 else h.

(** The table as a set of atoms: the slots index the atoms, every atom
    carries the hash and length of its text, no text occurs twice, and the
    capacity is what doubling from 4 at load 0.8 produces. *)
Record at_wf0 `{Hash} (at' : DrshAtomTable) : Prop := {
  aw_index : index_wf (at_cap at') (at_idxes at') (atom_hash <$> at_atoms at');
  aw_capacity : at_cap at' <= 4 \/ 2 * at_cap at' <= 5 * at_count at';
  aw_atoms : forall (j : nat) a, at_atoms at' !! j = Some a ->
      atom_hash a = norm_hash (atom_txt a)
      /\ atom_len a = len (atom_txt a)
      /\ len (atom_txt a) < UINT32_MAX;
  aw_nodup : NoDup (atom_txt <$> at_atoms at');
}.

(** Atom [j] has its sibling: [iatom] points to the atom whose text is
    the text of [j] with [0x20] OR-ed into every byte. *)
Definition folded (at' : DrshAtomTable) (j : nat) : Prop :=
  exists a k b,
    at_atoms at' !! j = Some a /\ atom_iatom a = Some k
    /\ at_atoms at' !! k = Some b /\ atom_txt b = or20 <$> atom_txt a.

(** The invariant between calls: every atom has its sibling. *)
Record at_wf `{Hash} (at' : DrshAtomTable) : Prop := {
  aw_wf0 : at_wf0 at';
  aw_fold : forall j : nat, (j < length (at_atoms at'))%nat -> folded at' j;
}.

(** The text of the atom a pointer designates. *)
Definition txt_of (at' : DrshAtomTable) (p : nat) : option (list Z) :=
  atom_txt <$> at_atoms at' !! p.

(** The sibling pointer of the atom a pointer designates. *)
Definition ifold_of (at' : DrshAtomTable) (p : nat) : option nat :=
  at_atoms at' !! p ≫= atom_iatom.

(** A run of [drsh_at_atomize] calls on one table, collecting the atoms
    returned. *)
Fixpoint atomize_all `{Hash} (at' : DrshAtomTable) (strs : list (list Z))
  : res (DrshAtomTable * list nat) :=
  match strs with
  | [] => Ok (at', [])
  | s :: strs' =>
      do (at', p) <- drsh_at_atomize at' s;
      do (at', ps) <- atomize_all at' strs';
      Ok (at', p :: ps)
  end.

(** ASCII lower-casing as the specification words it: [A-Z] to [a-z],
    every other byte unchanged. *)
Definition ascii_lower (c : Z) : Z :=
  if (65 <=? c) && (c <=? 90) then c + 32 else c.

Definition ascii_case_eq (a b : list Z) : Prop :=
  ascii_lower <$> a = ascii_lower <$> b.

(** In a run of calls on [strs] that returned [ps], some call was
    [atomize(a)] and returned [p]. *)
Definition returned (ps : list nat) (strs : list (list Z)) (p : nat) (a : list Z) : Prop :=
  exists i : nat, ps !! i = Some p /\ strs !! i = Some a.

(** *** Environment invariant *)

(** The key an entry is indexed under, as a total function: the [ifold]
    sibling of the stored key on a case-insensitive environment, the key
    itself otherwise. *)
Definition lkey_of (at' : DrshAtomTable) (case_insensitive : bool) (k : nat) : nat :=
  if case_insensitive then default 0%nat (ifold_of at' k) else k.

Definition lhash_of (at' : DrshAtomTable) (case_insensitive : bool) (k : nat) : Z :=
  default 0 (atom_hash <$> at_atoms at' !! lkey_of at' case_insensitive k).

(** First value stored under a folded key [l]. *)
Fixpoint assoc_by (f : nat -> nat) (l : nat) (entries : list (nat * nat)) : option nat :=
  match entries with
  | [] => None
  | (k, v) :: entries' => if decide (f k = l) then Some v else assoc_by f l entries'
  end.

(** The value the environment holds for [k], read off the entries. *)
Definition env_lookup (at' : DrshAtomTable) (env : DrshEnvironment) (k : nat) : option nat :=
  assoc_by (lkey_of at' (env_case_insensitive env))
    (lkey_of at' (env_case_insensitive env) k) (env_entries env).

Definition valid_atom (at' : DrshAtomTable) (p : nat) : Prop :=
  (p < length (at_atoms at'))%nat.

(** The environment as a map: keys and values are atoms of the table, the
    slots index the entries by the hash of their folded key, no folded
    key occurs twice, and a used table keeps a free position. *)
Record env_wf (at' : DrshAtomTable) (env : DrshEnvironment) : Prop := {
  ew_valid : Forall (fun e => valid_atom at' e.1 /\ valid_atom at' e.2) (env_entries env);
  ew_index : index_wf (env_cap env) (env_idxes env)
               ((fun e => lhash_of at' (env_case_insensitive env) e.1) <$> env_entries env);
  ew_room : env_cap env = 0 \/ (32 <= env_cap env /\ env_count env < env_cap env);
  ew_capacity : env_cap env <= 32 \/ 2 * env_cap env <= 5 * env_count env;
  ew_nodup : NoDup ((fun e => lkey_of at' (env_case_insensitive env) e.1) <$> env_entries env);
}.

(** *** History invariant *)

(** No entry of the history is the empty string. *)
Definition hist_no_empty (at' : DrshAtomTable) (hist : list nat) : Prop :=
  Forall (fun p => exists a, at_atoms at' !! p = Some a /\ atom_len a <> 0) hist.

(** No two consecutive entries are the same atom. *)
Definition hist_no_repeat (hist : list nat) : Prop :=
  forall (i : nat) p, hist !! i = Some p -> hist !! S i <> Some p.

(** A run of [drsh_hist_add] calls. *)
Fixpoint hist_add_all (at' : DrshAtomTable) (inp : DrshInput) (atoms : list nat)
  : res DrshInput :=
  match atoms with
  | [] => Ok inp
  | atom :: atoms' => do inp <- drsh_hist_add at' inp atom; hist_add_all at' inp atoms'
  end.

(** *** Resolver vocabulary *)

(** The [sep]-separated fields of a byte string, empty ones included. *)
Fixpoint split_fields (sep : Z) (s : list Z) (cur : list Z) : list (list Z) :=
  match s with
  | [] => [cur]
  | x :: s' =>
      if x =? sep then cur :: split_fields sep s' [] else split_fields sep s' (cur ++ [x])
  end.

(** The non-empty directories of a [PATH] value, left to right. *)
Definition path_directories (path : list Z) : list (list Z) :=
  filter (fun d => d <> []) (split_fields 58 (c_str path) []).

(** [directory/P] with its terminator, as handed to the existence probe
    and returned in the caller's buffer. *)
Definition formed_path (directory program : list Z) : list Z :=
  directory ++ [47] ++ program ++ [0].

(** The hit of the POSIX walk: the first directory whose formed path
    exists. *)
Definition first_hit (drsh_exists : list Z -> bool) (program : list Z)
    (dirs : list (list Z)) : option (list Z) :=
  (fun d => formed_path d program)
    <$> find (fun d => drsh_exists (c_str (formed_path d program))) dirs.


(** *** Command-line vocabulary *)

(** The well-known atoms carry their spellings. *)
Definition at_ready (at' : DrshAtomTable) : Prop :=
  Forall2 (fun p tok => txt_of at' p = Some tok) (at_special at') special_tokens.

(** The spelling a variable name is compared under. *)
Definition fold_key (ci : bool) (key : list Z) : list Z :=
  if ci then or20 <$> key else key.

(** The environment read by name: the text of the value of the first
    entry whose key has the spelling [key] (up to the fold of a
    case-insensitive environment). *)
Definition env_text (at' : DrshAtomTable) (env : DrshEnvironment) (key : list Z)
  : option (list Z) :=
  let ci := env_case_insensitive env in
  find (fun e => bool_decide (fold_key ci <$> txt_of at' e.1 = Some (fold_key ci key)))
    (env_entries env)
  ≫= fun e => txt_of at' e.2.

(** The value the strings of a process environment give a name: the
    last [name=value] string spelled so (up to the fold of a
    case-insensitive environment) wins. *)
Fixpoint envp_value (ci : bool) (envp : list (list Z)) (key : list Z) : option (list Z) :=
  match envp with
  | [] => None
  | p :: envp' =>
      match envp_value ci envp' key with
      | Some v => Some v
      | None =>
          match strchr (c_str p) 61 with
          | Some eq =>
              if bool_decide (fold_key ci (take eq (c_str p)) = fold_key ci key)
              then Some (drop (S eq) (c_str p)) else None
          | None => None
          end
      end
  end.

(** The canonicalizer read on texts: [getenv] gives the value of a
    variable name, [home] the value of [HOME] the environment cached. *)
Definition word_expand (getenv : list Z -> option (list Z)) (tok : list Z)
    (dollar p : nat) (tmp : list Z) : list Z :=
  let key := take (p - S dollar) (drop (S dollar) tok) in
  if 0 <? len key then tmp ++ default [] (getenv key) else tmp.

Definition word_step (getenv : list Z -> option (list Z)) (tok : list Z)
    (st : canon_state) (p : nat) (c : Z) : canon_state :=
  match cs_dollar st with
  | Some d =>
      if is_name_byte c then st
      else canon_switch {| cs_dollar := None; cs_quoted := cs_quoted st;
                           cs_backslash := cs_backslash st;
                           cs_tmp := word_expand getenv tok d p (cs_tmp st) |} p c
  | None => canon_switch st p c
  end.

Fixpoint word_loop (getenv : list Z -> option (list Z)) (tok : list Z)
    (st : canon_state) (p : nat) (rest : list Z) : canon_state :=
  match rest with
  | [] => st
  | c :: rest' => word_loop getenv tok (word_step getenv tok st p c) (S p) rest'
  end.

Definition word_home (home : option (list Z)) (tok : list Z) (backslash_is_sep : bool)
  : option (list Z) :=
  match tok with
  | c :: tok' =>
      if c =? 126
      then match home with
           | Some h =>
               if len h =? 0 then None
               else match tok' with
                    | [] => Some h
                    | c1 :: _ =>
                        if (c1 =? 47) || (backslash_is_sep && (c1 =? 92))
                        then Some h else None
                    end
           | None => None
           end
      else None
  | [] => None
  end.

(** The word a token stands for. *)
Definition word_of (getenv : list Z -> option (list Z)) (home : option (list Z))
    (tok : list Z) (backslash_is_sep : bool) : list Z :=
  let h := word_home home tok backslash_is_sep in
  let p := match h with Some _ => 1%nat | None => 0%nat end in
  let st := word_loop getenv tok
              {| cs_dollar := None; cs_quoted := 0; cs_backslash := false;
                 cs_tmp := default [] h |} p (drop p tok) in
  match cs_dollar st with
  | Some d => word_expand getenv tok d (length tok) (cs_tmp st)
  | None => cs_tmp st
  end.

(** The arguments one token contributes, as texts: its word on the DOS
    family, the paths [glob] returns for its word elsewhere. *)
Definition token_words (IS_WINDOWS : bool) (glob : list Z -> option (list (list Z)))
    (getenv : list Z -> option (list Z)) (home : option (list Z))
    (line : list Z) (tok : DrshToken) : list (list Z) :=
  let w := word_of getenv home (token_bytes line tok) IS_WINDOWS in
  if IS_WINDOWS then [w]
  else match glob (c_str w) with
       | Some paths => c_str <$> paths
       | None => []
       end.

(** The argument vector of a line, as texts. *)
Definition argv_words (IS_WINDOWS : bool) (glob : list Z -> option (list (list Z)))
    (getenv : list Z -> option (list Z)) (home : option (list Z))
    (line : list Z) (toks : list DrshToken) : list (list Z) :=
  toks ≫= token_words IS_WINDOWS glob getenv home line.

(** A bound on the atoms a line interns: two per variable expansion and
    per interned text. *)
Definition argv_cost (IS_WINDOWS : bool) (glob : list Z -> option (list (list Z)))
    (getenv : list Z -> option (list Z)) (home : option (list Z))
    (line : list Z) (toks : list DrshToken) : Z :=
  foldr (fun tok acc =>
           2 * len (token_bytes line tok) + 4
           + 2 * len (token_words IS_WINDOWS glob getenv home line tok) + acc)
    0 toks.

(** The line stays inside the 32-bit lengths and entry numbers of the
    atom table. *)
Record line_fits (IS_WINDOWS : bool) (glob : list Z -> option (list (list Z)))
    (at' : DrshAtomTable) (getenv : list Z -> option (list Z)) (home : option (list Z))
    (line : list Z) : Prop := {
  lf_line : len line < UINT32_MAX;
  lf_words : Forall (fun tok => len (word_of getenv home (token_bytes line tok) IS_WINDOWS)
                                < UINT32_MAX) (drsh_tokenize_line line);
  lf_paths : Forall (fun w => len w < UINT32_MAX)
               (argv_words IS_WINDOWS glob getenv home line (drsh_tokenize_line line));
  lf_count : at_count at'
             + argv_cost IS_WINDOWS glob getenv home line (drsh_tokenize_line line)
             <= 2 ^ 28;
}.

(** The state between two lines: the atom table and the environment
    satisfy their invariants, the well-known atoms are interned, and the
    environment has been written to (start-up stores the variables of the
    process and reads [HOME]). *)
Record state_wf `{Hash} (st : DrshState) : Prop := {
  sw_at : at_wf (st_at st);
  sw_ready : at_ready (st_at st);
  sw_env : env_wf (st_at st) (st_env st);
  sw_cap : 0 < env_cap (st_env st);
  sw_home : from_option (valid_atom (st_at st)) True (env_home (st_env st));
}.

(** The text of the cached [HOME]. *)
Definition home_text (st : DrshState) : option (list Z) :=
  env_home (st_env st) ≫= txt_of (st_at st).


(** One table grows into another: the atoms keep their places and the
    well-known atoms are the same. *)
Definition at_extends (at1 at2 : DrshAtomTable) : Prop :=
  at_atoms at1 `prefix_of` at_atoms at2 /\ at_special at2 = at_special at1.



(** *** Sample lines and states *)

(** The three [echo] lines run after [set X hello], each with the bytes
    it writes.  The second line is [echo "\$X"]. *)
Definition echo_cases : list (list Z * list Z) :=
  [ (bytes_of "echo '$X'", bytes_of "hello " ++ CRLF);
    (bytes_of "echo " ++ [34] ++ bytes_of "\$X" ++ [34], bytes_of "\$X " ++ CRLF);
    (bytes_of "echo $X", bytes_of "hello " ++ CRLF) ].

(** The variables a sample process is started with. *)
Definition sample_envp : list (list Z) :=
  [bytes_of "HOME=/root"; bytes_of "PATH=/bin:/usr/bin"].

(** The start-up of [main] up to the first line: [drsh_at_init] and
    [drsh_env_init] on zeroed structures. *)
Definition start_state (flavor : OsFlavor) (windows_style : bool) : res DrshState :=
  do at' <- drsh_at_init at_zero;
  do (at', env) <- drsh_env_init flavor env_zero at' sample_envp windows_style;
  Ok {| st_at := at'; st_env := env; st_out := [] |}.

Definition state_zero : DrshState :=
  {| st_at := at_zero; st_env := env_zero; st_out := [] |}.

Definition posix_state : DrshState :=
  Eval vm_compute in
    match start_state OS_LINUX false with Ok st => st | _ => state_zero end.

Definition dos_state : DrshState :=
  Eval vm_compute in
    match start_state OS_WINDOWS true with Ok st => st | _ => state_zero end.

(** [glob] in a directory where no name matches: with [GLOB_NOCHECK] the
    pattern itself is the only path. *)
Definition glob_nocheck (p : list Z) : option (list (list Z)) := Some [p].


(** The existence probe of a sample file system with one program, and
    the atoms of the POSIX sample state. *)
Definition sample_exists (p : list Z) : bool := bool_decide (p = bytes_of "/usr/bin/echo").
Definition atom_zero : DrshAtom :=
  {| atom_len := 0; atom_hash := 0; atom_iatom := None; atom_txt := [] |}.
Definition sample_atom (i : nat) : DrshAtom :=
  Eval vm_compute in default atom_zero (at_atoms (st_at posix_state) !! i).



(** *** Tokenizer vocabulary *)

(** The tokens lie between [lo] and [hi], in order, each with at least
    one byte, and with at least one byte between two of them. *)
Fixpoint tokens_within (lo hi : Z) (toks : list DrshToken) : Prop :=
  match toks with
  | [] => True
  | t :: toks' =>
      lo <= tok_offset t /\ 1 <= tok_length t /\ tok_offset t + tok_length t <= hi
      /\ tokens_within (tok_offset t + tok_length t + 1) hi toks'
  end.

(** The first offset a further token may start at. *)
Definition next_free (lo : Z) (toks : list DrshToken) : Z :=
  fold_left (fun _ t => tok_offset t + tok_length t + 1) toks lo.

(** A byte that neither separates words nor quotes or escapes. *)
Definition is_plain (c : Z) : bool :=
  negb (is_space c) && negb (is_quote c) && negb (c =? 92).

(** Words written one after the other, each followed by its run of
    separators. *)
Definition spaced_line (ws : list (list Z * list Z)) : list Z :=
  ws ≫= fun ws => ws.1 ++ ws.2.


(** What the loop of [drsh_tokenize_line] keeps, before byte [i]: the
    tokens closed so far end before [i], and an open token started
    before [i], after the last closed one. *)
Definition tokenize_inv (i : Z) (st : tok_state) : Prop :=
  tokens_within 0 i (ts_tokens st)
  /\ next_free 0 (ts_tokens st) <= i
  /\ match ts_tok_begin st with
     | Some b => next_free 0 (ts_tokens st) <= b < i
     | None => True
     end.

(** Every word but the last is followed by at least one separator. *)
Fixpoint seps_ok (ws : list (list Z * list Z)) : Prop :=
  match ws with
  | [] => True
  | (_, s) :: ws' => (s = [] -> ws' = []) /\ seps_ok ws'
  end.

(** The tokens expected for words written from offset [i] on. *)
Fixpoint expected_tokens (i : Z) (ws : list (list Z * list Z)) : list DrshToken :=
  match ws with
  | [] => []
  | (w, s) :: ws' =>
      {| tok_offset := i; tok_length := len w |} :: expected_tokens (i + len w + len s) ws'
  end.

(** The end of [drsh_tokenize_line]: an open token is closed at the end
    of the line. *)
Definition tokenize_finish (st : tok_state) (n : Z) : list DrshToken :=
  match ts_tok_begin st with
  | Some b => ts_tokens st ++ [{| tok_offset := b; tok_length := n - b |}]
  | None => ts_tokens st
  end.


(** A separator that ends a word: white space other than the terminator
    byte, which the tokenizer skips between words but passes over inside
    one. *)
Definition is_sep (c : Z) : bool := is_space c && negb (c =? 0).

(** *** Editor vocabulary *)

(** The cursors are inside their buffers and the history holds atoms of
    the table. *)
Record inp_ok (at' : DrshAtomTable) (inp : DrshInput) : Prop := {
  io_cursor : 0 <= write_cursor inp <= len (write_buffer inp);
  io_hist_cursor : 0 <= hist_cursor inp <= len (hist_buffer inp);
  io_hist : Forall (valid_atom at') (hist_buffer inp);
}.

(** The bytes [drsh_rb_to_cmd] hands on as themselves: all but the
    control bytes 1 to 27 and DEL. *)
Definition is_text_byte (c : Z) : bool :=
  (c =? 0) || ((27 <? c) && (c <=? 255) && negb (c =? 127)).

(** Completion commands that are never reached. *)
Definition no_tab (inp : DrshInput) : res DrshInput := UB.

(** No terminal: nothing is refreshed. *)
Definition no_refresh (inp : DrshInput) : DrshInput * Z := (inp, 0).

(** The bytes of a run of reads. *)
Fixpoint read_bytes (reads : list ReadEvent) : list Z :=
  match reads with
  | [] => []
  | ReadBytes l :: reads' => l ++ read_bytes reads'
  | _ :: reads' => read_bytes reads'
  end.

(** Reads none of which ends the input or fails. *)
Fixpoint reads_ok (reads : list ReadEvent) : bool :=
  match reads with
  | [] => true
  | ReadBytes [] :: _ => false
  | ReadError :: _ => false
  | _ :: reads' => reads_ok reads'
  end.

(** The input still to come is [s]: the unread bytes of the read buffer
    followed by the bytes of the reads, none of which fails; the read
    cursor is inside the buffer and at 0 only in an empty one, as
    [drsh_read_one] leaves it. *)
Record feed (inp : DrshInput) (reads : list ReadEvent) (s : list Z) : Prop := {
  fd_cursor : 0 <= read_cursor inp <= len (read_buffer inp);
  fd_empty : read_cursor inp = 0 -> read_buffer inp = [];
  fd_reads : reads_ok reads = true;
  fd_bytes : inp_unread inp ++ read_bytes reads = s;
  fd_size : len (read_buffer inp) + len (read_bytes reads) < 2 ^ 64;
}.


(** *** History file vocabulary *)

(** A byte that does not end a line of the history file. *)
Definition in_line (c : Z) : Prop := c <> 0 /\ c <> 10 /\ c <> 13.

(** A history entry that can be written to the file and read back: a
    non-empty text without a byte that ends a line. *)
Definition storable (at' : DrshAtomTable) (p : nat) : Prop :=
  exists s, txt_of at' p = Some s /\ s <> [] /\ Forall in_line s.


(** *** Path vocabulary *)

(** A path written out: what precedes the first [/], the names between
    two [/], and what follows the last [/]. *)
Definition join_path (pre : list Z) (names : list (list Z)) (last_name : list Z) : list Z :=
  pre ++ (names ≫= fun c => 47 :: c) ++ 47 :: last_name.


(** *** Word vocabulary *)

(** A byte the canonicalizer copies: not [$], a quote or a backslash. *)
Definition is_word_byte (c : Z) : bool :=
  negb ((c =? 36) || is_quote c || (c =? 92)).


(** The arguments the bytes of a token contribute: [token_words] read on
    the bytes. *)
Definition word_paths (IS_WINDOWS : bool) (glob : list Z -> option (list (list Z)))
    (getenv : list Z -> option (list Z)) (home : option (list Z))
    (b : list Z) : list (list Z) :=
  let w := word_of getenv home b IS_WINDOWS in
  if IS_WINDOWS then [w]
  else match glob (c_str w) with
       | Some paths => c_str <$> paths
       | None => []
       end.


(** *** Exported variables *)

(** An entry that survives the way to a child as one terminated string:
    no [=] or terminator in the name, no terminator in the value, and
    the string fits in an atom. *)
Definition exportable (at' : DrshAtomTable) (e : nat * nat) : Prop :=
  exists k v,
    txt_of at' e.1 = Some k /\ txt_of at' e.2 = Some v
    /\ (61 ∉ k) /\ (0 ∉ k) /\ (0 ∉ v) /\ len k + len v + 1 < UINT32_MAX.


(* ================================================================== *)
(** * Properties *)
(* ================================================================== *)

(** ** Byte expansion distance *)

Example bed_dbg : byte_expansion_distance (bytes_of "debugger") (bytes_of "dbg") = Ok 5.
Proof. reflexivity. Qed.
Example bed_miss : byte_expansion_distance (bytes_of "debugger") (bytes_of "gd") = Ok (-1).
Proof. reflexivity. Qed.
Example bed_icase : byte_expansion_distance_icase (bytes_of "Makefile") (bytes_of "mkf") = Ok 5.
Proof. reflexivity. Qed.

Lemma swrap64_small z : - 2 ^ 63 <= z < 2 ^ 63 -> swrap64 z = z.
Proof. intros H. unfold swrap64. rewrite Z.mod_small; lia. Qed.

Lemma len_cons {A} (x : A) l : len (x :: l) = 1 + len l.
Proof. unfold len. cbn [length]. lia. Qed.

Lemma len_nonneg {A} (l : list A) : 0 <= len l.
Proof. unfold len. lia. Qed.

Lemma len_app {A} (l k : list A) : len (l ++ k) = len l + len k.
Proof. unfold len. rewrite length_app. lia. Qed.

Lemma sublist_cons_same {A} (x : A) l k : sublist (x :: l) (x :: k) <-> sublist l k.
Proof.
  split; [|by constructor].
  rewrite sublist_cons_r. intros [H1|(l' & [= ->] & H2)]; [|done].
  apply sublist_cons_l in H1 as (k1 & k2 & -> & H3).
  by apply sublist_inserts_l, sublist_cons.
Qed.

Lemma sublist_cons_diff {A} (x y : A) l k :
  x <> y -> sublist (x :: l) (y :: k) <-> sublist (x :: l) k.
Proof.
  intros Hne. rewrite sublist_cons_r. split; [|by left].
  intros [H1|(l' & [= ? ?] & H2)]; [done|congruence].
Qed.

Lemma is_subseq_sublist (n h : list Z) : is_subseq n h = true <-> sublist n h.
Proof.
  revert n. induction h as [|x h IH]; intros [|c n]; cbn [is_subseq].
  - split; [constructor|done].
  - split; [done|]. intros H. by apply sublist_nil_r in H.
  - split; [intros _; apply sublist_nil_l|done].
  - destruct (Z.eqb_spec x c) as [->|Hne].
    + by rewrite IH, sublist_cons_same.
    + by rewrite IH, sublist_cons_diff.
Qed.

Lemma is_subseq_length (n h : list Z) : is_subseq n h = true -> len n <= len h.
Proof.
  intros H. apply is_subseq_sublist, sublist_length in H. unfold len. lia.
Qed.

Section ExpansionDistanceSpec.
Variable fold : Z -> Z.
Let same (h n : Z) : bool := fold h =? fold n.

Lemma distance_spec_nil h d : distance_spec fold h [] d = d + len h.
Proof.
  unfold distance_spec. cbn [fmap list_fmap].
  replace (is_subseq [] (fold <$> h)) with true by (by destruct (fold <$> h)).
  unfold len at 2. cbn. lia.
Qed.

Lemma distance_spec_same x c h n d :
  fold x = fold c ->
  distance_spec fold (x :: h) (c :: n) d = distance_spec fold h n d.
Proof.
  intros E. unfold distance_spec. cbn [fmap list_fmap is_subseq].
  rewrite E, Z.eqb_refl, !len_cons. destruct (is_subseq _ _); lia.
Qed.

Lemma distance_spec_skip x c h n d :
  fold x <> fold c ->
  distance_spec fold (x :: h) (c :: n) d = distance_spec fold h (c :: n) (d + 1).
Proof.
  intros E. unfold distance_spec. cbn [fmap list_fmap is_subseq].
  destruct (Z.eqb_spec (fold x) (fold c)) as [|_]; [done|].
  rewrite !len_cons. destruct (is_subseq _ _); lia.
Qed.

Lemma distance_spec_short h n d : len h < len n -> distance_spec fold h n d = -1.
Proof.
  intros Hlt. unfold distance_spec. destruct (is_subseq _ _) eqn:H; [|done].
  apply is_subseq_length in H. unfold len in *. rewrite !length_fmap in H. lia.
Qed.

Lemma strip_matching_spec n : forall h d,
  0 <= d -> d + len h < 2 ^ 63 ->
  match strip_matching same h n d with
  | StripReturn r => r = distance_spec fold h n d
  | StripBreak h1 n1 =>
      (exists x h1' c n1', h1 = x :: h1' /\ n1 = c :: n1' /\ fold x <> fold c)
      /\ len h1 <= len h
      /\ distance_spec fold h1 n1 d = distance_spec fold h n d
  end.
Proof.
  induction n as [|c n IH]; intros h d Hd Hb; cbn [strip_matching].
  - rewrite distance_spec_nil. apply swrap64_small. pose proof (len_nonneg h). lia.
  - destruct h as [|x h].
    + symmetry. apply distance_spec_short. rewrite len_cons. pose proof (len_nonneg n).
      unfold len at 1. cbn. lia.
    + unfold same at 1. destruct (Z.eqb_spec (fold x) (fold c)) as [E|E].
      * rewrite len_cons in Hb. specialize (IH h d Hd ltac:(lia)).
        destruct (strip_matching same h n d).
        -- by rewrite distance_spec_same.
        -- destruct IH as (Hs & Hl & Hd'). rewrite distance_spec_same by done.
           rewrite len_cons. split_and!; [done|lia|done].
      * split_and!; [by exists x, h, c, n|lia|done].
Qed.

Lemma skip_to_match_spec c n h : forall d,
  0 <= d -> d + len h < 2 ^ 63 ->
  match skip_to_match same h c d with
  | None => distance_spec fold h (c :: n) d = -1
  | Some (h2, d2) =>
      d <= d2 /\ d2 + len h2 = d + len h
      /\ distance_spec fold h2 (c :: n) d2 = distance_spec fold h (c :: n) d
  end.
Proof.
  induction h as [|x h IH]; intros d Hd Hb; cbn [skip_to_match].
  - apply distance_spec_short. rewrite len_cons. pose proof (len_nonneg n).
    unfold len at 1. cbn. lia.
  - unfold same at 1. destruct (Z.eqb_spec (fold x) (fold c)) as [E|E]; [done|].
    rewrite len_cons in Hb. pose proof (len_nonneg h).
    rewrite swrap64_small by lia.
    specialize (IH (d + 1) ltac:(lia) ltac:(lia)).
    rewrite distance_spec_skip by done.
    destruct (skip_to_match same h c (d + 1)) as [[h2 d2]|]; [|done].
    rewrite len_cons. destruct IH as (? & ? & ?). split_and!; [lia|lia|done].
Qed.

Lemma expansion_loop_spec fuel : forall h n d,
  (length h < fuel)%nat -> 0 <= d -> d + len h < 2 ^ 63 ->
  expansion_loop same fuel h n d = Ok (distance_spec fold h n d).
Proof.
  induction fuel as [|fuel IH]; intros h n d Hf Hd Hb; [lia|].
  cbn [expansion_loop]. destruct (Z.ltb_spec (len h) (len n)) as [Hlt|Hge].
  { by rewrite distance_spec_short. }
  destruct n as [|c0 n0].
  { rewrite distance_spec_nil, swrap64_small; [done|]. pose proof (len_nonneg h). lia. }
  pose proof (strip_matching_spec (c0 :: n0) h d Hd Hb) as Hs.
  destruct (strip_matching same h (c0 :: n0) d) as [r|h1 n1]; [by subst|].
  destruct Hs as ((x & h1' & c & n1' & -> & -> & Hne) & Hl & <-).
  cbn [hd skip_to_match]. unfold same at 1.
  destruct (Z.eqb_spec (fold x) (fold c)) as [|_]; [done|].
  rewrite len_cons in Hl. pose proof (len_nonneg h1').
  rewrite swrap64_small by lia. rewrite distance_spec_skip by done.
  pose proof (skip_to_match_spec c n1' h1' (d + 1) ltac:(lia) ltac:(lia)) as Hk.
  destruct (skip_to_match same h1' c (d + 1)) as [[h2 d2]|]; [|by rewrite Hk].
  destruct Hk as (? & ? & <-). apply IH; [|lia|lia].
  unfold len in *. lia.
Qed.

Lemma expansion_distance_spec h n :
  len h < 2 ^ 63 ->
  expansion_distance same h n
  = Ok (if is_subseq (fold <$> n) (fold <$> h) then len h - len n else -1).
Proof.
  intros Hb. unfold expansion_distance. rewrite expansion_loop_spec; [|lia|lia|lia].
  unfold distance_spec. destruct (is_subseq _ _); f_equal; lia.
Qed.
End ExpansionDistanceSpec.

(** C3. For every haystack [h] and needle [n], [byte_expansion_distance]
    returns [-1] when [n] is not an in-order subsequence of [h] and
    [len h - len n] otherwise; [byte_expansion_distance_icase] meets the
    same specification on the bytes with [0x20] OR-ed in.  The length
    bound is the range of the [ssize_t] result. *)
Theorem byte_expansion_distance_correct (h n : list Z) :
  len h < 2 ^ 63 ->
  (sublist n h -> byte_expansion_distance h n = Ok (len h - len n))
  /\ (~ sublist n h -> byte_expansion_distance h n = Ok (-1))
  /\ (sublist (or20 <$> n) (or20 <$> h) ->
      byte_expansion_distance_icase h n = Ok (len h - len n))
  /\ (~ sublist (or20 <$> n) (or20 <$> h) ->
      byte_expansion_distance_icase h n = Ok (-1)).
Proof.
  intros Hb.
  pose proof (expansion_distance_spec id h n Hb) as H1.
  rewrite !list_fmap_id in H1.
  pose proof (expansion_distance_spec or20 h n Hb) as H2.
  change (expansion_distance _ h n) with (byte_expansion_distance h n) in H1.
  change (expansion_distance _ h n) with (byte_expansion_distance_icase h n) in H2.
  rewrite H1, H2. clear H1 H2.
  split_and!; intros H.
  - apply is_subseq_sublist in H. by rewrite H.
  - rewrite <- is_subseq_sublist in H. by destruct (is_subseq n h).
  - apply is_subseq_sublist in H. by rewrite H.
  - rewrite <- is_subseq_sublist in H. by destruct (is_subseq _ _).
Qed.

Lemma byte_expansion_distance_correct_witness :
  byte_expansion_distance (bytes_of "debugger") (bytes_of "dbg") = Ok 5.
Proof.
  refine (proj1 (byte_expansion_distance_correct (bytes_of "debugger") (bytes_of "dbg") _) _).
  - vm_compute. reflexivity.
  - apply is_subseq_sublist. vm_compute. reflexivity.
Defined.

(** ** Redisplay *)

Example fmt_d_examples :
  fmt_d 0 = bytes_of "0" /\ fmt_d 42 = bytes_of "42" /\ fmt_d (-7) = bytes_of "-7".
Proof. by vm_compute. Qed.

Example redisplay_two_rows :
  fst (fst (default ([], 0, input_zero)
     (match redisplay (inp_set_prompt (inp_set_write input_zero (repeat 97 100%nat) 100)
                         (bytes_of "> ") 2) 80 0 with Ok r => Some r | _ => None end)))
  = [13; ESC] ++ bytes_of "[J> " ++ repeat 97 100%nat ++ [13; ESC] ++ bytes_of "[22C".
Proof. by vm_compute. Qed.

Lemma wrap64_small z : 0 <= z < 2 ^ 64 -> wrap64 z = z.
Proof. intros H. unfold wrap64. by rewrite Z.mod_small. Qed.

Lemma wrap32_small z : 0 <= z < 2 ^ 32 -> wrap32 z = z.
Proof. intros H. unfold wrap32. by rewrite Z.mod_small. Qed.

Lemma swrap32_small z : - 2 ^ 31 <= z < 2 ^ 31 -> swrap32 z = z.
Proof. intros H. unfold swrap32. rewrite Z.mod_small; lia. Qed.

Lemma rows_bound v cols : 0 <= v < 2 ^ 31 -> 0 < cols -> 0 <= v / cols < 2 ^ 31.
Proof.
  intros Hv Hc. split; [apply Z.div_pos; lia|].
  apply Z.div_lt_upper_bound; [lia|]. nia.
Qed.

(** The counter the redisplay stores is the row of the cursor below the
    first row of the prompt, whatever it was before. *)
Lemma redisplay_rows (inp : DrshInput) (cols n0 : Z) :
  0 < cols < 2 ^ 31 ->
  1 <= prompt_visual_len inp ->
  0 <= write_cursor inp <= len (write_buffer inp) ->
  prompt_visual_len inp + len (write_buffer inp) < 2 ^ 31 ->
  exists out,
    redisplay inp cols n0
    = Ok (out, (prompt_visual_len inp + write_cursor inp - 1) / cols,
          inp_set_flags inp false false).
Proof.
  intros Hc Hp Hw Hs. unfold redisplay.
  set (P := prompt_visual_len inp) in *. set (C := len (write_buffer inp)) in *.
  set (W := write_cursor inp) in *.
  assert (Hcols : wrap64 cols = cols) by (apply wrap64_small; lia).
  rewrite Hcols.
  destruct (Z.eqb_spec cols 0) as [|_]; [lia|].
  pose proof (rows_bound (P + C - 1) cols ltac:(lia) ltac:(lia)) as HT.
  pose proof (rows_bound (P + W - 1) cols ltac:(lia) ltac:(lia)) as HL.
  assert (HLT : (P + W - 1) / cols <= (P + C - 1) / cols)
    by (apply Z.div_le_mono; lia).
  assert (Hcvp : forall vs, vs = P + C -> wrap64 (vs - wrap64 (C - W)) = P + W).
  { intros vs ->. rewrite (wrap64_small (C - W)) by lia. rewrite wrap64_small; lia. }
  assert (Htot : forall vs, vs = P + C ->
            wrap64 (wrap64 (vs - 1) / cols + 1) = (P + C - 1) / cols + 1).
  { intros vs ->. rewrite (wrap64_small (P + C - 1)) by lia. apply wrap64_small. lia. }
  assert (Hcur : forall vs, vs = P + C ->
            wrap64 (wrap64 (wrap64 (vs - wrap64 (C - W)) - 1) / cols + 1)
            = (P + W - 1) / cols + 1).
  { intros vs E. rewrite (Hcvp vs E), (wrap64_small (P + W - 1)) by lia.
    apply wrap64_small. lia. }
  destruct (Z.eqb_spec C 0); cbn zeta beta iota;
    rewrite Hcur, Htot by (try rewrite wrap64_small; lia);
    (destruct (Z.ltb_spec ((P + W - 1) / cols + 1) ((P + C - 1) / cols + 1));
     eexists; do 3 f_equal;
     [ rewrite (swrap32_small (_ + 1 - _)) by lia;
       rewrite (wrap64_small (_ + 1 - 1)) by lia; rewrite wrap64_small; lia
     | rewrite wrap64_small; lia ]).
Qed.

(** C8 (amended).  With a visible prompt, a cursor inside the write
    buffer, a positive column count and sizes in the range of [int], the
    count stored by the redisplay is [cursor_line - 1]: the number of rows
    between the first row of the prompt and the row of the cursor. *)
Theorem redisplay_n_cols_up (inp : DrshInput) (cols n0 : Z) :
  0 < cols < 2 ^ 31 ->
  1 <= prompt_visual_len inp ->
  0 <= write_cursor inp <= len (write_buffer inp) ->
  prompt_visual_len inp + len (write_buffer inp) < 2 ^ 31 ->
  exists out inp',
    redisplay inp cols n0
    = Ok (out,
          spec_cursor_line (prompt_visual_len inp) (len (write_buffer inp))
            (write_cursor inp) cols - 1,
          inp').
Proof.
  intros Hc Hp Hw Hs.
  destruct (redisplay_rows inp cols n0 Hc Hp Hw Hs) as [out E].
  exists out, (inp_set_flags inp false false). rewrite E. do 3 f_equal.
  unfold spec_cursor_line, spec_cursor_visual_position, spec_visual_size.
  replace (prompt_visual_len inp + len (write_buffer inp)
           - (len (write_buffer inp) - write_cursor inp) - 1)
    with (prompt_visual_len inp + write_cursor inp - 1) by lia.
  lia.
Qed.

(** A hundred bytes typed after a two-column prompt on an 80-column
    terminal, cursor at the end. *)
Definition redisplay_sample : DrshInput :=
  inp_set_prompt (inp_set_write input_zero (repeat 97 100%nat) 100) (bytes_of "> ") 2.

Lemma redisplay_n_cols_up_witness :
  exists out inp',
    redisplay redisplay_sample 80 0
    = Ok (out, spec_cursor_line 2 100 100 80 - 1, inp').
Proof.
  apply (redisplay_n_cols_up redisplay_sample 80 0); by vm_compute.
Defined.

(** C8 as stated fails: both the last row and the cursor are on the second
    row, so [total_lines - cursor_line] is [0], yet the stored count is [1]. *)
Lemma redisplay_n_cols_up_counterexample :
  (exists out inp', redisplay redisplay_sample 80 0 = Ok (out, 1, inp'))
  /\ spec_total_lines 2 100 80 - spec_cursor_line 2 100 100 80 = 0.
Proof. split; [by eexists _, _|by vm_compute]. Qed.

(** ** Atom table *)

Example murmur_empty : 0 <= murmur_hash [] < 2 ^ 32.
Proof. by vm_compute. Qed.

Example atomize_twice :
  (do (t1, p) <- drsh_at_atomize at_zero (bytes_of "Path");
   do (t2, q) <- drsh_at_atomize t1 (bytes_of "path");
   do (t3, r) <- drsh_at_atomize t2 (bytes_of "Path");
   Ok (p, q, r, atom_iatom <$> at_atoms t3))
  = Ok (0%nat, 1%nat, 0%nat, [Some 1%nat; Some 1%nat]).
Proof. by vm_compute. Qed.

(** *** Linear probing *)

Lemma reduce_range h cap : 0 < cap < 2 ^ 32 -> 0 <= drsh_fast_reduce32 h cap < cap.
Proof.
  intros Hc. unfold drsh_fast_reduce32. rewrite Z.shiftr_div_pow2 by lia.
  rewrite (wrap32_small cap) by lia.
  assert (Hh : 0 <= wrap32 h < 2 ^ 32) by (apply Z.mod_pos_bound; lia).
  split; [apply Z.div_pos; nia|]. apply Z.div_lt_upper_bound; nia.
Qed.

Lemma lookup_len_Some {A} (l : list A) (i : nat) x : l !! i = Some x -> Z.of_nat i < len l.
Proof. intros E%lookup_lt_Some. unfold len. lia. Qed.

Section Probing.
Variable matches : Z -> res bool.
Variable cap : Z.
Variable idxes : list Z.
Hypothesis Hcap : 2 * cap < 2 ^ 32.
Hypothesis Hlen : len idxes = 2 * cap.

Lemma probe_step (fuel : nat) (start : Z) v :
  0 <= start -> idxes !! Z.to_nat start = Some v -> v <> 0 -> matches v = Ok false ->
  probe matches cap idxes (S fuel) start = probe matches cap idxes fuel (start + 1).
Proof using Hcap Hlen.
  intros Hs Hv Hnz Hm. cbn [probe]. rewrite Hv.
  destruct (Z.eqb_spec v 0) as [|_]; [done|]. rewrite Hm.
  apply lookup_len_Some in Hv. rewrite Z2Nat.id in Hv by done.
  rewrite wrap32_small by lia.
  destruct (Z.ltb_spec (2 * cap) (start + 1)); [lia|done].
Qed.

Lemma probe_miss (e : nat) : forall (k : nat) (start : Z) (fuel : nat),
  idxes !! e = Some 0 ->
  Z.of_nat e = start + Z.of_nat k -> 0 <= start -> (k < fuel)%nat ->
  (forall t : nat, start <= Z.of_nat t < Z.of_nat e ->
     exists v, idxes !! t = Some v /\ v <> 0 /\ matches v = Ok false) ->
  probe matches cap idxes fuel start = ProbeEmpty (Z.of_nat e).
Proof using Hcap Hlen.
  induction k as [|k IH]; intros start fuel He Hk Hs Hf Hall;
    (destruct fuel as [|fuel]; [lia|]).
  - replace start with (Z.of_nat e) by lia. cbn [probe].
    by rewrite Nat2Z.id, He.
  - destruct (Hall (Z.to_nat start) ltac:(lia)) as (v & Hv & Hnz & Hm).
    rewrite (probe_step _ _ v) by done.
    apply IH; [done|lia|lia|lia|]. intros t Ht. apply Hall. lia.
Qed.

Lemma probe_hit (s : nat) v : forall (k : nat) (start : Z) (fuel : nat),
  idxes !! s = Some v -> v <> 0 -> matches v = Ok true ->
  Z.of_nat s = start + Z.of_nat k -> 0 <= start -> (k < fuel)%nat ->
  (forall t : nat, start <= Z.of_nat t < Z.of_nat s ->
     exists w, idxes !! t = Some w /\ w <> 0 /\ matches w = Ok false) ->
  probe matches cap idxes fuel start = ProbeFound v.
Proof using Hcap Hlen.
  induction k as [|k IH]; intros start fuel He Hnz Hm Hk Hs Hf Hall;
    (destruct fuel as [|fuel]; [lia|]).
  - replace start with (Z.of_nat s) by lia. cbn [probe].
    rewrite Nat2Z.id, He. destruct (Z.eqb_spec v 0) as [|_]; [done|]. by rewrite Hm.
  - destruct (Hall (Z.to_nat start) ltac:(lia)) as (w & Hw & Hwz & Hwm).
    rewrite (probe_step _ _ w) by done.
    apply IH; [done|done|done|lia|lia|lia|]. intros t Ht. apply Hall. lia.
Qed.
End Probing.

(** Either a list of slots has a first empty slot, or none is empty. *)
Lemma first_zero (l : list Z) :
  (exists k : nat, l !! k = Some 0 /\ forall t v, (t < k)%nat -> l !! t = Some v -> v <> 0)
  \/ Forall (fun v => v <> 0) l.
Proof.
  induction l as [|x l IH]; [by right|].
  destruct (decide (x = 0)) as [->|Hx].
  { left. exists 0%nat. split; [done|]. intros; lia. }
  destruct IH as [(k & Hk & Hfirst)|Hall]; [|by right; constructor].
  left. exists (S k). split; [done|]. intros [|t] v Ht E; [by injection E as <-|].
  cbn in E. apply (Hfirst t); [lia|done].
Qed.

Section IndexFacts.
Variables (cap : Z) (idxes hashes : list Z).
Hypothesis WF : index_wf cap idxes hashes.

(** With a free position left, a walk from any home slot meets an empty
    slot before the end of the array. *)
Lemma index_free_slot (start : Z) :
  len hashes < cap -> 0 <= start < cap ->
  exists e : nat,
    idxes !! e = Some 0 /\ start <= Z.of_nat e
    /\ forall t : nat, start <= Z.of_nat t < Z.of_nat e ->
         exists v, idxes !! t = Some v /\ v <> 0.
Proof using WF.
  intros Hload Hs. destruct WF as [Hcap Hlen _ Hrange Hinj _].
  destruct (first_zero (drop (Z.to_nat start) idxes)) as [(k & Hk & Hfirst)|Hall].
  - rewrite lookup_drop in Hk. exists (Z.to_nat start + k)%nat.
    split_and!; [done|lia|]. intros t Ht.
    assert (Hlt : (t < length idxes)%nat).
    { apply lookup_lt_Some in Hk. lia. }
    destruct (lookup_lt_is_Some_2 _ _ Hlt) as [v Hv]. exists v. split; [done|].
    apply (Hfirst (t - Z.to_nat start)%nat); [lia|].
    rewrite lookup_drop. by replace (Z.to_nat start + (t - Z.to_nat start))%nat with t by lia.
  - exfalso.
    set (L := drop (Z.to_nat start) idxes) in *.
    assert (Hnd : NoDup L).
    { apply NoDup_alt. intros a b v Ha Hb. unfold L in Ha, Hb.
      rewrite lookup_drop in Ha, Hb.
      assert (v <> 0).
      { rewrite Forall_forall in Hall. apply Hall.
        apply list_elem_of_lookup. exists a. unfold L. by rewrite lookup_drop. }
      pose proof (Hinj _ _ _ Ha Hb ltac:(done)). lia. }
    assert (Hincl : incl L (Z.of_nat <$> seq 1 (length hashes))).
    { intros v Hv. apply list_elem_of_In in Hv.
      assert (Hv' := Hv). apply list_elem_of_lookup in Hv as [a Ha].
      unfold L in Ha. rewrite lookup_drop in Ha.
      assert (v <> 0) by (rewrite Forall_forall in Hall; by apply Hall).
      pose proof (Hrange _ _ Ha ltac:(done)) as Hr. unfold len in Hr.
      apply list_elem_of_In, list_elem_of_fmap. exists (Z.to_nat v). split; [lia|].
      apply list_elem_of_In, in_seq. lia. }
    apply NoDup_ListNoDup in Hnd.
    pose proof (NoDup_incl_length Hnd Hincl) as Hle.
    rewrite length_fmap, length_seq in Hle. unfold L in Hle.
    rewrite length_drop in Hle. unfold len in *. lia.
Qed.

(** Filling the first free slot of a walk with the number of a new entry
    keeps the invariant. *)
Lemma index_insert (e : nat) (h : Z) :
  len hashes < cap ->
  idxes !! e = Some 0 ->
  drsh_fast_reduce32 h cap <= Z.of_nat e ->
  (forall t : nat, drsh_fast_reduce32 h cap <= Z.of_nat t < Z.of_nat e ->
     exists v, idxes !! t = Some v /\ v <> 0) ->
  index_wf cap (<[e := len hashes + 1]> idxes) (hashes ++ [h]).
Proof using WF.
  intros Hload He Hhome Hrun. destruct WF as [Hcap Hlen _ Hrange Hinj Hchain].
  assert (Hn : 0 <= len hashes) by apply len_nonneg.
  assert (Hne : len hashes + 1 <> 0) by lia.
  assert (Helt : (e < length idxes)%nat) by by apply lookup_lt_Some in He.
  split.
  - done.
  - unfold len in *. by rewrite length_insert.
  - rewrite len_app. change (len [h]) with 1. lia.
  - intros s v Hs Hv. rewrite len_app. change (len [h]) with 1.
    destruct (decide (s = e)) as [->|Hse].
    + rewrite list_lookup_insert_eq in Hs by done. injection Hs as <-. lia.
    + rewrite list_lookup_insert_ne in Hs by done.
      pose proof (Hrange _ _ Hs Hv). lia.
  - intros s s' v Hs Hs' Hv.
    destruct (decide (s = e)) as [->|Hse], (decide (s' = e)) as [->|Hse']; [done| | |].
    + rewrite list_lookup_insert_eq in Hs by done. injection Hs as <-.
      rewrite list_lookup_insert_ne in Hs' by done.
      pose proof (Hrange _ _ Hs' Hv). lia.
    + rewrite list_lookup_insert_eq in Hs' by done. injection Hs' as <-.
      rewrite list_lookup_insert_ne in Hs by done.
      pose proof (Hrange _ _ Hs Hv). lia.
    + rewrite list_lookup_insert_ne in Hs, Hs' by done. by eapply Hinj.
  - intros j hj Hj. apply lookup_app_Some in Hj as [Hj|[Hlen' Hj]].
    + destruct (Hchain j hj Hj) as (s & Hs & Hhs & Hrs).
      assert (s <> e) by (intros ->; rewrite He in Hs; injection Hs; lia).
      exists s. split_and!; [by rewrite list_lookup_insert_ne|done|].
      intros t Ht. destruct (Hrs t Ht) as (v & Hv & Hvz). exists v. split; [|done].
      rewrite list_lookup_insert_ne; [done|]. intros ->. rewrite He in Hv. by injection Hv as <-.
    + apply list_lookup_singleton_Some in Hj as [Hj0 ->].
      exists e. split_and!.
      * rewrite list_lookup_insert_eq by done. f_equal. unfold len. lia.
      * done.
      * intros t Ht. destruct (Hrun t Ht) as (v & Hv & Hvz). exists v. split; [|done].
        rewrite list_lookup_insert_ne; [done|lia].
Qed.
End IndexFacts.

Lemma index_wf_empty cap :
  0 <= cap -> 2 * cap < 2 ^ 32 -> index_wf cap (replicate (Z.to_nat (2 * cap)) 0) [].
Proof.
  intros Hc Hb. split.
  - done.
  - unfold len. rewrite length_replicate. lia.
  - unfold len. cbn. lia.
  - intros s v Hs Hv. apply lookup_replicate in Hs as [-> _]. done.
  - intros s s' v Hs _ Hv. apply lookup_replicate in Hs as [-> _]. done.
  - intros j h Hj. done.
Qed.

Lemma reindex_spec cap (hashes : list Z) : forall (placed idxes : list Z),
  index_wf cap idxes placed ->
  len placed + len hashes <= cap ->
  exists idxes',
    reindex cap hashes (len placed) idxes = Ok idxes'
    /\ index_wf cap idxes' (placed ++ hashes).
Proof.
  induction hashes as [|h hashes IH]; intros placed idxes WF Hload.
  { exists idxes. by rewrite app_nil_r. }
  rewrite len_cons in Hload. pose proof (len_nonneg hashes).
  pose proof (len_nonneg placed).
  pose proof (iw_cap _ _ _ WF) as [_ Hcap].
  pose proof (reduce_range h cap ltac:(lia)) as Hh.
  destruct (index_free_slot cap idxes placed WF (drsh_fast_reduce32 h cap) ltac:(lia) Hh)
    as (e & He & Hhe & Hrun).
  cbn [reindex].
  rewrite (probe_miss (fun _ => Ok false) cap idxes Hcap (iw_len _ _ _ WF) e
             (Z.to_nat (Z.of_nat e - drsh_fast_reduce32 h cap))).
  - rewrite Nat2Z.id, (wrap32_small (len placed)), wrap32_small by lia.
    pose proof (index_insert cap idxes placed WF e h ltac:(lia) He Hhe Hrun) as WF'.
    destruct (IH (placed ++ [h]) _ WF') as (idxes' & E & WF'').
    { rewrite len_app. change (len [h]) with 1. lia. }
    rewrite len_app in E. change (len [h]) with 1 in E.
    exists idxes'. split; [done|]. by rewrite <- app_assoc in WF''.
  - done.
  - lia.
  - lia.
  - unfold probe_fuel. apply lookup_lt_Some in He. lia.
  - intros t Ht. destruct (Hrun t Ht) as (v & Hv & Hvz). by exists v.
Qed.

Section AtomTableFacts.
Context `{Hash}.

Lemma norm_hash_range txt : 0 < norm_hash txt < 2 ^ 32.
Proof.
  unfold norm_hash.
  assert (0 <= wrap32 (drsh_hash_align1 txt) < 2 ^ 32) by (apply Z.mod_pos_bound; lia).
  destruct (Z.eqb_spec (wrap32 (drsh_hash_align1 txt)) 0); lia.
Qed.

Lemma at_zero_wf : at_wf at_zero.
Proof.
  split; [split|]; cbn.
  - exact (index_wf_empty 0 ltac:(lia) ltac:(lia)).
  - left. lia.
  - intros j a Hj. done.
  - constructor.
  - intros j Hj. lia.
Qed.

Lemma wf0_cap_bound at' :
  at_wf0 at' -> at_count at' < 2 ^ 28 -> 4 * at_cap at' < 2 ^ 32.
Proof. intros WF Hs. destruct (aw_capacity _ WF); lia. Qed.

Lemma at_grow_spec at' :
  at_wf0 at' -> at_count at' < 2 ^ 28 ->
  at_cap at' <= at_count at' * 10 / 8 ->
  exists at2,
    at_grow at' = Ok at2
    /\ at_wf0 at2
    /\ at_atoms at2 = at_atoms at'
    /\ at_special at2 = at_special at'
    /\ at_count at2 < at_cap at2.
Proof.
  intros WF Hs Hfull. pose proof (wf0_cap_bound _ WF Hs) as Hcb.
  destruct WF as [Hidx Hcapa Hatoms Hnd].
  pose proof (iw_cap _ _ _ Hidx) as [Hc0 _]. pose proof (iw_load _ _ _ Hidx) as Hload.
  assert (Hcount : len (atom_hash <$> at_atoms at') = at_count at').
  { unfold len, at_count, len. by rewrite length_fmap. }
  rewrite Hcount in Hload.
  assert (Hn : 0 <= at_count at') by apply len_nonneg.
  unfold at_grow.
  set (cap := if at_cap at' =? 0 then 4 else wrap64 (2 * at_cap at')).
  assert (Hcap : cap = 4 /\ at_cap at' = 0 \/ cap = 2 * at_cap at' /\ 0 < at_cap at').
  { unfold cap. destruct (Z.eqb_spec (at_cap at') 0); [by left|right].
    rewrite wrap64_small; lia. }
  assert (Hlt : at_count at' < cap).
  { assert (at_count at' * 10 / 8 <= at_cap at' * 10 / 8)
      by (apply Z.div_le_mono; lia).
    assert (at_cap at' * 10 / 8 <= at_cap at' * 16 / 8)
      by (apply Z.div_le_mono; lia).
    replace (at_cap at' * 16) with ((2 * at_cap at') * 8) in * by lia.
    rewrite Z.div_mul in * by lia. lia. }
  destruct (reindex_spec cap (atom_hash <$> at_atoms at') [] _
              (index_wf_empty cap ltac:(lia) ltac:(lia))) as (idxes & E & WF').
  { change (len []) with 0. lia. }
  change (len []) with 0 in E. rewrite E. cbn [rbind].
  eexists. split; [done|]. cbn. split_and!; try done.
  split; cbn; try done.
  destruct Hcap as [[-> _]|[-> Hpos]]; [by left|right].
  unfold at_count in *. cbn.
  assert (8 * at_cap at' <= len (at_atoms at') * 10); [|lia].
  pose proof (Z.mul_div_le (len (at_atoms at') * 10) 8 ltac:(lia)). lia.
Qed.

Lemma at_find_or_add_spec at' txt :
  at_wf0 at' -> at_count at' < 2 ^ 28 -> len txt < UINT32_MAX ->
  (exists at2 p a,
      at_find_or_add at' txt = Ok (at2, p, false)
      /\ at_wf0 at2 /\ at_atoms at2 = at_atoms at'
      /\ at_special at2 = at_special at'
      /\ at_atoms at' !! p = Some a /\ atom_txt a = txt)
  \/ ((txt ∉ (atom_txt <$> at_atoms at'))
      /\ exists at2,
        at_find_or_add at' txt = Ok (at2, length (at_atoms at'), true)
        /\ at_wf0 at2
        /\ at_atoms at2
           = at_atoms at'
             ++ [{| atom_len := len txt; atom_hash := norm_hash txt;
                    atom_iatom := None; atom_txt := txt |}]
        /\ at_special at2 = at_special at').
Proof.
  intros WF Hs Htxt. unfold at_find_or_add.
  destruct (Z.leb_spec UINT32_MAX (len txt)) as [|_]; [lia|].
  (* the growth check leaves a table with a free position *)
  assert (exists at1,
             (if at_cap at' <=? at_count at' * 10 / 8 then at_grow at' else Ok at') = Ok at1
             /\ at_wf0 at1 /\ at_atoms at1 = at_atoms at'
             /\ at_special at1 = at_special at' /\ at_count at1 < at_cap at1)
    as (at1 & -> & WF1 & Hat & Hsp & Hfree).
  { destruct (Z.leb_spec (at_cap at') (at_count at' * 10 / 8)) as [Hfull|Hroom].
    - by apply at_grow_spec.
    - exists at'. split_and!; try done.
      assert (Hn : 0 <= at_count at') by apply len_nonneg.
      assert (at_count at' <= at_count at' * 10 / 8); [|lia].
      apply Z.div_le_lower_bound; lia. }
  cbn [rbind]. clear WF. rewrite <- Hat, <- Hsp.
  assert (Hs1 : at_count at1 < 2 ^ 28) by (unfold at_count in *; by rewrite Hat).
  clear Hat Hsp Hs at'. rename at1 into at'.
  destruct WF1 as [Hidx Hcapa Hatoms Hnd].
  pose proof (iw_cap _ _ _ Hidx) as [Hc0 Hcb]. pose proof (iw_len _ _ _ Hidx) as Hlen.
  assert (Hcount : len (atom_hash <$> at_atoms at') = at_count at').
  { unfold len, at_count, len. by rewrite length_fmap. }
  assert (Hn : 0 <= at_count at') by apply len_nonneg.
  fold (norm_hash txt).
  set (matches := fun i : Z => match at_atoms at' !! Z.to_nat (i - 1) with
                               | Some atom => _ | None => UB end).
  pose proof (reduce_range (norm_hash txt) (at_cap at') ltac:(lia)) as Hhome.
  (* what the match test decides on an indexed entry *)
  assert (Hmatch : forall (s : nat) v, at_idxes at' !! s = Some v -> v <> 0 ->
             exists a, at_atoms at' !! Z.to_nat (v - 1) = Some a
                       /\ matches v = Ok (bool_decide (atom_txt a = txt))).
  { intros s v Hv Hvz. pose proof (iw_range _ _ _ Hidx _ _ Hv Hvz) as Hr.
    rewrite Hcount in Hr.
    destruct (lookup_lt_is_Some_2 (at_atoms at') (Z.to_nat (v - 1))) as [a Ha].
    { unfold at_count, len in Hr. lia. }
    exists a. split; [done|]. unfold matches. rewrite Ha. f_equal.
    destruct (Hatoms _ _ Ha) as (Hh & Hl & _). unfold list_eqb.
    destruct (decide (atom_txt a = txt)) as [E|E].
    - rewrite bool_decide_eq_true_2 by done. rewrite Hh, Hl, E, !Z.eqb_refl. done.
    - rewrite !(bool_decide_eq_false_2 _ E). apply andb_false_r. }
  destruct (decide (txt ∈ atom_txt <$> at_atoms at')) as [Hin|Hout].
  - (* present: the walk stops on its slot *)
    left. apply list_elem_of_fmap in Hin as (a & -> & Hin).
    apply list_elem_of_lookup in Hin as [j Hj].
    destruct (Hatoms _ _ Hj) as (Hh & _).
    destruct (iw_chain _ _ _ Hidx j (atom_hash a)) as (s & Hs & Hhs & Hrun).
    { by rewrite list_lookup_fmap, Hj. }
    rewrite Hh in Hhs, Hrun.
    assert (Hjm : matches (Z.of_nat j + 1) = Ok true).
    { destruct (Hmatch s _ Hs ltac:(lia)) as (a' & Ha' & ->).
      replace (Z.to_nat (Z.of_nat j + 1 - 1)) with j in Ha' by lia.
      rewrite Hj in Ha'. injection Ha' as <-. by rewrite bool_decide_eq_true_2. }
    rewrite (probe_hit matches _ _ Hcb Hlen s (Z.of_nat j + 1)
               (Z.to_nat (Z.of_nat s - drsh_fast_reduce32 (norm_hash (atom_txt a)) (at_cap at')))).
    + exists at', j, a. replace (Z.to_nat (Z.of_nat j + 1 - 1)) with j by lia.
      split_and!; done.
    + done.
    + lia.
    + done.
    + lia.
    + lia.
    + unfold probe_fuel. apply lookup_lt_Some in Hs. lia.
    + intros t Ht. destruct (Hrun t Ht) as (w & Hw & Hwz).
      exists w. split_and!; [done..|].
      destruct (Hmatch t w Hw Hwz) as (a' & Ha' & ->). f_equal.
      apply bool_decide_eq_false_2. intros E.
      (* the same text at another position contradicts [NoDup] *)
      assert (Z.to_nat (w - 1) = j).
      { eapply NoDup_lookup; [exact Hnd| |].
        - by rewrite list_lookup_fmap, Ha'.
        - by rewrite list_lookup_fmap, Hj, E. }
      assert (w = Z.of_nat j + 1).
      { pose proof (iw_range _ _ _ Hidx _ _ Hw Hwz). lia. }
      subst w. pose proof (iw_inj _ _ _ Hidx _ _ _ Hw Hs ltac:(lia)). lia.
  - (* absent: the walk stops on the first empty slot, which is filled *)
    right. split; [done|].
    destruct (index_free_slot _ _ _ Hidx (drsh_fast_reduce32 (norm_hash txt) (at_cap at'))
                ltac:(lia) Hhome) as (e & He & Hhe & Hrun).
    rewrite (probe_miss matches _ _ Hcb Hlen e
               (Z.to_nat (Z.of_nat e - drsh_fast_reduce32 (norm_hash txt) (at_cap at')))).
    + rewrite (wrap32_small (at_count at')) by lia. rewrite Z.eqb_refl. cbn [negb].
      pose proof (len_nonneg txt). unfold UINT32_MAX in Htxt.
      rewrite (wrap32_small (len txt)), (wrap32_small (at_count at' + 1)) by lia.
      rewrite Nat2Z.id.
      eexists. split_and!.
      * do 3 f_equal. unfold at_count, len. lia.
      * pose proof (index_insert _ _ _ Hidx e (norm_hash txt) ltac:(lia) He Hhe Hrun) as WF'.
        rewrite Hcount in WF'.
        split; cbn.
        -- by rewrite fmap_app.
        -- destruct Hcapa as [|Hc]; [by left|right].
           unfold at_count in *. cbn. rewrite len_app. change (len [_]) with 1. lia.
        -- intros j a Hj. apply lookup_app_Some in Hj as [Hj|[_ Hj]]; [by eapply Hatoms|].
           apply list_lookup_singleton_Some in Hj as [_ <-]. cbn.
           split_and!; [done|done|unfold UINT32_MAX; lia].
        -- rewrite fmap_app. apply NoDup_app. split_and!; [done| |apply NoDup_singleton].
           intros x Hx Hx'. apply list_elem_of_singleton in Hx'. by subst.
      * done.
      * done.
    + done.
    + lia.
    + lia.
    + unfold probe_fuel. apply lookup_lt_Some in He. lia.
    + intros t Ht. destruct (Hrun t Ht) as (w & Hw & Hwz).
      exists w. split_and!; [done..|].
      destruct (Hmatch t w Hw Hwz) as (a' & Ha' & ->). f_equal.
      apply bool_decide_eq_false_2. intros E. apply Hout.
      apply list_elem_of_fmap. exists a'. split; [done|].
      by eapply list_elem_of_lookup_2.
Qed.
End AtomTableFacts.

Lemma or20_idem c : or20 (or20 c) = or20 c.
Proof. unfold or20. by rewrite Z.lor_assoc, Z.lor_diag. Qed.

Lemma or20_fmap_idem (txt : list Z) : or20 <$> (or20 <$> txt) = or20 <$> txt.
Proof. rewrite <- list_fmap_compose. apply list_fmap_ext. intros _ c _. apply or20_idem. Qed.

(** The fold loop's flag: some byte changes under [|0x20]. *)
Lemma need_fold_false (txt : list Z) :
  existsb (fun c => negb (or20 c =? c)) txt = false <-> or20 <$> txt = txt.
Proof.
  induction txt as [|c txt IH]; [done|]. cbn [existsb fmap list_fmap].
  rewrite orb_false_iff, IH. destruct (Z.eqb_spec (or20 c) c) as [E|E]; cbn.
  - rewrite E. split; [intros [_ ->]; done|]. intros [= ->]. done.
  - split; [intros [? _]; done|]. intros [= ? _]. done.
Qed.

Lemma need_fold_true (txt : list Z) :
  existsb (fun c => negb (or20 c =? c)) txt = true -> or20 <$> txt <> txt.
Proof. intros E F. apply need_fold_false in F. congruence. Qed.

Lemma folded_prefix (at1 at2 : DrshAtomTable) j :
  folded at1 j -> at_atoms at1 `prefix_of` at_atoms at2 -> folded at2 j.
Proof.
  intros (a & k & b & Ha & Hk & Hb & Ht) Hp. exists a, k, b.
  split_and!; [by eapply prefix_lookup_Some|done|by eapply prefix_lookup_Some|done].
Qed.

Section AtomizeFacts.
Context `{Hash}.

Lemma wf0_set_iatom at' j ia :
  at_wf0 at' ->
  at_wf0 {| at_atoms := alter (fun x => atom_set_iatom x ia) j (at_atoms at');
            at_cap := at_cap at'; at_idxes := at_idxes at';
            at_special := at_special at' |}.
Proof.
  intros [Hidx Hcapa Hatoms Hnd].
  assert (Hh : atom_hash <$> alter (fun x => atom_set_iatom x ia) j (at_atoms at')
               = atom_hash <$> at_atoms at').
  { apply list_eq. intros i. rewrite !list_lookup_fmap, list_lookup_alter.
    case_decide; [subst|done]. by destruct (at_atoms at' !! i). }
  assert (Ht : atom_txt <$> alter (fun x => atom_set_iatom x ia) j (at_atoms at')
               = atom_txt <$> at_atoms at').
  { apply list_eq. intros i. rewrite !list_lookup_fmap, list_lookup_alter.
    case_decide; [subst|done]. by destruct (at_atoms at' !! i). }
  split; cbn.
  - by rewrite Hh.
  - unfold at_count, len in *. cbn. by rewrite length_alter.
  - intros i a Hi. rewrite list_lookup_alter in Hi. case_decide; [subst|by eapply Hatoms].
    destruct (at_atoms at' !! i) as [a0|] eqn:E; [|done]. injection Hi as <-.
    cbn. by apply (Hatoms i).
  - by rewrite Ht.
Qed.

Lemma atomize_fuel_S fuel at' txt :
  drsh_at_atomize_fuel (S fuel) at' txt
  = (do (at', a, fresh) <- at_find_or_add at' txt;
     if negb fresh then Ok (at', a)
     else
       do (at', ia) <- (if existsb (fun c => negb (or20 c =? c)) txt
                        then drsh_at_atomize_fuel fuel at' (or20 <$> txt)
                        else Ok (at', a));
       Ok ({| at_atoms := alter (fun x => atom_set_iatom x (Some ia)) a (at_atoms at');
              at_cap := at_cap at'; at_idxes := at_idxes at';
              at_special := at_special at' |}, a)).
Proof. done. Qed.

(** Atomizing a text that is its own fold: found, or added as its own
    sibling.  No nested call is made. *)
Lemma atomize_own_fold fuel at' b :
  at_wf0 at' -> at_count at' < 2 ^ 28 -> len b < UINT32_MAX -> or20 <$> b = b ->
  exists at2 k,
    drsh_at_atomize_fuel (S fuel) at' b = Ok (at2, k)
    /\ at_wf0 at2 /\ at_special at2 = at_special at'
    /\ ((at_atoms at2 = at_atoms at'
         /\ exists a, at_atoms at' !! k = Some a /\ atom_txt a = b)
        \/ ((b ∉ (atom_txt <$> at_atoms at')) /\ k = length (at_atoms at')
            /\ at_atoms at2
               = at_atoms at'
                 ++ [{| atom_len := len b; atom_hash := norm_hash b;
                        atom_iatom := Some k; atom_txt := b |}])).
Proof.
  intros WF Hs Hb Hfold. rewrite atomize_fuel_S.
  destruct (at_find_or_add_spec at' b WF Hs Hb)
    as [(at2 & p & a & -> & WF2 & Hat & Hsp & Hp & Ha)|(Hout & at2 & -> & WF2 & Hat & Hsp)];
    cbn [rbind negb].
  - exists at2, p. split_and!; [done..|]. left. split; [done|]. by exists a.
  - apply need_fold_false in Hfold. rewrite Hfold. cbn [rbind].
    eexists _, _. split; [done|]. split_and!.
    + by apply wf0_set_iatom.
    + done.
    + right. split_and!; [done..|]. cbn. rewrite Hat.
      rewrite alter_app_r_alt by lia. by rewrite Nat.sub_diag.
Qed.

(** The contract of [drsh_at_atomize] on a table that satisfies the
    invariant. *)
Lemma atomize_spec at' txt :
  at_wf at' -> at_count at' + 2 <= 2 ^ 28 -> len txt < UINT32_MAX ->
  exists at2 p,
    drsh_at_atomize at' txt = Ok (at2, p)
    /\ at_wf at2
    /\ at_special at2 = at_special at'
    /\ at_atoms at' `prefix_of` at_atoms at2
    /\ txt_of at2 p = Some txt
    /\ at_count at2 <= at_count at' + 2
    /\ (txt ∈ (atom_txt <$> at_atoms at') -> at_atoms at2 = at_atoms at').
Proof.
  intros [WF Hfold] Hs Htxt. unfold drsh_at_atomize. rewrite atomize_fuel_S.
  destruct (at_find_or_add_spec at' txt WF ltac:(lia) Htxt)
    as [(at2 & p & a & -> & WF2 & Hat & Hsp & Hp & Ha)|(Hout & at2 & -> & WF2 & Hat & Hsp)];
    cbn [rbind negb].
  { exists at2, p. split_and!; try done.
    - split; [done|]. intros j Hj. rewrite Hat in Hj.
      eapply folded_prefix; [by apply Hfold|]. by rewrite Hat.
    - by rewrite Hat.
    - unfold txt_of. by rewrite Hat, Hp, <- Ha.
    - unfold at_count. rewrite Hat. lia. }
  remember (length (at_atoms at')) as n eqn:Hn0.
  set (a0 := {| atom_len := len txt; atom_hash := norm_hash txt;
                atom_iatom := None; atom_txt := txt |}) in *.
  assert (Hc2 : at_count at2 = at_count at' + 1).
  { unfold at_count. rewrite Hat, len_app. done. }
  assert (Hlenb : len (or20 <$> txt) < UINT32_MAX).
  { unfold len in *. by rewrite length_fmap. }
  destruct (existsb _ txt) eqn:Hneed.
  - (* the folded text differs: nested call *)
    apply need_fold_true in Hneed.
    destruct (atomize_own_fold 0 at2 (or20 <$> txt) WF2 ltac:(lia) Hlenb
                (or20_fmap_idem txt))
      as (at3 & k & -> & WF3 & Hsp3 & Hcase).
    cbn [rbind]. eexists _, n. split; [done|].
    destruct Hcase as [(Hat3 & b & Hk & Hb)|(Hout3 & -> & Hat3)].
    + (* the sibling existed *)
      assert (Hkn : (k < n)%nat).
      { rewrite Hat in Hk. apply lookup_app_Some in Hk as [Hk|[_ Hk]].
        - apply lookup_lt_Some in Hk. lia.
        - apply list_lookup_singleton_Some in Hk as [_ <-]. cbn in Hb. congruence. }
      assert (Hk' : at_atoms at' !! k = Some b).
      { rewrite Hat in Hk. by rewrite lookup_app_l in Hk by lia. }
      assert (Hfinal : alter (fun x => atom_set_iatom x (Some k)) n (at_atoms at3)
                       = at_atoms at' ++ [atom_set_iatom a0 (Some k)]).
      { rewrite Hat3, Hat, alter_app_r_alt by lia.
        by rewrite <- Hn0, Nat.sub_diag. }
      split_and!.
      * split; [by apply wf0_set_iatom|]. cbn. rewrite Hfinal. intros j Hj.
        rewrite length_app in Hj. cbn in Hj.
        destruct (decide (j < n)%nat) as [Hjn|Hjn].
        -- eapply folded_prefix; [by apply Hfold|]. cbn.
           by apply prefix_app_r.
        -- assert (j = n) as -> by lia.
           exists (atom_set_iatom a0 (Some k)), k, b. cbn.
           split_and!; [|done| |done].
           ++ by rewrite lookup_app_r, <- Hn0, Nat.sub_diag by lia.
           ++ by rewrite lookup_app_l by lia.
      * cbn. congruence.
      * cbn. rewrite Hfinal. by apply prefix_app_r.
      * unfold txt_of. cbn. rewrite Hfinal. by rewrite lookup_app_r, <- Hn0, Nat.sub_diag by lia.
      * unfold at_count in *. cbn. rewrite Hfinal, len_app. change (len [_]) with 1. lia.
      * done.
    + (* the sibling is new and is its own sibling *)
      assert (Hn2 : length (at_atoms at2) = S n).
      { rewrite Hat, length_app. cbn. lia. }
      rewrite Hn2 in Hat3 |- *.
      set (b0 := {| atom_len := len (or20 <$> txt); atom_hash := norm_hash (or20 <$> txt);
                    atom_iatom := Some (S n); atom_txt := or20 <$> txt |}) in *.
      assert (Hfinal : alter (fun x => atom_set_iatom x (Some (S n))) n (at_atoms at3)
                       = at_atoms at' ++ [atom_set_iatom a0 (Some (S n)); b0]).
      { rewrite Hat3, Hat, <- app_assoc, alter_app_r_alt by lia.
        by rewrite <- Hn0, Nat.sub_diag. }
      split_and!.
      * split; [by apply wf0_set_iatom|]. cbn. rewrite Hfinal. intros j Hj.
        rewrite length_app in Hj. cbn in Hj.
        destruct (decide (j < n)%nat) as [Hjn|Hjn].
        -- eapply folded_prefix; [by apply Hfold|]. cbn.
           by apply prefix_app_r.
        -- destruct (decide (j = n)) as [->|Hjn'].
           ++ exists (atom_set_iatom a0 (Some (S n))), (S n), b0. cbn.
              split_and!; [|done| |done].
              ** by rewrite lookup_app_r, <- Hn0, Nat.sub_diag by lia.
              ** rewrite lookup_app_r by lia.
                 by replace (S n - length (at_atoms at'))%nat with 1%nat by lia.
           ++ assert (j = S n) as -> by lia.
              exists b0, (S n), b0. cbn.
              assert (Hb0 : (at_atoms at' ++ [atom_set_iatom a0 (Some (S n)); b0]) !! S n
                            = Some b0).
              { rewrite lookup_app_r by lia.
                by replace (S n - length (at_atoms at'))%nat with 1%nat by lia. }
              split_and!; [done|done|done|].
              cbn. by rewrite or20_fmap_idem.
      * cbn. congruence.
      * cbn. rewrite Hfinal. by apply prefix_app_r.
      * unfold txt_of. cbn. rewrite Hfinal. by rewrite lookup_app_r, <- Hn0, Nat.sub_diag by lia.
      * unfold at_count in *. cbn. rewrite Hfinal, len_app.
        change (len [_; _]) with 2. lia.
      * done.
  - (* the text is its own fold *)
    apply need_fold_false in Hneed. cbn [rbind].
    assert (Hfinal : alter (fun x => atom_set_iatom x (Some n)) n (at_atoms at2)
                     = at_atoms at' ++ [atom_set_iatom a0 (Some n)]).
    { rewrite Hat, alter_app_r_alt by lia. by rewrite <- Hn0, Nat.sub_diag. }
    eexists _, n. split; [done|]. split_and!.
    + split; [by apply wf0_set_iatom|]. cbn. rewrite Hfinal. intros j Hj.
      rewrite length_app in Hj. cbn in Hj.
      destruct (decide (j < n)%nat) as [Hjn|Hjn].
      * eapply folded_prefix; [by apply Hfold|]. cbn.
        by apply prefix_app_r.
      * assert (j = n) as -> by lia.
        exists (atom_set_iatom a0 (Some n)), n, (atom_set_iatom a0 (Some n)).
        cbn.
        split_and!; [|done| |done]; by rewrite lookup_app_r, <- Hn0, Nat.sub_diag by lia.
    + done.
    + cbn. rewrite Hfinal. by apply prefix_app_r.
    + unfold txt_of. cbn. rewrite Hfinal. by rewrite lookup_app_r, <- Hn0, Nat.sub_diag by lia.
    + unfold at_count in *. cbn. rewrite Hfinal, len_app. change (len [_]) with 1. lia.
    + done.
Qed.
End AtomizeFacts.

Lemma txt_of_prefix at1 at2 p s :
  txt_of at1 p = Some s -> at_atoms at1 `prefix_of` at_atoms at2 -> txt_of at2 p = Some s.
Proof.
  unfold txt_of. intros E Hp. destruct (at_atoms at1 !! p) as [a|] eqn:Ha; [|done].
  by rewrite (prefix_lookup_Some _ _ _ _ Ha Hp).
Qed.

Lemma ascii_lower_or20 c d : ascii_lower c = ascii_lower d -> or20 c = or20 d.
Proof.
  assert (Hup : forall x, 65 <= x <= 90 -> or20 x = x + 32 /\ or20 (x + 32) = x + 32).
  { intros x Hx. assert (exists n : nat, x = 65 + Z.of_nat n /\ (n < 26)%nat) as (n & -> & Hn).
    { exists (Z.to_nat (x - 65)). lia. }
    do 26 (destruct n as [|n]; [by vm_compute|]). lia. }
  unfold ascii_lower. intros E.
  destruct (Z.leb_spec 65 c), (Z.leb_spec c 90), (Z.leb_spec 65 d), (Z.leb_spec d 90);
    cbn [andb] in E; try (by subst); try (by f_equal; lia).
  - subst d. destruct (Hup c ltac:(lia)) as [-> ->]. done.
  - subst c. destruct (Hup d ltac:(lia)) as [-> ->]. done.
Qed.

Lemma ascii_case_eq_or20 (a b : list Z) : ascii_case_eq a b -> or20 <$> a = or20 <$> b.
Proof.
  unfold ascii_case_eq. revert b. induction a as [|c a IH]; intros [|d b] E; try done.
  cbn in E. injection E as Hc E. cbn. f_equal; [by apply ascii_lower_or20|by apply IH].
Qed.

Section AtomizeRuns.
Context `{Hash}.

Lemma atomize_all_spec (strs : list (list Z)) : forall at',
  at_wf at' ->
  at_count at' + 2 * len strs + 2 <= 2 ^ 28 ->
  Forall (fun s => len s < UINT32_MAX) strs ->
  exists at2 ps,
    atomize_all at' strs = Ok (at2, ps)
    /\ at_wf at2
    /\ at_atoms at' `prefix_of` at_atoms at2
    /\ at_special at2 = at_special at'
    /\ Forall2 (fun p s => txt_of at2 p = Some s) ps strs.
Proof.
  induction strs as [|s strs IH]; intros at' WF Hs Hl.
  { exists at', []. split_and!; [done|done|done|done|constructor]. }
  apply Forall_cons in Hl as [Hl1 Hl]. rewrite len_cons in Hs.
  pose proof (len_nonneg strs).
  destruct (atomize_spec at' s WF ltac:(lia) Hl1)
    as (at1 & p & E1 & WF1 & Hsp1 & Hp1 & Ht1 & Hc1 & _).
  destruct (IH at1 WF1 ltac:(lia) Hl) as (at2 & ps & E2 & WF2 & Hp2 & Hsp2 & Hall).
  exists at2, (p :: ps). cbn [atomize_all]. rewrite E1. cbn [rbind]. rewrite E2. cbn [rbind].
  split_and!; [done|done|by etrans|congruence|].
  constructor; [by eapply txt_of_prefix|done].
Qed.

(** Two pointers into a table that satisfies the invariant are equal
    exactly when they designate the same text. *)
Lemma txt_of_inj at' p q a b :
  at_wf at' -> txt_of at' p = Some a -> txt_of at' q = Some b -> (p = q <-> a = b).
Proof.
  intros [[_ _ _ Hnd] _] Hp Hq. split; [intros ->; congruence|intros ->].
  unfold txt_of in *. rewrite <- list_lookup_fmap in Hp, Hq.
  by eapply NoDup_lookup.
Qed.

Lemma ifold_of_spec at' p a :
  at_wf at' -> txt_of at' p = Some a ->
  exists k, ifold_of at' p = Some k /\ txt_of at' k = Some (or20 <$> a).
Proof.
  intros WF Hp. unfold txt_of in Hp.
  destruct (at_atoms at' !! p) as [x|] eqn:Hx; [|done]. injection Hp as <-.
  destruct (aw_fold _ WF p) as (x' & k & y & Hx' & Hk & Hy & Hty).
  { by eapply lookup_lt_Some. }
  rewrite Hx in Hx'. injection Hx' as <-. exists k. unfold ifold_of, txt_of.
  rewrite Hx, Hy. cbn. by rewrite Hk, Hty.
Qed.

Lemma returned_txt at' ps strs p a :
  Forall2 (fun p s => txt_of at' p = Some s) ps strs ->
  returned ps strs p a -> txt_of at' p = Some a.
Proof.
  intros Hall (i & Hp & Ha). by eapply (Forall2_lookup_lr _ _ _ _ _ _ Hall).
Qed.

Lemma atomize_all_count (strs : list (list Z)) : forall at' at2 ps,
  at_wf at' ->
  at_count at' + 2 * len strs + 2 <= 2 ^ 28 ->
  Forall (fun s => len s < UINT32_MAX) strs ->
  atomize_all at' strs = Ok (at2, ps) ->
  at_count at2 <= at_count at' + 2 * len strs.
Proof.
  induction strs as [|s strs IH]; intros at' at2 ps WF Hs Hl E.
  { cbn [atomize_all] in E. injection E as <- _. unfold len. cbn [length]. lia. }
  apply Forall_cons in Hl as [Hl1 Hl]. rewrite len_cons in Hs |- *.
  pose proof (len_nonneg strs).
  destruct (atomize_spec at' s WF ltac:(lia) Hl1)
    as (at1 & p & E1 & WF1 & _ & _ & _ & Hc1 & _).
  cbn [atomize_all] in E. rewrite E1 in E. cbn [rbind] in E.
  destruct (atomize_all at1 strs) as [[at3 ps3]| |] eqn:E2; cbn [rbind] in E; try discriminate.
  injection E as <- _.
  pose proof (IH at1 at3 ps3 WF1 ltac:(lia) Hl E2). lia.
Qed.

(** C6. In every run of [atomize] calls on one table, started empty,
    every call returns an atom of the table that carries the string of
    the call, and two calls return the same atom exactly when their
    strings are byte-equal; no text is stored twice, and the table holds
    two atoms a call at most.  A call on a text the table holds already
    returns the atom that holds it and leaves the atoms of the table as
    they are.  (The hypotheses keep the run inside the 32-bit ranges of
    the table.) *)
Theorem atomize_unique (strs : list (list Z)) :
  Forall (fun s => len s < UINT32_MAX) strs ->
  2 * len strs + 2 <= 2 ^ 28 ->
  exists at' ps,
    atomize_all at_zero strs = Ok (at', ps)
    /\ Forall2 (fun p s => txt_of at' p = Some s) ps strs
    /\ (forall p q a b, returned ps strs p a -> returned ps strs q b -> (p = q <-> a = b))
    /\ NoDup (atom_txt <$> at_atoms at')
    /\ at_count at' <= 2 * len strs
    /\ (forall q s, txt_of at' q = Some s ->
          exists at2,
            drsh_at_atomize at' s = Ok (at2, q) /\ at_atoms at2 = at_atoms at').
Proof.
  intros Hl Hs.
  assert (Hs0 : at_count at_zero + 2 * len strs + 2 <= 2 ^ 28).
  { change (at_count at_zero) with 0. lia. }
  destruct (atomize_all_spec strs at_zero at_zero_wf Hs0 Hl)
    as (at' & ps & E & WF & _ & _ & Hall).
  pose proof (atomize_all_count strs at_zero at' ps at_zero_wf Hs0 Hl E) as Hc.
  change (at_count at_zero) with 0 in Hc.
  exists at', ps. split_and!; [done|done| |by apply WF|lia|].
  - intros p q a b Hp Hq.
    eapply txt_of_inj; [done|by eapply returned_txt..].
  - intros q s Hq.
    assert (Hin : exists a, at_atoms at' !! q = Some a /\ atom_txt a = s).
    { unfold txt_of in Hq. destruct (at_atoms at' !! q) as [a|]; [|discriminate].
      injection Hq as <-. by exists a. }
    destruct Hin as (a & Ha & Hta).
    assert (Hlen : len s < UINT32_MAX).
    { rewrite <- Hta. apply (aw_atoms _ (aw_wf0 _ WF) q a Ha). }
    destruct (atomize_spec at' s WF ltac:(lia) Hlen)
      as (at2 & p & E2 & WF2 & _ & Hp & Htxt & _ & Hold).
    assert (Hsame : at_atoms at2 = at_atoms at').
    { apply Hold. apply list_elem_of_fmap. exists a. split; [done|].
      by eapply list_elem_of_lookup_2. }
    assert (Hqp : q = p).
    { apply (txt_of_inj at2 q p s s WF2 (txt_of_prefix _ _ _ _ Hq Hp) Htxt). reflexivity. }
    exists at2. subst p. by split.
Qed.

(** C1 (amended).  In every run of [atomize] calls on one table, two
    returned atoms have the same [ifold] sibling exactly when their
    strings are equal after OR-ing [0x20] into every byte, which ASCII
    case-equal strings are; every atom's sibling is the atom of its text
    with [0x20] OR-ed into every byte, and is the atom itself when that
    leaves the text unchanged. *)
Theorem atomize_ifold (strs : list (list Z)) :
  Forall (fun s => len s < UINT32_MAX) strs ->
  2 * len strs + 2 <= 2 ^ 28 ->
  exists at' ps,
    atomize_all at_zero strs = Ok (at', ps)
    /\ (forall p q a b, returned ps strs p a -> returned ps strs q b ->
          (ifold_of at' p = ifold_of at' q <-> or20 <$> a = or20 <$> b)
          /\ (ascii_case_eq a b -> ifold_of at' p = ifold_of at' q))
    /\ (forall p a, txt_of at' p = Some a ->
          exists k, ifold_of at' p = Some k /\ txt_of at' k = Some (or20 <$> a)
                    /\ (or20 <$> a = a -> k = p)).
Proof.
  intros Hl Hs.
  destruct (atomize_all_spec strs at_zero at_zero_wf ltac:(change (at_count at_zero) with 0; lia) Hl)
    as (at' & ps & E & WF & _ & _ & Hall).
  exists at', ps. split_and!; [done| |].
  - intros p q a b Hp Hq.
    destruct (ifold_of_spec at' p a WF) as (k & Hk & Hkt); [by eapply returned_txt|].
    destruct (ifold_of_spec at' q b WF) as (l & Hl' & Hlt); [by eapply returned_txt|].
    rewrite Hk, Hl'.
    assert (Hiff : Some k = Some l <-> or20 <$> a = or20 <$> b).
    { rewrite <- (txt_of_inj at' k l _ _ WF Hkt Hlt). split; congruence. }
    split; [done|]. intros Hc. apply Hiff. by apply ascii_case_eq_or20.
  - intros p a Hp. destruct (ifold_of_spec at' p a WF Hp) as (k & Hk & Hkt).
    exists k. split_and!; [done..|]. intros Hself. rewrite Hself in Hkt.
    by apply (txt_of_inj at' k p a a WF Hkt Hp).
Qed.
End AtomizeRuns.

Lemma atomize_unique_witness :
  exists at' ps,
    atomize_all at_zero [bytes_of "Path"; bytes_of "path"; bytes_of "Path"] = Ok (at', ps)
    /\ Forall2 (fun p s => txt_of at' p = Some s) ps
         [bytes_of "Path"; bytes_of "path"; bytes_of "Path"]
    /\ (forall p q a b,
          returned ps [bytes_of "Path"; bytes_of "path"; bytes_of "Path"] p a ->
          returned ps [bytes_of "Path"; bytes_of "path"; bytes_of "Path"] q b ->
          (p = q <-> a = b))
    /\ NoDup (atom_txt <$> at_atoms at')
    /\ at_count at' <= 2 * len [bytes_of "Path"; bytes_of "path"; bytes_of "Path"]
    /\ (forall q s, txt_of at' q = Some s ->
          exists at2,
            drsh_at_atomize at' s = Ok (at2, q) /\ at_atoms at2 = at_atoms at').
Proof.
  apply (@atomize_unique murmur).
  - repeat constructor.
  - by vm_compute.
Defined.

Lemma atomize_ifold_witness :
  exists at' ps,
    atomize_all at_zero [bytes_of "Path"; bytes_of "PATH"] = Ok (at', ps)
    /\ (forall p q a b,
          returned ps [bytes_of "Path"; bytes_of "PATH"] p a ->
          returned ps [bytes_of "Path"; bytes_of "PATH"] q b ->
          (ifold_of at' p = ifold_of at' q <-> or20 <$> a = or20 <$> b)
          /\ (ascii_case_eq a b -> ifold_of at' p = ifold_of at' q))
    /\ (forall p a, txt_of at' p = Some a ->
          exists k, ifold_of at' p = Some k /\ txt_of at' k = Some (or20 <$> a)
                    /\ (or20 <$> a = a -> k = p)).
Proof.
  apply (@atomize_ifold murmur).
  - repeat constructor.
  - by vm_compute.
Defined.

(** C1 as stated fails: [@] (0x40) and the backquote (0x60) are not
    letters, so the two one-byte strings are not ASCII case-equal, yet
    their atoms share the [ifold] sibling. *)
Lemma atomize_ifold_counterexample :
  exists at' p q,
    atomize_all at_zero [[64]; [96]] = Ok (at', [p; q])
    /\ ifold_of at' p = ifold_of at' q
    /\ ~ ascii_case_eq [64] [96].
Proof.
  eexists _, _, _. split; [by vm_compute|]. split; [by vm_compute|].
  by vm_compute.
Qed.

(** ** Environment *)

Lemma assoc_by_lookup f (entries : list (nat * nat)) : forall (j : nat) k v,
  NoDup ((fun e => f e.1) <$> entries) ->
  entries !! j = Some (k, v) -> assoc_by f (f k) entries = Some v.
Proof.
  induction entries as [|[k0 v0] entries IH]; intros j k v Hnd Hj; [done|].
  cbn [assoc_by]. destruct j as [|j]; cbn in Hj.
  { injection Hj as -> ->. by rewrite decide_True. }
  cbn in Hnd. apply NoDup_cons in Hnd as [Hnotin Hnd].
  rewrite decide_False; [by eapply IH|]. intros E. apply Hnotin.
  apply list_elem_of_fmap. exists (k, v). split; [done|]. by eapply list_elem_of_lookup_2.
Qed.

Lemma assoc_by_none f l (entries : list (nat * nat)) :
  l ∉ ((fun e => f e.1) <$> entries) -> assoc_by f l entries = None.
Proof.
  induction entries as [|[k0 v0] entries IH]; intros Hout; [done|].
  cbn [assoc_by]. cbn in Hout. apply not_elem_of_cons in Hout as [Hne Hout].
  rewrite decide_False by done. by apply IH.
Qed.

Lemma assoc_by_app_new f l l' k v (entries : list (nat * nat)) :
  f k = l -> l ∉ ((fun e => f e.1) <$> entries) ->
  assoc_by f l' (entries ++ [(k, v)])
  = if decide (l' = l) then Some v else assoc_by f l' entries.
Proof.
  intros Hk. induction entries as [|[k0 v0] entries IH]; intros Hout; cbn.
  { rewrite Hk. destruct (decide (l = l')), (decide (l' = l)); congruence. }
  apply not_elem_of_cons in Hout as [Hne Hout]. cbn in Hne.
  rewrite IH by done. destruct (decide (f k0 = l')), (decide (l' = l)); congruence.
Qed.

Lemma assoc_by_alter f l l' knew v (entries : list (nat * nat)) : forall (j : nat) k0 v0,
  NoDup ((fun e => f e.1) <$> entries) ->
  entries !! j = Some (k0, v0) -> f k0 = l -> f knew = l ->
  assoc_by f l' (alter (fun _ => (knew, v)) j entries)
  = if decide (l' = l) then Some v else assoc_by f l' entries.
Proof.
  induction entries as [|[k1 v1] entries IH]; intros j k0 v0 Hnd Hj Hk0 Hnew; [done|].
  cbn in Hnd. apply NoDup_cons in Hnd as [Hnotin Hnd]. destruct j as [|j]; cbn in Hj |- *.
  - injection Hj as -> ->. rewrite Hk0, Hnew.
    destruct (decide (l = l')), (decide (l' = l)); congruence.
  - rewrite (IH j k0 v0) by done.
    assert (f k1 <> l).
    { intros E. apply Hnotin. apply list_elem_of_fmap. exists (k0, v0).
      split; [cbn; congruence|]. by eapply list_elem_of_lookup_2. }
    destruct (decide (f k1 = l')), (decide (l' = l)); congruence.
Qed.

Lemma res_map_ok {A B} (f : A -> res B) (g : A -> B) (l : list A) :
  Forall (fun x => f x = Ok (g x)) l -> res_map f l = Ok (g <$> l).
Proof.
  induction 1 as [|x l Hx _ IH]; [done|]. cbn. by rewrite Hx, IH.
Qed.

Section EnvFacts.
Context `{Hash}.
Variable at' : DrshAtomTable.
Hypothesis WF : at_wf at'.

Lemma atom_at_valid p : valid_atom at' p -> exists a, atom_at at' p = Ok a /\ at_atoms at' !! p = Some a.
Proof using.
  intros Hp. destruct (lookup_lt_is_Some_2 _ _ Hp) as [a Ha].
  exists a. unfold atom_at. by rewrite Ha.
Qed.

(** The sibling of a valid atom is a valid atom that is its own sibling. *)
Lemma ifold_valid p :
  valid_atom at' p ->
  exists l, ifold_of at' p = Some l /\ valid_atom at' l /\ ifold_of at' l = Some l.
Proof using WF.
  intros Hp. destruct (lookup_lt_is_Some_2 _ _ Hp) as [a Ha].
  destruct (ifold_of_spec at' p (atom_txt a) WF) as (l & Hl & Hlt).
  { unfold txt_of. by rewrite Ha. }
  exists l. split; [done|].
  assert (Hlv : valid_atom at' l).
  { unfold txt_of in Hlt. destruct (at_atoms at' !! l) eqn:E; [|done].
    by eapply lookup_lt_Some. }
  split; [done|].
  destruct (ifold_of_spec at' l _ WF Hlt) as (l2 & Hl2 & Hl2t). rewrite Hl2. f_equal.
  rewrite or20_fmap_idem in Hl2t. by apply (txt_of_inj at' l2 l _ _ WF Hl2t Hlt).
Qed.

Lemma env_lkey_ok ci k :
  valid_atom at' k ->
  env_lkey at' ci k = Ok (lkey_of at' ci k)
  /\ valid_atom at' (lkey_of at' ci k)
  /\ lkey_of at' ci (lkey_of at' ci k) = lkey_of at' ci k.
Proof using WF.
  intros Hk. unfold env_lkey, lkey_of, atom_iatom_at. destruct ci.
  - destruct (ifold_valid k Hk) as (l & Hl & Hlv & Hll).
    destruct (atom_at_valid k Hk) as (a & -> & Ha). cbn [rbind].
    assert (Hl' := Hl). unfold ifold_of in Hl'. rewrite Ha in Hl'. cbn in Hl'.
    rewrite Hl', Hl. cbn. by rewrite Hll.
  - destruct (atom_at_valid k Hk) as (a & -> & Ha). done.
Qed.

Lemma env_lhash_ok ci k :
  valid_atom at' k -> env_lhash at' ci k = Ok (lhash_of at' ci k).
Proof using WF.
  intros Hk. unfold env_lhash, lhash_of.
  destruct (env_lkey_ok ci k Hk) as (-> & Hv & _). cbn [rbind].
  destruct (atom_at_valid _ Hv) as (a & -> & Ha). cbn [rbind]. by rewrite Ha.
Qed.
End EnvFacts.

Lemma reduce_nonneg h cap : 0 <= cap -> 0 <= drsh_fast_reduce32 h cap.
Proof.
  intros Hc. unfold drsh_fast_reduce32. rewrite Z.shiftr_div_pow2 by lia.
  assert (0 <= wrap32 h) by (apply Z.mod_pos_bound; lia).
  assert (0 <= wrap32 cap) by (apply Z.mod_pos_bound; lia).
  apply Z.div_pos; nia.
Qed.

(** The two outcomes of a table walk whose test is decided by a predicate
    [P] on entry positions. *)
Section TableWalk.
Variables (cap : Z) (idxes hashes : list Z).
Hypothesis WF : index_wf cap idxes hashes.
Variable matches : Z -> res bool.
Variable P : nat -> bool.
Hypothesis Hmatch : forall (s : nat) v,
  idxes !! s = Some v -> v <> 0 -> matches v = Ok (P (Z.to_nat (v - 1))).

Lemma walk_found (j : nat) h :
  hashes !! j = Some h -> P j = true ->
  (forall j' : nat, (j' < length hashes)%nat -> P j' = true -> j' = j) ->
  probe matches cap idxes (probe_fuel idxes) (drsh_fast_reduce32 h cap)
  = ProbeFound (Z.of_nat j + 1).
Proof using WF Hmatch.
  intros Hj HP Huniq. pose proof (iw_cap _ _ _ WF) as [Hc0 Hcb].
  destruct (iw_chain _ _ _ WF j h Hj) as (s & Hs & Hhs & Hrun).
  pose proof (reduce_nonneg h cap Hc0).
  apply (probe_hit matches cap idxes Hcb (iw_len _ _ _ WF) s _
           (Z.to_nat (Z.of_nat s - drsh_fast_reduce32 h cap))).
  - done.
  - lia.
  - rewrite (Hmatch s) by (done || lia).
    replace (Z.to_nat (Z.of_nat j + 1 - 1)) with j by lia. by rewrite HP.
  - lia.
  - done.
  - unfold probe_fuel. apply lookup_lt_Some in Hs. lia.
  - intros t Ht. destruct (Hrun t Ht) as (w & Hw & Hwz). exists w.
    split_and!; [done..|]. rewrite (Hmatch t w Hw Hwz). f_equal.
    destruct (P (Z.to_nat (w - 1))) eqn:HPw; [|done]. exfalso.
    pose proof (iw_range _ _ _ WF _ _ Hw Hwz) as Hr. unfold len in Hr.
    assert (Z.to_nat (w - 1) = j) by (apply Huniq; [lia|done]).
    assert (w = Z.of_nat j + 1) by lia. subst w.
    pose proof (iw_inj _ _ _ WF _ _ _ Hw Hs ltac:(lia)). lia.
Qed.

Lemma walk_empty h :
  len hashes < cap ->
  (forall j' : nat, (j' < length hashes)%nat -> P j' = false) ->
  exists e : nat,
    probe matches cap idxes (probe_fuel idxes) (drsh_fast_reduce32 h cap)
    = ProbeEmpty (Z.of_nat e)
    /\ idxes !! e = Some 0
    /\ drsh_fast_reduce32 h cap <= Z.of_nat e
    /\ forall t : nat, drsh_fast_reduce32 h cap <= Z.of_nat t < Z.of_nat e ->
         exists v, idxes !! t = Some v /\ v <> 0.
Proof using WF Hmatch.
  intros Hload Hnone. pose proof (iw_cap _ _ _ WF) as [Hc0 Hcb].
  pose proof (len_nonneg hashes).
  pose proof (reduce_range h cap ltac:(lia)) as Hh.
  destruct (index_free_slot _ _ _ WF _ Hload Hh) as (e & He & Hhe & Hrun).
  exists e. split_and!; [|done..].
  apply (probe_miss matches cap idxes Hcb (iw_len _ _ _ WF) e
           (Z.to_nat (Z.of_nat e - drsh_fast_reduce32 h cap))).
  - done.
  - lia.
  - lia.
  - unfold probe_fuel. apply lookup_lt_Some in He. lia.
  - intros t Ht. destruct (Hrun t Ht) as (w & Hw & Hwz). exists w.
    split_and!; [done..|]. rewrite (Hmatch t w Hw Hwz). f_equal.
    pose proof (iw_range _ _ _ WF _ _ Hw Hwz) as Hr. unfold len in Hr.
    apply Hnone. lia.
Qed.
End TableWalk.

Section EnvOps.
Context `{Hash}.
Variable at' : DrshAtomTable.
Hypothesis WF : at_wf at'.

Lemma env_lhash_lkey ci k a :
  at_atoms at' !! lkey_of at' ci k = Some a -> lhash_of at' ci k = atom_hash a.
Proof using. intros E. unfold lhash_of. by rewrite E. Qed.

Lemma env_hashes_ok env :
  env_wf at' env ->
  res_map (fun e => env_lhash at' (env_case_insensitive env) e.1) (env_entries env)
  = Ok ((fun e => lhash_of at' (env_case_insensitive env) e.1) <$> env_entries env).
Proof using WF.
  intros EW. apply res_map_ok. eapply Forall_impl; [apply (ew_valid _ _ EW)|].
  intros [k v] [Hk _]. by apply env_lhash_ok.
Qed.

Lemma env_count_hashes env (f : nat * nat -> Z) : len (f <$> env_entries env) = env_count env.
Proof using. unfold env_count, len. by rewrite length_fmap. Qed.

(** The growth check of [drsh_env_set_env] leaves room for one more
    entry. *)
Lemma env_check_spec env :
  env_wf at' env -> env_count env < 2 ^ 28 ->
  exists cap idxes,
    (if env_cap env <=? env_count env * 10 / 8 then env_grow at' env else Ok env)
    = Ok (env_set_table env (env_entries env) cap idxes (env_sorted env))
    /\ env_wf at' (env_set_table env (env_entries env) cap idxes (env_sorted env))
    /\ 32 <= cap /\ env_count env + 1 < cap.
Proof using WF.
  intros EW Hs. assert (Hn : 0 <= env_count env) by apply len_nonneg.
  destruct EW as [Hvalid Hidx Hroom Hcapa Hnd].
  destruct (Z.leb_spec (env_cap env) (env_count env * 10 / 8)) as [Hfull|Hfree].
  - unfold env_grow, env_reindex.
    rewrite env_hashes_ok by by split. cbn [rbind].
    set (cap := if env_cap env =? 0 then 32 else wrap64 (2 * env_cap env)).
    pose proof (iw_load _ _ _ Hidx) as Hload. rewrite env_count_hashes in Hload.
    assert (Hcap : cap = 32 /\ env_cap env = 0 \/ cap = 2 * env_cap env /\ 32 <= env_cap env).
    { unfold cap. destruct (Z.eqb_spec (env_cap env) 0); [by left|right].
      rewrite wrap64_small; lia. }
    assert (Hroom' : 32 <= cap /\ env_count env + 1 < cap) by lia.
    destruct (reindex_spec cap
                ((fun e => lhash_of at' (env_case_insensitive env) e.1) <$> env_entries env)
                [] _ (index_wf_empty cap ltac:(lia) ltac:(lia))) as (idxes & E & WF').
    { change (len []) with 0. rewrite env_count_hashes. lia. }
    change (len []) with 0 in E. rewrite E. cbn [rbind].
    exists cap, idxes. split_and!; [done| |lia|lia].
    split; cbn; [done|done| | |done].
    + right. unfold env_count in *. cbn. lia.
    + unfold env_count in *. cbn.
      destruct Hcap as [[-> _]|[-> ?]]; [by left|right]. Z.div_mod_to_equations. lia.
  - exists (env_cap env), (env_idxes env).
    assert (env_set_table env (env_entries env) (env_cap env) (env_idxes env) (env_sorted env)
            = env) as -> by by destruct env.
    split_and!; [done|by split| |]; Z.div_mod_to_equations; lia.
Qed.

Lemma env_entry_valid env (j : nat) k v :
  env_wf at' env -> env_entries env !! j = Some (k, v) ->
  valid_atom at' k /\ valid_atom at' v.
Proof using.
  intros EW Hj. pose proof (ew_valid _ _ EW) as Hv. rewrite Forall_lookup in Hv.
  exact (Hv j (k, v) Hj).
Qed.

Lemma env_lkey_unique env (j j' : nat) k v k2 v2 :
  env_wf at' env ->
  env_entries env !! j = Some (k, v) -> env_entries env !! j' = Some (k2, v2) ->
  lkey_of at' (env_case_insensitive env) k = lkey_of at' (env_case_insensitive env) k2 ->
  j = j'.
Proof using.
  intros EW Hj Hj' E. eapply NoDup_lookup; [apply (ew_nodup _ _ EW)| |].
  - by rewrite list_lookup_fmap, Hj.
  - rewrite list_lookup_fmap, Hj'. cbn. by rewrite E.
Qed.

(** [drsh_env_set_env] stores the value under the folded key and leaves
    every other entry as it was. *)
Lemma env_set_spec env k v :
  env_wf at' env -> env_count env + 1 < 2 ^ 28 ->
  valid_atom at' k -> valid_atom at' v ->
  exists entries cap idxes sorted,
    drsh_env_set_env at' env k v = Ok (env_set_table env entries cap idxes sorted)
    /\ env_wf at' (env_set_table env entries cap idxes sorted)
    /\ 0 < cap
    /\ env_count env <= len entries <= env_count env + 1
    /\ ((exists (j : nat) k0 v0,
           env_entries env !! j = Some (k0, v0)
           /\ lkey_of at' (env_case_insensitive env) k0
              = lkey_of at' (env_case_insensitive env) k
           /\ entries = alter (fun _ => (if env_case_insensitive env then k else k0, v))
                          j (env_entries env))
        \/ ((lkey_of at' (env_case_insensitive env) k
             ∉ ((fun e => lkey_of at' (env_case_insensitive env) e.1) <$> env_entries env))
            /\ entries = env_entries env ++ [(k, v)]))
    /\ forall k',
         env_lookup at' (env_set_table env entries cap idxes sorted) k'
         = if decide (lkey_of at' (env_case_insensitive env) k'
                      = lkey_of at' (env_case_insensitive env) k)
           then Some v else env_lookup at' env k'.
Proof using WF.
  intros EW Hs Hk Hv. unfold drsh_env_set_env.
  set (ci := env_case_insensitive env).
  destruct (env_lkey_ok at' WF ci k Hk) as (-> & HLv & HLL). cbn [rbind].
  set (L := lkey_of at' ci k) in *.
  destruct (env_check_spec env EW ltac:(lia)) as (cap & idxes & -> & EW1 & Hcap & Hroom).
  cbn [rbind]. set (env1 := env_set_table env (env_entries env) cap idxes (env_sorted env)) in *.
  assert (Hn : 0 <= env_count env) by apply len_nonneg.
  destruct (atom_at_valid at' _ HLv) as (la & -> & Hla). cbn [rbind].
  change (env_cap env1) with cap. change (env_entries env1) with (env_entries env).
  change (env_idxes env1) with idxes. change (env_count env1) with (env_count env).
  change (env_sorted env1) with (env_sorted env).
  pose proof (ew_index _ _ EW1) as Hidx. cbn in Hidx. fold ci in Hidx.
  set (matches := fun i : Z => match env_entries env !! Z.to_nat (i - 1) with
                               | Some (atom, _) => _ | None => UB end).
  set (P := fun j : nat => match env_entries env !! j with
                           | Some (kj, _) => bool_decide (lkey_of at' ci kj = L)
                           | None => false end).
  assert (Hmatch : forall (s : nat) w, idxes !! s = Some w -> w <> 0 ->
             matches w = Ok (P (Z.to_nat (w - 1)))).
  { intros s w Hw Hwz. pose proof (iw_range _ _ _ Hidx _ _ Hw Hwz) as Hr.
    rewrite env_count_hashes in Hr.
    destruct (lookup_lt_is_Some_2 (env_entries env) (Z.to_nat (w - 1))) as [[kj vj] Hj].
    { unfold env_count, len in Hr. lia. }
    unfold matches, P. rewrite Hj.
    destruct (env_entry_valid env _ _ _ EW Hj) as [Hkj _]. unfold lkey_of. destruct ci.
    - destruct (ifold_valid at' WF kj Hkj) as (l & Hl & _).
      destruct (atom_at_valid at' _ Hkj) as (a & -> & Ha). cbn [rbind]. f_equal.
      rewrite Hl. cbn. unfold ifold_of in Hl. rewrite Ha in Hl. cbn in Hl. rewrite Hl.
      apply bool_decide_ext. split; congruence.
    - done. }
  assert (Hhash : forall kj, lkey_of at' ci kj = L -> lhash_of at' ci kj = atom_hash la).
  { intros kj E. apply env_lhash_lkey. by rewrite E. }
  destruct (decide (L ∈ ((fun e => lkey_of at' ci e.1) <$> env_entries env))) as [Hin|Hout].
  - (* the key is stored: the entry is overwritten in place *)
    apply list_elem_of_fmap in Hin as ([kj vj] & HLj & Hin). cbn in HLj.
    apply list_elem_of_lookup in Hin as [j Hj].
    rewrite (walk_found cap idxes _ Hidx matches P Hmatch j (atom_hash la)).
    + replace (Z.to_nat (Z.of_nat j + 1 - 1)) with j by lia.
      set (knew := if ci then k else kj).
      assert (Hknew : lkey_of at' ci knew = L).
      { unfold knew. destruct ci eqn:Hci; [done|]. by rewrite <- HLj. }
      assert (Halter : alter (fun e : nat * nat => (if ci then k else e.1, v)) j (env_entries env)
                       = alter (fun _ => (knew, v)) j (env_entries env)).
      { apply list_alter_ext; [|done]. intros [k0 v0] Hj0. rewrite Hj in Hj0.
        injection Hj0 as <- <-. done. }
      rewrite Halter.
      assert (Hkeys : forall f : nat -> nat, f knew = f kj ->
                 (fun e => f e.1) <$> alter (fun _ => (knew, v)) j (env_entries env)
                 = (fun e => f e.1) <$> env_entries env).
      { intros f Hf. apply list_eq. intros i. rewrite !list_lookup_fmap, list_lookup_alter.
        case_decide; [subst i|done]. rewrite Hj. cbn. by rewrite Hf. }
      eexists _, cap, idxes, _. split; [done|]. split_and!.
      * destruct EW1 as [Hvalid1 _ Hroom1 Hcapa1 Hnd1]. split; cbn.
        -- apply Forall_alter; [done|]. intros [k0 v0] Hj0 _. cbn.
           split; [|done]. unfold knew. destruct ci; [done|].
           by destruct (env_entry_valid env _ _ _ EW Hj).
        -- fold ci.
           assert (Hh' : (fun e => lhash_of at' ci e.1)
                           <$> alter (fun _ => (knew, v)) j (env_entries env)
                         = (fun e => lhash_of at' ci e.1) <$> env_entries env).
           { apply list_eq. intros i. rewrite !list_lookup_fmap, list_lookup_alter.
             case_decide; [subst i|done]. rewrite Hj. cbn.
             by rewrite (Hhash knew), (Hhash kj) by congruence. }
           by rewrite Hh'.
        -- unfold env_count in *. cbn in *. unfold len in *. by rewrite length_alter.
        -- unfold env_count in *. cbn in *. unfold len in *. by rewrite length_alter.
        -- fold ci. rewrite (Hkeys (lkey_of at' ci)) by congruence. apply Hnd1.
      * lia.
      * unfold env_count, len. rewrite length_alter. lia.
      * unfold env_count, len. rewrite length_alter. lia.
      * left. exists j, kj, vj. split_and!; [exact Hj|symmetry; exact HLj|reflexivity].
      * intros k'. unfold env_lookup. cbn. fold ci.
        rewrite (assoc_by_alter _ L _ knew v _ j kj vj); [done| |done|done|done].
        apply (ew_nodup _ _ EW).
    + rewrite list_lookup_fmap, Hj. cbn. f_equal. by apply Hhash.
    + unfold P. rewrite Hj. by apply bool_decide_eq_true_2.
    + intros j' Hj' HP. unfold P in HP.
      destruct (env_entries env !! j') as [[k2 v2]|] eqn:Hj2; [|done].
      apply bool_decide_eq_true_1 in HP.
      eapply (env_lkey_unique env); [done|done|done|]. fold ci. congruence.
  - (* the key is new: the entry is appended and its slot filled *)
    destruct (walk_empty cap idxes _ Hidx matches P Hmatch (atom_hash la))
      as (e & -> & He & Hhe & Hrun).
    + rewrite env_count_hashes. lia.
    + intros j' Hj'. unfold P.
      destruct (env_entries env !! j') as [[k2 v2]|] eqn:Hj2; [|done].
      apply bool_decide_eq_false_2. intros E. apply Hout.
      apply list_elem_of_fmap. exists (k2, v2). split; [done|].
      by eapply list_elem_of_lookup_2.
    + rewrite (wrap32_small (env_count env)) by lia. rewrite Z.eqb_refl. cbn [negb].
      rewrite (wrap32_small (env_count env + 1)) by lia. rewrite Nat2Z.id.
      eexists _, cap, _, false. split; [done|]. split_and!.
      * destruct EW1 as [Hvalid1 _ Hroom1 Hcapa1 Hnd1]. split; cbn.
        -- apply Forall_app. split; [done|]. by constructor.
        -- fold ci. rewrite fmap_app. cbn.
           pose proof (index_insert cap idxes _ Hidx e (atom_hash la)
                         ltac:(rewrite env_count_hashes; lia) He Hhe Hrun) as Hins.
           rewrite env_count_hashes in Hins.
           by rewrite (Hhash k) by done.
        -- right. unfold env_count in *. cbn. rewrite len_app. change (len [_]) with 1. lia.
        -- unfold env1 in Hcapa1. destruct Hcapa1 as [Hc|Hc]; cbn in Hc; [by left|right].
           unfold env_count in *. cbn in *. rewrite len_app. change (len [_]) with 1. lia.
        -- fold ci. rewrite fmap_app. apply NoDup_app. split_and!; [done| |apply NoDup_singleton].
           intros x Hx Hx'. apply list_elem_of_singleton in Hx'. cbn in Hx'. by subst.
      * lia.
      * unfold env_count. rewrite len_app. change (len [(k, v)]) with 1. lia.
      * unfold env_count. rewrite len_app. change (len [(k, v)]) with 1. lia.
      * right. split; [exact Hout|reflexivity].
      * intros k'. unfold env_lookup. cbn. fold ci.
        by apply assoc_by_app_new.
Qed.
End EnvOps.

Section EnvGet.
Context `{Hash}.
Variable at' : DrshAtomTable.
Hypothesis WF : at_wf at'.

Lemma env_scan_spec L (entries : list (nat * nat)) :
  Forall (fun e => valid_atom at' e.1 /\ valid_atom at' e.2) entries ->
  env_scan at' L entries = Ok (assoc_by (lkey_of at' true) L entries).
Proof using WF.
  induction 1 as [|[k v] entries [Hk _] _ IH]; [done|]. cbn [env_scan assoc_by].
  cbn in Hk. destruct (ifold_valid at' WF k Hk) as (l & Hl & _).
  destruct (atom_at_valid at' _ Hk) as (a & -> & Ha). cbn [rbind].
  unfold lkey_of. rewrite Hl. cbn. unfold ifold_of in Hl. rewrite Ha in Hl. cbn in Hl.
  rewrite Hl. destruct (decide (l = L)) as [->|Hne].
  - by rewrite bool_decide_eq_true_2.
  - rewrite bool_decide_eq_false_2 by congruence. done.
Qed.

(** [drsh_env_get_env] returns the value stored under the folded key, on
    any environment that has been written to. *)
Lemma env_get_spec env k :
  env_wf at' env -> 0 < env_cap env -> valid_atom at' k ->
  drsh_env_get_env at' env k = Ok (env_lookup at' env k).
Proof using WF.
  intros EW Hcap Hk. unfold drsh_env_get_env, env_lookup.
  set (ci := env_case_insensitive env).
  destruct (env_lkey_ok at' WF ci k Hk) as (HL & HLv & HLL).
  set (L := lkey_of at' ci k) in *.
  assert ((if ci then atom_iatom_at at' k else Ok k) = Ok L) as ->.
  { unfold env_lkey in HL. unfold L, lkey_of. destruct ci; [done|]. done. }
  cbn [rbind].
  destruct (atom_at_valid at' _ HLv) as (la & -> & Hla). cbn [rbind].
  pose proof (ew_index _ _ EW) as Hidx. fold ci in Hidx.
  destruct (ew_room _ _ EW) as [|[_ Hroom]]; [lia|].
  set (matches := fun i : Z => match env_entries env !! Z.to_nat (i - 1) with
                               | Some (atom, _) => _ | None => UB end).
  set (P := fun j : nat => match env_entries env !! j with
                           | Some (kj, _) => bool_decide (kj = L)
                           | None => false end).
  assert (Hmatch : forall (s : nat) w, env_idxes env !! s = Some w -> w <> 0 ->
             matches w = Ok (P (Z.to_nat (w - 1)))).
  { intros s w Hw Hwz. pose proof (iw_range _ _ _ Hidx _ _ Hw Hwz) as Hr.
    rewrite env_count_hashes in Hr.
    destruct (lookup_lt_is_Some_2 (env_entries env) (Z.to_nat (w - 1))) as [[kj vj] Hj].
    { unfold env_count, len in Hr. lia. }
    unfold matches, P. by rewrite Hj. }
  destruct (decide (L ∈ (fst <$> env_entries env))) as [Hin|Hout].
  - apply list_elem_of_fmap in Hin as ([kj vj] & HLj & Hin). cbn in HLj. subst kj.
    apply list_elem_of_lookup in Hin as [j Hj].
    rewrite (walk_found _ _ _ Hidx matches P Hmatch j (atom_hash la)).
    + replace (Z.to_nat (Z.of_nat j + 1 - 1)) with j by lia. rewrite Hj. f_equal.
      rewrite <- HLL at 1. symmetry.
      exact (assoc_by_lookup _ _ j L vj (ew_nodup _ _ EW) Hj).
    + rewrite list_lookup_fmap, Hj. cbn. f_equal. apply env_lhash_lkey. by rewrite HLL.
    + unfold P. rewrite Hj. by apply bool_decide_eq_true_2.
    + intros j' Hj' HP. unfold P in HP.
      destruct (env_entries env !! j') as [[k2 v2]|] eqn:Hj2; [|done].
      apply bool_decide_eq_true_1 in HP. subst k2.
      by eapply (env_lkey_unique at' env).
  - destruct (walk_empty _ _ _ Hidx matches P Hmatch (atom_hash la))
      as (e & -> & _).
    + by rewrite env_count_hashes.
    + intros j' Hj'. unfold P.
      destruct (env_entries env !! j') as [[k2 v2]|] eqn:Hj2; [|done].
      apply bool_decide_eq_false_2. intros E. apply Hout.
      apply list_elem_of_fmap. exists (k2, v2). split; [done|].
      by eapply list_elem_of_lookup_2.
    + destruct ci eqn:Hci.
      * apply env_scan_spec, (ew_valid _ _ EW).
      * f_equal. symmetry. apply assoc_by_none.
        by replace ((fun e : nat * nat => lkey_of at' false e.1) <$> env_entries env)
          with (fst <$> env_entries env).
Qed.
End EnvGet.

Section EnvTheorems.
Context `{Hash}.

(** The zeroed environment of [main], with the flavor [drsh_env_init]
    gives it, is an empty map. *)
Lemma env_zero_wf at' ci flavor : env_wf at' (env_set_flavor env_zero ci flavor).
Proof.
  split; cbn.
  - constructor.
  - exact (index_wf_empty 0 ltac:(lia) ltac:(lia)).
  - by left.
  - left. lia.
  - constructor.
Qed.

Lemma lkey_of_mono at1 at2 ci k :
  at_atoms at1 `prefix_of` at_atoms at2 -> valid_atom at1 k ->
  lkey_of at2 ci k = lkey_of at1 ci k.
Proof.
  intros Hp Hk. unfold lkey_of, ifold_of. destruct ci; [|done].
  destruct (lookup_lt_is_Some_2 _ _ Hk) as [a Ha].
  by rewrite Ha, (prefix_lookup_Some _ _ _ _ Ha Hp).
Qed.

Lemma lhash_of_mono at1 at2 ci k :
  at_wf at1 -> at_atoms at1 `prefix_of` at_atoms at2 -> valid_atom at1 k ->
  lhash_of at2 ci k = lhash_of at1 ci k.
Proof.
  intros WF Hp Hk. unfold lhash_of. rewrite (lkey_of_mono at1 at2) by done.
  destruct (env_lkey_ok at1 WF ci k Hk) as (_ & Hv & _).
  destruct (lookup_lt_is_Some_2 _ _ Hv) as [a Ha].
  by rewrite Ha, (prefix_lookup_Some _ _ _ _ Ha Hp).
Qed.

(** Interning more strings does not disturb an environment. *)
Lemma env_wf_mono at1 at2 env :
  at_wf at1 -> at_atoms at1 `prefix_of` at_atoms at2 ->
  env_wf at1 env -> env_wf at2 env.
Proof.
  intros WF Hp [Hvalid Hidx Hroom Hcapa Hnd].
  assert (Hlen : (length (at_atoms at1) <= length (at_atoms at2))%nat)
    by by apply prefix_length.
  assert (Hk : (fun e : nat * nat => lkey_of at2 (env_case_insensitive env) e.1)
                 <$> env_entries env
               = (fun e => lkey_of at1 (env_case_insensitive env) e.1) <$> env_entries env).
  { apply Forall_fmap_ext. eapply Forall_impl; [exact Hvalid|].
    intros [k v] [Hkv _]. by apply lkey_of_mono. }
  assert (Hh : (fun e : nat * nat => lhash_of at2 (env_case_insensitive env) e.1)
                 <$> env_entries env
               = (fun e => lhash_of at1 (env_case_insensitive env) e.1) <$> env_entries env).
  { apply Forall_fmap_ext. eapply Forall_impl; [exact Hvalid|].
    intros [k v] [Hkv _]. by apply lhash_of_mono. }
  split; [|by rewrite Hh|done|done|by rewrite Hk].
  eapply Forall_impl; [exact Hvalid|]. intros [k v] [? ?]. unfold valid_atom in *. cbn in *. lia.
Qed.

Lemma assoc_by_ext f g l (entries : list (nat * nat)) :
  Forall (fun e => f e.1 = g e.1) entries -> assoc_by f l entries = assoc_by g l entries.
Proof.
  induction 1 as [|[k v] entries Hk _ IH]; [done|]. cbn in *. by rewrite Hk, IH.
Qed.

Lemma env_lookup_mono at1 at2 env k :
  at_atoms at1 `prefix_of` at_atoms at2 -> env_wf at1 env -> valid_atom at1 k ->
  env_lookup at2 env k = env_lookup at1 env k.
Proof.
  intros Hp EW Hk. unfold env_lookup. rewrite (lkey_of_mono at1 at2) by done.
  apply assoc_by_ext. eapply Forall_impl; [exact (ew_valid _ _ EW)|].
  intros [k0 v0] [Hk0 _]. by apply lkey_of_mono.
Qed.

(** Atoms of ASCII case-equal texts are indexed under the same key on a
    case-insensitive environment. *)
Lemma lkey_of_case_eq at' k1 k2 a b :
  at_wf at' -> txt_of at' k1 = Some a -> txt_of at' k2 = Some b ->
  ascii_case_eq a b -> lkey_of at' true k1 = lkey_of at' true k2.
Proof.
  intros WF H1 H2 Hc. unfold lkey_of.
  destruct (ifold_of_spec at' k1 a WF H1) as (l1 & -> & Hl1).
  destruct (ifold_of_spec at' k2 b WF H2) as (l2 & -> & Hl2). cbn.
  apply (txt_of_inj at' l1 l2 _ _ WF Hl1 Hl2). by apply ascii_case_eq_or20.
Qed.

Lemma txt_of_valid at' k a : txt_of at' k = Some a -> valid_atom at' k.
Proof.
  unfold txt_of, valid_atom. intros E.
  destruct (at_atoms at' !! k) eqn:Ek; [|done]. by eapply lookup_lt_Some.
Qed.

(** X1.  On an atom table and an environment that satisfy their
    invariants (as the empty ones do, and as [drsh_at_atomize] and
    [drsh_env_set_env] preserve), [get(k)] right after [set(k, v)]
    returns [v]; and on a case-insensitive environment that has been
    written to, [get] of two keys whose texts are ASCII case-equal
    returns the same result, which is the stored value when one of them
    is stored. *)
Theorem env_round_trip (at' : DrshAtomTable) (env : DrshEnvironment) :
  at_wf at' -> env_wf at' env -> env_count env + 1 < 2 ^ 28 ->
  (forall k v, valid_atom at' k -> valid_atom at' v ->
     exists env',
       drsh_env_set_env at' env k v = Ok env'
       /\ env_wf at' env'
       /\ drsh_env_get_env at' env' k = Ok (Some v))
  /\ (env_case_insensitive env = true -> 0 < env_cap env ->
      forall k1 k2 a b,
        txt_of at' k1 = Some a -> txt_of at' k2 = Some b -> ascii_case_eq a b ->
        drsh_env_get_env at' env k1 = Ok (env_lookup at' env k1)
        /\ drsh_env_get_env at' env k2 = Ok (env_lookup at' env k1)).
Proof.
  intros WF EW Hs. split.
  - intros k v Hk Hv.
    destruct (env_set_spec at' WF env k v EW Hs Hk Hv)
      as (entries & cap & idxes & sorted & E & EW' & Hcap & _ & _ & Hlook).
    eexists. split_and!; [done|done|].
    rewrite (env_get_spec at' WF _ k EW' Hcap Hk), Hlook. by rewrite decide_True.
  - intros Hci Hcap k1 k2 a b H1 H2 Hc.
    rewrite !(env_get_spec at' WF env) by (done || by eapply txt_of_valid).
    split; [done|]. f_equal. unfold env_lookup. rewrite Hci.
    by rewrite (lkey_of_case_eq at' k1 k2 a b).
Qed.
End EnvTheorems.

(** ** History *)

Lemma hist_no_repeat_snoc (hist : list nat) p :
  hist_no_repeat hist -> last hist <> Some p -> hist_no_repeat (hist ++ [p]).
Proof.
  intros Hnr Hlast i q Hi Hsi. rewrite last_lookup in Hlast.
  assert (Hlt : (S i < length (hist ++ [p]))%nat) by by eapply lookup_lt_Some.
  rewrite length_app in Hlt. cbn in Hlt.
  rewrite lookup_app_l in Hi by lia.
  destruct (decide (S i < length hist)%nat) as [Hin|Hend].
  - rewrite lookup_app_l in Hsi by lia. exact (Hnr i q Hi Hsi).
  - assert (S i = length hist) as Hsi' by lia. rewrite Hsi' in Hsi.
    rewrite lookup_app_r, Nat.sub_diag in Hsi by lia. injection Hsi as ->.
    apply Hlast. by replace (Nat.pred (length hist)) with i by lia.
Qed.

(** C9 (amended).  [drsh_hist_add] of the empty string changes nothing,
    the history cursor included.  Of any other atom it leaves the cursor
    at the end of the history, which is unchanged when the atom is the
    last entry and one atom longer otherwise.  Either way a history with
    no empty entry and no two consecutive equal entries stays so, and so
    is every history built from an empty one by a run of calls. *)
Theorem hist_add_spec (at' : DrshAtomTable) :
  (forall inp atom a,
     at_atoms at' !! atom = Some a ->
     len (hist_buffer inp) + 1 < 2 ^ 64 ->
     exists inp',
       drsh_hist_add at' inp atom = Ok inp'
       /\ (atom_len a = 0 -> inp' = inp)
       /\ (atom_len a <> 0 ->
           hist_cursor inp' = len (hist_buffer inp')
           /\ hist_buffer inp'
              = if decide (last (hist_buffer inp) = Some atom)
                then hist_buffer inp else hist_buffer inp ++ [atom])
       /\ (hist_no_empty at' (hist_buffer inp) -> hist_no_repeat (hist_buffer inp) ->
           hist_no_empty at' (hist_buffer inp') /\ hist_no_repeat (hist_buffer inp')))
  /\ (forall atoms inp,
        Forall (valid_atom at') atoms ->
        len (hist_buffer inp) + len atoms < 2 ^ 64 ->
        hist_no_empty at' (hist_buffer inp) -> hist_no_repeat (hist_buffer inp) ->
        exists inp',
          hist_add_all at' inp atoms = Ok inp'
          /\ hist_no_empty at' (hist_buffer inp') /\ hist_no_repeat (hist_buffer inp')).
Proof.
  assert (Hone : forall inp atom a,
     at_atoms at' !! atom = Some a ->
     len (hist_buffer inp) + 1 < 2 ^ 64 ->
     exists inp',
       drsh_hist_add at' inp atom = Ok inp'
       /\ (atom_len a = 0 -> inp' = inp)
       /\ (atom_len a <> 0 ->
           hist_cursor inp' = len (hist_buffer inp')
           /\ hist_buffer inp'
              = if decide (last (hist_buffer inp) = Some atom)
                then hist_buffer inp else hist_buffer inp ++ [atom])
       /\ (hist_no_empty at' (hist_buffer inp) -> hist_no_repeat (hist_buffer inp) ->
           hist_no_empty at' (hist_buffer inp') /\ hist_no_repeat (hist_buffer inp'))).
  { intros inp atom a Ha Hb. unfold drsh_hist_add, atom_at. rewrite Ha. cbn [rbind].
    destruct (Z.eqb_spec (atom_len a) 0) as [Hz|Hnz].
    { exists inp. split_and!; [done|done|done|done]. }
    pose proof (len_nonneg (hist_buffer inp)).
    destruct (decide (last (hist_buffer inp) = Some atom)) as [Hlast|Hlast].
    - assert ((len (hist_buffer inp) =? 0) = false) as ->.
      { apply Z.eqb_neq. destruct (hist_buffer inp); [done|]. rewrite len_cons.
        pose proof (len_nonneg l). lia. }
      rewrite bool_decide_eq_true_2 by done. cbn [negb andb].
      eexists. split_and!; [done|done|done|done].
    - rewrite (bool_decide_eq_false_2 _ Hlast), andb_false_r.
      eexists. split_and!; [done|done| |].
      + intros _. cbn. rewrite len_app. change (len [atom]) with 1.
        split; [|done]. apply wrap64_small. lia.
      + intros Hne Hnr. cbn. split; [|by apply hist_no_repeat_snoc].
        apply Forall_app. split; [done|]. constructor; [|done]. by exists a. }
  split; [exact Hone|].
  induction atoms as [|atom atoms IH]; intros inp Hv Hb Hne Hnr.
  { by exists inp. }
  apply Forall_cons in Hv as [Hv1 Hv]. rewrite len_cons in Hb.
  pose proof (len_nonneg atoms).
  destruct (lookup_lt_is_Some_2 _ _ Hv1) as [a Ha].
  destruct (Hone inp atom a Ha ltac:(lia)) as (inp1 & E1 & Hz & Hnz & Hinv).
  destruct (Hinv Hne Hnr) as [Hne1 Hnr1].
  assert (Hlen1 : len (hist_buffer inp1) <= len (hist_buffer inp) + 1).
  { destruct (decide (atom_len a = 0)) as [Hz'|Hnz']; [rewrite (Hz Hz'); lia|].
    destruct (Hnz Hnz') as [_ ->]. case_decide; [lia|]. rewrite len_app. done. }
  destruct (IH inp1 Hv ltac:(lia) Hne1 Hnr1) as (inp2 & E2 & Hne2 & Hnr2).
  exists inp2. cbn [hist_add_all]. rewrite E1. cbn [rbind]. by rewrite E2.
Qed.

(** A table with the atoms of [ls] and of the empty string. *)
Definition hist_sample_table : DrshAtomTable :=
  Eval vm_compute in
    match atomize_all at_zero [bytes_of "ls"; []] with
    | Ok (t, _) => t
    | _ => at_zero
    end.

Definition hist_sample_ls : DrshAtom :=
  Eval vm_compute in
    default {| atom_len := 0; atom_hash := 0; atom_iatom := None; atom_txt := [] |}
      (at_atoms hist_sample_table !! 0%nat).

Lemma hist_add_spec_witness :
  exists inp',
    drsh_hist_add hist_sample_table input_zero 0 = Ok inp'
    /\ hist_cursor inp' = len (hist_buffer inp')
    /\ hist_buffer inp' = [0%nat].
Proof.
  destruct (proj1 (hist_add_spec hist_sample_table) input_zero 0%nat hist_sample_ls
              ltac:(reflexivity) ltac:(reflexivity))
    as (inp' & E & _ & Hnz & _).
  exists inp'. split; [exact E|]. exact (Hnz ltac:(by vm_compute)).
Defined.

(** C9 as stated fails for the empty string: after one entry is added
    and the UP key has moved the history cursor to it, adding the empty
    atom leaves the cursor at [0] although the history has length [1]. *)
Lemma hist_add_empty_counterexample :
  exists inp0 inp1 inp2,
    drsh_hist_add hist_sample_table input_zero 0 = Ok inp0
    /\ drsh_inp_move_up hist_sample_table inp0 = Ok inp1
    /\ txt_of hist_sample_table 1 = Some []
    /\ drsh_hist_add hist_sample_table inp1 1 = Ok inp2
    /\ hist_cursor inp2 = 0
    /\ len (hist_buffer inp2) = 1.
Proof. eexists _, _, _. split_and!; by vm_compute. Qed.

(** ** Program resolver *)

Lemma strchr_None p c : c <> 0 -> strchr p c = None -> c ∉ c_str p.
Proof.
  intros Hc. induction p as [|x p IH]; cbn; [intros _; apply not_elem_of_nil|].
  destruct (Z.eqb_spec x 0) as [|Hx0]; [intros _; apply not_elem_of_nil|].
  destruct (Z.eqb_spec x c) as [|Hxc]; [done|].
  destruct (strchr p c); [done|]. intros _. apply not_elem_of_cons. split; [done|by apply IH].
Qed.

Lemma strchr_Some p c : forall i : nat,
  c <> 0 -> strchr p c = Some i ->
  c_str p = take i p ++ c :: c_str (drop (S i) p)
  /\ (c ∉ take i p) /\ c_str (take i p) = take i p /\ (i < length p)%nat.
Proof.
  induction p as [|x p IH]; intros i Hc; cbn; [done|].
  destruct (Z.eqb_spec x 0) as [|Hx0]; [done|].
  destruct (Z.eqb_spec x c) as [->|Hxc].
  - intros [= <-]. cbn. split_and!; [done|apply not_elem_of_nil|done|lia].
  - destruct (strchr p c) as [j|] eqn:E; [|done]. intros [= <-].
    destruct (IH j Hc eq_refl) as (E1 & E2 & E3 & E4). cbn.
    destruct (Z.eqb_spec x 0) as [|_]; [done|].
    split_and!; [by rewrite E1| |by rewrite E3|lia].
    apply not_elem_of_cons. split; [done|done].
Qed.

Lemma split_fields_last sep s cur : sep ∉ s -> split_fields sep s cur = [cur ++ s].
Proof.
  revert cur. induction s as [|x s IH]; intros cur Hs; cbn; [by rewrite app_nil_r|].
  apply not_elem_of_cons in Hs as [Hx Hs].
  destruct (Z.eqb_spec x sep) as [|_]; [done|]. rewrite IH by done.
  by rewrite <- app_assoc.
Qed.

Lemma split_fields_app sep pre rest cur :
  sep ∉ pre ->
  split_fields sep (pre ++ sep :: rest) cur = (cur ++ pre) :: split_fields sep rest [].
Proof.
  revert cur. induction pre as [|x pre IH]; intros cur Hs; cbn.
  { rewrite Z.eqb_refl. by rewrite app_nil_r. }
  apply not_elem_of_cons in Hs as [Hx Hs].
  destruct (Z.eqb_spec x sep) as [|_]; [done|]. rewrite IH by done.
  by rewrite <- app_assoc.
Qed.

Lemma c_str_length s : (length (c_str s) <= length s)%nat.
Proof.
  induction s as [|x s IH]; cbn; [done|]. destruct (x =? 0); cbn; lia.
Qed.

Section ResolverFacts.
Context `{Hash}.
Variable drsh_exists : list Z -> bool.

Lemma path_walk_posix program fuel : forall p,
  (length p < fuel)%nat ->
  path_walk drsh_exists fuel false [] program p
  = Ok (first_hit drsh_exists program (path_directories p)).
Proof using.
  induction fuel as [|fuel IH]; intros p Hf; [lia|]. cbn [path_walk].
  unfold path_directories, first_hit.
  destruct (strchr p 58) as [i|] eqn:Hs.
  - destruct (strchr_Some p 58 i ltac:(lia) Hs) as (E & Hno & Hc & Hi).
    rewrite E, split_fields_app by done. cbn [app filter].
    rewrite (IH (drop (S i) p)) by (rewrite length_drop; lia).
    unfold path_directories, first_hit.
    destruct (Z.eqb_spec (len (take i p)) 0) as [Hz|Hnz].
    + assert (take i p = []) as Hnil.
      { destruct (take i p); [done|]. rewrite len_cons in Hz.
        pose proof (len_nonneg l). lia. }
      rewrite Hnil. unfold filter. cbn. by rewrite decide_False by (by intros []).
    + assert (take i p <> []) as Hne by (intros Hnil; by rewrite Hnil in Hnz).
      unfold filter at 2. cbn. rewrite decide_True by done.
      cbn [find]. unfold join_dir. cbn [andb].
      change (58 =? 47) with false. cbn [andb].
      replace (take i p ++ [47] ++ program) with (take i p ++ [47] ++ program) by done.
      unfold formed_path.
      replace ((take i p ++ [47] ++ program) ++ [0])
        with (take i p ++ [47] ++ program ++ [0]) by (by rewrite <- !app_assoc).
      by destruct (drsh_exists _).
  - pose proof (strchr_None p 58 ltac:(lia) Hs) as Hno.
    rewrite split_fields_last by done. cbn [app].
    destruct (Z.eqb_spec (len (c_str p)) 0) as [Hz|Hnz].
    + assert (c_str p = []) as Hnil.
      { destruct (c_str p); [done|]. rewrite len_cons in Hz.
        pose proof (len_nonneg l). lia. }
      rewrite Hnil. unfold filter. cbn. by rewrite decide_False by (by intros []).
    + assert (c_str p <> []) as Hne by (intros Hnil; by rewrite Hnil in Hnz).
      unfold filter. cbn. rewrite decide_True by done.
      cbn [find]. unfold join_dir. cbn [andb].
      change (0 =? 47) with false. cbn [andb]. unfold formed_path.
      replace ((c_str p ++ [47] ++ program) ++ [0])
        with (c_str p ++ [47] ++ program ++ [0]) by (by rewrite <- !app_assoc).
      by destruct (drsh_exists _).
Qed.

(** X2.  On the POSIX family, for a program atom without [/] and a set
    [PATH], the resolver forms [directory/P] for each non-empty
    [:]-separated directory of the value (read as the C string it is),
    left to right, and returns the first formed path that exists;
    [EC_NOT_FOUND] when none does. *)
Theorem resolve_prog_path_posix (at1 at2 : DrshAtomTable) (env : DrshEnvironment)
    (tmp : list Z) (program path : nat) (pa patom : DrshAtom) :
  atom_at at1 program = Ok pa ->
  atom_len pa = len (atom_txt pa) ->
  47 ∉ atom_txt pa ->
  drsh_env_get_env2 at1 env (bytes_of "PATH") = Ok (at2, Some path) ->
  atom_at at2 path = Ok patom ->
  drsh_env_resolve_prog_path drsh_exists at1 env tmp program false
  = match find (fun d => drsh_exists (c_str (formed_path d (atom_txt pa))))
            (path_directories (atom_txt patom)) with
    | Some d => Ok (at2, formed_path d (atom_txt pa))
    | None => Fail EC_NOT_FOUND
    end.
Proof using.
  intros Hp Hlen Hslash Hpath Hpatom. unfold drsh_env_resolve_prog_path.
  rewrite Hp. cbn [rbind]. cbv zeta.
  assert (Htake : take (Z.to_nat (atom_len pa)) (atom_txt pa) = atom_txt pa).
  { rewrite Hlen. unfold len. rewrite Nat2Z.id. apply firstn_all. }
  rewrite !Htake.
  assert (Habs : drsh_path_is_abs (atom_txt pa) false = false).
  { unfold drsh_path_is_abs, txt_at. cbn [orb]. apply Z.eqb_neq.
    destruct (atom_txt pa) as [|x t]; [done|]. cbn. intros ->. apply Hslash. by left. }
  assert (Hmem : memchr_found (atom_txt pa) 47 = false).
  { unfold memchr_found. apply not_true_is_false. intros E.
    apply existsb_exists in E as (x & Hx & E). apply Z.eqb_eq in E. subst x.
    by apply Hslash, list_elem_of_In. }
  rewrite Habs, Hmem. cbn [negb andb]. rewrite Hpath. cbn [rbind]. rewrite Hpatom.
  cbn [rbind]. rewrite path_walk_posix by lia. cbn [rbind]. unfold first_hit.
  by destruct (find _ _).
Qed.
End ResolverFacts.

(* ------------------------------------------------------------------ *)
(** ** The environment read by name *)

Section EnvText.
Context `{Hash}.

Lemma lkey_eq_text at' ci k kp a b :
  at_wf at' -> txt_of at' k = Some a -> txt_of at' kp = Some b ->
  lkey_of at' ci k = lkey_of at' ci kp <-> fold_key ci a = fold_key ci b.
Proof.
  intros WF Hk Hkp. unfold lkey_of, fold_key. destruct ci.
  - destruct (ifold_of_spec at' k a WF Hk) as (l1 & -> & Hl1).
    destruct (ifold_of_spec at' kp b WF Hkp) as (l2 & -> & Hl2). cbn.
    exact (txt_of_inj at' l1 l2 _ _ WF Hl1 Hl2).
  - exact (txt_of_inj at' k kp _ _ WF Hk Hkp).
Qed.

Lemma valid_txt_of at' p : valid_atom at' p -> exists a, txt_of at' p = Some a.
Proof.
  intros Hp. destruct (lookup_lt_is_Some_2 (at_atoms at') p Hp) as [a Ha].
  exists (atom_txt a). unfold txt_of. by rewrite Ha.
Qed.

(** The lookup by atom of the model and the lookup by spelling agree. *)
Lemma env_lookup_text at' env kp key :
  at_wf at' -> env_wf at' env -> txt_of at' kp = Some key ->
  env_lookup at' env kp ≫= txt_of at' = env_text at' env key
  /\ from_option (valid_atom at') True (env_lookup at' env kp).
Proof.
  intros WF EW Hkp. unfold env_lookup, env_text.
  set (ci := env_case_insensitive env).
  pose proof (ew_valid _ _ EW) as Hv.
  induction Hv as [|[k v] entries [Hk Hvv] _ IH]; [done|].
  cbn [assoc_by find]. cbn in Hk, Hvv.
  destruct (valid_txt_of at' k Hk) as (a & Ha).
  pose proof (lkey_eq_text at' ci k kp a key WF Ha Hkp) as Heq.
  cbn [fst]. rewrite Ha. cbn [fmap option_fmap option_map].
  destruct (decide (lkey_of at' ci k = lkey_of at' ci kp)) as [E|E].
  - rewrite bool_decide_eq_true_2 by (f_equal; by apply Heq). done.
  - rewrite bool_decide_eq_false_2; [exact IH|].
    intros [= E']. by apply E, Heq.
Qed.

Lemma env_text_mono at1 at2 env key :
  at_atoms at1 `prefix_of` at_atoms at2 -> env_wf at1 env ->
  env_text at2 env key = env_text at1 env key.
Proof.
  intros Hp EW. unfold env_text. set (ci := env_case_insensitive env).
  pose proof (ew_valid _ _ EW) as Hv.
  induction Hv as [|[k v] entries [Hk Hvv] _ IH]; [done|].
  cbn [find]. cbn in Hk, Hvv. cbn [fst].
  destruct (valid_txt_of at1 k Hk) as (a & Ha).
  destruct (valid_txt_of at1 v Hvv) as (b & Hb).
  rewrite Ha, (txt_of_prefix _ _ _ _ Ha Hp).
  destruct (bool_decide _); [|exact IH].
  cbn. by rewrite Hb, (txt_of_prefix _ _ _ _ Hb Hp).
Qed.

Lemma at_extends_refl at1 : at_extends at1 at1.
Proof. by split. Qed.

Lemma at_extends_trans at1 at2 at3 :
  at_extends at1 at2 -> at_extends at2 at3 -> at_extends at1 at3.
Proof. intros [H1 ?] [H2 ?]. split. { by trans (at_atoms at2). } congruence. Qed.

Lemma valid_atom_mono at1 at2 p :
  at_atoms at1 `prefix_of` at_atoms at2 -> valid_atom at1 p -> valid_atom at2 p.
Proof.
  unfold valid_atom. intros Hp Hv. apply prefix_length in Hp. lia.
Qed.

Lemma at_ready_mono at1 at2 : at_extends at1 at2 -> at_ready at1 -> at_ready at2.
Proof.
  intros [Hp Hs] Hr. unfold at_ready in *. rewrite Hs.
  eapply Forall2_impl; [exact Hr|]. intros p tok E. exact (txt_of_prefix _ _ _ _ E Hp).
Qed.

(** [drsh_env_get_env2] interns the name and returns the value the
    environment holds under that spelling. *)
Lemma get_env2_spec at' env key :
  at_wf at' -> env_wf at' env -> 0 < env_cap env ->
  at_count at' + 2 <= 2 ^ 28 -> len key < UINT32_MAX ->
  exists at2 v,
    drsh_env_get_env2 at' env key = Ok (at2, v)
    /\ at_wf at2 /\ at_extends at' at2
    /\ at_count at2 <= at_count at' + 2
    /\ v ≫= txt_of at2 = env_text at' env key
    /\ from_option (valid_atom at2) True v.
Proof.
  intros WF EW Hcap Hcount Hlen.
  destruct (atomize_spec at' key WF Hcount Hlen)
    as (at2 & kp & Hat & WF2 & Hs & Hp & Hkp & Hc2 & _).
  pose proof (env_wf_mono at' at2 env WF Hp EW) as EW2.
  destruct (env_lookup_text at2 env kp key WF2 EW2 Hkp) as [Htxt Hval].
  exists at2, (env_lookup at2 env kp). unfold drsh_env_get_env2. rewrite Hat.
  rewrite (env_get_spec at2 WF2 env kp EW2 Hcap (txt_of_valid _ _ _ Hkp)). cbn [rbind].
  split_and!; try done.
  rewrite Htxt. by apply env_text_mono.
Qed.
End EnvText.

(* ------------------------------------------------------------------ *)
(** ** The canonicalizer computes the word of a token *)

Section CanonicalizerFacts.
Context `{Hash}.
Variables (at0 : DrshAtomTable) (env : DrshEnvironment).
Hypothesis WF0 : at_wf at0.
Hypothesis EW0 : env_wf at0 env.
Hypothesis Hcap : 0 < env_cap env.
Variable B : Z.
Hypothesis HB : B <= 2 ^ 28.
Variable atS : DrshAtomTable.

(** What the loop keeps: the table is a well-formed extension of the one
    the line started with and of the one the call started with ([atS]),
    with room for [n] more expansions and the final atomize. *)
Let canon_inv (n : Z) (at' : DrshAtomTable) : Prop :=
  at_wf at' /\ at_extends at0 at' /\ at_atoms atS `prefix_of` at_atoms at'
  /\ at_count at' + 2 * n + 2 <= B.

Lemma atom_text_whole at' p a :
  at_wf at' -> at_atoms at' !! p = Some a ->
  take (Z.to_nat (atom_len a)) (atom_txt a) = atom_txt a.
Proof.
  intros WF Ha. destruct (aw_atoms _ (aw_wf0 _ WF) p a Ha) as (_ & -> & _).
  unfold len. rewrite Nat2Z.id. apply firstn_all.
Qed.

Lemma expand_name_spec at' tok d p tmp n :
  0 <= n -> canon_inv (n + 1) at' -> len tok < UINT32_MAX ->
  exists at2,
    expand_name at' env tok d p tmp
    = Ok (at2, word_expand (env_text at0 env) tok d p tmp)
    /\ canon_inv n at2.
Proof using WF0 EW0 Hcap HB.
  intros Hn (WF & [Hp Hs] & Hp1 & Hc) Htok. unfold expand_name, word_expand.
  set (key := take (p - S d) (drop (S d) tok)).
  destruct (0 <? len key) eqn:Hk.
  2:{ exists at'. split; [done|]. split_and!; try done. lia. }
  assert (Hlen : len key < UINT32_MAX).
  { unfold key, len in *. rewrite length_take, length_drop. lia. }
  destruct (get_env2_spec at' env key WF (env_wf_mono _ _ _ WF0 Hp EW0) Hcap
              ltac:(lia) Hlen)
    as (at2 & v & -> & WF2 & [Hp2 Hs2] & Hc2 & Htxt & Hval).
  cbn [rbind].
  rewrite (env_text_mono at0 at' env key Hp EW0) in Htxt.
  assert (Hinv : canon_inv n at2).
  { split_and!; [done| |by trans (at_atoms at')|lia].
    split; [by trans (at_atoms at')|congruence]. }
  exists at2. destruct v as [v|]; cbn in Htxt, Hval.
  - destruct (atom_at_valid at2 v Hval) as (a & -> & Ha). cbn [rbind].
    rewrite (atom_text_whole at2 v a WF2 Ha).
    unfold txt_of in Htxt. rewrite Ha in Htxt. cbn in Htxt. rewrite <- Htxt. done.
  - rewrite <- Htxt. cbn. by rewrite app_nil_r.
Qed.

Lemma canon_inv_weaken n m at' : m <= n -> canon_inv n at' -> canon_inv m at'.
Proof. intros Hm (WF & He & Hp1 & Hc). split_and!; try done. lia. Qed.

Lemma canon_step_spec at' tok st p c n :
  0 <= n -> canon_inv (n + 1) at' -> len tok < UINT32_MAX ->
  exists at2,
    canon_step at' env tok st p c = Ok (at2, word_step (env_text at0 env) tok st p c)
    /\ canon_inv n at2.
Proof using WF0 EW0 Hcap HB.
  intros Hn Hinv Htok. unfold canon_step, word_step.
  destruct (cs_dollar st) as [d|].
  2:{ exists at'. split; [done|]. apply (canon_inv_weaken (n + 1)); [lia|done]. }
  destruct (is_name_byte c).
  { exists at'. split; [done|]. apply (canon_inv_weaken (n + 1)); [lia|done]. }
  destruct (expand_name_spec at' tok d p (cs_tmp st) n Hn Hinv Htok) as (at2 & -> & Hinv2).
  cbn [rbind]. by exists at2.
Qed.

Lemma canon_loop_spec tok (rest : list Z) : forall at' st p n,
  0 <= n -> canon_inv (n + len rest) at' -> len tok < UINT32_MAX ->
  exists at2,
    canon_loop at' env tok st p rest
    = Ok (at2, word_loop (env_text at0 env) tok st p rest)
    /\ canon_inv n at2.
Proof using WF0 EW0 Hcap HB.
  induction rest as [|c rest IH]; intros at' st p n Hn Hinv Htok.
  - exists at'. split; [done|]. apply (canon_inv_weaken (n + len (@nil Z))); [unfold len; cbn; lia|done].
  - cbn [canon_loop word_loop].
    destruct (canon_step_spec at' tok st p c (n + len rest)) as (at1 & -> & Hinv1);
      [unfold len; lia| |done|].
    { apply (canon_inv_weaken (n + len (c :: rest))); [|done].
      unfold len. cbn [length]. lia. }
    cbn [rbind]. by apply IH.
Qed.
End CanonicalizerFacts.

Section CanonicalizeSpec.
Context `{Hash}.

(** [drsh_canonicalize] returns the atom of the word of the token.  The
    table [at0] is the one the line started with: the words are read in
    it, and the table of the call extends it. *)
Lemma canonicalize_spec at0 at' env tok bsep :
  at_wf at0 -> env_wf at0 env -> 0 < env_cap env ->
  from_option (valid_atom at0) True (env_home env) ->
  at_wf at' -> at_extends at0 at' ->
  at_count at' + 2 * len tok + 4 <= 2 ^ 28 ->
  len tok < UINT32_MAX ->
  len (word_of (env_text at0 env) (env_home env ≫= txt_of at0) tok bsep) < UINT32_MAX ->
  exists at2 p,
    drsh_canonicalize at' env tok bsep = Ok (at2, p)
    /\ at_wf at2 /\ at_extends at' at2
    /\ at_count at2 <= at_count at' + 2 * len tok + 4
    /\ txt_of at2 p
       = Some (word_of (env_text at0 env) (env_home env ≫= txt_of at0) tok bsep).
Proof.
  intros WF0 EW0 Hcap Hhome0 WF [Hp0 Hs0] Hc Htok Hword. unfold drsh_canonicalize.
  pose proof (env_wf_mono _ _ _ WF0 Hp0 EW0) as EW.
  assert (Hhome : from_option (valid_atom at') True (env_home env)).
  { destruct (env_home env); [|done]. cbn in *. by eapply valid_atom_mono. }
  assert (Hhm : env_home env ≫= txt_of at0 = env_home env ≫= txt_of at').
  { destruct (env_home env) as [h|]; [|done]. cbn in *.
    destruct (valid_txt_of at0 h Hhome0) as (a & Ha).
    by rewrite Ha, (txt_of_prefix _ _ _ _ Ha Hp0). }
  rewrite Hhm in *.
  set (home := env_home env ≫= txt_of at') in *.
  (* the home prelude *)
  assert (Hh : exists ha : option DrshAtom,
    match tok with
    | [] => Ok None
    | c :: tok' =>
        if c =? 126
        then match env_home env with
             | Some h =>
                 do a <- atom_at at' h;
                 (if atom_len a =? 0 then Ok None
                  else match tok' with
                       | [] => Ok (Some a)
                       | c1 :: _ =>
                           if (c1 =? 47) || bsep && (c1 =? 92) then Ok (Some a) else Ok None
                       end)
             | None => Ok None
             end
        else Ok None
    end = Ok ha
    /\ atom_txt <$> ha = word_home home tok bsep
    /\ from_option (fun a => take (Z.to_nat (atom_len a)) (atom_txt a) = atom_txt a) True ha).
  { unfold word_home, home. destruct tok as [|c tok']; [by exists None|].
    destruct (c =? 126); [|by exists None].
    destruct (env_home env) as [h|]; cbn [mbind option_bind]; [|by exists None].
    cbn in Hhome. destruct (atom_at_valid at' h Hhome) as (a & Ea & Ha).
    unfold txt_of. rewrite Ha. cbn [fmap option_fmap option_map].
    rewrite Ea. cbn [rbind].
    destruct (aw_atoms _ (aw_wf0 _ WF) h a Ha) as (_ & <- & _).
    destruct (atom_len a =? 0); [by exists None|].
    destruct tok' as [|c1 tok''].
    - exists (Some a). split_and!; try done. by eapply atom_text_whole.
    - destruct ((c1 =? 47) || bsep && (c1 =? 92)); [|by exists None].
      exists (Some a). split_and!; try done. by eapply atom_text_whole. }
  destruct Hh as (ha & -> & Hha & Hwhole). cbn [rbind].
  unfold word_of in *. rewrite <- Hha in *.
  set (p := match ha with Some _ => 1%nat | None => 0%nat end) in *.
  assert (match atom_txt <$> ha with Some _ => 1%nat | None => 0%nat end = p) as Hp.
  { by destruct ha. }
  rewrite Hp in *.
  assert (match ha with
          | Some ha0 => take (Z.to_nat (atom_len ha0)) (atom_txt ha0)
          | None => []
          end = default [] (atom_txt <$> ha)) as ->.
  { destruct ha; cbn in *; done. }
  set (st0 := {| cs_dollar := None; cs_quoted := 0; cs_backslash := false;
                 cs_tmp := default [] (atom_txt <$> ha) |}) in *.
  assert (Hdrop : len (drop p tok) <= len tok).
  { unfold len. rewrite length_drop. lia. }
  destruct (canon_loop_spec at0 env WF0 EW0 Hcap (at_count at' + 2 * len tok + 4) Hc at'
              tok (drop p tok) at' st0 p 1)
    as (at1 & -> & Hinv1); [lia| |done|].
  { split_and!; [done|by split|done|lia]. }
  cbn [rbind].
  set (st := word_loop (env_text at0 env) tok st0 p (drop p tok)) in *.
  assert (Hfin : exists at2,
    match cs_dollar st with
    | Some d => expand_name at1 env tok d (length tok) (cs_tmp st)
    | None => Ok (at1, cs_tmp st)
    end
    = Ok (at2, match cs_dollar st with
               | Some d => word_expand (env_text at0 env) tok d (length tok) (cs_tmp st)
               | None => cs_tmp st
               end)
    /\ at_wf at2 /\ at_extends at0 at2 /\ at_atoms at' `prefix_of` at_atoms at2
    /\ at_count at2 + 2 <= at_count at' + 2 * len tok + 4).
  { destruct (cs_dollar st) as [d|].
    - destruct Hinv1 as (WF1 & He1 & Hp1 & Hc1).
      destruct (expand_name_spec at0 env WF0 EW0 Hcap _ Hc at' at1 tok d (length tok)
                  (cs_tmp st) 0)
        as (at2 & -> & (WF2 & He2 & Hp2 & Hc2)); [lia| |done|].
      { split_and!; [done|done|done|lia]. }
      exists at2. split_and!; try done; lia.
    - destruct Hinv1 as (WF1 & He1 & Hp1 & Hc1). exists at1. split_and!; try done; lia. }
  destruct Hfin as (at2 & -> & WF2 & He2 & Hp2 & Hc2). cbn [rbind].
  destruct (atomize_spec at2 _ WF2 ltac:(lia) Hword)
    as (at3 & q & -> & WF3 & Hs3 & Hp3 & Hq & Hc3 & _).
  exists at3, q. split_and!; try done; [|lia].
  split; [by trans (at_atoms at2)|]. destruct He2 as [_ He2]. congruence.
Qed.
End CanonicalizeSpec.

(* ------------------------------------------------------------------ *)
(** ** The argument vector of a line *)

Section ArgvFacts.
Context `{Hash}.
Variable IS_WINDOWS : bool.
Variable glob : list Z -> option (list (list Z)).

Lemma Forall2_txt_mono at1 at2 (ps : list nat) (ws : list (list Z)) :
  at_atoms at1 `prefix_of` at_atoms at2 ->
  Forall2 (fun p w => txt_of at1 p = Some w) ps ws ->
  Forall2 (fun p w => txt_of at2 p = Some w) ps ws.
Proof.
  intros Hp HF. eapply Forall2_impl; [exact HF|].
  intros p w E. exact (txt_of_prefix _ _ _ _ E Hp).
Qed.

Lemma argv_paths_spec (paths : list (list Z)) : forall at' out ws,
  at_wf at' ->
  at_count at' + 2 * len paths <= 2 ^ 28 ->
  Forall (fun w => len w < UINT32_MAX) (c_str <$> paths) ->
  Forall2 (fun p w => txt_of at' p = Some w) out ws ->
  exists at2 out2,
    argv_paths at' paths out = Ok (at2, out2)
    /\ at_wf at2 /\ at_extends at' at2
    /\ at_count at2 <= at_count at' + 2 * len paths
    /\ Forall2 (fun p w => txt_of at2 p = Some w) out2 (ws ++ (c_str <$> paths)).
Proof.
  induction paths as [|path paths IH]; intros at' out ws WF Hc Hlen Hout.
  - exists at', out. rewrite fmap_nil, app_nil_r. split_and!; try done.
    unfold len; cbn; lia.
  - cbn [argv_paths]. rewrite fmap_cons in Hlen. apply Forall_cons in Hlen as [Hl Hlen].
    assert (Hlp : len (path :: paths) = len paths + 1) by (unfold len; cbn [length]; lia).
    assert (Hnn : 0 <= len paths) by (unfold len; lia).
    destruct (atomize_spec at' (c_str path) WF ltac:(lia) Hl)
      as (at1 & a & -> & WF1 & Hs1 & Hp1 & Ha & Hc1 & _).
    cbn [rbind].
    destruct (IH at1 (out ++ [a]) (ws ++ [c_str path]) WF1 ltac:(lia) Hlen)
      as (at2 & out2 & -> & WF2 & [Hp2 Hs2] & Hc2 & Hout2).
    { apply Forall2_app; [by eapply Forall2_txt_mono|]. by constructor. }
    exists at2, out2. split_and!; try done; [|lia|].
    + split; [by trans (at_atoms at1)|congruence].
    + by rewrite fmap_cons, (cons_middle _ ws), app_assoc.
Qed.

Variables (at0 : DrshAtomTable) (env : DrshEnvironment).
Hypothesis WF0 : at_wf at0.
Hypothesis EW0 : env_wf at0 env.
Hypothesis Hcap : 0 < env_cap env.
Hypothesis Hhome : from_option (valid_atom at0) True (env_home env).

Let getenv := env_text at0 env.
Let home := env_home env ≫= txt_of at0.

Lemma home_text_mono at' :
  at_atoms at0 `prefix_of` at_atoms at' -> env_home env ≫= txt_of at' = home.
Proof using Hhome.
  intros Hp. unfold home. destruct (env_home env) as [h|]; [|done]. cbn in *.
  destruct (valid_txt_of at0 h Hhome) as (a & Ha).
  by rewrite Ha, (txt_of_prefix _ _ _ _ Ha Hp).
Qed.

Lemma tokens_to_argv_loop_spec line (toks : list DrshToken) : forall at' out ws,
  at_wf at' -> at_extends at0 at' ->
  len line < UINT32_MAX ->
  Forall (fun tok => len (word_of getenv home (token_bytes line tok) IS_WINDOWS)
                     < UINT32_MAX) toks ->
  Forall (fun w => len w < UINT32_MAX) (argv_words IS_WINDOWS glob getenv home line toks) ->
  at_count at' + argv_cost IS_WINDOWS glob getenv home line toks <= 2 ^ 28 ->
  Forall2 (fun p w => txt_of at' p = Some w) out ws ->
  exists at2 out2,
    tokens_to_argv_loop IS_WINDOWS glob line toks env at' out = Ok (at2, out2)
    /\ at_wf at2 /\ at_extends at' at2
    /\ at_count at2 <= at_count at' + argv_cost IS_WINDOWS glob getenv home line toks
    /\ Forall2 (fun p w => txt_of at2 p = Some w) out2
         (ws ++ argv_words IS_WINDOWS glob getenv home line toks).
Proof using WF0 EW0 Hcap Hhome.
  induction toks as [|tok toks IH]; intros at' out ws WF [Hp Hs] Hline Hwords Hpaths Hc Hout.
  - exists at', out. unfold argv_words. cbn [mbind list_bind]. rewrite app_nil_r.
    split_and!; try done. cbn. lia.
  - cbn [tokens_to_argv_loop]. apply Forall_cons in Hwords as [Hw Hwords].
    unfold argv_words in Hpaths. rewrite bind_cons in Hpaths.
    apply Forall_app in Hpaths as [Hpt Hpaths].
    cbn [argv_cost foldr] in Hc.
    fold (argv_cost IS_WINDOWS glob getenv home line toks) in Hc.
    assert (Hcost : 0 <= argv_cost IS_WINDOWS glob getenv home line toks).
    { clear. induction toks as [|t ts IHt]; [done|]. cbn [argv_cost foldr].
      fold (argv_cost IS_WINDOWS glob getenv home line ts). unfold len. lia. }
    set (tb := token_bytes line tok) in *.
    assert (Htb : len tb < UINT32_MAX).
    { unfold tb, token_bytes, len in *. rewrite length_take, length_drop. lia. }
    destruct (canonicalize_spec at0 at' env tb IS_WINDOWS WF0 EW0 Hcap Hhome WF
                ltac:(by split) ltac:(unfold len in *; lia) Htb Hw)
      as (at1 & atom & -> & WF1 & [Hp1 Hs1] & Hc1 & Hatom).
    cbn [rbind].
    assert (Hstep : exists at2 out2,
      (if IS_WINDOWS then Ok (at1, out ++ [atom])
       else do p <- atom_str at1 atom;
            match glob p with
            | Some paths => argv_paths at1 paths out
            | None => Ok (at1, out)
            end) = Ok (at2, out2)
      /\ at_wf at2 /\ at_extends at1 at2
      /\ at_count at2
         <= at_count at1 + 2 * len (token_words IS_WINDOWS glob getenv home line tok)
      /\ Forall2 (fun p w => txt_of at2 p = Some w) out2
           (ws ++ token_words IS_WINDOWS glob getenv home line tok)).
    { unfold token_words in *. fold tb in Hpt, Hc |- *.
      set (w := word_of getenv home tb IS_WINDOWS) in *.
      destruct IS_WINDOWS.
      - exists at1, (out ++ [atom]). split_and!; try done.
        + unfold len. cbn. lia.
        + apply Forall2_app; [by eapply Forall2_txt_mono|]. by constructor.
      - unfold atom_str. unfold txt_of in Hatom.
        destruct (at_atoms at1 !! atom) as [a|] eqn:Ha; [|done].
        unfold atom_at. rewrite Ha. cbn [rbind].
        change (Some (atom_txt a) = Some w) in Hatom. injection Hatom as ->.
        destruct (glob (c_str w)) as [paths|].
        + destruct (argv_paths_spec paths at1 out ws WF1) as (at2 & out2 & E & ? & ? & ? & ?).
          * unfold len in *. rewrite length_fmap in Hc. lia.
          * done.
          * by eapply Forall2_txt_mono.
          * exists at2, out2. split_and!; try done.
            unfold len in *. rewrite length_fmap. lia.
        + exists at1, out. rewrite app_nil_r. split_and!; try done.
          * unfold len. cbn. lia.
          * by eapply Forall2_txt_mono. }
    destruct Hstep as (at2 & out2 & -> & WF2 & [Hp2 Hs2] & Hc2 & Hout2). cbn [rbind].
    destruct (IH at2 out2 (ws ++ token_words IS_WINDOWS glob getenv home line tok) WF2)
      as (at3 & out3 & -> & WF3 & [Hp3 Hs3] & Hc3 & Hout3); try done.
    { split; [trans (at_atoms at'); [done|]; by trans (at_atoms at1)|congruence]. }
    { unfold len in *. lia. }
    exists at3, out3. split_and!; try done.
    + split; [trans (at_atoms at1); [done|]; by trans (at_atoms at2)|congruence].
    + cbn [argv_cost foldr]. fold (argv_cost IS_WINDOWS glob getenv home line toks).
      fold tb. lia.
    + unfold argv_words. rewrite bind_cons, app_assoc. exact Hout3.
Qed.
End ArgvFacts.

(* ------------------------------------------------------------------ *)
(** ** The environment by name, after a store *)

Lemma find_alter_miss {A} (P : A -> bool) (g : A -> A) (l : list A) : forall j : nat,
  (forall x, l !! j = Some x -> P x = false /\ P (g x) = false) ->
  find P (alter g j l) = find P l.
Proof.
  induction l as [|x l IH]; intros j Hg; [by destruct j|].
  destruct j as [|j].
  - cbn [alter list_alter find]. destruct (Hg x eq_refl) as [-> ->]. reflexivity.
  - cbn [alter list_alter find]. destruct (P x); [reflexivity|]. exact (IH j Hg).
Qed.

Lemma find_first {A} (P : A -> bool) (l : list A) : forall (j : nat) y,
  l !! j = Some y -> P y = true ->
  (forall (i : nat) z, (i < j)%nat -> l !! i = Some z -> P z = false) ->
  find P l = Some y.
Proof.
  induction l as [|x l IH]; intros j y Hj Hy Hbefore; [by destruct j|].
  destruct j as [|j].
  - injection Hj as ->. cbn [find]. by rewrite Hy.
  - cbn [find]. rewrite (Hbefore 0%nat x ltac:(lia) eq_refl).
    apply (IH j y Hj Hy). intros i z Hi Hz. apply (Hbefore (S i) z ltac:(lia) Hz).
Qed.

Lemma find_none_all {A} (P : A -> bool) (l : list A) :
  (forall x, x ∈ l -> P x = false) -> find P l = None.
Proof.
  induction l as [|x l IH]; intros Hall; [reflexivity|].
  cbn [find]. rewrite (Hall x ltac:(left)). apply IH. intros y Hy. apply Hall. by right.
Qed.

Lemma find_app_miss {A} (P : A -> bool) (l : list A) e :
  P e = false -> find P (l ++ [e]) = find P l.
Proof.
  intros He. induction l as [|x l IH]; cbn [find app]; [by rewrite He|].
  destruct (P x); [reflexivity|exact IH].
Qed.

Section EnvTextSet.
Context `{Hash}.
Variable at' : DrshAtomTable.
Hypothesis WF : at_wf at'.

(** What [drsh_env_set_env] does to the lookup by name, read off the
    two shapes of its result. *)
Lemma env_text_set env k v kt vt entries cap idxes sorted key :
  env_wf at' env ->
  txt_of at' k = Some kt -> txt_of at' v = Some vt ->
  ((exists (j : nat) k0 v0,
       env_entries env !! j = Some (k0, v0)
       /\ lkey_of at' (env_case_insensitive env) k0 = lkey_of at' (env_case_insensitive env) k
       /\ entries = alter (fun _ => (if env_case_insensitive env then k else k0, v))
                      j (env_entries env))
   \/ ((lkey_of at' (env_case_insensitive env) k
        ∉ ((fun e => lkey_of at' (env_case_insensitive env) e.1) <$> env_entries env))
       /\ entries = env_entries env ++ [(k, v)])) ->
  env_text at' (env_set_table env entries cap idxes sorted) key
  = if decide (fold_key (env_case_insensitive env) key
               = fold_key (env_case_insensitive env) kt)
    then Some vt else env_text at' env key.
Proof using WF.
  intros EW Hk Hv Hshape. unfold env_text. cbn [env_entries env_case_insensitive env_set_table].
  set (ci := env_case_insensitive env) in *.
  set (P := fun e : nat * nat =>
              bool_decide (fold_key ci <$> txt_of at' e.1 = Some (fold_key ci key))).
  assert (HPk : forall k1 v1 t1, txt_of at' k1 = Some t1 ->
                lkey_of at' ci k1 = lkey_of at' ci k ->
                P (k1, v1) = bool_decide (fold_key ci key = fold_key ci kt)).
  { intros k1 v1 t1 Ht1 Hl. unfold P. cbn [fst]. rewrite Ht1. cbn.
    apply bool_decide_ext. rewrite (lkey_eq_text at' ci k1 k t1 kt WF Ht1 Hk) in Hl.
    rewrite Hl. split; [by intros [= ->]|by intros ->]. }
  assert (HPother : forall k1 v1, (k1, v1) ∈ env_entries env ->
                    lkey_of at' ci k1 <> lkey_of at' ci k ->
                    fold_key ci key = fold_key ci kt -> P (k1, v1) = false).
  { intros k1 v1 Hin Hl Hkey. unfold P. cbn [fst].
    destruct (proj1 (Forall_forall _ _) (ew_valid _ _ EW) _ Hin) as [Hk1 _]. cbn in Hk1.
    destruct (valid_txt_of at' k1 Hk1) as (t1 & Ht1). rewrite Ht1. cbn.
    apply bool_decide_eq_false_2. intros [= E]. apply Hl.
    apply (lkey_eq_text at' ci k1 k t1 kt WF Ht1 Hk). congruence. }
  destruct Hshape as [(j & k0 & v0 & Hj & Hl0 & ->)|[Hnew ->]].
  - destruct (proj1 (Forall_forall _ _) (ew_valid _ _ EW) _ (list_elem_of_lookup_2 _ _ _ Hj))
      as [Hk0 _]. cbn in Hk0.
    destruct (valid_txt_of at' k0 Hk0) as (t0 & Ht0).
    set (knew := if ci then k else k0).
    assert (Hknew : exists tn, txt_of at' knew = Some tn /\ lkey_of at' ci knew = lkey_of at' ci k).
    { unfold knew. destruct ci; [by exists kt|by exists t0]. }
    destruct Hknew as (tn & Htn & Hln).
    destruct (decide (fold_key ci key = fold_key ci kt)) as [Hkey|Hkey].
    + rewrite (find_first P _ j (knew, v)).
      * cbn. exact Hv.
      * rewrite list_lookup_alter, decide_True by reflexivity. by rewrite Hj.
      * rewrite (HPk knew v tn Htn Hln). by apply bool_decide_eq_true_2.
      * intros i [k1 v1] Hi Hz. rewrite list_lookup_alter, decide_False in Hz by lia.
        apply HPother; [by eapply list_elem_of_lookup_2| |exact Hkey].
        intros E. assert (i = j); [|lia].
        apply (NoDup_lookup _ i j (lkey_of at' ci k) (ew_nodup _ _ EW)).
        -- rewrite list_lookup_fmap, Hz.
           change (Some (lkey_of at' ci k1) = Some (lkey_of at' ci k)). by rewrite E.
        -- rewrite list_lookup_fmap, Hj.
           change (Some (lkey_of at' ci k0) = Some (lkey_of at' ci k)). by rewrite Hl0.
    + rewrite find_alter_miss; [reflexivity|].
      intros x Hx. rewrite Hj in Hx. injection Hx as <-. split.
      * rewrite (HPk k0 v0 t0 Ht0 Hl0). by apply bool_decide_eq_false_2.
      * rewrite (HPk knew v tn Htn Hln). by apply bool_decide_eq_false_2.
  - destruct (decide (fold_key ci key = fold_key ci kt)) as [Hkey|Hkey].
    + rewrite (find_first P _ (length (env_entries env)) (k, v)).
      * cbn. exact Hv.
      * by rewrite lookup_app_r, Nat.sub_diag by lia.
      * rewrite (HPk k v kt Hk eq_refl). by apply bool_decide_eq_true_2.
      * intros i [k1 v1] Hi Hz. rewrite lookup_app_l in Hz by lia.
        apply HPother; [by eapply list_elem_of_lookup_2| |exact Hkey].
        intros E. apply Hnew. rewrite <- E. apply list_elem_of_fmap.
        exists (k1, v1). split; [reflexivity|by eapply list_elem_of_lookup_2].
    + rewrite find_app_miss; [reflexivity|].
      rewrite (HPk k v kt Hk eq_refl). by apply bool_decide_eq_false_2.
Qed.
End EnvTextSet.

(* ------------------------------------------------------------------ *)
(** ** Start-up establishes the invariants *)

Section StartUp.
Context `{Hash}.

Lemma at_wf_special at' (sp : list nat) :
  at_wf at' ->
  at_wf {| at_atoms := at_atoms at'; at_cap := at_cap at'; at_idxes := at_idxes at';
           at_special := sp |}.
Proof.
  intros [[Hi Hc Ha Hn] Hf]. split; [by split|]. exact Hf.
Qed.

Lemma at_init_loop_spec (tokens : list (list Z)) : forall at' (ws : list (list Z)),
  at_wf at' ->
  at_count at' + 2 * len tokens <= 2 ^ 28 ->
  Forall (fun s => len s < UINT32_MAX) tokens ->
  Forall2 (fun p w => txt_of at' p = Some w) (at_special at') ws ->
  exists at2,
    at_init_loop tokens at' = Ok at2
    /\ at_wf at2
    /\ at_atoms at' `prefix_of` at_atoms at2
    /\ at_count at2 <= at_count at' + 2 * len tokens
    /\ Forall2 (fun p w => txt_of at2 p = Some w) (at_special at2) (ws ++ tokens).
Proof.
  induction tokens as [|tok tokens IH]; intros at' ws WF Hc Hlen Hsp.
  - exists at'. rewrite app_nil_r. split_and!; try done. unfold len; cbn; lia.
  - cbn [at_init_loop]. apply Forall_cons in Hlen as [Hl Hlen].
    assert (Hlp : len (tok :: tokens) = len tokens + 1) by (unfold len; cbn [length]; lia).
    assert (Hnn : 0 <= len tokens) by (unfold len; lia).
    destruct (atomize_spec at' tok WF ltac:(lia) Hl)
      as (at1 & a & -> & WF1 & Hs1 & Hp1 & Ha & Hc1 & _).
    cbn [rbind].
    destruct (IH {| at_atoms := at_atoms at1; at_cap := at_cap at1;
                    at_idxes := at_idxes at1; at_special := at_special at1 ++ [a] |}
                 (ws ++ [tok])) as (at2 & -> & WF2 & Hp2 & Hc2 & Hsp2).
    + by apply at_wf_special.
    + unfold at_count in *. cbn. lia.
    + done.
    + cbn. rewrite Hs1. apply Forall2_app; [|by constructor].
      eapply Forall2_impl; [exact Hsp|]. intros p w E.
      exact (txt_of_prefix at' _ _ _ E Hp1).
    + exists at2. split_and!; try done.
      * by trans (at_atoms at1).
      * unfold at_count in *. cbn in Hc2. lia.
      * by rewrite (cons_middle tok ws), app_assoc.
Qed.

(** [drsh_at_init] on the zeroed table interns the well-known atoms. *)
Lemma at_init_spec :
  exists at2, drsh_at_init at_zero = Ok at2 /\ at_wf at2 /\ at_ready at2 /\ at_count at2 <= 54.
Proof.
  destruct (at_init_loop_spec special_tokens at_zero [] at_zero_wf)
    as (at2 & E & WF & _ & Hc & Hsp).
  - by vm_compute.
  - apply Forall_forall. intros s Hs. unfold UINT32_MAX.
    assert (len s < 100); [|lia].
    revert s Hs. apply Forall_forall. unfold special_tokens.
    repeat (constructor; [by vm_compute|]). constructor.
  - constructor.
  - exists at2. split_and!; try done; revert Hc; by vm_compute.
Qed.

(** [drsh_env_set_env4] interns both texts and stores the pair. *)
Lemma env_set_env4_spec at' env key value :
  at_wf at' -> env_wf at' env ->
  at_count at' + 4 <= 2 ^ 28 -> env_count env + 1 < 2 ^ 28 ->
  len key < UINT32_MAX -> len value < UINT32_MAX ->
  exists at2 env2,
    drsh_env_set_env4 at' env key value = Ok (at2, env2)
    /\ at_wf at2 /\ at_extends at' at2 /\ at_count at2 <= at_count at' + 4
    /\ env_wf at2 env2 /\ 0 < env_cap env2
    /\ env_count env2 <= env_count env + 1
    /\ env_home env2 = env_home env
    /\ env_case_insensitive env2 = env_case_insensitive env
    /\ forall key',
         env_text at2 env2 key'
         = if decide (fold_key (env_case_insensitive env) key'
                      = fold_key (env_case_insensitive env) key)
           then Some value else env_text at' env key'.
Proof.
  intros WF EW Hc Hec Hk Hv. unfold drsh_env_set_env4.
  destruct (atomize_spec at' key WF ltac:(lia) Hk)
    as (at1 & k & -> & WF1 & Hs1 & Hp1 & Htk & Hc1 & _).
  cbn [rbind].
  destruct (atomize_spec at1 value WF1 ltac:(lia) Hv)
    as (at2 & v & -> & WF2 & Hs2 & Hp2 & Htv & Hc2 & _).
  cbn [rbind].
  assert (Hp : at_atoms at' `prefix_of` at_atoms at2) by (by trans (at_atoms at1)).
  pose proof (env_wf_mono _ _ _ WF Hp EW) as EW2.
  pose proof (txt_of_prefix _ _ _ _ Htk Hp2) as Htk2.
  destruct (env_set_spec at2 WF2 env k v EW2 Hec (txt_of_valid _ _ _ Htk2)
              (txt_of_valid _ _ _ Htv))
    as (entries & cap & idxes & sorted & -> & EW3 & Hcap & [_ Hlen] & Hshape & Hlook).
  cbn [rbind]. eexists _, _. split; [done|]. split_and!; try done.
  - split; [done|congruence].
  - lia.
  - intros key'.
    rewrite (env_text_set at2 WF2 env k v key value entries cap idxes sorted key'
               EW2 Htk2 Htv Hshape).
    by rewrite (env_text_mono at' at2 env key' Hp EW).
Qed.


(** The start-up loops store every [name=value] string. *)
Lemma env_init_loop_spec ws (envp : list (list Z)) : forall at' env,
  (ws = true -> Forall (fun p => is_Some (strchr (c_str p) 61)) envp) ->
  at_wf at' -> env_wf at' env ->
  at_count at' + 4 * len envp <= 2 ^ 28 -> env_count env + len envp < 2 ^ 28 ->
  Forall (fun p => len p < UINT32_MAX) envp ->
  exists at2 env2,
    env_init_loop ws envp at' env = Ok (at2, env2)
    /\ at_wf at2 /\ at_extends at' at2 /\ env_wf at2 env2
    /\ at_count at2 <= at_count at' + 4 * len envp
    /\ env_count env2 <= env_count env + len envp
    /\ env_home env2 = env_home env
    /\ env_case_insensitive env2 = env_case_insensitive env
    /\ (0 < env_cap env \/ Exists (fun p => is_Some (strchr (c_str p) 61)) envp
        -> 0 < env_cap env2)
    /\ forall key,
         env_text at2 env2 key
         = match envp_value (env_case_insensitive env) envp key with
           | Some v => Some v
           | None => env_text at' env key
           end.
Proof.
  induction envp as [|p envp IH]; intros at' env Hws WF EW Hc Hec Hlen.
  - exists at', env. split_and!; try done.
    + unfold len; cbn; lia.
    + unfold len; cbn; lia.
    + intros [?|Hex]; [done|]. by apply Exists_nil in Hex.
  - cbn [env_init_loop envp_value]. apply Forall_cons in Hlen as [Hl Hlen].
    assert (Hlp : len (p :: envp) = len envp + 1) by (unfold len; cbn [length]; lia).
    assert (Hnn : 0 <= len envp) by (unfold len; lia).
    assert (Hcs : len (c_str p) <= len p).
    { pose proof (c_str_length p). unfold len. lia. }
    destruct (strchr (c_str p) 61) as [eq|] eqn:Heq.
    + assert (Hne : (len (c_str p) =? 0) = false).
      { apply Z.eqb_neq. destruct (c_str p); [done|]. unfold len. cbn [length]. lia. }
      rewrite Hne, andb_false_r.
      destruct (env_set_env4_spec at' env (take eq (c_str p)) (drop (S eq) (c_str p)) WF EW)
        as (at1 & env1 & -> & WF1 & [Hp1 Hs1] & Hc1 & EW1 & Hcap1 & Hec1 & Hh1 & Hci1 & Ht1).
      { lia. } { lia. }
      { unfold len in *. rewrite length_take. lia. }
      { unfold len in *. rewrite length_drop. lia. }
      cbn [rbind].
      destruct (IH at1 env1) as (at2 & env2 & -> & WF2 & [Hp2 Hs2] & EW2 & Hc2 & Hec2
                                 & Hh2 & Hci2 & Hcap2 & Ht2); try done.
      { intros E. specialize (Hws E). by apply Forall_cons in Hws as [_ ?]. }
      { lia. } { lia. }
      exists at2, env2. split; [reflexivity|]. split; [exact WF2|].
      split; [split; [by trans (at_atoms at1)|congruence]|].
      split; [exact EW2|]. split; [lia|]. split; [lia|].
      split; [congruence|]. split; [congruence|].
      split; [intros _; apply Hcap2; by left|].
      intros key. rewrite Ht2, Hci1, Ht1.
      destruct (envp_value (env_case_insensitive env) envp key); [reflexivity|].
      destruct (decide _) as [E|E].
      * by rewrite bool_decide_eq_true_2.
      * by rewrite bool_decide_eq_false_2.
    + destruct ws.
      { specialize (Hws eq_refl). apply Forall_cons in Hws as [[? Hx] _].
        by rewrite Heq in Hx. }
      cbn [andb].
      destruct (IH at' env) as (at2 & env2 & -> & WF2 & He2 & EW2 & Hc2 & Hec2
                                & Hh2 & Hci2 & Hcap2 & Ht2); try done.
      { lia. } { lia. }
      exists at2, env2. split; [reflexivity|]. split; [exact WF2|]. split; [exact He2|].
      split; [exact EW2|]. split; [lia|]. split; [lia|].
      split; [exact Hh2|]. split; [exact Hci2|]. split.
      * intros [Hcap|Hex]; apply Hcap2; [by left|right].
        apply Exists_cons in Hex as [[? Hx]|Hex]; [by rewrite Heq in Hx|done].
      * intros key. rewrite Ht2.
        by destruct (envp_value (env_case_insensitive env) envp key).
Qed.

Lemma env_wf_set_home at' env h : env_wf at' env -> env_wf at' (env_set_home env h).
Proof. intros []. by split. Qed.

(** [drsh_env_init] on the zeroed environment leaves a state that
    satisfies the invariants, provided some string has the form
    [name=value] (the lookup of [HOME] reads the table) and, on the DOS
    family, every string has. *)
Lemma env_init_spec flavor at' (envp : list (list Z)) ws out :
  at_wf at' -> at_ready at' ->
  (ws = true -> Forall (fun p => is_Some (strchr (c_str p) 61)) envp) ->
  Exists (fun p => is_Some (strchr (c_str p) 61)) envp ->
  at_count at' + 4 * len envp <= 2 ^ 28 ->
  Forall (fun p => len p < UINT32_MAX) envp ->
  exists at2 env2,
    drsh_env_init flavor env_zero at' envp ws = Ok (at2, env2)
    /\ state_wf {| st_at := at2; st_env := env2; st_out := out |}
    /\ at_extends at' at2
    /\ at_count at2 <= at_count at' + 4 * len envp
    /\ env_count env2 <= len envp
    /\ env_case_insensitive env2 = ws
    /\ (forall key, env_text at2 env2 key = envp_value ws envp key)
    /\ env_home env2 ≫= txt_of at2 = envp_value ws envp (bytes_of "HOME").
Proof.
  intros WF Hr Hws Hex Hc Hlen. unfold drsh_env_init.
  assert (Hnn : 0 <= len envp) by (unfold len; lia).
  destruct (env_init_loop_spec ws envp at' (env_set_flavor env_zero ws flavor) Hws WF
              (env_zero_wf at' ws flavor) Hc)
    as (at2 & env2 & -> & WF2 & He2 & EW2 & Hc2 & Hec2 & Hh2 & Hci2 & Hcap2 & Ht2).
  { unfold env_count, at_count, len in *. cbn. lia. }
  { done. }
  assert (Htext : forall key, env_text at2 env2 key = envp_value ws envp key).
  { intros key. rewrite Ht2. cbn [env_case_insensitive env_set_flavor].
    by destruct (envp_value ws envp key). }
  cbn [rbind]. specialize (Hcap2 (or_intror Hex)).
  pose proof (at_ready_mono _ _ He2 Hr) as Hr2.
  destruct (Forall2_lookup_r _ _ _ ATOM_HOME (bytes_of "HOME") Hr2 eq_refl)
    as (h & Hh & Hht).
  unfold special. rewrite Hh.
  rewrite (env_get_spec at2 WF2 env2 h EW2 Hcap2 (txt_of_valid _ _ _ Hht)). cbn [rbind].
  destruct (env_lookup_text at2 env2 h _ WF2 EW2 Hht) as [Hhome Hval].
  eexists _, _. split; [done|]. split_and!; try done.
  - split; cbn; try done. by apply env_wf_set_home.
  - cbn. by rewrite Hhome.
Qed.
End StartUp.

(* ------------------------------------------------------------------ *)
(** ** Built-in dispatch *)

Section DispatchFacts.
Context `{Hash}.

(** A well-known atom is recognised by its spelling. *)
Lemma is_special_text at' i p w :
  at_wf at' -> at_ready at' -> txt_of at' p = Some w ->
  is_special at' i p = bool_decide (special_tokens !! i = Some w).
Proof.
  intros WF Hr Hp. unfold is_special, special. apply bool_decide_ext.
  destruct (at_special at' !! i) as [q|] eqn:Hq.
  - destruct (Forall2_lookup_l _ _ _ _ _ Hr Hq) as (tok & -> & Hqt).
    pose proof (txt_of_inj at' q p tok w WF Hqt Hp). split; intros [= E]; f_equal; tauto.
  - split; [done|]. intros Hw.
    destruct (Forall2_lookup_r _ _ _ _ _ Hr Hw) as (q & Hq' & _). congruence.
Qed.

Lemma atom_str_valid at' p :
  valid_atom at' p -> exists s, atom_str at' p = Ok s.
Proof.
  intros Hp. unfold atom_str. destruct (atom_at_valid at' p Hp) as (a & -> & _).
  by eexists.
Qed.

Lemma atom_str_txt at' p w : txt_of at' p = Some w -> atom_str at' p = Ok (c_str w).
Proof.
  unfold txt_of, atom_str, atom_at. destruct (at_atoms at' !! p); [|done].
  by intros [= <-].
Qed.

(** [echo] writes every argument up to its terminator, each followed by
    a space. *)
Lemma echo_args_spec at' (args : list nat) (ws : list (list Z)) :
  Forall2 (fun p w => txt_of at' p = Some w) args ws ->
  echo_args at' args = Ok (ws ≫= fun w => c_str w ++ [32]).
Proof.
  induction 1 as [|p w args ws Hp _ IH]; [done|].
  cbn [echo_args]. rewrite (atom_str_txt _ _ _ Hp), IH. cbn [rbind].
  by rewrite bind_cons, <- app_assoc.
Qed.

Section Sorting.
Variable at' : DrshAtomTable.
Hypothesis WF : at_wf at'.

Lemma atom_cmp_total a b :
  valid_atom at' a -> valid_atom at' b ->
  exists c, drsh_atom_cmp at' (Some a) (Some b) = Ok c.
Proof using Type.
  intros Ha Hb. unfold drsh_atom_cmp. destruct (bool_decide _); [by eexists|].
  destruct (atom_at_valid at' a Ha) as (x & -> & _).
  destruct (atom_at_valid at' b Hb) as (y & -> & _). by eexists.
Qed.

Lemma atom_icmp_total a b :
  valid_atom at' a -> valid_atom at' b ->
  exists c, drsh_atom_icmp at' a b = Ok c.
Proof using WF.
  intros Ha Hb. unfold drsh_atom_icmp.
  destruct (ifold_valid at' WF a Ha) as (la & Hla & Hlav & _).
  destruct (ifold_valid at' WF b Hb) as (lb & Hlb & Hlbv & _).
  destruct (atom_at_valid at' a Ha) as (x & -> & Hx).
  destruct (atom_at_valid at' b Hb) as (y & -> & Hy). cbn [rbind].
  unfold ifold_of in Hla, Hlb. rewrite Hx in Hla. rewrite Hy in Hlb. cbn in Hla, Hlb.
  rewrite Hla, Hlb. by apply atom_cmp_total.
Qed.

Lemma qsort_insert_spec (cmp : nat -> nat -> res Z) e (l : list (nat * nat)) :
  (forall e', e' ∈ l -> exists c, cmp e.1 e'.1 = Ok c) ->
  exists l', qsort_insert cmp e l = Ok l' /\ l' ≡ₚ e :: l.
Proof using Type.
  induction l as [|e' l IH]; intros Hcmp; [by eexists|].
  cbn [qsort_insert]. destruct (Hcmp e' ltac:(left)) as (c & ->). cbn [rbind].
  destruct (c <? 0); [by eexists|].
  destruct IH as (l' & -> & Hl'); [intros; apply Hcmp; by right|].
  cbn [rbind]. eexists. split; [done|]. rewrite Hl'. apply Permutation_swap.
Qed.

Lemma qsort_spec (cmp : nat -> nat -> res Z) (l : list (nat * nat)) :
  (forall e e', e ∈ l -> e' ∈ l -> exists c, cmp e.1 e'.1 = Ok c) ->
  exists l', qsort cmp l = Ok l' /\ l' ≡ₚ l.
Proof using Type.
  induction l as [|e l IH]; intros Hcmp; [by eexists|].
  cbn [qsort]. destruct IH as (l1 & -> & Hl1).
  { intros; apply Hcmp; by right. }
  cbn [rbind]. destruct (qsort_insert_spec cmp e l1) as (l2 & -> & Hl2).
  { intros e' He'. apply Hcmp; [by left|]. right. by rewrite <- Hl1. }
  eexists. split; [done|]. by rewrite Hl2, Hl1.
Qed.

(** [drsh_env_sort_env] permutes the entries and rebuilds the index. *)
Lemma sort_env_spec env :
  env_wf at' env ->
  exists env',
    drsh_env_sort_env at' env = Ok env'
    /\ env_wf at' env'
    /\ env_entries env' ≡ₚ env_entries env
    /\ env_cap env' = env_cap env
    /\ env_home env' = env_home env
    /\ env_case_insensitive env' = env_case_insensitive env.
Proof using WF.
  intros EW. unfold drsh_env_sort_env.
  destruct (env_sorted env); [by exists env|].
  destruct (env_count env =? 0) eqn:Hz; [by exists env|].
  apply Z.eqb_neq in Hz.
  set (ci := env_case_insensitive env).
  set (cmp := if ci then drsh_atom_icmp at' else _).
  pose proof (ew_valid _ _ EW) as Hv.
  destruct (qsort_spec cmp (env_entries env)) as (entries & -> & Hperm).
  { intros e e' He He'.
    pose proof (proj1 (Forall_forall _ _) Hv e He) as [Hk _].
    pose proof (proj1 (Forall_forall _ _) Hv e' He') as [Hk' _].
    unfold cmp. destruct ci; [by apply atom_icmp_total|by apply atom_cmp_total]. }
  cbn [rbind].
  assert (Hv' : Forall (fun e => valid_atom at' e.1 /\ valid_atom at' e.2) entries).
  { by rewrite Hperm. }
  assert (Hlen : len entries = env_count env).
  { unfold env_count, len. by rewrite Hperm. }
  unfold env_reindex.
  rewrite (res_map_ok _ (fun e => lhash_of at' ci e.1)).
  2:{ eapply Forall_impl; [exact Hv'|]. intros e [Hk _]. by apply env_lhash_ok. }
  cbn [rbind].
  pose proof (ew_index _ _ EW) as Hidx. pose proof (iw_cap _ _ _ Hidx) as [Hc0 Hc1].
  destruct (ew_room _ _ EW) as [Hr|[Hr1 Hr2]].
  { pose proof (iw_load _ _ _ Hidx) as Hl. rewrite env_count_hashes in Hl. 
    assert (0 <= env_count env) by (unfold env_count, len; lia). lia. }
  destruct (reindex_spec (env_cap env) ((fun e => lhash_of at' ci e.1) <$> entries) []
              _ (index_wf_empty _ Hc0 Hc1))
    as (idxes & Hre & Hidx').
  { unfold len in *. rewrite length_fmap. cbn. lia. }
  change (len []) with 0 in Hre. rewrite Hre. cbn [rbind].
  eexists. split; [done|]. split_and!; try done.
  split; cbn; try done.
  - right. split; [done|]. unfold env_count. cbn. lia.
  - destruct (ew_capacity _ _ EW) as [?|?]; [by left|right].
    unfold env_count in *. cbn. lia.
  - fold ci. rewrite Hperm. apply (ew_nodup _ _ EW).
Qed.

Lemma set_listing_ok w (entries : list (nat * nat)) :
  Forall (fun e => valid_atom at' e.1 /\ valid_atom at' e.2) entries ->
  exists s, set_listing w at' entries = Ok s.
Proof using WF.
  induction 1 as [|[k v] entries [Hk Hv] _ (s & IH)]; [by eexists|].
  cbn [set_listing]. cbn in Hk, Hv.
  destruct (atom_str_valid at' k Hk) as (ks & ->).
  destruct (atom_str_valid at' v Hv) as (vs & ->). cbn [rbind].
  destruct w.
  - destruct (ifold_valid at' WF k Hk) as (l & Hl & Hlv & _).
    destruct (atom_at_valid at' k Hk) as (a & Ea & Ha).
    unfold atom_iatom_at. rewrite Ea. cbn [rbind].
    unfold ifold_of in Hl. rewrite Ha in Hl. cbn in Hl. rewrite Hl. cbn [rbind].
    destruct (atom_str_valid at' l Hlv) as (ls & ->). cbn [rbind].
    rewrite IH. by eexists.
  - cbn [rbind]. rewrite IH. by eexists.
Qed.
End Sorting.
End DispatchFacts.

(* ------------------------------------------------------------------ *)
(** ** Lines *)

Section ProcessLineFacts.
Context `{Hash}.
Variable IS_WINDOWS : bool.
Variable glob : list Z -> option (list (list Z)).

Lemma state_wf_extends st at2 :
  state_wf st -> at_wf at2 -> at_extends (st_at st) at2 ->
  state_wf {| st_at := at2; st_env := st_env st; st_out := st_out st |}.
Proof.
  intros [WF Hr EW Hcap Hhome] WF2 [Hp Hs]. split; cbn; try done.
  - by apply (at_ready_mono (st_at st)).
  - by apply (env_wf_mono (st_at st)).
  - destruct (env_home (st_env st)); [|done]. cbn in *. by eapply valid_atom_mono.
Qed.

(** A line that is not a lone line end is tokenized, turned into the
    atoms of its words and dispatched. *)
Lemma process_line_argv st line :
  state_wf st ->
  line_fits IS_WINDOWS glob (st_at st) (env_text (st_at st) (st_env st)) (home_text st) line ->
  line <> [13] -> line <> [10] ->
  exists at2 argv,
    drsh_process_line IS_WINDOWS glob st line
    = dispatch IS_WINDOWS {| st_at := at2; st_env := st_env st; st_out := st_out st |} argv
    /\ state_wf {| st_at := at2; st_env := st_env st; st_out := st_out st |}
    /\ at_extends (st_at st) at2
    /\ at_count at2
       <= at_count (st_at st)
          + argv_cost IS_WINDOWS glob (env_text (st_at st) (st_env st)) (home_text st)
              line (drsh_tokenize_line line)
    /\ Forall2 (fun p w => txt_of at2 p = Some w) argv
         (argv_words IS_WINDOWS glob (env_text (st_at st) (st_env st)) (home_text st)
            line (drsh_tokenize_line line)).
Proof.
  intros SW [Hline Hwords Hpaths Hc] H13 H10. unfold drsh_process_line.
  rewrite !bool_decide_eq_false_2 by done. cbn [orb].
  destruct SW as [WF Hr EW Hcap Hhome].
  destruct (tokens_to_argv_loop_spec IS_WINDOWS glob (st_at st) (st_env st) WF EW Hcap Hhome
              line (drsh_tokenize_line line) (st_at st) [] [] WF (at_extends_refl _)
              Hline Hwords Hpaths Hc (Forall2_nil_2 _ _ _))
    as (at2 & argv & E & WF2 & He & Hc2 & Hargv).
  unfold drsh_tokens_to_argv. rewrite E. exists at2, argv. split_and!; try done.
  by apply state_wf_extends.
Qed.

Lemma dispatch_echo st name args (ws : list (list Z)) :
  state_wf st ->
  txt_of (st_at st) name = Some (bytes_of "echo") ->
  Forall2 (fun p w => txt_of (st_at st) p = Some w) args ws ->
  dispatch IS_WINDOWS st (name :: args)
  = Ok (drsh_ts_write (drsh_ts_write st (ws ≫= fun w => c_str w ++ [32])) CRLF,
        Returned EC_OK).
Proof.
  intros [WF Hr _ _ _] Hname Hargs. unfold dispatch.
  rewrite !(is_special_text _ _ _ _ WF Hr Hname).
  change (bool_decide (special_tokens !! ATOM_cd = Some (bytes_of "echo"))) with false.
  change (bool_decide (special_tokens !! ATOM_echo = Some (bytes_of "echo"))) with true.
  cbv iota. by rewrite (echo_args_spec _ _ _ Hargs).
Qed.

Lemma atom_len_zero at' p w :
  at_wf at' -> txt_of at' p = Some w ->
  exists a, atom_at at' p = Ok a /\ (atom_len a =? 0) = bool_decide (w = []).
Proof.
  intros WF Hp. unfold txt_of in Hp. unfold atom_at.
  destruct (at_atoms at' !! p) as [a|] eqn:Ha; [|done]. injection Hp as <-.
  exists a. split; [done|].
  destruct (aw_atoms _ (aw_wf0 _ WF) p a Ha) as (_ & -> & _).
  destruct (atom_txt a); [done|]. rewrite bool_decide_eq_false_2 by done.
  apply Z.eqb_neq. unfold len. cbn [length]. lia.
Qed.

(** The [set] built-in: without arguments the entries are sorted and
    listed; with two arguments and a non-empty name the pair is stored;
    in every other case nothing happens. *)
Lemma dispatch_set st name args (ws : list (list Z)) :
  state_wf st -> env_count (st_env st) + 1 < 2 ^ 28 ->
  txt_of (st_at st) name = Some (bytes_of "set") ->
  Forall2 (fun p w => txt_of (st_at st) p = Some w) args ws ->
  exists st',
    dispatch IS_WINDOWS st (name :: args) = Ok (st', Returned EC_OK)
    /\ state_wf st' /\ st_at st' = st_at st
    /\ match ws with
       | [] => env_entries (st_env st') ≡ₚ env_entries (st_env st)
       | [key; value] =>
           st_out st' = st_out st
           /\ if decide (key = []) then st_env st' = st_env st
              else env_text (st_at st') (st_env st') key = Some value
       | _ => st' = st
       end.
Proof.
  intros SW Hec Hname Hargs. pose proof SW as [WF Hr EW Hcap Hhome]. unfold dispatch.
  rewrite !(is_special_text _ _ _ _ WF Hr Hname).
  change (bool_decide (special_tokens !! ATOM_cd = Some (bytes_of "set"))) with false.
  change (bool_decide (special_tokens !! ATOM_echo = Some (bytes_of "set"))) with false.
  change (bool_decide (special_tokens !! ATOM_exit = Some (bytes_of "set"))) with false.
  change (bool_decide (special_tokens !! ATOM_pwd = Some (bytes_of "set"))) with false.
  change (bool_decide (special_tokens !! ATOM_set = Some (bytes_of "set"))) with true.
  cbv iota.
  destruct Hargs as [|k key args' ws' Hk Hargs].
  { (* no argument: sort and list *)
    destruct (sort_env_spec _ WF _ EW) as (env' & -> & EW' & Hperm & Hcap' & Hhome' & Hci').
    cbn [rbind].
    destruct (set_listing_ok _ WF IS_WINDOWS _ (ew_valid _ _ EW')) as (s & ->).
    cbn [rbind]. eexists. split; [done|]. split_and!; try done.
    split; cbn; try done; [lia|by rewrite Hhome']. }
  cbn [rbind].
  destruct Hargs as [|v value args'' ws'' Hv Hargs].
  { by exists st. }
  destruct Hargs as [|x xw args3 ws3 Hx Hargs].
  2:{ by exists st. }
  destruct (atom_len_zero _ _ _ WF Hk) as (a & -> & Hz). cbn [rbind]. rewrite Hz.
  destruct (decide (key = [])) as [->|Hne].
  { rewrite bool_decide_eq_true_2 by done. by exists st. }
  rewrite bool_decide_eq_false_2 by done.
  destruct (env_set_spec _ WF _ k v EW Hec (txt_of_valid _ _ _ Hk) (txt_of_valid _ _ _ Hv))
    as (entries & cap & idxes & sorted & -> & EW' & Hcap' & _ & _ & Hlook).
  cbn [rbind]. eexists. split; [done|]. split_and!; try done.
  change (env_text (st_at st) (env_set_table (st_env st) entries cap idxes sorted) key
          = Some value).
  destruct (env_lookup_text _ _ k key WF EW' Hk) as [<- _].
  rewrite Hlook, decide_True by done. exact Hv.
Qed.
End ProcessLineFacts.

Section ProcessLineBuiltins.
Context `{Hash}.
Variable IS_WINDOWS : bool.
Variable glob : list Z -> option (list (list Z)).

Lemma tokenize_line_end line :
  line = [13] \/ line = [10] -> drsh_tokenize_line line = [].
Proof. by intros [->| ->]. Qed.

(** A line whose words are [set] and its arguments. *)
Lemma process_line_set st line (args : list (list Z)) :
  state_wf st ->
  env_count (st_env st) + 1 < 2 ^ 28 ->
  line_fits IS_WINDOWS glob (st_at st) (env_text (st_at st) (st_env st)) (home_text st) line ->
  argv_words IS_WINDOWS glob (env_text (st_at st) (st_env st)) (home_text st) line
    (drsh_tokenize_line line) = bytes_of "set" :: args ->
  exists st',
    drsh_process_line IS_WINDOWS glob st line = Ok (st', Returned EC_OK)
    /\ state_wf st'
    /\ at_extends (st_at st) (st_at st')
    /\ at_count (st_at st')
       <= at_count (st_at st)
          + argv_cost IS_WINDOWS glob (env_text (st_at st) (st_env st)) (home_text st)
              line (drsh_tokenize_line line)
    /\ match args with
       | [] => env_entries (st_env st') ≡ₚ env_entries (st_env st)
       | [key; value] =>
           st_out st' = st_out st
           /\ if decide (key = []) then st_env st' = st_env st
              else env_text (st_at st') (st_env st') key = Some value
       | _ => st_env st' = st_env st /\ st_out st' = st_out st
       end.
Proof.
  intros SW Hec Hfits Hwords.
  destruct (process_line_argv IS_WINDOWS glob st line SW Hfits)
    as (at2 & argv & -> & SW2 & He & Hc & Hargv).
  { intros E. by rewrite (tokenize_line_end line (or_introl E)) in Hwords. }
  { intros E. by rewrite (tokenize_line_end line (or_intror E)) in Hwords. }
  rewrite Hwords in Hargv. apply Forall2_cons_inv_r in Hargv as (name & ps & Hname & Hps & ->).
  destruct (dispatch_set IS_WINDOWS _ name ps args SW2 Hec Hname Hps)
    as (st' & -> & SW' & Hat & Hres).
  exists st'. split; [done|]. split; [done|].
  split; [by rewrite Hat|]. split; [by rewrite Hat|].
  destruct args as [|k [|v [|x rest]]];
    [exact Hres|by subst st'|exact Hres|by subst st'].
Qed.

(** A line whose words are [echo] and its arguments. *)
Lemma process_line_echo st line (args : list (list Z)) :
  state_wf st ->
  line_fits IS_WINDOWS glob (st_at st) (env_text (st_at st) (st_env st)) (home_text st) line ->
  argv_words IS_WINDOWS glob (env_text (st_at st) (st_env st)) (home_text st) line
    (drsh_tokenize_line line) = bytes_of "echo" :: args ->
  exists st',
    drsh_process_line IS_WINDOWS glob st line = Ok (st', Returned EC_OK)
    /\ st_env st' = st_env st
    /\ st_out st' = st_out st ++ (args ≫= fun w => c_str w ++ [32]) ++ CRLF.
Proof.
  intros SW Hfits Hwords.
  destruct (process_line_argv IS_WINDOWS glob st line SW Hfits)
    as (at2 & argv & -> & SW2 & He & Hc & Hargv).
  { intros E. by rewrite (tokenize_line_end line (or_introl E)) in Hwords. }
  { intros E. by rewrite (tokenize_line_end line (or_intror E)) in Hwords. }
  rewrite Hwords in Hargv. apply Forall2_cons_inv_r in Hargv as (name & ps & Hname & Hps & ->).
  rewrite (dispatch_echo IS_WINDOWS _ name ps args SW2 Hname Hps).
  eexists. split; [done|]. split; [done|]. cbn. by rewrite <- app_assoc.
Qed.
End ProcessLineBuiltins.

(* ------------------------------------------------------------------ *)
(** ** Theorems on lines *)

Lemma argv_cost_words W glob getenv home line (toks : list DrshToken) :
  argv_cost W glob getenv home line toks
  = foldr (fun tok acc => 2 * len (token_bytes line tok) + 4 + acc) 0 toks
    + 2 * len (argv_words W glob getenv home line toks).
Proof.
  induction toks as [|tok toks IH]; [done|].
  unfold argv_words in *. rewrite bind_cons. cbn [argv_cost foldr].
  fold (argv_cost W glob getenv home line toks). rewrite IH, len_app. lia.
Qed.

Lemma line_fits_of W glob at' getenv home line toks ws cost :
  drsh_tokenize_line line = toks -> len line < UINT32_MAX ->
  Forall (fun tok => len (word_of getenv home (token_bytes line tok) W) < UINT32_MAX) toks ->
  argv_words W glob getenv home line toks = ws ->
  Forall (fun w => len w < UINT32_MAX) ws ->
  foldr (fun tok acc => 2 * len (token_bytes line tok) + 4 + acc) 0 toks + 2 * len ws
  <= cost ->
  at_count at' + cost <= 2 ^ 28 ->
  (line_fits W glob at' getenv home line
   /\ argv_cost W glob getenv home line (drsh_tokenize_line line) <= cost)
  /\ argv_words W glob getenv home line (drsh_tokenize_line line) = ws.
Proof.
  intros <- ? ? <- ? Hcost ?. rewrite <- argv_cost_words in Hcost.
  split; [|reflexivity]. split; [|assumption]. split; try assumption. lia.
Qed.

(** Evaluation of a closed comparison or equation. *)
Ltac decided := vm_compute; first [reflexivity | discriminate].

(** The word of a token is evaluated before its length is compared, and
    [rw] rewrites with what is known of the environment. *)
Ltac word_small rw :=
  lazymatch goal with
  | |- len ?w < _ =>
      let w' := eval vm_compute in w in
      replace w with w' by (vm_compute; reflexivity)
  end;
  rw; decided.

(** The facts [line_fits_of] asks for, for a line given by its bytes:
    everything is evaluated, and [rw] rewrites with what is known of the
    environment and of [glob]. *)
Ltac line_facts rw :=
  lazymatch goal with
  | |- (line_fits ?W ?glob ?at' ?getenv ?home ?line /\ _ <= ?cost)
       /\ argv_words _ _ _ _ _ _ = ?ws =>
      let toks := eval vm_compute in (drsh_tokenize_line line) in
      apply (line_fits_of W glob at' getenv home line toks ws cost);
      [ vm_compute; reflexivity
      | decided
      | repeat (apply Forall_cons_2; [word_small rw|]); apply Forall_nil_2
      | vm_compute; rw; vm_compute; rw; vm_compute; reflexivity
      | repeat (apply Forall_cons_2; [decided|]); apply Forall_nil_2
      | decided
      | first [lia | decided] ]
  end.

(** X4.  From any state that satisfies the invariants (with
    room in the tables), the line [set X hello] is processed without
    output, and then [echo '$X'] writes [hello \r\n] (single quotes do
    not stop the expansion), [echo "\$X"] writes [\$X \r\n] (the
    backslash is kept before a dollar) and [echo $X] writes
    [hello \r\n].  On the DOS family this holds as such; elsewhere it
    holds when [glob] gives back each of the five words unchanged. *)
Theorem set_then_echo `{Hash} (IS_WINDOWS : bool) (glob : list Z -> option (list (list Z)))
    (st : DrshState) :
  state_wf st ->
  at_count (st_at st) + 128 <= 2 ^ 28 ->
  env_count (st_env st) + 1 < 2 ^ 28 ->
  (IS_WINDOWS = false ->
   Forall (fun w => glob w = Some [w])
     [bytes_of "set"; bytes_of "X"; bytes_of "hello"; bytes_of "echo"; bytes_of "\$X"]) ->
  exists st1,
    drsh_process_line IS_WINDOWS glob st (bytes_of "set X hello") = Ok (st1, Returned EC_OK)
    /\ st_out st1 = st_out st
    /\ forall line out, (line, out) ∈ echo_cases ->
         exists st2,
           drsh_process_line IS_WINDOWS glob st1 line = Ok (st2, Returned EC_OK)
           /\ st_out st2 = st_out st1 ++ out.
Proof.
  intros SW Hc Hec Hglob.
  assert (Hg : IS_WINDOWS = false ->
     glob (bytes_of "set") = Some [bytes_of "set"]
     /\ glob (bytes_of "X") = Some [bytes_of "X"]
     /\ glob (bytes_of "hello") = Some [bytes_of "hello"]
     /\ glob (bytes_of "echo") = Some [bytes_of "echo"]
     /\ glob (bytes_of "\$X") = Some [bytes_of "\$X"]).
  { intros E. specialize (Hglob E).
    repeat (apply Forall_cons in Hglob as [? Hglob]). by split_and!. }
  clear Hglob.
  remember (env_text (st_at st) (st_env st)) as getenv eqn:Egetenv.
  remember (home_text st) as home eqn:Ehome.
  assert (Hfits : (line_fits IS_WINDOWS glob (st_at st) getenv home (bytes_of "set X hello")
                   /\ argv_cost IS_WINDOWS glob getenv home (bytes_of "set X hello")
                        (drsh_tokenize_line (bytes_of "set X hello")) <= 40)
                  /\ argv_words IS_WINDOWS glob getenv home (bytes_of "set X hello")
                       (drsh_tokenize_line (bytes_of "set X hello"))
                     = [bytes_of "set"; bytes_of "X"; bytes_of "hello"]).
  { destruct IS_WINDOWS.
    - line_facts idtac.
    - destruct (Hg eq_refl) as (G1 & G2 & G3 & G4 & G5). vm_compute in G1, G2, G3.
      line_facts ltac:(rewrite ?G1, ?G2, ?G3). }
  destruct Hfits as ([Hfits Hcost] & Hw). subst getenv home.
  destruct (process_line_set IS_WINDOWS glob st _ _ SW Hec Hfits Hw)
    as (st1 & E1 & SW1 & He1 & Hc1 & Hout1 & Hx).
  rewrite decide_False in Hx by discriminate.
  exists st1. split; [exact E1|]. split; [exact Hout1|].
  remember (env_text (st_at st1) (st_env st1)) as getenv eqn:Egetenv.
  remember (home_text st1) as home eqn:Ehome.
  vm_compute in Hx.
  assert (Hcount : at_count (st_at st1) + 40 <= 2 ^ 28).
  { lia. }
  assert (Hwords : Forall (fun c : list Z * list Z =>
    exists w,
      ((line_fits IS_WINDOWS glob (st_at st1) getenv home c.1
        /\ argv_cost IS_WINDOWS glob getenv home c.1 (drsh_tokenize_line c.1) <= 40)
       /\ argv_words IS_WINDOWS glob getenv home c.1 (drsh_tokenize_line c.1)
          = [bytes_of "echo"; w])
      /\ c.2 = (c_str w ++ [32]) ++ CRLF) echo_cases).
  { unfold echo_cases. repeat apply Forall_cons_2; [..|apply Forall_nil_2]; cbn [fst snd].
    - exists (bytes_of "hello"). split; [|reflexivity]. destruct IS_WINDOWS.
      + line_facts ltac:(rewrite ?Hx).
      + destruct (Hg eq_refl) as (G1 & G2 & G3 & G4 & G5). vm_compute in G3, G4, G5.
        line_facts ltac:(rewrite ?Hx, ?G3, ?G4, ?G5).
    - exists (bytes_of "\$X"). split; [|reflexivity]. destruct IS_WINDOWS.
      + line_facts ltac:(rewrite ?Hx).
      + destruct (Hg eq_refl) as (G1 & G2 & G3 & G4 & G5). vm_compute in G3, G4, G5.
        line_facts ltac:(rewrite ?Hx, ?G3, ?G4, ?G5).
    - exists (bytes_of "hello"). split; [|reflexivity]. destruct IS_WINDOWS.
      + line_facts ltac:(rewrite ?Hx).
      + destruct (Hg eq_refl) as (G1 & G2 & G3 & G4 & G5). vm_compute in G3, G4, G5.
        line_facts ltac:(rewrite ?Hx, ?G3, ?G4, ?G5). }
  intros line out Hin.
  destruct (proj1 (Forall_forall _ _) Hwords (line, out) Hin) as (w & [[Hfits2 _] Hw2] & Eout).
  cbn [fst snd] in Hfits2, Hw2, Eout. subst out.
  subst getenv home.
  destruct (process_line_echo IS_WINDOWS glob st1 line [w] SW1 Hfits2 Hw2)
    as (st2 & E2 & _ & Hout2).
  exists st2. split; [exact E2|]. rewrite Hout2. f_equal. cbn. by rewrite app_nil_r.
Qed.

(** X3.  A line whose words are [set] followed by arguments returns
    [EC_OK] and touches the environment only when there are exactly two
    arguments and the first is not empty, in which case the pair is
    stored.  With one argument, with three or more, or with an empty
    first argument the environment is left as it is; without arguments
    the entries are only sorted for the listing, so the stored pairs are
    the same. *)
Theorem set_builtin_frame `{Hash} (IS_WINDOWS : bool)
    (glob : list Z -> option (list (list Z))) (st : DrshState) (line : list Z)
    (args : list (list Z)) :
  state_wf st ->
  env_count (st_env st) + 1 < 2 ^ 28 ->
  line_fits IS_WINDOWS glob (st_at st) (env_text (st_at st) (st_env st)) (home_text st) line ->
  argv_words IS_WINDOWS glob (env_text (st_at st) (st_env st)) (home_text st) line
    (drsh_tokenize_line line) = bytes_of "set" :: args ->
  exists st',
    drsh_process_line IS_WINDOWS glob st line = Ok (st', Returned EC_OK)
    /\ (length args <> 2%nat \/ args !! 0%nat = Some [] ->
        env_entries (st_env st') ≡ₚ env_entries (st_env st)
        /\ (args <> [] -> st_env st' = st_env st))
    /\ (forall key value, args = [key; value] -> key <> [] ->
        env_text (st_at st') (st_env st') key = Some value).
Proof.
  intros SW Hec Hfits Hwords.
  destruct (process_line_set IS_WINDOWS glob st line args SW Hec Hfits Hwords)
    as (st' & E & _ & _ & _ & Hres).
  exists st'. split; [done|]. split.
  - intros Hcase. destruct args as [|k [|v [|x rest]]].
    + done.
    + destruct Hres as [-> _]. done.
    + destruct Hcase as [Hcase|[= ->]]; [done|]. destruct Hres as [_ Hres].
      rewrite decide_True in Hres by done. by rewrite Hres.
    + destruct Hres as [-> _]. done.
  - intros key value -> Hne. destruct Hres as [_ Hres].
    by rewrite decide_False in Hres.
Qed.

(** ** Sample states *)

Lemma posix_state_wf : @state_wf murmur posix_state.
Proof.
  destruct (@at_init_spec murmur) as (at1 & E1 & WF1 & Hr1 & Hc1).
  vm_compute in E1. injection E1 as <-.
  destruct (@env_init_spec murmur OS_LINUX _ sample_envp false [] WF1 Hr1)
    as (at2 & env2 & E2 & SW & _).
  - done.
  - left. by eexists.
  - decided.
  - repeat (apply Forall_cons_2; [decided|]). apply Forall_nil_2.
  - vm_compute in E2. injection E2 as <- <-. exact SW.
Qed.

Lemma dos_state_wf : @state_wf murmur dos_state.
Proof.
  destruct (@at_init_spec murmur) as (at1 & E1 & WF1 & Hr1 & Hc1).
  vm_compute in E1. injection E1 as <-.
  destruct (@env_init_spec murmur OS_WINDOWS _ sample_envp true [] WF1 Hr1)
    as (at2 & env2 & E2 & SW & _).
  - intros _. repeat (apply Forall_cons_2; [by eexists|]). apply Forall_nil_2.
  - left. by eexists.
  - decided.
  - repeat (apply Forall_cons_2; [decided|]). apply Forall_nil_2.
  - vm_compute in E2. injection E2 as <- <-. exact SW.
Qed.

Lemma set_then_echo_witness :
  exists st1,
    drsh_process_line false glob_nocheck posix_state (bytes_of "set X hello")
    = Ok (st1, Returned EC_OK)
    /\ st_out st1 = st_out posix_state
    /\ forall line out, (line, out) ∈ echo_cases ->
         exists st2,
           drsh_process_line false glob_nocheck st1 line = Ok (st2, Returned EC_OK)
           /\ st_out st2 = st_out st1 ++ out.
Proof.
  apply (@set_then_echo murmur false glob_nocheck posix_state).
  - exact posix_state_wf.
  - decided.
  - decided.
  - intros _. repeat (apply Forall_cons_2; [reflexivity|]). apply Forall_nil_2.
Defined.

(** The same on the two sample states.  After [set X hello] the
    line [echo '$X'] writes [hello \r\n], not [$X \r\n]: the
    canonicalizer opens and closes the quote but expands a dollar
    whenever no backslash precedes it.  The line [echo "\$X"] writes
    [\$X \r\n]: after a backslash only a space or a quote loses the
    backslash.  Both on the DOS family, where no [glob] is involved, and
    elsewhere with a [glob] that finds nothing. *)
Lemma set_then_echo_counterexample :
  forall w : bool,
    exists st1 st2 st3,
      drsh_process_line w glob_nocheck (if w then dos_state else posix_state)
        (bytes_of "set X hello") = Ok (st1, Returned EC_OK)
      /\ drsh_process_line w glob_nocheck st1 (bytes_of "echo '$X'")
         = Ok (st2, Returned EC_OK)
      /\ st_out st2 = st_out st1 ++ bytes_of "hello " ++ CRLF
      /\ st_out st2 <> st_out st1 ++ bytes_of "$X " ++ CRLF
      /\ drsh_process_line w glob_nocheck st1 (bytes_of "echo " ++ [34] ++ bytes_of "\$X" ++ [34])
         = Ok (st3, Returned EC_OK)
      /\ st_out st3 = st_out st1 ++ bytes_of "\$X " ++ CRLF
      /\ st_out st3 <> st_out st1 ++ bytes_of "$X " ++ CRLF.
Proof.
  intros [|]; eexists _, _, _;
    (split; [decided|]); (split; [decided|]); (split; [decided|]); (split; [decided|]);
    (split; [decided|]); (split; [decided|]); decided.
Qed.

Lemma set_builtin_frame_witness :
  exists st',
    drsh_process_line false glob_nocheck posix_state (bytes_of "set X") = Ok (st', Returned EC_OK)
    /\ (length [bytes_of "X"] <> 2%nat \/ [bytes_of "X"] !! 0%nat = Some [] ->
        env_entries (st_env st') ≡ₚ env_entries (st_env posix_state)
        /\ ([bytes_of "X"] <> [] -> st_env st' = st_env posix_state))
    /\ (forall key value, [bytes_of "X"] = [key; value] -> key <> [] ->
        env_text (st_at st') (st_env st') key = Some value).
Proof.
  assert (Hline : (line_fits false glob_nocheck (st_at posix_state)
                     (env_text (st_at posix_state) (st_env posix_state))
                     (home_text posix_state) (bytes_of "set X")
                   /\ argv_cost false glob_nocheck
                        (env_text (st_at posix_state) (st_env posix_state))
                        (home_text posix_state) (bytes_of "set X")
                        (drsh_tokenize_line (bytes_of "set X")) <= 40)
                  /\ argv_words false glob_nocheck
                       (env_text (st_at posix_state) (st_env posix_state))
                       (home_text posix_state) (bytes_of "set X")
                       (drsh_tokenize_line (bytes_of "set X"))
                     = [bytes_of "set"; bytes_of "X"]).
  { line_facts idtac. }
  destruct Hline as [[Hfits _] Hwords].
  apply (@set_builtin_frame murmur false glob_nocheck posix_state (bytes_of "set X")
           [bytes_of "X"] posix_state_wf ltac:(decided) Hfits Hwords).
Defined.

(** ** Witnesses for the environment and the resolver *)

Lemma resolve_prog_path_posix_witness :
  drsh_env_resolve_prog_path sample_exists (st_at posix_state) (st_env posix_state) []
    2%nat false
  = match find (fun d => sample_exists (c_str (formed_path d (atom_txt (sample_atom 2)))))
            (path_directories (atom_txt (sample_atom 39))) with
    | Some d => Ok (st_at posix_state, formed_path d (atom_txt (sample_atom 2)))
    | None => Fail EC_NOT_FOUND
    end.
Proof.
  apply (@resolve_prog_path_posix murmur sample_exists (st_at posix_state)
           (st_at posix_state) (st_env posix_state) [] 2%nat 39%nat
           (sample_atom 2) (sample_atom 39)).
  - reflexivity.
  - reflexivity.
  - apply (bool_decide_unpack _). decided.
  - decided.
  - reflexivity.
Defined.

Lemma env_round_trip_witness :
  (forall k v, valid_atom (st_at dos_state) k -> valid_atom (st_at dos_state) v ->
     exists env',
       drsh_env_set_env (st_at dos_state) (st_env dos_state) k v = Ok env'
       /\ env_wf (st_at dos_state) env'
       /\ drsh_env_get_env (st_at dos_state) env' k = Ok (Some v))
  /\ (env_case_insensitive (st_env dos_state) = true -> 0 < env_cap (st_env dos_state) ->
      forall k1 k2 a b,
        txt_of (st_at dos_state) k1 = Some a -> txt_of (st_at dos_state) k2 = Some b ->
        ascii_case_eq a b ->
        drsh_env_get_env (st_at dos_state) (st_env dos_state) k1
        = Ok (env_lookup (st_at dos_state) (st_env dos_state) k1)
        /\ drsh_env_get_env (st_at dos_state) (st_env dos_state) k2
           = Ok (env_lookup (st_at dos_state) (st_env dos_state) k1)).
Proof.
  apply (@env_round_trip murmur (st_at dos_state) (st_env dos_state)
           (sw_at _ dos_state_wf) (sw_env _ dos_state_wf)).
  decided.
Defined.

(* ------------------------------------------------------------------ *)
(** ** Further properties of the atom table and the environment *)

(** X5.  [drsh_at_atomize] never moves or changes an atom: after a call
    on a well-formed table with room, every pointer that designated a
    text designates the same text, the well-known atoms are the same,
    and the returned atom carries the requested text; when the text was
    interned already, its atom is the one returned and no atom is added.
    A text of [UINT32_MAX] bytes or more is refused with
    [EC_VALUE_ERROR]. *)
Theorem atomize_keeps_atoms `{Hash} (at' : DrshAtomTable) (txt : list Z) :
  at_wf at' -> at_count at' + 2 <= 2 ^ 28 ->
  (len txt < UINT32_MAX ->
   exists at2 p,
     drsh_at_atomize at' txt = Ok (at2, p)
     /\ at_wf at2
     /\ txt_of at2 p = Some txt
     /\ (forall q s, txt_of at' q = Some s -> txt_of at2 q = Some s)
     /\ at_special at2 = at_special at'
     /\ at_count at2 <= at_count at' + 2
     /\ (forall q, txt_of at' q = Some txt -> q = p /\ at_atoms at2 = at_atoms at'))
  /\ (UINT32_MAX <= len txt -> drsh_at_atomize at' txt = Fail EC_VALUE_ERROR).
Proof.
  intros WF Hc. split.
  - intros Hlen.
    destruct (atomize_spec at' txt WF Hc Hlen)
      as (at2 & p & E & WF2 & Hs & Hp & Htxt & Hc2 & Hold).
    exists at2, p. split_and!; try assumption.
    + intros q s Hq. exact (txt_of_prefix _ _ _ _ Hq Hp).
    + intros q Hq. split.
      * apply (txt_of_inj at2 q p txt txt WF2 (txt_of_prefix _ _ _ _ Hq Hp) Htxt).
        reflexivity.
      * apply Hold. unfold txt_of in Hq.
        destruct (at_atoms at' !! q) as [a|] eqn:Ha; [|discriminate].
        injection Hq as <-. apply list_elem_of_fmap. exists a. split; [reflexivity|].
        by eapply list_elem_of_lookup_2.
  - intros Hlen. unfold drsh_at_atomize, drsh_at_atomize_fuel, at_find_or_add.
    apply Z.leb_le in Hlen. by rewrite Hlen.
Qed.

Lemma atomize_keeps_atoms_witness :
  (len (bytes_of "echo") < UINT32_MAX ->
   exists at2 p,
     drsh_at_atomize (st_at posix_state) (bytes_of "echo") = Ok (at2, p)
     /\ at_wf at2
     /\ txt_of at2 p = Some (bytes_of "echo")
     /\ (forall q s, txt_of (st_at posix_state) q = Some s -> txt_of at2 q = Some s)
     /\ at_special at2 = at_special (st_at posix_state)
     /\ at_count at2 <= at_count (st_at posix_state) + 2
     /\ (forall q, txt_of (st_at posix_state) q = Some (bytes_of "echo") ->
         q = p /\ at_atoms at2 = at_atoms (st_at posix_state)))
  /\ (UINT32_MAX <= len (bytes_of "echo") ->
      drsh_at_atomize (st_at posix_state) (bytes_of "echo") = Fail EC_VALUE_ERROR).
Proof.
  apply (@atomize_keeps_atoms murmur (st_at posix_state) (bytes_of "echo")
           (sw_at _ posix_state_wf)).
  decided.
Defined.

Lemma special_tokens_nodup : NoDup special_tokens.
Proof. apply (bool_decide_unpack _). decided. Qed.

(** X6.  [drsh_at_init] on the zeroed table of [main] succeeds, whatever
    hash function the build selects: the
    table is well formed, [special] holds [ATOM_MAX] atoms, atom number
    [i] carries spelling number [i], and no two of them are the same
    atom. *)
Theorem at_init_specials `{Hash} :
  exists at2,
    drsh_at_init at_zero = Ok at2
    /\ at_wf at2
    /\ length (at_special at2) = ATOM_MAX
    /\ (forall (i : nat) tok, special_tokens !! i = Some tok ->
          exists p, special at2 i = Some p /\ txt_of at2 p = Some tok)
    /\ NoDup (at_special at2).
Proof.
  destruct at_init_spec as (at2 & E & WF & Hr & _).
  exists at2. split_and!; try assumption.
  - rewrite (Forall2_length _ _ _ Hr). reflexivity.
  - intros i tok Hi. destruct (Forall2_lookup_r _ _ _ _ _ Hr Hi) as (p & Hp & Ht).
    exists p. split; assumption.
  - apply NoDup_alt. intros i j p Hi Hj.
    destruct (Forall2_lookup_l _ _ _ _ _ Hr Hi) as (ti & Hti & Hpi).
    destruct (Forall2_lookup_l _ _ _ _ _ Hr Hj) as (tj & Htj & Hpj).
    rewrite Hpi in Hpj. injection Hpj as <-.
    exact (proj1 (NoDup_alt _) special_tokens_nodup i j ti Hti Htj).
Qed.

Lemma assoc_by_perm f l (e1 e2 : list (nat * nat)) :
  NoDup ((fun e => f e.1) <$> e1) -> e1 ≡ₚ e2 -> assoc_by f l e1 = assoc_by f l e2.
Proof.
  intros Hnd Hperm. induction Hperm as [|[k v] e1 e2 Hp IH|[k v] [k' v'] e|e1 e2 e3 H12 IH12 H23 IH23].
  - reflexivity.
  - cbn [assoc_by]. destruct (decide (f k = l)); [reflexivity|].
    apply IH. rewrite fmap_cons in Hnd. by apply NoDup_cons in Hnd as [_ ?].
  - cbn [assoc_by]. rewrite !fmap_cons in Hnd. cbn [fst] in Hnd.
    apply NoDup_cons in Hnd as [Hn _].
    destruct (decide (f k = l)) as [E1|]; destruct (decide (f k' = l)) as [E2|];
      try reflexivity.
    exfalso. apply Hn. rewrite E2, <- E1. by left.
  - rewrite IH12 by assumption. apply IH23. by rewrite <- H12.
Qed.

(** X7.  [drsh_env_set_env] changes one binding only: after [set(k, v)]
    on a well-formed environment, [get] of every key with another folded
    spelling returns the value the environment held for it before (the
    same as before the call when the environment had been written to),
    [get(k)] returns [v], and the invariant holds again with at most one
    entry more. *)
Theorem env_set_others `{Hash} (at' : DrshAtomTable) (env : DrshEnvironment) (k v : nat) :
  at_wf at' -> env_wf at' env -> env_count env + 1 < 2 ^ 28 ->
  valid_atom at' k -> valid_atom at' v ->
  exists env',
    drsh_env_set_env at' env k v = Ok env'
    /\ env_wf at' env'
    /\ env_count env <= env_count env' <= env_count env + 1
    /\ drsh_env_get_env at' env' k = Ok (Some v)
    /\ forall k', valid_atom at' k' ->
         lkey_of at' (env_case_insensitive env) k' <> lkey_of at' (env_case_insensitive env) k ->
         drsh_env_get_env at' env' k' = Ok (env_lookup at' env k')
         /\ (0 < env_cap env -> drsh_env_get_env at' env k' = Ok (env_lookup at' env k')).
Proof.
  intros WF EW Hc Hk Hv.
  destruct (env_set_spec at' WF env k v EW Hc Hk Hv)
    as (entries & cap & idxes & sorted & E & EW' & Hcap & [Hge Hlen] & _ & Hlook).
  eexists. split; [exact E|]. split; [exact EW'|]. split_and!.
  - exact Hge.
  - exact Hlen.
  - rewrite (env_get_spec at' WF _ k EW' Hcap Hk), Hlook. by rewrite decide_True.
  - intros k' Hk' Hne. split.
    + rewrite (env_get_spec at' WF _ k' EW' Hcap Hk'), Hlook. by rewrite decide_False.
    + intros Hcap0. exact (env_get_spec at' WF env k' EW Hcap0 Hk').
Qed.

Lemma env_set_others_witness :
  exists env',
    drsh_env_set_env (st_at dos_state) (st_env dos_state) 8%nat 2%nat = Ok env'
    /\ env_wf (st_at dos_state) env'
    /\ env_count (st_env dos_state) <= env_count env' <= env_count (st_env dos_state) + 1
    /\ drsh_env_get_env (st_at dos_state) env' 8%nat = Ok (Some 2%nat)
    /\ forall k', valid_atom (st_at dos_state) k' ->
         lkey_of (st_at dos_state) (env_case_insensitive (st_env dos_state)) k'
         <> lkey_of (st_at dos_state) (env_case_insensitive (st_env dos_state)) 8%nat ->
         drsh_env_get_env (st_at dos_state) env' k'
         = Ok (env_lookup (st_at dos_state) (st_env dos_state) k')
         /\ (0 < env_cap (st_env dos_state) ->
             drsh_env_get_env (st_at dos_state) (st_env dos_state) k'
             = Ok (env_lookup (st_at dos_state) (st_env dos_state) k')).
Proof.
  apply (@env_set_others murmur (st_at dos_state) (st_env dos_state) 8%nat 2%nat
           (sw_at _ dos_state_wf) (sw_env _ dos_state_wf)).
  - decided.
  - unfold valid_atom. apply (bool_decide_unpack _). decided.
  - unfold valid_atom. apply (bool_decide_unpack _). decided.
Defined.

Section EnvByName.
Context `{Hash}.

Lemma find_entry_valid at' (entries : list (nat * nat)) (P : nat * nat -> bool) e :
  Forall (fun e => valid_atom at' e.1 /\ valid_atom at' e.2) entries ->
  find P entries = Some e -> valid_atom at' e.2.
Proof.
  induction 1 as [|e' entries [_ Hv] _ IH]; [discriminate|].
  cbn [find]. destruct (P e'); [by intros [= <-]|exact IH].
Qed.

(** The environment holds no entry spelled [key] exactly when the lookup
    by name finds nothing. *)
Lemma env_text_none at' env key :
  env_wf at' env -> env_text at' env key = None ->
  Forall (fun e => fold_key (env_case_insensitive env) <$> txt_of at' e.1
                   <> Some (fold_key (env_case_insensitive env) key)) (env_entries env).
Proof.
  intros EW. unfold env_text. pose proof (ew_valid _ _ EW) as Hv.
  induction Hv as [|[k v] entries [Hk Hvv] _ IH]; [constructor|].
  cbn [find]. case_bool_decide as Hd.
  - cbn. cbn in Hvv. destruct (valid_txt_of at' v Hvv) as (b & ->). discriminate.
  - intros E. constructor; [exact Hd|by apply IH].
Qed.
End EnvByName.

(** X8.  [drsh_env_get_env2] reads the environment by name: on a
    well-formed table and a written environment it interns the name
    (keeping every atom) and returns the value of the entry whose key
    has that spelling, up to the [0x20] fold on a case-insensitive
    environment; it returns the null pointer exactly when no entry is
    spelled so. *)
Theorem get_env2_by_name `{Hash} (at' : DrshAtomTable) (env : DrshEnvironment)
    (key : list Z) :
  at_wf at' -> env_wf at' env -> 0 < env_cap env ->
  at_count at' + 2 <= 2 ^ 28 -> len key < UINT32_MAX ->
  exists at2 v,
    drsh_env_get_env2 at' env key = Ok (at2, v)
    /\ at_wf at2 /\ at_extends at' at2
    /\ v ≫= txt_of at2 = env_text at' env key
    /\ (v = None <->
        Forall (fun e => fold_key (env_case_insensitive env) <$> txt_of at' e.1
                         <> Some (fold_key (env_case_insensitive env) key))
          (env_entries env)).
Proof.
  intros WF EW Hcap Hc Hlen.
  destruct (get_env2_spec at' env key WF EW Hcap Hc Hlen)
    as (at2 & v & E & WF2 & He & _ & Htxt & Hval).
  exists at2, v. split_and!; try assumption. split.
  - intros ->. apply env_text_none; [assumption|]. by rewrite <- Htxt.
  - intros Hall. destruct v as [v|]; [exfalso|reflexivity].
    cbn in Htxt, Hval. destruct (valid_txt_of at2 v Hval) as (b & Hb).
    rewrite Hb in Htxt. symmetry in Htxt. unfold env_text in Htxt.
    destruct (find _ (env_entries env)) as [e|] eqn:Hfind; [|discriminate].
    apply find_some in Hfind as [Hin Hd]. apply bool_decide_eq_true_1 in Hd.
    apply (proj1 (Forall_forall _ _) Hall e); [|exact Hd].
    by apply list_elem_of_In.
Qed.

Lemma get_env2_by_name_witness :
  exists at2 v,
    drsh_env_get_env2 (st_at posix_state) (st_env posix_state) (bytes_of "path")
    = Ok (at2, v)
    /\ at_wf at2 /\ at_extends (st_at posix_state) at2
    /\ v ≫= txt_of at2 = env_text (st_at posix_state) (st_env posix_state) (bytes_of "path")
    /\ (v = None <->
        Forall (fun e => fold_key (env_case_insensitive (st_env posix_state))
                           <$> txt_of (st_at posix_state) e.1
                         <> Some (fold_key (env_case_insensitive (st_env posix_state))
                                    (bytes_of "path")))
          (env_entries (st_env posix_state))).
Proof.
  apply (@get_env2_by_name murmur (st_at posix_state) (st_env posix_state) (bytes_of "path")
           (sw_at _ posix_state_wf) (sw_env _ posix_state_wf)); decided.
Defined.

Lemma sort_env_sorted at' env env' :
  drsh_env_sort_env at' env = Ok env' -> env_sorted env' = true \/ env' = env.
Proof.
  unfold drsh_env_sort_env. destruct (env_sorted env); [intros [= <-]; by right|].
  destruct (env_count env =? 0); [intros [= <-]; by right|].
  destruct (qsort _ _) as [entries| |]; cbn [rbind]; try discriminate.
  destruct (env_reindex _ _ _ _) as [idxes| |]; cbn [rbind]; try discriminate.
  intros [= <-]. by left.
Qed.

(** X9.  [drsh_env_sort_env] reorders without changing what is stored:
    on a well-formed, written environment it succeeds, the entries are a
    permutation of the old ones, the invariant holds again (the index is
    rebuilt for the new positions), [get] of every key returns what it
    returned before, and a second call changes nothing. *)
Theorem sort_env_keeps_bindings `{Hash} (at' : DrshAtomTable) (env : DrshEnvironment) :
  at_wf at' -> env_wf at' env -> 0 < env_cap env ->
  exists env',
    drsh_env_sort_env at' env = Ok env'
    /\ env_wf at' env'
    /\ env_entries env' ≡ₚ env_entries env
    /\ (forall k, valid_atom at' k ->
          drsh_env_get_env at' env' k = drsh_env_get_env at' env k)
    /\ drsh_env_sort_env at' env' = Ok env'.
Proof.
  intros WF EW Hcap.
  destruct (sort_env_spec at' WF env EW) as (env' & E & EW' & Hperm & Hcap' & _ & Hci).
  exists env'. split_and!; try assumption.
  - intros k Hk.
    rewrite (env_get_spec at' WF env' k EW' ltac:(lia) Hk).
    rewrite (env_get_spec at' WF env k EW Hcap Hk). f_equal.
    unfold env_lookup. rewrite Hci. apply assoc_by_perm; [|exact Hperm].
    rewrite <- Hci. apply (ew_nodup _ _ EW').
  - destruct (sort_env_sorted _ _ _ E) as [Hs| ->]; [|exact E].
    unfold drsh_env_sort_env. by rewrite Hs.
Qed.

Lemma sort_env_keeps_bindings_witness :
  exists env',
    drsh_env_sort_env (st_at dos_state) (st_env dos_state) = Ok env'
    /\ env_wf (st_at dos_state) env'
    /\ env_entries env' ≡ₚ env_entries (st_env dos_state)
    /\ (forall k, valid_atom (st_at dos_state) k ->
          drsh_env_get_env (st_at dos_state) env' k
          = drsh_env_get_env (st_at dos_state) (st_env dos_state) k)
    /\ drsh_env_sort_env (st_at dos_state) env' = Ok env'.
Proof.
  apply (@sort_env_keeps_bindings murmur (st_at dos_state) (st_env dos_state)
           (sw_at _ dos_state_wf) (sw_env _ dos_state_wf)).
  decided.
Defined.

(* ------------------------------------------------------------------ *)
(** ** Start-up of the environment *)

(** X10.  [drsh_env_init] on the zeroed environment of [main] stores the
    strings of the process: when at least one has the form [name=value]
    (and, for the DOS-family block, every one has), it succeeds, the
    state satisfies the invariants, reading any name gives the value of
    the last string that defines it (names compared up to the [0x20]
    fold on the DOS family), and [home] caches the value of [HOME]. *)
Theorem env_init_reads_envp `{Hash} (flavor : OsFlavor) (at' : DrshAtomTable)
    (envp : list (list Z)) (windows_style : bool) :
  at_wf at' -> at_ready at' ->
  (windows_style = true -> Forall (fun p => is_Some (strchr (c_str p) 61)) envp) ->
  Exists (fun p => is_Some (strchr (c_str p) 61)) envp ->
  at_count at' + 4 * len envp <= 2 ^ 28 ->
  Forall (fun p => len p < UINT32_MAX) envp ->
  exists at2 env2,
    drsh_env_init flavor env_zero at' envp windows_style = Ok (at2, env2)
    /\ state_wf {| st_at := at2; st_env := env2; st_out := [] |}
    /\ at_extends at' at2
    /\ env_case_insensitive env2 = windows_style
    /\ (forall key, env_text at2 env2 key = envp_value windows_style envp key)
    /\ env_home env2 ≫= txt_of at2 = envp_value windows_style envp (bytes_of "HOME").
Proof.
  intros WF Hr Hws Hex Hc Hlen.
  destruct (env_init_spec flavor at' envp windows_style [] WF Hr Hws Hex Hc Hlen)
    as (at2 & env2 & E & SW & He & _ & _ & Hci & Htext & Hhome).
  exists at2, env2. split_and!; assumption.
Qed.

Lemma env_init_reads_envp_witness :
  exists at2 env2,
    drsh_env_init OS_WINDOWS env_zero (st_at dos_state)
      [bytes_of "Path=C:\bin"; bytes_of "HOME=C:\me"; bytes_of "PATH=D:\"] true
    = Ok (at2, env2)
    /\ state_wf {| st_at := at2; st_env := env2; st_out := [] |}
    /\ at_extends (st_at dos_state) at2
    /\ env_case_insensitive env2 = true
    /\ (forall key,
          env_text at2 env2 key
          = envp_value true
              [bytes_of "Path=C:\bin"; bytes_of "HOME=C:\me"; bytes_of "PATH=D:\"] key)
    /\ env_home env2 ≫= txt_of at2
       = envp_value true
           [bytes_of "Path=C:\bin"; bytes_of "HOME=C:\me"; bytes_of "PATH=D:\"]
           (bytes_of "HOME").
Proof.
  apply (@env_init_reads_envp murmur OS_WINDOWS (st_at dos_state) _ true
           (sw_at _ dos_state_wf) (sw_ready _ dos_state_wf)).
  - intros _. repeat (apply Forall_cons_2; [by eexists|]). apply Forall_nil_2.
  - left. by eexists.
  - decided.
  - repeat (apply Forall_cons_2; [decided|]). apply Forall_nil_2.
Defined.

Lemma env_init_loop_skips (envp : list (list Z)) `{Hash} at' env :
  Forall (fun p => strchr (c_str p) 61 = None) envp ->
  env_init_loop false envp at' env = Ok (at', env).
Proof.
  induction 1 as [|p envp Hp _ IH]; [reflexivity|].
  cbn [env_init_loop andb]. by rewrite Hp.
Qed.

(** X11.  A process started without any [name=value] string is not
    survived: [drsh_env_get_env] on a never-written environment reads
    slot 0 of an index array that was never allocated, and
    [drsh_env_init] performs exactly that read when it looks [HOME] up
    after the POSIX loop stored nothing. *)
Theorem env_init_empty_undefined `{Hash} (flavor : OsFlavor) (at' : DrshAtomTable)
    (envp : list (list Z)) (k : nat) :
  at_wf at' -> at_ready at' -> valid_atom at' k ->
  Forall (fun p => strchr (c_str p) 61 = None) envp ->
  drsh_env_get_env at' env_zero k = UB
  /\ drsh_env_init flavor env_zero at' envp false = UB.
Proof.
  intros WF Hr Hk Hnone.
  assert (Hget : forall env k', valid_atom at' k' -> env_idxes env = [] ->
                 env_case_insensitive env = false -> drsh_env_get_env at' env k' = UB).
  { intros env k' Hk' Hidx Hci. unfold drsh_env_get_env. rewrite Hci. cbn [rbind].
    destruct (atom_at_valid at' k' Hk') as (a & -> & _). cbn [rbind].
    rewrite Hidx. reflexivity. }
  split; [by apply Hget|].
  unfold drsh_env_init. rewrite (env_init_loop_skips envp _ _ Hnone). cbn [rbind].
  destruct (Forall2_lookup_r _ _ _ ATOM_HOME (bytes_of "HOME") Hr eq_refl)
    as (h & Hh & Hht).
  unfold special. rewrite Hh.
  rewrite (Hget (env_set_flavor env_zero false flavor) h (txt_of_valid _ _ _ Hht)
             eq_refl eq_refl). reflexivity.
Qed.

Lemma env_init_empty_undefined_witness :
  drsh_env_get_env (st_at posix_state) env_zero 8%nat = UB
  /\ drsh_env_init OS_LINUX env_zero (st_at posix_state) [bytes_of "garbage"] false = UB.
Proof.
  apply (@env_init_empty_undefined murmur OS_LINUX (st_at posix_state) _ 8%nat
           (sw_at _ posix_state_wf) (sw_ready _ posix_state_wf)).
  - unfold valid_atom. apply (bool_decide_unpack _). decided.
  - repeat (apply Forall_cons_2; [reflexivity|]). apply Forall_nil_2.
Defined.

(* ------------------------------------------------------------------ *)
(** ** Built-ins on whole lines *)



(* ------------------------------------------------------------------ *)
(** ** Tokenizer *)

Lemma tokens_within_snoc lo hi (toks : list DrshToken) t :
  tokens_within lo hi (toks ++ [t])
  <-> tokens_within lo hi toks
      /\ next_free lo toks <= tok_offset t /\ 1 <= tok_length t
      /\ tok_offset t + tok_length t <= hi.
Proof.
  revert lo. induction toks as [|t' toks IH]; intros lo; cbn [app tokens_within].
  - unfold next_free. cbn. tauto.
  - rewrite IH. unfold next_free. cbn [fold_left]. tauto.
Qed.

Lemma next_free_snoc lo (toks : list DrshToken) t :
  next_free lo (toks ++ [t]) = tok_offset t + tok_length t + 1.
Proof. unfold next_free. by rewrite fold_left_app. Qed.

Lemma tokens_within_weaken lo hi hi' (toks : list DrshToken) :
  hi <= hi' -> tokens_within lo hi toks -> tokens_within lo hi' toks.
Proof.
  intros Hhi. revert lo. induction toks as [|t toks IH]; intros lo; cbn [tokens_within];
    [done|].
  intros (? & ? & ? & ?). split_and!; try lia. by apply IH.
Qed.

Lemma tokenize_step_inv st i c :
  0 <= i -> tokenize_inv i st -> tokenize_inv (i + 1) (tokenize_step st i c).
Proof.
  intros Hi (Hw & Hn & Hb). destruct st as [tb q bs toks].
  unfold tokenize_step, tokenize_inv in *. cbn [ts_tok_begin ts_quoted ts_backslash ts_tokens] in *.
  assert (Hw' : tokens_within 0 (i + 1) toks) by (eapply tokens_within_weaken; [|eassumption]; lia).
  destruct tb as [b|].
  - destruct bs; [cbn [ts_tok_begin ts_quoted ts_backslash ts_tokens]; split_and!; first [assumption|lia|exact I]|].
    destruct (c =? 92); [cbn [ts_tok_begin ts_quoted ts_backslash ts_tokens]; split_and!; first [assumption|lia|exact I]|].
    destruct (c =? q); [cbn [ts_tok_begin ts_quoted ts_backslash ts_tokens]; split_and!; first [assumption|lia|exact I]|].
    destruct (negb (q =? 0)); [cbn [ts_tok_begin ts_quoted ts_backslash ts_tokens]; split_and!; first [assumption|lia|exact I]|].
    destruct (is_space c).
    + cbn [ts_tokens ts_tok_begin]. rewrite next_free_snoc. cbn [tok_offset tok_length].
      split_and!; [|lia|exact I].
      apply tokens_within_snoc. cbn [tok_offset tok_length].
      split_and!; first [assumption|lia].
    + destruct (is_quote c); cbn [ts_tok_begin ts_quoted ts_backslash ts_tokens]; (split_and!; first [assumption|lia|exact I]).
  - destruct (is_space c); [cbn [ts_tok_begin ts_quoted ts_backslash ts_tokens]; split_and!; first [assumption|lia|exact I]|].
    destruct (is_quote c); cbn [ts_tok_begin ts_quoted ts_backslash ts_tokens]; (split_and!; first [assumption|lia|exact I]).
Qed.

Lemma tokenize_loop_inv (txt : list Z) : forall st i,
  0 <= i -> tokenize_inv i st -> tokenize_inv (i + len txt) (tokenize_loop st i txt).
Proof.
  induction txt as [|c txt IH]; intros st i Hi Hinv; cbn [tokenize_loop].
  - change (len []) with 0. by rewrite Z.add_0_r.
  - replace (i + len (c :: txt)) with (i + 1 + len txt)
      by (unfold len; cbn [length]; lia).
    apply IH; [lia|]. by apply tokenize_step_inv.
Qed.

(** X13.  The tokens of a line lie inside the line, in the order of
    their offsets, each at least one byte long and separated from the
    next by at least one byte: a token never is empty and two tokens
    never overlap or touch. *)
Theorem tokenize_line_within (rb : list Z) :
  tokens_within 0 (len rb) (drsh_tokenize_line rb).
Proof.
  unfold drsh_tokenize_line.
  pose proof (tokenize_loop_inv rb {| ts_tok_begin := None; ts_quoted := 0;
                                      ts_backslash := false; ts_tokens := [] |} 0
                ltac:(lia) ltac:(by split_and!)) as (Hw & Hn & Hb).
  rewrite Z.add_0_l in *.
  destruct (ts_tok_begin _) as [b|]; [|exact Hw].
  apply tokens_within_snoc. cbn [tok_offset tok_length]. split_and!; first [exact Hw|lia].
Qed.

Lemma tokenize_loop_app (a b : list Z) : forall st i,
  tokenize_loop st i (a ++ b) = tokenize_loop (tokenize_loop st i a) (i + len a) b.
Proof.
  induction a as [|c a IH]; intros st i; cbn [app tokenize_loop].
  - change (len []) with 0. by rewrite Z.add_0_r.
  - rewrite IH. f_equal. unfold len. cbn [length]. lia.
Qed.

Lemma tokenize_loop_spaces (s : list Z) : forall q bs toks i,
  forallb is_space s = true ->
  tokenize_loop {| ts_tok_begin := None; ts_quoted := q; ts_backslash := bs;
                   ts_tokens := toks |} i s
  = {| ts_tok_begin := None; ts_quoted := q; ts_backslash := bs; ts_tokens := toks |}.
Proof.
  induction s as [|c s IH]; intros q bs toks i Hs; [reflexivity|].
  cbn [forallb] in Hs. apply andb_true_iff in Hs as [Hc Hs].
  cbn [tokenize_loop]. unfold tokenize_step at 1. cbn [ts_tok_begin]. rewrite Hc.
  by apply IH.
Qed.

Lemma is_plain_spec c :
  is_plain c = true ->
  is_space c = false /\ is_quote c = false /\ (c =? 92) = false /\ (c =? 0) = false.
Proof.
  unfold is_plain. intros Hp. apply andb_true_iff in Hp as [Hp H92].
  apply andb_true_iff in Hp as [Hs Hq].
  apply negb_true_iff in Hs, Hq, H92. split_and!; try assumption.
  unfold is_space in Hs. by destruct (c =? 0).
Qed.

Lemma tokenize_loop_plain (w : list Z) : forall b toks i,
  forallb is_plain w = true ->
  tokenize_loop {| ts_tok_begin := Some b; ts_quoted := 0; ts_backslash := false;
                   ts_tokens := toks |} i w
  = {| ts_tok_begin := Some b; ts_quoted := 0; ts_backslash := false; ts_tokens := toks |}.
Proof.
  induction w as [|c w IH]; intros b toks i Hw; [reflexivity|].
  cbn [forallb] in Hw. apply andb_true_iff in Hw as [Hc Hw].
  destruct (is_plain_spec c Hc) as (Hs & Hq & H92 & H0).
  cbn [tokenize_loop]. unfold tokenize_step at 1.
  cbn [ts_tok_begin ts_backslash ts_quoted]. rewrite H92, H0, Hs, Hq. cbn [negb Z.eqb].
  by apply IH.
Qed.

Lemma tokenize_loop_word (w : list Z) toks i :
  w <> [] -> forallb is_plain w = true ->
  tokenize_loop {| ts_tok_begin := None; ts_quoted := 0; ts_backslash := false;
                   ts_tokens := toks |} i w
  = {| ts_tok_begin := Some i; ts_quoted := 0; ts_backslash := false; ts_tokens := toks |}.
Proof.
  destruct w as [|c w]; [done|]. intros _ Hw.
  cbn [forallb] in Hw. apply andb_true_iff in Hw as [Hc Hw].
  destruct (is_plain_spec c Hc) as (Hs & Hq & H92 & H0).
  cbn [tokenize_loop]. unfold tokenize_step at 1. cbn [ts_tok_begin]. rewrite Hs, Hq.
  by apply tokenize_loop_plain.
Qed.

Lemma tokenize_loop_close (s : list Z) b toks i :
  s <> [] -> forallb is_sep s = true ->
  tokenize_loop {| ts_tok_begin := Some b; ts_quoted := 0; ts_backslash := false;
                   ts_tokens := toks |} i s
  = {| ts_tok_begin := None; ts_quoted := 0; ts_backslash := false;
       ts_tokens := toks ++ [{| tok_offset := b; tok_length := i - b |}] |}.
Proof.
  destruct s as [|c s]; [done|]. intros _ Hs.
  cbn [forallb] in Hs. apply andb_true_iff in Hs as [Hc Hs].
  unfold is_sep in Hc. apply andb_true_iff in Hc as [Hc H0]. apply negb_true_iff in H0.
  cbn [tokenize_loop]. unfold tokenize_step at 1.
  cbn [ts_tok_begin ts_backslash ts_quoted].
  assert (H92 : (c =? 92) = false).
  { unfold is_space in Hc. destruct (c =? 92) eqn:E; [|reflexivity].
    apply Z.eqb_eq in E. subst c. discriminate. }
  rewrite H92, H0, Hc. cbn [Z.eqb negb]. apply tokenize_loop_spaces.
  apply forallb_forall. intros x Hx.
  pose proof (proj1 (forallb_forall _ _) Hs x Hx) as Hsx.
  unfold is_sep in Hsx. by apply andb_true_iff in Hsx as [? _].
Qed.

Lemma tokenize_words (ws : list (list Z * list Z)) : forall toks i,
  Forall (fun ws => ws.1 <> [] /\ forallb is_plain ws.1 = true
                    /\ forallb is_sep ws.2 = true) ws ->
  seps_ok ws ->
  tokenize_finish
    (tokenize_loop {| ts_tok_begin := None; ts_quoted := 0; ts_backslash := false;
                      ts_tokens := toks |} i (spaced_line ws))
    (i + len (spaced_line ws))
  = toks ++ expected_tokens i ws.
Proof.
  induction ws as [|[w s] ws IH]; intros toks i Hws Hseps.
  - cbn. by rewrite app_nil_r.
  - apply Forall_cons in Hws as [(Hne & Hw & Hs) Hws]. cbn [fst snd] in *.
    destruct Hseps as [Hlast Hseps].
    unfold spaced_line. rewrite bind_cons. fold (spaced_line ws). cbn [fst snd].
    rewrite <- app_assoc, !tokenize_loop_app, (tokenize_loop_word w toks i Hne Hw).
    cbn [expected_tokens].
    destruct s as [|c s].
    + rewrite (Hlast eq_refl). cbn [tokenize_loop app spaced_line mbind list_bind].
      unfold tokenize_finish. cbn [ts_tok_begin ts_tokens expected_tokens].
      do 2 f_equal. f_equal. rewrite !len_app. change (len []) with 0. lia.
    + rewrite (tokenize_loop_close (c :: s) i toks (i + len w) ltac:(done) Hs).
      replace (i + len (w ++ (c :: s) ++ spaced_line ws))
        with (i + len w + len (c :: s) + len (spaced_line ws))
        by (rewrite !len_app; lia).
      rewrite (IH _ (i + len w + len (c :: s)) Hws Hseps).
      rewrite <- app_assoc. cbn [app]. do 3 f_equal. lia.
Qed.

Lemma expected_token_bytes (ws : list (list Z * list Z)) : forall pre,
  token_bytes (pre ++ spaced_line ws) <$> expected_tokens (len pre) ws = fst <$> ws.
Proof.
  induction ws as [|[w s] ws IH]; intros pre; [reflexivity|].
  cbn [expected_tokens fmap list_fmap fst].
  change (list_fmap _ _ ?f ?l) with (f <$> l). f_equal.
  - unfold spaced_line. rewrite bind_cons. unfold token_bytes.
    cbn [tok_offset tok_length fst snd]. unfold len. rewrite !Nat2Z.id, drop_app_length, <- !app_assoc.
    by rewrite take_app_length.
  - assert (Hline : pre ++ spaced_line ((w, s) :: ws) = (pre ++ w ++ s) ++ spaced_line ws).
    { unfold spaced_line. rewrite bind_cons. cbn [fst snd]. by rewrite <- !app_assoc. }
    rewrite Hline, <- (IH (pre ++ w ++ s)). do 2 f_equal. rewrite !len_app. lia.
Qed.

(** X14.  Tokenizing undoes joining: for words of plain bytes (no white
    space, quote or backslash), each followed by a run of separators
    other than the terminator byte (the last run may be empty), written
    after any run of white space, the tokens are exactly the words, at
    the offsets they were written at. *)
Theorem tokenize_spaced_words (pre : list Z) (ws : list (list Z * list Z)) :
  forallb is_space pre = true ->
  Forall (fun ws => ws.1 <> [] /\ forallb is_plain ws.1 = true
                    /\ forallb is_sep ws.2 = true) ws ->
  seps_ok ws ->
  drsh_tokenize_line (pre ++ spaced_line ws) = expected_tokens (len pre) ws
  /\ token_bytes (pre ++ spaced_line ws) <$> drsh_tokenize_line (pre ++ spaced_line ws)
     = fst <$> ws.
Proof.
  intros Hpre Hws Hseps.
  assert (E : drsh_tokenize_line (pre ++ spaced_line ws) = expected_tokens (len pre) ws).
  { unfold drsh_tokenize_line. rewrite tokenize_loop_app, (tokenize_loop_spaces pre _ _ _ _ Hpre).
    rewrite Z.add_0_l.
    pose proof (tokenize_words ws [] (len pre) Hws Hseps) as Hfin.
    unfold tokenize_finish in Hfin. by rewrite len_app. }
  split; [exact E|]. rewrite E. apply expected_token_bytes.
Qed.

Lemma tokenize_spaced_words_witness :
  drsh_tokenize_line
    ([32; 9] ++ spaced_line [(bytes_of "set", [32]); (bytes_of "X", [9; 32]);
                             (bytes_of "hello", [])])
  = expected_tokens (len [32; 9])
      [(bytes_of "set", [32]); (bytes_of "X", [9; 32]); (bytes_of "hello", [])]
  /\ token_bytes
       ([32; 9] ++ spaced_line [(bytes_of "set", [32]); (bytes_of "X", [9; 32]);
                                (bytes_of "hello", [])])
     <$> drsh_tokenize_line
           ([32; 9] ++ spaced_line [(bytes_of "set", [32]); (bytes_of "X", [9; 32]);
                                    (bytes_of "hello", [])])
     = fst <$> [(bytes_of "set", [32]); (bytes_of "X", [9; 32]); (bytes_of "hello", [])].
Proof.
  apply (tokenize_spaced_words [32; 9]).
  - reflexivity.
  - repeat (apply Forall_cons_2; [split_and!; decided|]).
    apply Forall_nil_2.
  - cbn. split_and!; first [exact I | intros E; first [discriminate E | reflexivity]].
Defined.



(** ** Line editor *)

Lemma is_text_byte_spec c :
  is_text_byte c = true -> c = 0 \/ (27 < c <= 255 /\ c <> 127).
Proof. unfold is_text_byte. intros H. lia. Qed.

Lemma rb_to_cmd_text c rest :
  is_text_byte c = true -> drsh_rb_to_cmd (c :: rest) = Some (c, 1).
Proof.
  intros H%is_text_byte_spec. unfold drsh_rb_to_cmd.
  destruct H as [->|[H1 H2]]; [reflexivity|].
  destruct (Z.ltb_spec c 27); [lia|].
  destruct (Z.eqb_spec c 127); [lia|].
  destruct (Z.ltb_spec 27 c); [reflexivity|lia].
Qed.

Lemma len_take_le {A} (n : nat) (l : list A) : len (take n l) <= len l.
Proof. unfold len. rewrite length_take. lia. Qed.

Lemma len_take_to {A} (k : Z) (l : list A) :
  0 <= k <= len l -> len (take (Z.to_nat k) l) = k.
Proof. unfold len. rewrite length_take. lia. Qed.

Lemma len_drop_to {A} (n : nat) (l : list A) :
  len (drop n l) = len l - Z.of_nat (n `min` length l).
Proof. unfold len. rewrite length_drop. lia. Qed.

Lemma len_insert_at {A} (n : nat) (l : list A) x :
  len (take n l ++ x :: drop n l) = len l + 1.
Proof.
  rewrite <- (take_drop n l) at 3. rewrite !len_app, len_cons. lia.
Qed.

Section ReadLineFacts.
Context (at' : DrshAtomTable).
Context (tab tabp tabc : DrshInput -> res DrshInput).

Lemma read_line_cmd_text inp c :
  is_text_byte c = true ->
  0 <= write_cursor inp <= len (write_buffer inp) ->
  len (write_buffer inp) + 1 < 2 ^ 64 ->
  exists inp',
    read_line_cmd at' tab tabp tabc inp c = Ok (inp', false)
    /\ write_buffer inp'
       = take (Z.to_nat (write_cursor inp)) (write_buffer inp)
         ++ c :: drop (Z.to_nat (write_cursor inp)) (write_buffer inp)
    /\ write_cursor inp' = write_cursor inp + 1
    /\ read_buffer inp' = read_buffer inp /\ read_cursor inp' = read_cursor inp
    /\ hist_buffer inp' = hist_buffer inp /\ hist_cursor inp' = hist_cursor inp.
Proof.
  intros Hc%is_text_byte_spec Hw Hn. unfold read_line_cmd.
  assert (E1 : (c <? 0) = false) by lia. rewrite E1.
  assert (E2 : c mod 256 = c) by (apply Z.mod_small; lia). rewrite E2.
  assert (E3 : negb (c =? CMD_TAB) && negb (c =? CMD_SHIFT_TAB) && negb (c =? CMD_ESC) = true).
  { unfold CMD_TAB, CMD_SHIFT_TAB, CMD_ESC. lia. }
  rewrite E3. unfold drsh_inp_input_one.
  cbn [drsh_end_tab_completion inp_set_tab write_buffer write_cursor].
  assert (E4 : (len (write_buffer inp) <? write_cursor inp) = false) by lia. rewrite E4.
  cbn [rbind]. eexists. split; [reflexivity|]. cbn.
  split_and!; try reflexivity. unfold wrap64. apply Z.mod_small. lia.
Qed.

Lemma inp_ok_end_tab inp : inp_ok at' inp -> inp_ok at' (drsh_end_tab_completion inp).
Proof. intros [H1 H2 H3]. by constructor. Qed.

Lemma inp_ok_write inp wb wc :
  inp_ok at' inp -> 0 <= wc <= len wb ->
  inp_ok at' (inp_redisplay (inp_set_write inp wb wc)).
Proof. intros [H1 H2 H3] Hw. by constructor. Qed.

Lemma inp_ok_redisplay inp : inp_ok at' inp -> inp_ok at' (inp_redisplay inp).
Proof. intros [H1 H2 H3]. by constructor. Qed.

Lemma del_left_ok inp :
  inp_ok at' inp -> len (write_buffer inp) < 2 ^ 64 ->
  exists inp', drsh_inp_del_left inp = Ok inp' /\ inp_ok at' inp'
               /\ hist_buffer inp' = hist_buffer inp.
Proof.
  intros H Hn. pose proof (io_cursor _ _ H) as Hc. unfold drsh_inp_del_left.
  destruct (Z.eqb_spec (write_cursor inp) 0); [by exists inp|].
  destruct (Z.eqb_spec (write_cursor inp) (len (write_buffer inp))) as [E|E].
  - eexists. split; [reflexivity|]. split; [|reflexivity].
    apply inp_ok_write; [exact H|]. rewrite len_take_to; lia.
  - unfold memremove1.
    assert (E1 : wrap64 (1 + (write_cursor inp - 1)) = write_cursor inp).
    { unfold wrap64. rewrite Z.mod_small; unfold len in *; lia. }
    rewrite E1.
    assert (E2 : (len (write_buffer inp) <? write_cursor inp) = false) by lia.
    rewrite E2. cbn [rbind]. eexists. split; [reflexivity|]. split; [|reflexivity].
    apply inp_ok_write; [exact H|]. rewrite len_app, len_drop_to.
    rewrite len_take_to by lia. unfold len in *. lia.
Qed.

Lemma del_right_ok inp :
  inp_ok at' inp -> len (write_buffer inp) < 2 ^ 64 ->
  exists inp', drsh_inp_del_right inp = Ok inp' /\ inp_ok at' inp'
               /\ hist_buffer inp' = hist_buffer inp.
Proof.
  intros H Hn. pose proof (io_cursor _ _ H) as Hc. unfold drsh_inp_del_right.
  destruct (Z.eqb_spec (write_cursor inp) (len (write_buffer inp))) as [E|E];
    [by exists inp|].
  assert (E0 : wrap64 (len (write_buffer inp) - 1) = len (write_buffer inp) - 1).
  { unfold wrap64. apply Z.mod_small. lia. }
  rewrite E0.
  destruct (Z.eqb_spec (write_cursor inp) (len (write_buffer inp) - 1)) as [E'|E'].
  - eexists. split; [reflexivity|]. split; [|reflexivity].
    apply inp_ok_write; [exact H|]. rewrite len_take_to; lia.
  - unfold memremove1.
    assert (E1 : wrap64 (1 + write_cursor inp) = 1 + write_cursor inp).
    { unfold wrap64. apply Z.mod_small. lia. }
    rewrite E1.
    assert (E2 : (len (write_buffer inp) <? 1 + write_cursor inp) = false) by lia.
    rewrite E2. cbn [rbind]. eexists. split; [reflexivity|]. split; [|reflexivity].
    apply inp_ok_write; [exact H|]. rewrite len_app, len_drop_to.
    rewrite len_take_to by lia. unfold len in *. lia.
Qed.

Lemma load_history_ok inp :
  inp_ok at' inp -> hist_cursor inp < len (hist_buffer inp) ->
  exists inp', inp_load_history at' inp = Ok inp' /\ inp_ok at' inp'
               /\ hist_buffer inp' = hist_buffer inp.
Proof.
  intros H Hlt. pose proof (io_hist_cursor _ _ H) as Hc. unfold inp_load_history.
  destruct (lookup_lt_is_Some_2 (hist_buffer inp) (Z.to_nat (hist_cursor inp)))
    as [atom Ea]; [unfold len in *; lia|].
  rewrite Ea.
  assert (Hv : valid_atom at' atom).
  { pose proof (io_hist _ _ H) as HF. rewrite Forall_forall in HF. apply HF.
    by eapply list_elem_of_lookup_2. }
  destruct (lookup_lt_is_Some_2 (at_atoms at') atom Hv) as [a Eat].
  unfold atom_at. rewrite Eat. cbn [rbind]. eexists. split; [reflexivity|].
  split; [|reflexivity]. destruct H as [H1 H2 H3]. constructor; cbn; try assumption.
  pose proof (len_nonneg (take (Z.to_nat (atom_len a)) (atom_txt a))). lia.
Qed.

Lemma move_up_ok inp :
  inp_ok at' inp ->
  exists inp', drsh_inp_move_up at' inp = Ok inp' /\ inp_ok at' inp'
               /\ hist_buffer inp' = hist_buffer inp.
Proof.
  intros H. pose proof (io_hist_cursor _ _ H) as Hc. unfold drsh_inp_move_up.
  destruct (Z.eqb_spec (hist_cursor inp) 0); [by exists inp|].
  destruct (load_history_ok
    (inp_redisplay (inp_set_hist inp (hist_buffer inp) (hist_cursor inp - 1))))
    as (inp' & E1 & E2 & E3).
  - destruct H as [H1 H2 H3]. constructor; cbn; try assumption. lia.
  - cbn. lia.
  - exists inp'. split; [exact E1|]. split; [exact E2|exact E3].
Qed.

Lemma move_down_ok inp :
  inp_ok at' inp -> len (hist_buffer inp) + 1 < 2 ^ 64 ->
  exists inp', drsh_inp_move_down at' inp = Ok inp' /\ inp_ok at' inp'
               /\ hist_buffer inp' = hist_buffer inp.
Proof.
  intros H Hn. pose proof (io_hist_cursor _ _ H) as Hc. unfold drsh_inp_move_down.
  assert (E : wrap64 (hist_cursor inp + 1) = hist_cursor inp + 1).
  { unfold wrap64. apply Z.mod_small. lia. }
  rewrite E. cbn [inp_redisplay inp_set_flags inp_set_hist hist_buffer hist_cursor].
  destruct (Z.leb_spec (len (hist_buffer inp)) (hist_cursor inp + 1)).
  - eexists. split; [reflexivity|]. split; [|reflexivity].
    destruct H as [H1 H2 H3]. constructor; cbn; try assumption.
    + unfold len; cbn; lia.
    + lia.
  - destruct (load_history_ok
      {| read_buffer := read_buffer inp; read_cursor := read_cursor inp;
         write_buffer := write_buffer inp; write_cursor := write_cursor inp;
         prompt := prompt inp; needs_redisplay := true;
         needs_clear_screen := needs_clear_screen inp; hist_start := hist_start inp;
         hist_buffer := hist_buffer inp; hist_cursor := hist_cursor inp + 1;
         prompt_visual_len := prompt_visual_len inp;
         tab_completion := tab_completion inp; tab_completions := tab_completions inp;
         tab_completion_cursor := tab_completion_cursor inp |})
      as (inp' & E1 & E2 & E3).
    + destruct H as [H1 H2 H3]. constructor; cbn; try assumption. lia.
    + cbn. lia.
    + exists inp'. split; [exact E1|]. split; [exact E2|exact E3].
Qed.

End ReadLineFacts.

Section EditorCommands.
Context (at' : DrshAtomTable).
Context (tab tabp tabc : DrshInput -> res DrshInput).

(** The cases of a command: a state that satisfies the invariant again,
    or the end of the input. *)
Lemma read_line_cmd_cases (inp : DrshInput) (cmd : Z) :
  inp_ok at' inp ->
  len (write_buffer inp) + 1 < 2 ^ 64 ->
  len (hist_buffer inp) + 1 < 2 ^ 64 ->
  cmd <> CMD_TAB -> cmd <> CMD_SHIFT_TAB ->
  (cmd = CMD_ESC -> tab_completion inp = false) ->
  (exists inp' accepted,
     read_line_cmd at' tab tabp tabc inp cmd = Ok (inp', accepted)
     /\ inp_ok at' inp' /\ hist_buffer inp' = hist_buffer inp)
  \/ (cmd = CMD_DELETE_FORWARD_OR_EOF /\ write_buffer inp = []
      /\ read_line_cmd at' tab tabp tabc inp cmd = Fail EC_EOF).
Proof.
  intros H Hn Hh Ht Hs He. unfold read_line_cmd.
  set (inp0 := if negb (cmd =? CMD_TAB) && negb (cmd =? CMD_SHIFT_TAB)
                  && negb (cmd =? CMD_ESC)
               then drsh_end_tab_completion inp else inp).
  assert (H0 : inp_ok at' inp0).
  { unfold inp0. destruct (_ && _); [by apply inp_ok_end_tab|exact H]. }
  assert (Hw0 : write_buffer inp0 = write_buffer inp).
  { unfold inp0. by destruct (_ && _). }
  assert (Hh0 : hist_buffer inp0 = hist_buffer inp).
  { unfold inp0. by destruct (_ && _). }
  assert (Ht0 : cmd = CMD_ESC -> tab_completion inp0 = false).
  { intros E. unfold inp0. rewrite E. cbn. by apply He. }
  clearbody inp0. rewrite <- Hw0, <- Hh0 in *. clear H Hw0 Hh0 He.
  pose proof (io_cursor _ _ H0) as Hc.
  assert (Hstep : forall r : res DrshInput,
    (exists inp', r = Ok inp' /\ inp_ok at' inp' /\ hist_buffer inp' = hist_buffer inp0) ->
    exists inp' accepted,
      (do inp <- r; Ok (inp, false)) = Ok (inp', accepted)
      /\ inp_ok at' inp' /\ hist_buffer inp' = hist_buffer inp0).
  { intros r (inp' & -> & ? & ?). by exists inp', false. }
  assert (Hpure : forall inp' (b : bool),
    inp_ok at' inp' -> hist_buffer inp' = hist_buffer inp0 ->
    exists inp'' accepted,
      Ok (inp', b) = Ok (inp'', accepted)
      /\ inp_ok at' inp'' /\ hist_buffer inp'' = hist_buffer inp0).
  { intros inp' b ? ?. by exists inp', b. }
  destruct (Z.ltb_spec cmd 0) as [Hneg|Hpos].
  - destruct (Z.eqb_spec cmd CMD_DELETE_BACK).
    { left. apply Hstep, del_left_ok; [exact H0|lia]. }
    destruct (Z.eqb_spec cmd CMD_DELETE_FORWARD_OR_EOF).
    { destruct (Z.eqb_spec (len (write_buffer inp0)) 0) as [E|E].
      - right. split; [assumption|]. split; [|reflexivity].
        destruct (write_buffer inp0); [reflexivity|]. rewrite len_cons in E.
        pose proof (len_nonneg l). lia.
      - left. apply Hstep, del_right_ok; [exact H0|lia]. }
    destruct (Z.eqb_spec cmd CMD_DELETE_FORWARD).
    { left. apply Hstep, del_right_ok; [exact H0|lia]. }
    destruct (Z.eqb_spec cmd CMD_MOVE_RIGHT).
    { left. apply Hpure;
        [|unfold drsh_inp_move_right; by destruct (_ <? _)].
      unfold drsh_inp_move_right.
      destruct (Z.ltb_spec (write_cursor inp0) (len (write_buffer inp0)));
        [|by apply inp_ok_redisplay].
      apply inp_ok_write; [exact H0|]. unfold wrap64. rewrite Z.mod_small; lia. }
    destruct (Z.eqb_spec cmd CMD_MOVE_LEFT).
    { left. apply Hpure;
        [|unfold drsh_inp_move_left; by destruct (_ =? _)].
      unfold drsh_inp_move_left.
      destruct (Z.eqb_spec (write_cursor inp0) 0); [by apply inp_ok_redisplay|].
      apply inp_ok_write; [exact H0|]. lia. }
    destruct (Z.eqb_spec cmd CMD_MOVE_UP).
    { left. apply Hstep, move_up_ok; exact H0. }
    destruct (Z.eqb_spec cmd CMD_MOVE_DOWN).
    { left. apply Hstep, move_down_ok; [exact H0|lia]. }
    destruct (Z.eqb_spec cmd CMD_MOVE_HOME).
    { left. apply Hpure; [|reflexivity]. apply inp_ok_write; [exact H0|]. lia. }
    destruct (Z.eqb_spec cmd CMD_MOVE_END).
    { left. apply Hpure; [|reflexivity]. apply inp_ok_write; [exact H0|]. lia. }
    destruct (Z.eqb_spec cmd CMD_INTERRUPT).
    { left. apply Hpure.
      - unfold drsh_inp_clear. destruct (_ && _); [exact H0|].
        apply inp_ok_write; [exact H0|]. unfold len; cbn; lia.
      - unfold drsh_inp_clear. by destruct (_ && _). }
    destruct (Z.eqb_spec cmd CMD_TAB); [contradiction|].
    destruct (Z.eqb_spec cmd CMD_SHIFT_TAB); [contradiction|].
    destruct (Z.eqb_spec cmd CMD_KILL_END_OF_LINE).
    { left. apply Hstep. unfold drsh_inp_kill_end_of_line.
      destruct (Z.eqb_spec (len (write_buffer inp0)) (write_cursor inp0));
        [by exists inp0|].
      destruct (Z.ltb_spec (len (write_buffer inp0)) (write_cursor inp0)); [lia|].
      eexists. split; [reflexivity|]. split; [|reflexivity].
      apply inp_ok_write; [exact H0|]. rewrite len_take_to; lia. }
    destruct (Z.eqb_spec cmd CMD_CLEAR_SCREEN).
    { left. apply Hpure; [|reflexivity]. destruct H0 as [H1 H2 H3]. by constructor. }
    destruct ((cmd =? CMD_ACCEPT) || (cmd =? CMD_ENTER)).
    { left. by apply Hpure. }
    destruct (Z.eqb_spec cmd CMD_ESC) as [E|E].
    { rewrite (Ht0 E). left. by apply Hpure. }
    left. by apply Hpure.
  - left. apply Hstep. unfold drsh_inp_input_one.
    destruct (Z.ltb_spec (len (write_buffer inp0)) (write_cursor inp0)); [lia|].
    eexists. split; [reflexivity|]. split; [|reflexivity].
    apply inp_ok_write; [exact H0|]. change ([cmd mod 256] ++ ?l) with (cmd mod 256 :: l).
    rewrite len_insert_at. unfold wrap64. rewrite Z.mod_small; lia.
Qed.

Lemma read_line_cmd_eof (inp : DrshInput) :
  write_buffer inp = [] ->
  read_line_cmd at' tab tabp tabc inp CMD_DELETE_FORWARD_OR_EOF = Fail EC_EOF.
Proof.
  intros E. unfold read_line_cmd, drsh_end_tab_completion, inp_set_tab.
  cbn. rewrite E. reflexivity.
Qed.

(** Only the accepting keys end the line. *)
Lemma read_line_cmd_accepted (inp inp' : DrshInput) (cmd : Z) (accepted : bool) :
  read_line_cmd at' tab tabp tabc inp cmd = Ok (inp', accepted) ->
  (accepted = true <-> cmd = CMD_ACCEPT \/ cmd = CMD_ENTER).
Proof.
  intros E. unfold read_line_cmd in E.
  set (inp0 := if negb (cmd =? CMD_TAB) && negb (cmd =? CMD_SHIFT_TAB)
                  && negb (cmd =? CMD_ESC)
               then drsh_end_tab_completion inp else inp) in E.
  clearbody inp0.
  assert (Hf : forall r : res DrshInput,
    (do inp <- r; Ok (inp, false)) = Ok (inp', accepted) -> accepted = false).
  { intros [x| |] Hx; cbn [rbind] in Hx; congruence. }
  destruct (Z.eqb_spec cmd CMD_ACCEPT) as [->|Ha].
  { cbn in E. injection E as _ <-. split; [by left|reflexivity]. }
  destruct (Z.eqb_spec cmd CMD_ENTER) as [->|He].
  { cbn in E. injection E as _ <-. split; [by right|reflexivity]. }
  assert (accepted = false) as ->.
  { cbn [orb] in E.
    repeat match type of E with
           | (if ?b then _ else _) = _ => destruct b
           end;
      first [by apply Hf in E | congruence]. }
  split; [discriminate|]. by intros [?|?].
Qed.

(** X16.  Every command of the editor other than the completion keys
    keeps the cursors inside their buffers and the history as it is.
    From a state whose write cursor is inside the write buffer and whose
    history cursor is inside a history of atoms of the table, ctrl-d on
    an empty line ends the input with [EC_EOF]; every other command
    returns such a state again (no access outside a buffer happens),
    with the same history, and ends the line exactly when it is one of
    the two accepting keys. *)
Theorem read_line_cmd_keeps_cursor (inp : DrshInput) (cmd : Z) :
  inp_ok at' inp ->
  len (write_buffer inp) + 1 < 2 ^ 64 ->
  len (hist_buffer inp) + 1 < 2 ^ 64 ->
  cmd <> CMD_TAB -> cmd <> CMD_SHIFT_TAB ->
  (cmd = CMD_ESC -> tab_completion inp = false) ->
  (cmd = CMD_DELETE_FORWARD_OR_EOF /\ write_buffer inp = [] ->
   read_line_cmd at' tab tabp tabc inp cmd = Fail EC_EOF)
  /\ (~ (cmd = CMD_DELETE_FORWARD_OR_EOF /\ write_buffer inp = []) ->
      exists inp' accepted,
        read_line_cmd at' tab tabp tabc inp cmd = Ok (inp', accepted)
        /\ inp_ok at' inp' /\ hist_buffer inp' = hist_buffer inp
        /\ (accepted = true <-> cmd = CMD_ACCEPT \/ cmd = CMD_ENTER)).
Proof.
  intros H Hn Hh Ht Hs He. split.
  - intros [-> Hw]. by apply read_line_cmd_eof.
  - intros Hno.
    destruct (read_line_cmd_cases inp cmd H Hn Hh Ht Hs He)
      as [(inp' & accepted & E & Hok & Hhist)|(Hc & Hw & _)];
      [|exfalso; apply Hno; by split].
    exists inp', accepted. split; [exact E|]. split; [exact Hok|].
    split; [exact Hhist|]. exact (read_line_cmd_accepted inp inp' cmd accepted E).
Qed.

End EditorCommands.

Lemma read_line_cmd_keeps_cursor_witness :
  (CMD_MOVE_UP = CMD_DELETE_FORWARD_OR_EOF
   /\ write_buffer (inp_set_hist input_zero [0%nat] 1) = [] ->
   read_line_cmd hist_sample_table no_tab no_tab no_tab
     (inp_set_hist input_zero [0%nat] 1) CMD_MOVE_UP = Fail EC_EOF)
  /\ (~ (CMD_MOVE_UP = CMD_DELETE_FORWARD_OR_EOF
         /\ write_buffer (inp_set_hist input_zero [0%nat] 1) = []) ->
      exists inp' accepted,
        read_line_cmd hist_sample_table no_tab no_tab no_tab
          (inp_set_hist input_zero [0%nat] 1) CMD_MOVE_UP = Ok (inp', accepted)
        /\ inp_ok hist_sample_table inp'
        /\ hist_buffer inp' = hist_buffer (inp_set_hist input_zero [0%nat] 1)
        /\ (accepted = true <-> CMD_MOVE_UP = CMD_ACCEPT \/ CMD_MOVE_UP = CMD_ENTER)).
Proof.
  apply (read_line_cmd_keeps_cursor hist_sample_table no_tab no_tab no_tab
           (inp_set_hist input_zero [0%nat] 1) CMD_MOVE_UP).
  - constructor.
    + vm_compute. split; discriminate.
    + vm_compute. split; discriminate.
    + apply Forall_cons_2; [vm_compute; lia|apply Forall_nil_2].
  - reflexivity.
  - reflexivity.
  - discriminate.
  - discriminate.
  - discriminate.
Defined.

(** X17.  A byte other than the control bytes 1 to 27 and DEL is decoded
    as itself, and the editor inserts it at the cursor, which moves one
    place to the right: the terminator byte 0 is among them, so it is
    stored in the write buffer like any letter. *)
Theorem read_line_cmd_inserts (at' : DrshAtomTable)
    (tab tabp tabc : DrshInput -> res DrshInput)
    (inp : DrshInput) (c : Z) (rest : list Z) :
  is_text_byte c = true ->
  0 <= write_cursor inp <= len (write_buffer inp) ->
  len (write_buffer inp) + 1 < 2 ^ 64 ->
  drsh_rb_to_cmd (c :: rest) = Some (c, 1)
  /\ exists inp',
       read_line_cmd at' tab tabp tabc inp c = Ok (inp', false)
       /\ write_buffer inp'
          = take (Z.to_nat (write_cursor inp)) (write_buffer inp)
            ++ c :: drop (Z.to_nat (write_cursor inp)) (write_buffer inp)
       /\ write_cursor inp' = write_cursor inp + 1.
Proof.
  intros Hc Hw Hn. split; [by apply rb_to_cmd_text|].
  destruct (read_line_cmd_text at' tab tabp tabc inp c Hc Hw Hn)
    as (inp' & E & Hb & Hcur & _).
  exists inp'. split; [exact E|]. split; assumption.
Qed.

Lemma read_line_cmd_inserts_witness :
  drsh_rb_to_cmd (0 :: bytes_of "b") = Some (0, 1)
  /\ exists inp',
       read_line_cmd at_zero no_tab no_tab no_tab
         (inp_set_write input_zero (bytes_of "ab") 1) 0 = Ok (inp', false)
       /\ write_buffer inp'
          = take (Z.to_nat (write_cursor (inp_set_write input_zero (bytes_of "ab") 1)))
              (write_buffer (inp_set_write input_zero (bytes_of "ab") 1))
            ++ 0 :: drop (Z.to_nat (write_cursor (inp_set_write input_zero (bytes_of "ab") 1)))
                      (write_buffer (inp_set_write input_zero (bytes_of "ab") 1))
       /\ write_cursor inp'
          = write_cursor (inp_set_write input_zero (bytes_of "ab") 1) + 1.
Proof.
  apply (read_line_cmd_inserts at_zero no_tab no_tab no_tab
           (inp_set_write input_zero (bytes_of "ab") 1) 0 (bytes_of "b")).
  - reflexivity.
  - vm_compute. split; discriminate.
  - reflexivity.
Defined.

(** X18.  Typing a byte and then backspace (DEL, which is decoded as the
    command to delete back) gives back the line and the cursor as they
    were, wherever in the line the cursor is. *)
Theorem type_then_backspace (at' : DrshAtomTable)
    (tab tabp tabc : DrshInput -> res DrshInput)
    (inp : DrshInput) (c : Z) (rest : list Z) :
  is_text_byte c = true ->
  0 <= write_cursor inp <= len (write_buffer inp) ->
  len (write_buffer inp) + 1 < 2 ^ 64 ->
  drsh_rb_to_cmd (127 :: rest) = Some (CMD_DELETE_BACK, 1)
  /\ exists inp1 inp2,
       read_line_cmd at' tab tabp tabc inp c = Ok (inp1, false)
       /\ read_line_cmd at' tab tabp tabc inp1 CMD_DELETE_BACK = Ok (inp2, false)
       /\ write_buffer inp2 = write_buffer inp
       /\ write_cursor inp2 = write_cursor inp.
Proof.
  intros Hc Hw Hn. split; [reflexivity|].
  destruct (read_line_cmd_text at' tab tabp tabc inp c Hc Hw Hn)
    as (inp1 & E & Hb & Hcur & _).
  exists inp1. rewrite E.
  unfold read_line_cmd. cbn [CMD_DELETE_BACK CMD_TAB CMD_SHIFT_TAB CMD_ESC Z.eqb Z.ltb
    Z.compare negb andb Pos.compare Pos.compare_cont Pos.eqb].
  unfold drsh_inp_del_left.
  cbn [drsh_end_tab_completion inp_set_tab write_buffer write_cursor].
  set (k := Z.to_nat (write_cursor inp)) in *.
  assert (Hk : (k <= length (write_buffer inp))%nat) by (unfold len in *; lia).
  assert (Hlen : len (write_buffer inp1) = len (write_buffer inp) + 1).
  { rewrite Hb. apply len_insert_at. }
  destruct (Z.eqb_spec (write_cursor inp1) 0); [lia|].
  destruct (Z.eqb_spec (write_cursor inp1) (len (write_buffer inp1))) as [Ee|Ee].
  - eexists. split; [reflexivity|]. split; [reflexivity|]. cbn. split; [|lia].
    assert (Hkl : k = length (write_buffer inp)) by (unfold len in *; lia).
    rewrite Hlen, Hb, Hkl, drop_all, firstn_all.
    replace (Z.to_nat (len (write_buffer inp) + 1 - 1)) with (length (write_buffer inp))
      by (unfold len; lia).
    by rewrite take_app_length.
  - unfold memremove1.
    assert (E1 : wrap64 (1 + (write_cursor inp1 - 1)) = write_cursor inp1).
    { unfold wrap64. rewrite Z.mod_small; lia. }
    rewrite E1.
    assert (E2 : (len (write_buffer inp1) <? write_cursor inp1) = false) by lia.
    rewrite E2. cbn [rbind]. eexists. split; [reflexivity|]. split; [reflexivity|].
    cbn. split; [|lia].
    replace (Z.to_nat (write_cursor inp1 - 1)) with k by lia. rewrite Hb.
    assert (Hlk : length (take k (write_buffer inp)) = k) by (rewrite length_take; lia).
    rewrite take_app_length' by (symmetry; exact Hlk).
    change (take k (write_buffer inp) ++ ?x :: ?l)
      with (take k (write_buffer inp) ++ [x] ++ l).
    rewrite app_assoc, drop_app_length'
      by (rewrite length_app, Hlk; cbn; lia).
    apply take_drop.
Qed.

Lemma type_then_backspace_witness :
  drsh_rb_to_cmd (127 :: []) = Some (CMD_DELETE_BACK, 1)
  /\ exists inp1 inp2,
       read_line_cmd at_zero no_tab no_tab no_tab
         (inp_set_write input_zero (bytes_of "ab") 1) 120 = Ok (inp1, false)
       /\ read_line_cmd at_zero no_tab no_tab no_tab inp1 CMD_DELETE_BACK
          = Ok (inp2, false)
       /\ write_buffer inp2 = write_buffer (inp_set_write input_zero (bytes_of "ab") 1)
       /\ write_cursor inp2 = write_cursor (inp_set_write input_zero (bytes_of "ab") 1).
Proof.
  apply (type_then_backspace at_zero no_tab no_tab no_tab
           (inp_set_write input_zero (bytes_of "ab") 1) 120 []).
  - reflexivity.
  - vm_compute. split; discriminate.
  - reflexivity.
Defined.

Lemma recall_last (at' : DrshAtomTable) (inp1 : DrshInput) (atom : nat) (a : DrshAtom) :
  at_atoms at' !! atom = Some a -> atom_len a = len (atom_txt a) ->
  last (hist_buffer inp1) = Some atom ->
  hist_cursor inp1 = len (hist_buffer inp1) ->
  len (hist_buffer inp1) < 2 ^ 64 ->
  exists inp2 inp3,
    drsh_inp_move_up at' inp1 = Ok inp2
    /\ write_buffer inp2 = atom_txt a /\ write_cursor inp2 = len (atom_txt a)
    /\ hist_cursor inp2 = len (hist_buffer inp1) - 1
    /\ drsh_inp_move_down at' inp2 = Ok inp3
    /\ write_buffer inp3 = [] /\ write_cursor inp3 = 0
    /\ hist_cursor inp3 = len (hist_buffer inp1)
    /\ hist_buffer inp3 = hist_buffer inp1.
Proof.
  intros Ha Hl Hlast Hcur Hn.
  assert (Hpos : 0 < len (hist_buffer inp1)).
  { destruct (hist_buffer inp1); [discriminate|]. rewrite len_cons.
    pose proof (len_nonneg l). lia. }
  unfold drsh_inp_move_up.
  destruct (Z.eqb_spec (hist_cursor inp1) 0); [lia|].
  unfold inp_load_history.
  cbn [inp_redisplay inp_set_flags inp_set_hist hist_buffer hist_cursor].
  rewrite last_lookup in Hlast.
  replace (Z.to_nat (hist_cursor inp1 - 1)) with (pred (length (hist_buffer inp1)))
    by (unfold len in *; lia).
  rewrite Hlast. unfold atom_at. rewrite Ha. cbn [rbind].
  assert (Htxt : take (Z.to_nat (atom_len a)) (atom_txt a) = atom_txt a).
  { rewrite Hl. unfold len. rewrite Nat2Z.id. apply firstn_all. }
  rewrite Htxt. eexists. eexists. split; [reflexivity|].
  split; [reflexivity|]. split; [reflexivity|].
  split; [cbn; lia|].
  unfold drsh_inp_move_down.
  cbn [inp_redisplay inp_set_flags inp_set_hist inp_set_write hist_buffer hist_cursor].
  assert (E : wrap64 (hist_cursor inp1 - 1 + 1) = len (hist_buffer inp1)).
  { unfold wrap64. rewrite Z.mod_small; lia. }
  rewrite E, Z.leb_refl. split; [reflexivity|]. cbn. by split_and!.
Qed.

(** X19.  The line just added to the history is the one the UP key
    brings back: after [drsh_hist_add] of a non-empty atom, moving up
    loads exactly its text with the cursor at its end, and moving down
    again empties the line and puts the history cursor back at the end. *)
Theorem history_recall (at' : DrshAtomTable) (inp : DrshInput) (atom : nat) (a : DrshAtom) :
  at_atoms at' !! atom = Some a ->
  atom_len a = len (atom_txt a) -> atom_len a <> 0 ->
  len (hist_buffer inp) + 1 < 2 ^ 64 ->
  exists inp1 inp2 inp3,
    drsh_hist_add at' inp atom = Ok inp1
    /\ drsh_inp_move_up at' inp1 = Ok inp2
    /\ write_buffer inp2 = atom_txt a /\ write_cursor inp2 = len (atom_txt a)
    /\ drsh_inp_move_down at' inp2 = Ok inp3
    /\ write_buffer inp3 = [] /\ write_cursor inp3 = 0
    /\ hist_cursor inp3 = len (hist_buffer inp3)
    /\ hist_buffer inp3 = hist_buffer inp1.
Proof.
  intros Ha Hl Hnz Hn.
  assert (Hadd : exists inp1,
    drsh_hist_add at' inp atom = Ok inp1
    /\ last (hist_buffer inp1) = Some atom
    /\ hist_cursor inp1 = len (hist_buffer inp1)
    /\ len (hist_buffer inp1) < 2 ^ 64).
  { unfold drsh_hist_add, atom_at. rewrite Ha. cbn [rbind].
    destruct (Z.eqb_spec (atom_len a) 0); [contradiction|].
    destruct (negb (len (hist_buffer inp) =? 0)
              && bool_decide (last (hist_buffer inp) = Some atom)) eqn:Ec.
    - apply andb_prop in Ec as [_ Ec%bool_decide_eq_true_1].
      eexists. split; [reflexivity|]. cbn. split; [exact Ec|]. split; [reflexivity|lia].
    - eexists. split; [reflexivity|]. cbn. split; [apply last_snoc|].
      rewrite len_app. change (len [atom]) with 1. split; [|lia].
      unfold wrap64. rewrite Z.mod_small; [reflexivity|].
      pose proof (len_nonneg (hist_buffer inp)). lia. }
  destruct Hadd as (inp1 & E1 & Hlast & Hcur & Hn1).
  destruct (recall_last at' inp1 atom a Ha Hl Hlast Hcur Hn1)
    as (inp2 & inp3 & E2 & Hb2 & Hc2 & _ & E3 & Hb3 & Hc3 & Hh3 & Hhb).
  exists inp1, inp2, inp3. split_and!; try assumption. by rewrite Hhb.
Qed.

Lemma history_recall_witness :
  exists inp1 inp2 inp3,
    drsh_hist_add hist_sample_table input_zero 0 = Ok inp1
    /\ drsh_inp_move_up hist_sample_table inp1 = Ok inp2
    /\ write_buffer inp2 = atom_txt hist_sample_ls
    /\ write_cursor inp2 = len (atom_txt hist_sample_ls)
    /\ drsh_inp_move_down hist_sample_table inp2 = Ok inp3
    /\ write_buffer inp3 = [] /\ write_cursor inp3 = 0
    /\ hist_cursor inp3 = len (hist_buffer inp3)
    /\ hist_buffer inp3 = hist_buffer inp1.
Proof.
  apply (history_recall hist_sample_table input_zero 0 hist_sample_ls).
  - reflexivity.
  - reflexivity.
  - discriminate.
  - reflexivity.
Defined.

Lemma rb_to_cmd_unknown (x : Z) (rest : list Z) :
  csi_final x = None -> x <> 51 ->
  drsh_rb_to_cmd (27 :: 91 :: x :: rest) = None.
Proof.
  intros Hx H3. unfold drsh_rb_to_cmd.
  cbn [Z.ltb Z.eqb Z.compare Pos.compare Pos.compare_cont Pos.eqb].
  rewrite Hx. destruct (Z.eqb_spec x 51); [contradiction|].
  by rewrite !andb_false_r.
Qed.

(** X20.  An escape sequence [ESC [ x] whose final byte [x] is none of
    [A B C D H F Z] and not [3] (page up, page down, insert, the
    function keys) is never decoded: once it is at the head of the
    unread input, [drsh_read_one] gives no command again whatever is
    read after it; it only waits, or ends with an error when the input
    ends or a read fails. *)
Theorem read_one_unknown_sequence (reads : list ReadEvent) (inp : DrshInput)
    (x : Z) (rest : list Z) :
  inp_unread inp = 27 :: 91 :: x :: rest ->
  csi_final x = None -> x <> 51 ->
  match drsh_read_one reads inp with
  | Some (Ok _, _) => False
  | _ => True
  end.
Proof.
  intros Hu Hx H3. revert inp rest Hu.
  induction reads as [|ev reads IH]; intros inp rest Hu.
  all: assert (Hlt : (Z.to_nat (read_cursor inp) < length (read_buffer inp))%nat).
  all: try (destruct (decide (Z.to_nat (read_cursor inp) < length (read_buffer inp))%nat)
              as [|Hge]; [assumption|];
            unfold inp_unread in Hu; rewrite drop_ge in Hu by lia; discriminate).
  all: assert (Hdec : read_one_decode inp = None)
         by (unfold read_one_decode; rewrite Hu, rb_to_cmd_unknown; done).
  all: assert (Hpend :
         (if read_cursor inp =? 0 then inr inp
          else if read_cursor inp =? len (read_buffer inp)
               then inr (inp_set_read inp [] 0)
               else match read_one_decode inp with
                    | Some r => inl r
                    | None => inr inp
                    end) = (inr inp : (DrshInput * Z) + DrshInput)).
  all: try (destruct (Z.eqb_spec (read_cursor inp) 0); [reflexivity|];
            destruct (Z.eqb_spec (read_cursor inp) (len (read_buffer inp)));
              [unfold len in *; lia|by rewrite Hdec]).
  - cbn [drsh_read_one]. by rewrite Hpend.
  - cbn [drsh_read_one]. rewrite Hpend. destruct ev as [l| |].
    + destruct l as [|b l]; [exact I|].
      assert (Hu' : inp_unread (inp_set_read inp (read_buffer inp ++ b :: l) (read_cursor inp))
                    = 27 :: 91 :: x :: (rest ++ b :: l)).
      { unfold inp_unread in *. cbn [inp_set_read read_buffer read_cursor].
        rewrite drop_app_le by lia. by rewrite Hu. }
      assert (Hdec' : read_one_decode
                        (inp_set_read inp (read_buffer inp ++ b :: l) (read_cursor inp)) = None).
      { unfold read_one_decode. by rewrite Hu', rb_to_cmd_unknown. }
      rewrite Hdec'. by apply (IH _ (rest ++ b :: l)).
    + by apply (IH _ rest).
    + exact I.
Qed.

Lemma read_one_unknown_sequence_witness :
  match drsh_read_one [ReadBytes (bytes_of "ls"); ReadEintr; ReadBytes [13]]
          (inp_set_read input_zero [27; 91; 53; 126] 0) with
  | Some (Ok _, _) => False
  | _ => True
  end.
Proof.
  apply (read_one_unknown_sequence _ _ 53 [126]).
  - reflexivity.
  - reflexivity.
  - discriminate.
Defined.

Lemma feed_same inp inp' reads s :
  read_buffer inp' = read_buffer inp -> read_cursor inp' = read_cursor inp ->
  feed inp reads s -> feed inp' reads s.
Proof.
  intros Hb Hc [H1 H2 H3 H4 H5]. constructor; unfold inp_unread in *;
    rewrite ?Hb, ?Hc; assumption.
Qed.

Section ReadOne.
Context (c cmd : Z) (s : list Z).
Context (Hdec : forall rest, drsh_rb_to_cmd (c :: rest) = Some (cmd, 1)).

Lemma read_one_fresh (reads : list ReadEvent) (inp0 : DrshInput) :
  read_buffer inp0 = [] -> read_cursor inp0 = 0 ->
  reads_ok reads = true -> read_bytes reads = c :: s ->
  len (read_bytes reads) < 2 ^ 64 ->
  exists rb rc reads',
    drsh_read_one reads inp0 = Some (Ok (inp_set_read inp0 rb rc, cmd), reads')
    /\ feed (inp_set_read inp0 rb rc) reads' s.
Proof.
  intros Hb Hc. induction reads as [|ev reads IH]; intros Hok Hs Hsz; [discriminate|].
  cbn [drsh_read_one]. rewrite Hc. cbn [Z.eqb].
  destruct ev as [l| |].
  - destruct l as [|b l]; [discriminate|].
    cbn [read_bytes app] in Hs, Hsz. injection Hs as -> Hs.
    unfold read_one_decode, inp_unread.
    cbn [inp_set_read read_buffer read_cursor]. rewrite Hb, Hc.
    cbn [app]. change (Z.to_nat 0) with 0%nat. cbn [drop]. rewrite Hdec.
    exists (c :: l), (wrap64 (0 + 1)), reads. split; [reflexivity|].
    change (wrap64 (0 + 1)) with 1. rewrite len_cons, len_app in Hsz.
    pose proof (len_nonneg l). pose proof (len_nonneg (read_bytes reads)).
    constructor; cbn [inp_set_read read_buffer read_cursor].
    + rewrite len_cons. lia.
    + discriminate.
    + exact Hok.
    + unfold inp_unread. cbn [inp_set_read read_buffer read_cursor]. exact Hs.
    + rewrite len_cons. lia.
  - apply IH; assumption.
  - discriminate.
Qed.

Lemma read_one_next (reads : list ReadEvent) (inp : DrshInput) :
  feed inp reads (c :: s) ->
  exists rb rc reads',
    drsh_read_one reads inp = Some (Ok (inp_set_read inp rb rc, cmd), reads')
    /\ feed (inp_set_read inp rb rc) reads' s.
Proof.
  intros [H1 H2 H3 H4 H5].
  pose proof (len_nonneg (read_bytes reads)) as Hrb0.
  destruct (Z.eqb_spec (read_cursor inp) 0) as [E0|E0];
    [|destruct (Z.eqb_spec (read_cursor inp) (len (read_buffer inp))) as [El|El]].
  - assert (Hu : inp_unread inp = []).
    { unfold inp_unread. rewrite (H2 E0). by destruct (Z.to_nat _). }
    rewrite Hu in H4. apply read_one_fresh; try assumption; [by apply H2|lia].
  - assert (Hu : inp_unread inp = []).
    { unfold inp_unread. apply drop_ge. unfold len in *. lia. }
    rewrite Hu in H4.
    assert (Hsame : drsh_read_one reads inp
                    = drsh_read_one reads (inp_set_read inp [] 0)).
    { destruct reads; cbn [drsh_read_one]; cbn [inp_set_read read_cursor Z.eqb];
        destruct (Z.eqb_spec (read_cursor inp) 0); try contradiction;
        destruct (Z.eqb_spec (read_cursor inp) (len (read_buffer inp)));
        try contradiction; reflexivity. }
    rewrite Hsame.
    destruct (read_one_fresh reads (inp_set_read inp [] 0)) as (rb & rc & reads' & E & Hf);
      try assumption; try reflexivity; [lia|].
    exists rb, rc, reads'. split; [exact E|exact Hf].
  - assert (Hlt : (Z.to_nat (read_cursor inp) < length (read_buffer inp))%nat)
      by (unfold len in *; lia).
    destruct (inp_unread inp) as [|b u] eqn:Hu.
    { unfold inp_unread in Hu. apply (f_equal length) in Hu.
      rewrite length_drop in Hu. cbn in Hu. lia. }
    injection H4 as -> H4.
    assert (Ew : wrap64 (read_cursor inp + 1) = read_cursor inp + 1).
    { unfold wrap64. rewrite Z.mod_small; lia. }
    assert (Hd : read_one_decode inp
                 = Some (inp_set_read inp (read_buffer inp) (read_cursor inp + 1), cmd)).
    { unfold read_one_decode. by rewrite Hu, Hdec, Ew. }
    exists (read_buffer inp), (read_cursor inp + 1), reads. split.
    + destruct reads; cbn [drsh_read_one];
        destruct (Z.eqb_spec (read_cursor inp) 0); try contradiction;
        destruct (Z.eqb_spec (read_cursor inp) (len (read_buffer inp)));
        try contradiction; by rewrite Hd.
    + constructor; cbn [inp_set_read read_buffer read_cursor]; try assumption.
      * lia.
      * lia.
      * unfold inp_unread in *. cbn [inp_set_read read_buffer read_cursor].
        replace (Z.to_nat (read_cursor inp + 1))
          with (Z.to_nat (read_cursor inp) + 1)%nat by lia.
        by rewrite <- drop_drop, Hu.
Qed.

End ReadOne.

Section PipedLine.
Context (at' : DrshAtomTable).
Context (tab tabp tabc : DrshInput -> res DrshInput).
Context (refresh : DrshInput -> DrshInput * Z).

Lemma read_line_cmd_accept inp nl :
  nl = 10 \/ nl = 13 ->
  (forall rest, drsh_rb_to_cmd (nl :: rest) = Some (- nl, 1))
  /\ read_line_cmd at' tab tabp tabc inp (- nl)
     = Ok (drsh_end_tab_completion inp, true).
Proof. intros [->| ->]; split; reflexivity. Qed.

Lemma read_line_loop_piped (w : list Z) :
  forall fuel reads inp n_cols_up out nl rest,
    forallb is_text_byte w = true -> nl = 10 \/ nl = 13 ->
    feed inp reads (w ++ nl :: rest) ->
    write_cursor inp = len (write_buffer inp) ->
    len (write_buffer inp) + len w + 1 < 2 ^ 64 ->
    (length w < fuel)%nat ->
    exists lr,
      read_line_loop at' tab tabp tabc false refresh fuel reads inp n_cols_up out
      = Some (Ok lr)
      /\ write_buffer (lr_inp lr) = write_buffer inp ++ w
      /\ lr_out lr = out
      /\ feed (lr_inp lr) (lr_reads lr) rest.
Proof.
  induction w as [|c w IH]; intros fuel reads inp n out nl rest Hw Hnl Hf Hcur Hsz Hfuel.
  - destruct fuel as [|fuel]; [cbn in Hfuel; lia|].
    destruct (read_line_cmd_accept
                (inp_set_read inp [] 0) nl Hnl) as [Hdec _].
    destruct (read_one_next nl (- nl) rest Hdec reads inp Hf)
      as (rb & rc & reads' & E & Hf').
    cbn [read_line_loop]. rewrite andb_false_r, E.
    rewrite (proj2 (read_line_cmd_accept (inp_set_read inp rb rc) nl Hnl)).
    eexists. split; [reflexivity|]. cbn [lr_inp lr_out lr_reads].
    split; [by rewrite app_nil_r|]. split; [reflexivity|].
    eapply feed_same; [| |exact Hf']; reflexivity.
  - destruct fuel as [|fuel]; [cbn in Hfuel; lia|].
    cbn [forallb] in Hw. apply andb_prop in Hw as [Hc Hw].
    destruct (read_one_next c c (w ++ nl :: rest)
                (fun r => rb_to_cmd_text c r Hc) reads inp Hf)
      as (rb & rc & reads' & E & Hf').
    cbn [read_line_loop]. rewrite andb_false_r, E.
    rewrite len_cons in Hsz. pose proof (len_nonneg w).
    destruct (read_line_cmd_text at' tab tabp tabc (inp_set_read inp rb rc) c Hc)
      as (inp' & E' & Hb & Hc' & Hrb & Hrc & _).
    { cbn [inp_set_read write_cursor write_buffer].
      pose proof (len_nonneg (write_buffer inp)). lia. }
    { cbn [inp_set_read write_buffer]. lia. }
    rewrite E'. cbn [inp_set_read write_cursor write_buffer] in Hb, Hc'.
    assert (Hb' : write_buffer inp' = write_buffer inp ++ [c]).
    { rewrite Hb, Hcur. unfold len. rewrite Nat2Z.id, firstn_all, drop_all. reflexivity. }
    destruct (IH fuel reads' inp' n out nl rest Hw Hnl) as (lr & El & Hlb & Hlo & Hlf).
    + eapply feed_same; [exact Hrb|exact Hrc|exact Hf'].
    + rewrite Hc', Hb', Hcur, len_app. reflexivity.
    + rewrite Hb', len_app. change (len [c]) with 1. lia.
    + cbn in Hfuel. lia.
    + exists lr. split; [exact El|]. split; [|split; assumption].
      rewrite Hlb, Hb', <- app_assoc. reflexivity.
Qed.

End PipedLine.

(** X21.  With no terminal on both sides (input from a pipe or a file)
    [drsh_read_line] returns exactly the bytes that come before the
    first carriage return or line feed, whatever the reads they arrive
    in and however often a read is interrupted, when those bytes are
    none of the control bytes 1 to 27 and DEL; it writes nothing, and
    what follows the line end stays unread for the next line. *)
Theorem read_line_piped (at' : DrshAtomTable)
    (tab tabp tabc : DrshInput -> res DrshInput)
    (refresh : DrshInput -> DrshInput * Z)
    (fuel : nat) (reads : list ReadEvent) (inp : DrshInput)
    (w : list Z) (nl : Z) (rest : list Z) :
  forallb is_text_byte w = true -> nl = 10 \/ nl = 13 ->
  feed inp reads (w ++ nl :: rest) ->
  (length w < fuel)%nat ->
  exists lr,
    drsh_read_line at' tab tabp tabc false refresh fuel EC_OK reads inp = Some (Ok lr)
    /\ write_buffer (lr_inp lr) = w
    /\ lr_out lr = []
    /\ feed (lr_inp lr) (lr_reads lr) rest.
Proof.
  intros Hw Hnl Hf Hfuel. unfold drsh_read_line.
  destruct (read_line_loop_piped at' tab tabp tabc refresh w fuel reads
              (inp_set_flags (inp_set_write inp [] 0) true (needs_clear_screen inp))
              0 [] nl rest Hw Hnl) as (lr & E & Hb & Ho & Hfd);
    [| | | |exists lr; split; [exact E|]; split; [exact Hb|]; split; assumption].
  - eapply feed_same; [| |exact Hf]; reflexivity.
  - reflexivity.
  - cbn [inp_set_flags inp_set_write write_buffer]. change (len (@nil Z)) with 0.
    destruct Hf as [H1 H2 H3 H4 H5].
    apply (f_equal len) in H4. rewrite !len_app, len_cons in H4.
    pose proof (len_nonneg rest). pose proof (len_nonneg (inp_unread inp)).
    assert (len (inp_unread inp) <= len (read_buffer inp)).
    { unfold inp_unread, len. rewrite length_drop. lia. }
    lia.
  - exact Hfuel.
Qed.

Lemma read_line_piped_witness :
  exists lr,
    drsh_read_line at_zero no_tab no_tab no_tab false no_refresh 8 EC_OK
      [ReadBytes (bytes_of "ec"); ReadEintr; ReadBytes (bytes_of "ho hi" ++ [10; 108; 115])]
      input_zero = Some (Ok lr)
    /\ write_buffer (lr_inp lr) = bytes_of "echo hi"
    /\ lr_out lr = []
    /\ feed (lr_inp lr) (lr_reads lr) (bytes_of "ls").
Proof.
  apply (read_line_piped at_zero no_tab no_tab no_tab no_refresh 8
           [ReadBytes (bytes_of "ec"); ReadEintr;
            ReadBytes (bytes_of "ho hi" ++ [10; 108; 115])]
           input_zero (bytes_of "echo hi") 10 (bytes_of "ls")).
  - reflexivity.
  - by left.
  - constructor.
    + vm_compute. split; discriminate.
    + reflexivity.
    + reflexivity.
    + reflexivity.
    + reflexivity.
  - vm_compute. lia.
Defined.

(** ** The history file *)

Lemma rb_to_line_line (s : list Z) (rest : list Z) :
  Forall in_line s -> drsh_rb_to_line (s ++ 10 :: rest) = Some (s ++ [10]).
Proof.
  induction 1 as [|c s (H0 & H10 & H13) _ IH]; [reflexivity|].
  cbn [app drsh_rb_to_line].
  destruct (Z.eqb_spec c 0); [contradiction|].
  destruct (Z.eqb_spec c 10); [contradiction|].
  destruct (Z.eqb_spec c 13); [contradiction|].
  cbn [orb]. by rewrite IH.
Qed.

Lemma rb_to_line_none (s : list Z) :
  Forall in_line s -> drsh_rb_to_line s = None.
Proof.
  induction 1 as [|c s (H0 & H10 & H13) _ IH]; [reflexivity|].
  cbn [drsh_rb_to_line].
  destruct (Z.eqb_spec c 0); [contradiction|].
  destruct (Z.eqb_spec c 10); [contradiction|].
  destruct (Z.eqb_spec c 13); [contradiction|].
  cbn [orb]. by rewrite IH.
Qed.

Lemma strip_eol_line (s : list Z) :
  Forall in_line s -> strip_eol (s ++ [10]) = s.
Proof.
  intros Hs. unfold strip_eol. rewrite rev_app_distr. cbn [rev app strip_eol_rev].
  cbn [Z.eqb Pos.eqb orb].
  destruct (rev s) as [|c r] eqn:Er.
  - cbn. apply (f_equal (@rev Z)) in Er. by rewrite rev_involutive in Er.
  - assert (Hc : in_line c).
    { rewrite Forall_forall in Hs. apply Hs. apply list_elem_of_In, in_rev.
      rewrite Er. by left. }
    destruct Hc as (_ & H10 & H13). cbn [strip_eol_rev].
    destruct (Z.eqb_spec c 10); [contradiction|].
    destruct (Z.eqb_spec c 13); [contradiction|].
    cbn [orb]. rewrite <- Er. apply rev_involutive.
Qed.

Section HistoryFileFacts.
Context `{Hash}.

Lemma txt_of_same at1 at2 p :
  at_atoms at2 = at_atoms at1 -> txt_of at2 p = txt_of at1 p.
Proof. unfold txt_of. by intros ->. Qed.

Lemma storable_same at1 at2 p :
  at_atoms at2 = at_atoms at1 -> storable at1 p -> storable at2 p.
Proof.
  intros E (s & Hs & Hne & Hl). exists s. by rewrite (txt_of_same at1 at2 p E).
Qed.

Lemma dump_loop_same at1 at2 atoms :
  at_atoms at2 = at_atoms at1 -> hist_dump_loop at2 atoms = hist_dump_loop at1 atoms.
Proof.
  intros E. induction atoms as [|p atoms IH]; [reflexivity|].
  cbn [hist_dump_loop]. unfold atom_at. by rewrite E, IH.
Qed.

(** One entry of the file read back. *)
Lemma load_history_step at1 inp p s :
  at_wf at1 -> at_count at1 + 2 <= 2 ^ 28 ->
  txt_of at1 p = Some s -> s <> [] ->
  last (hist_buffer inp) <> Some p ->
  len (hist_buffer inp) + 1 < 2 ^ 64 ->
  exists at2 inp2,
    drsh_at_atomize at1 s = Ok (at2, p)
    /\ at_wf at2 /\ at_atoms at2 = at_atoms at1
    /\ drsh_hist_add at2 inp p = Ok inp2
    /\ hist_buffer inp2 = hist_buffer inp ++ [p]
    /\ hist_cursor inp2 = len (hist_buffer inp) + 1.
Proof.
  intros WF Hc Hp Hne Hlast Hn.
  assert (Hv : exists a, at_atoms at1 !! p = Some a /\ atom_txt a = s).
  { unfold txt_of in Hp. destruct (at_atoms at1 !! p) as [a|]; [|discriminate].
    injection Hp as <-. by exists a. }
  destruct Hv as (a & Ha & Hta).
  destruct (aw_atoms _ (aw_wf0 _ WF) p a Ha) as (_ & Hlen & Hsmall).
  destruct (atomize_spec at1 s WF Hc) as (at2 & q & E & WF2 & _ & Hpre & Hq & _ & Hold).
  { by rewrite <- Hta. }
  assert (Hatoms : at_atoms at2 = at_atoms at1).
  { apply Hold. apply list_elem_of_fmap. exists a. split; [done|].
    by eapply list_elem_of_lookup_2. }
  assert (Hqp : q = p).
  { apply (txt_of_inj at2 q p s s WF2 Hq); [|reflexivity].
    by rewrite (txt_of_same at1 at2 p Hatoms). }
  subst q. exists at2. eexists. split; [exact E|]. split; [exact WF2|].
  split; [exact Hatoms|].
  unfold drsh_hist_add, atom_at. rewrite Hatoms, Ha. cbn [rbind].
  assert (Hnz : atom_len a <> 0).
  { rewrite Hlen, Hta. destruct s; [done|]. rewrite len_cons.
    pose proof (len_nonneg s). lia. }
  destruct (Z.eqb_spec (atom_len a) 0); [contradiction|].
  rewrite (bool_decide_eq_false_2 _ Hlast), andb_false_r.
  split; [reflexivity|]. cbn. split; [reflexivity|].
  unfold wrap64. rewrite Z.mod_small; [reflexivity|].
  pose proof (len_nonneg (hist_buffer inp)). lia.
Qed.

Lemma load_history_loop_spec (todo : list nat) :
  forall at1 inp tail,
    at_wf at1 -> at_count at1 + 2 <= 2 ^ 28 ->
    Forall (storable at1) todo ->
    hist_no_repeat todo ->
    (forall p, head todo = Some p -> last (hist_buffer inp) <> Some p) ->
    len (hist_buffer inp) + len todo < 2 ^ 64 ->
    (todo <> [] -> hist_cursor inp = len (hist_buffer inp)) ->
    Forall in_line tail ->
    exists file,
      hist_dump_loop at1 todo = Ok file
      /\ (forall fuel, (length (file ++ tail) < fuel)%nat ->
          exists at2 inp2,
            load_history_loop fuel (file ++ tail) at1 inp = Ok (at2, inp2)
            /\ at_atoms at2 = at_atoms at1
            /\ hist_buffer inp2 = hist_buffer inp ++ todo
            /\ (todo <> [] -> hist_cursor inp2 = len (hist_buffer inp2))
            /\ (todo = [] -> inp2 = inp)).
Proof.
  induction todo as [|p todo IH]; intros at1 inp tail WF Hc Hst Hnr Hhd Hn Hcur Htail.
  - exists []. split; [reflexivity|]. intros fuel Hfuel.
    destruct fuel as [|fuel]; [cbn in Hfuel; lia|].
    cbn [app load_history_loop]. rewrite (rb_to_line_none tail Htail).
    exists at1, inp. rewrite app_nil_r. by split_and!.
  - apply Forall_cons in Hst as [(s & Hs & Hne & Hl) Hst].
    assert (Hv : exists a, at_atoms at1 !! p = Some a /\ atom_txt a = s).
    { unfold txt_of in Hs. destruct (at_atoms at1 !! p) as [a|]; [|discriminate].
      injection Hs as <-. by exists a. }
    destruct Hv as (a & Ha & Hta).
    destruct (aw_atoms _ (aw_wf0 _ WF) p a Ha) as (_ & Hlen & _).
    assert (Htake : take (Z.to_nat (atom_len a)) (atom_txt a) = s).
    { rewrite Hlen, <- Hta. unfold len. rewrite Nat2Z.id. apply firstn_all. }
    rewrite len_cons in Hn. pose proof (len_nonneg todo) as Htodo0.
    destruct (load_history_step at1 inp p s WF Hc Hs Hne) as
      (at2 & inp2 & E & WF2 & Hatoms & Eadd & Hb2 & Hc2).
    { by apply Hhd. }
    { lia. }
    destruct (IH at2 inp2 tail WF2) as (file & Ed & Hload).
    { unfold at_count in *. by rewrite Hatoms. }
    { eapply Forall_impl; [exact Hst|]. intros q. by apply storable_same. }
    { intros i q Hi. exact (Hnr (S i) q Hi). }
    { intros q Hq. rewrite Hb2, last_snoc. intros [= E'].
      destruct todo as [|q' todo']; [discriminate|]. cbn in Hq.
      injection Hq as Hq. apply (Hnr 0%nat p); [reflexivity|].
      cbn. by rewrite Hq, E'. }
    { rewrite Hb2, len_app. change (len [p]) with 1. lia. }
    { intros _. rewrite Hc2, Hb2, len_app. reflexivity. }
    { exact Htail. }
    rewrite (dump_loop_same at1 at2 todo Hatoms) in Ed.
    exists (s ++ [10] ++ file). split.
    { cbn [hist_dump_loop]. unfold atom_at. rewrite Ha. cbn [rbind].
      by rewrite Ed, Htake. }
    intros fuel Hfuel. destruct fuel as [|fuel]; [lia|].
    assert (Hline : (s ++ [10] ++ file) ++ tail = s ++ 10 :: (file ++ tail)).
    { by rewrite <- !app_assoc. }
    rewrite Hline. cbn [load_history_loop].
    rewrite (rb_to_line_line s _ Hl).
    replace (drop (length (s ++ [10])) (s ++ 10 :: file ++ tail)) with (file ++ tail).
    2:{ change (s ++ 10 :: file ++ tail) with (s ++ [10] ++ (file ++ tail)).
        rewrite app_assoc. by rewrite drop_app_length. }
    rewrite (strip_eol_line s Hl).
    assert (Hs0 : (len s =? 0) = false).
    { destruct s; [done|]. rewrite len_cons. pose proof (len_nonneg s). lia. }
    rewrite Hs0, E, Eadd.
    destruct (Hload fuel) as (at3 & inp3 & E3 & Hat3 & Hb3 & Hc3 & Hnil).
    { rewrite Hline, !length_app in Hfuel. cbn in Hfuel.
      rewrite length_app in *. lia. }
    exists at3, inp3. split; [exact E3|]. split; [by rewrite Hat3|].
    split; [by rewrite Hb3, Hb2, <- app_assoc|]. split; [|discriminate].
    intros _. destruct todo as [|q todo'].
    + rewrite (Hnil eq_refl). rewrite Hc2, Hb2, len_app. reflexivity.
    + by apply Hc3.
Qed.

End HistoryFileFacts.

(** X22.  The history file round trip: the bytes [drsh_hist_dump]
    appends for the entries from [hist_start] on, read back by the
    history loop of [main] into an empty history with the same atom
    table, give the same entries (the same atoms, in order), with the
    cursor and [hist_start] at the end.  This holds for entries that are
    not empty, contain no 0, line feed or carriage return, and of which
    no two neighbours are equal; bytes after the last line feed of the
    file are not read as an entry. *)
Theorem history_file_round_trip `{Hash} (at' : DrshAtomTable) (inp : DrshInput)
    (tail : list Z) :
  at_wf at' -> at_count at' + 2 <= 2 ^ 28 ->
  Forall (storable at') (drop (Z.to_nat (hist_start inp)) (hist_buffer inp)) ->
  hist_no_repeat (drop (Z.to_nat (hist_start inp)) (hist_buffer inp)) ->
  len (hist_buffer inp) < 2 ^ 64 ->
  Forall in_line tail ->
  exists file at2 inp2,
    hist_dump_writes at' inp = Ok file
    /\ load_history (file ++ tail) at' input_zero = Ok (at2, inp2)
    /\ at_atoms at2 = at_atoms at'
    /\ hist_buffer inp2 = drop (Z.to_nat (hist_start inp)) (hist_buffer inp)
    /\ hist_cursor inp2 = len (hist_buffer inp2)
    /\ hist_start inp2 = len (hist_buffer inp2).
Proof.
  intros WF Hc Hst Hnr Hn Htail. unfold hist_dump_writes, load_history.
  set (saved := drop (Z.to_nat (hist_start inp)) (hist_buffer inp)) in *.
  assert (Hsv : len saved <= len (hist_buffer inp)).
  { unfold saved, len. rewrite length_drop. lia. }
  destruct (load_history_loop_spec saved at' input_zero tail WF Hc Hst Hnr)
    as (file & Ed & Hload).
  { intros p _. discriminate. }
  { change (len (hist_buffer input_zero)) with 0. lia. }
  { reflexivity. }
  { exact Htail. }
  destruct (Hload (S (length (file ++ tail)))) as (at2 & inp2 & E & Hat & Hb & Hcur & Hnil);
    [lia|].
  exists file, at2. eexists. split; [exact Ed|]. rewrite E. cbn [rbind].
  split; [reflexivity|]. split; [exact Hat|]. cbn [hist_buffer hist_cursor hist_start
    inp_set_hist_start]. cbn [hist_buffer input_zero app] in Hb.
  split; [exact Hb|].
  assert (Hc2 : hist_cursor inp2 = len (hist_buffer inp2)).
  { destruct saved as [|q sv] eqn:Esv.
    - by rewrite (Hnil eq_refl).
    - by apply Hcur. }
  by split.
Qed.

Lemma history_file_round_trip_witness :
  exists file at2 inp2,
    hist_dump_writes (st_at posix_state) (inp_set_hist input_zero [2%nat; 3%nat] 2)
    = Ok file
    /\ load_history (file ++ bytes_of "ls") (st_at posix_state) input_zero = Ok (at2, inp2)
    /\ at_atoms at2 = at_atoms (st_at posix_state)
    /\ hist_buffer inp2
       = drop (Z.to_nat (hist_start (inp_set_hist input_zero [2%nat; 3%nat] 2)))
           (hist_buffer (inp_set_hist input_zero [2%nat; 3%nat] 2))
    /\ hist_cursor inp2 = len (hist_buffer inp2)
    /\ hist_start inp2 = len (hist_buffer inp2).
Proof.
  apply (@history_file_round_trip murmur (st_at posix_state)
           (inp_set_hist input_zero [2%nat; 3%nat] 2) (bytes_of "ls")
           (sw_at _ posix_state_wf)).
  - decided.
  - apply Forall_cons_2; [|apply Forall_cons_2; [|apply Forall_nil_2]].
    + exists (bytes_of "echo"). split; [reflexivity|]. split; [discriminate|].
      repeat (apply Forall_cons_2; [by split_and!|]). apply Forall_nil_2.
    + exists (bytes_of "set"). split; [reflexivity|]. split; [discriminate|].
      repeat (apply Forall_cons_2; [by split_and!|]). apply Forall_nil_2.
  - intros [|[|i]] p; cbn; intros [= <-]; discriminate.
  - reflexivity.
  - repeat (apply Forall_cons_2; [by split_and!|]). apply Forall_nil_2.
Defined.

(** ** The working directory of the prompt *)

Lemma first_slash_from_skip (pre rest : list Z) (i : nat) :
  47 ∉ pre -> first_slash_from (pre ++ 47 :: rest) i = (i + length pre)%nat.
Proof.
  revert i. induction pre as [|c pre IH]; intros i Hn.
  - cbn. lia.
  - cbn [app first_slash_from length].
    destruct (Z.eqb_spec c 47) as [->|_]; [exfalso; apply Hn; by left|].
    rewrite IH; [lia|]. intros Hin. apply Hn. by right.
Qed.

Lemma last_slash_rev_skip (r rest : list Z) :
  47 ∉ r -> last_slash_rev (r ++ 47 :: rest) = length rest.
Proof.
  induction r as [|c r IH]; intros Hn.
  - reflexivity.
  - cbn [app last_slash_rev].
    destruct (Z.eqb_spec c 47) as [->|_]; [exfalso; apply Hn; by left|].
    apply IH. intros Hin. apply Hn. by right.
Qed.

Lemma last_slash_rev_none (r : list Z) : 47 ∉ r -> last_slash_rev r = 0%nat.
Proof.
  induction r as [|c r IH]; intros Hn; [reflexivity|]. cbn [last_slash_rev].
  destruct (Z.eqb_spec c 47) as [->|_]; [exfalso; apply Hn; by left|].
  apply IH. intros Hin. apply Hn. by right.
Qed.

Lemma condense_loop_name (c : list Z) (rest : list Z) :
  47 ∉ c ->
  condense_loop (c ++ rest) true
  = take 1 c ++ condense_loop rest (bool_decide (c = []))
  /\ condense_loop (c ++ rest) false = condense_loop rest false.
Proof.
  intros Hn.
  assert (Hf : forall c, 47 ∉ c -> condense_loop (c ++ rest) false = condense_loop rest false).
  { clear c Hn. induction c as [|x c IH]; intros Hn; [reflexivity|].
    cbn [app condense_loop].
    destruct (Z.eqb_spec x 47) as [->|_]; [exfalso; apply Hn; by left|].
    apply IH. intros Hin. apply Hn. by right. }
  split; [|by apply Hf]. destruct c as [|x c]; [reflexivity|].
  cbn [app condense_loop take].
  destruct (Z.eqb_spec x 47) as [->|_]; [exfalso; apply Hn; by left|].
  rewrite Hf; [reflexivity|]. intros Hin. apply Hn. by right.
Qed.

Lemma condense_loop_names (names : list (list Z)) (w : bool) :
  Forall (fun c => 47 ∉ c) names ->
  condense_loop (names ≫= fun c => 47 :: c) w = names ≫= fun c => 47 :: take 1 c.
Proof.
  intros Hn. revert w. induction Hn as [|c names Hc _ IH]; intros w; [reflexivity|].
  rewrite !bind_cons. cbn [app condense_loop Z.eqb Pos.eqb].
  destruct (condense_loop_name c (names ≫= fun c => 47 :: c) Hc) as [E _].
  rewrite E, IH. reflexivity.
Qed.

(** X23.  [drsh_dir_condense] shortens every directory name between the
    first and the last [/] of a path to its first byte, and keeps what
    is before the first [/] and the last name as they are, so that
    [~/src/drsh/build] becomes [~/s/d/build]; a path without [/] is
    left as it is. *)
Theorem dir_condense_names (pre : list Z) (names : list (list Z)) (last_name : list Z) :
  47 ∉ pre -> Forall (fun c => 47 ∉ c) names -> 47 ∉ last_name ->
  drsh_dir_condense (join_path pre names last_name)
  = join_path pre (take 1 <$> names) last_name
  /\ drsh_dir_condense pre = pre.
Proof.
  intros Hp Hn Hl. split.
  2:{ unfold drsh_dir_condense. rewrite last_slash_rev_none; [reflexivity|].
      intros Hin. apply Hp. by apply list_elem_of_In, in_rev, list_elem_of_In. }
  unfold drsh_dir_condense, join_path.
  set (mid := names ≫= fun c => 47 :: c).
  assert (Hfs : first_slash_from (pre ++ mid ++ 47 :: last_name) 0 = length pre).
  { destruct names as [|c names].
    - cbn. apply (first_slash_from_skip pre last_name 0 Hp).
    - unfold mid. rewrite bind_cons. cbn [app].
      apply (first_slash_from_skip pre _ 0 Hp). }
  assert (Hls : last_slash_rev (rev (pre ++ mid ++ 47 :: last_name))
                = length (pre ++ mid)).
  { rewrite app_assoc, rev_app_distr. cbn [rev]. rewrite <- app_assoc. cbn [app].
    rewrite last_slash_rev_skip; [by rewrite length_rev|].
    intros Hin. apply Hl. by apply list_elem_of_In, in_rev, list_elem_of_In. }
  rewrite Hfs, Hls.
  assert (Hmid : condense_loop mid true = (take 1 <$> names) ≫= fun c => 47 :: c).
  { unfold mid. rewrite (condense_loop_names names true Hn).
    clear. induction names as [|c names IH]; [reflexivity|].
    rewrite fmap_cons, !bind_cons. by rewrite IH. }
  destruct (Nat.eqb_spec (length (pre ++ mid)) 0) as [E0|E0].
  - apply length_zero_iff_nil, app_eq_nil in E0 as [-> Em]. rewrite Em.
    destruct names as [|c names]; [reflexivity|]. unfold mid in Em.
    rewrite bind_cons in Em. discriminate.
  - assert (Hpre : (if (length pre =? 0)%nat then [] else take (length pre)
                      (pre ++ mid ++ 47 :: last_name)) = pre).
    { destruct (Nat.eqb_spec (length pre) 0) as [E|E].
      - by apply length_zero_iff_nil in E.
      - by rewrite take_app_length. }
    rewrite Hpre, drop_app_length.
    replace (length (pre ++ mid) - length pre)%nat with (length mid)
      by (rewrite length_app; lia).
    rewrite take_app_length, Hmid.
    rewrite (app_assoc pre mid), drop_app_length. by rewrite <- app_assoc.
Qed.

Lemma dir_condense_names_witness :
  drsh_dir_condense (join_path (bytes_of "~") [bytes_of "src"; bytes_of "drsh"] (bytes_of "build"))
  = join_path (bytes_of "~") (take 1 <$> [bytes_of "src"; bytes_of "drsh"]) (bytes_of "build")
  /\ drsh_dir_condense (bytes_of "~") = bytes_of "~".
Proof.
  apply (dir_condense_names (bytes_of "~") [bytes_of "src"; bytes_of "drsh"] (bytes_of "build")).
  - apply (bool_decide_unpack _). decided.
  - repeat (apply Forall_cons_2; [apply (bool_decide_unpack _); decided|]).
    apply Forall_nil_2.
  - apply (bool_decide_unpack _). decided.
Defined.

Section WorkingDirectoryFacts.
Context `{Hash}.

Lemma env_set_env3_spec at' env k kt value :
  at_wf at' -> env_wf at' env -> txt_of at' k = Some kt ->
  at_count at' + 2 <= 2 ^ 28 -> env_count env + 1 < 2 ^ 28 ->
  len value < UINT32_MAX ->
  exists at2 env2,
    drsh_env_set_env3 at' env k value = Ok (at2, env2)
    /\ at_wf at2 /\ at_extends at' at2
    /\ env_wf at2 env2 /\ 0 < env_cap env2
    /\ env_home env2 = env_home env
    /\ env_cwd env2 = env_cwd env
    /\ forall key',
         env_text at2 env2 key'
         = if decide (fold_key (env_case_insensitive env) key'
                      = fold_key (env_case_insensitive env) kt)
           then Some value else env_text at' env key'.
Proof.
  intros WF EW Hk Hc Hec Hv. unfold drsh_env_set_env3.
  destruct (atomize_spec at' value WF Hc Hv)
    as (at2 & v & -> & WF2 & Hs2 & Hp2 & Htv & Hc2 & _).
  cbn [rbind].
  pose proof (env_wf_mono _ _ _ WF Hp2 EW) as EW2.
  pose proof (txt_of_prefix _ _ _ _ Hk Hp2) as Hk2.
  destruct (env_set_spec at2 WF2 env k v EW2 Hec (txt_of_valid _ _ _ Hk2)
              (txt_of_valid _ _ _ Htv))
    as (entries & cap & idxes & sorted & -> & EW3 & Hcap & _ & Hshape & Hlook).
  cbn [rbind]. eexists _, _. split; [done|]. split_and!; try done.
  intros key'.
  rewrite (env_text_set at2 WF2 env k v kt value entries cap idxes sorted key'
             EW2 Hk2 Htv Hshape).
  by rewrite (env_text_mono at' at2 env key' Hp2 EW).
Qed.

End WorkingDirectoryFacts.

(** X24.  [drsh_refresh_cwd] with a working directory [wd] stores [wd]
    under [PWD] and sets the directory shown in the prompt to the
    condensed form of [wd], with [~] in place of the text of [HOME] when
    [wd] begins with it.  On the DOS family (where a backslash is turned
    into [/]) the text of [HOME] has to be followed by a separator or
    the end of [wd], and a directory in which another byte follows it is
    shown in full; elsewhere nothing is asked of the byte that follows,
    so that with [HOME=/root] the directory [/roots/x] is shown as
    [~s/x].  A directory that does not begin with the text of [HOME] is
    shown in full. *)
Theorem refresh_cwd_home `{Hash} (st : DrshState) (wd : list Z) (bsep : bool) :
  state_wf st ->
  at_count (st_at st) + 2 <= 2 ^ 28 -> env_count (st_env st) + 1 < 2 ^ 28 ->
  wd <> [] -> len wd < UINT32_MAX ->
  exists at2 env2,
    drsh_refresh_cwd wd (st_at st) (st_env st) bsep = Ok (at2, env2)
    /\ env_text at2 env2 (bytes_of "PWD") = Some wd
    /\ (forall h rest,
          home_text st = Some h -> h <> [] -> wd = h ++ rest ->
          (bsep = true -> rest = [] \/ exists r, rest = 47 :: r \/ rest = 92 :: r) ->
          env_cwd env2
          = drsh_dir_condense
              (126 :: (if bsep then (fun c => if c =? 92 then 47 else c) <$> rest
                       else rest)))
    /\ ((forall h, home_text st = Some h -> h = [] \/ ~ h `prefix_of` wd) ->
        env_cwd env2
        = drsh_dir_condense
            (if bsep then (fun c => if c =? 92 then 47 else c) <$> wd else wd))
    /\ (forall h c r,
          home_text st = Some h -> h <> [] -> bsep = true -> wd = h ++ c :: r ->
          c <> 47 -> c <> 92 ->
          env_cwd env2
          = drsh_dir_condense ((fun c => if c =? 92 then 47 else c) <$> wd)).
Proof.
  intros [WF Hr EW Hcap Hhome] Hc Hec Hne Hlen. unfold drsh_refresh_cwd.
  assert (Hl0 : (len wd =? 0) = false).
  { destruct wd; [done|]. rewrite len_cons. pose proof (len_nonneg wd). lia. }
  rewrite Hl0.
  destruct (Forall2_lookup_r _ _ _ ATOM_PWD (bytes_of "PWD") Hr eq_refl)
    as (key & Hkey & Hkt).
  unfold special. rewrite Hkey.
  destruct (env_set_env3_spec (st_at st) (st_env st) key (bytes_of "PWD") wd
              WF EW Hkt Hc Hec Hlen)
    as (at2 & env2 & -> & WF2 & [Hp Hsp] & EW2 & _ & Hh2 & _ & Htext).
  cbn [rbind]. rewrite Hh2.
  assert (Hpwd : env_text at2 env2 (bytes_of "PWD") = Some wd).
  { rewrite Htext. by rewrite decide_True. }
  unfold home_text.
  destruct (env_home (st_env st)) as [hp|] eqn:Ehome; cbn [rbind mbind option_bind].
  2:{ eexists _, _. split; [reflexivity|]. split; [exact Hpwd|]. split.
      - intros h rest [=].
      - split; [|intros h c r [=]].
        intros _. cbn [env_cwd env_set_cwd app]. reflexivity. }
  cbn in Hhome.
  destruct (valid_txt_of (st_at st) hp Hhome) as (ht & Hht).
  pose proof (txt_of_prefix _ _ _ _ Hht Hp) as Hht2.
  assert (Ha : exists a, at_atoms at2 !! hp = Some a /\ atom_txt a = ht).
  { unfold txt_of in Hht2. destruct (at_atoms at2 !! hp) as [a|]; [|discriminate].
    injection Hht2 as <-. by exists a. }
  destruct Ha as (a & Ha & Hta).
  destruct (aw_atoms _ (aw_wf0 _ WF2) hp a Ha) as (_ & Hla & _).
  unfold atom_at. rewrite Ha. cbn [rbind]. rewrite Hla, Hta, Hht.
  assert (Hz : Z.to_nat (len ht) = length ht) by (unfold len; apply Nat2Z.id).
  rewrite !Hz, (firstn_all ht).
  eexists _, _. split; [reflexivity|]. split; [exact Hpwd|].
  cbn [env_cwd env_set_cwd]. split.
  - intros h rest [= <-] Hhne -> Hsep.
    assert (E1 : negb (len ht =? 0) = true).
    { destruct ht; [done|]. rewrite len_cons. pose proof (len_nonneg ht). lia. }
    assert (E2 : (len ht <=? len (ht ++ rest)) = true).
    { rewrite len_app. pose proof (len_nonneg rest). lia. }
    assert (E3 : list_eqb (take (length ht) (ht ++ rest)) ht = true).
    { unfold list_eqb. apply bool_decide_eq_true_2. by rewrite take_app_length. }
    assert (E4 : negb ((len ht <? len (ht ++ rest))
                       && (negb (nth (length ht) (ht ++ rest) 0 =? 47)
                           && (bsep && negb (nth (length ht) (ht ++ rest) 0 =? 92))))
                 = true).
    { destruct bsep; [|by rewrite !andb_false_r].
      destruct (Hsep eq_refl) as [->|(r & [->| ->])].
      - rewrite app_nil_r, Z.ltb_irrefl. reflexivity.
      - rewrite app_nth2, Nat.sub_diag by lia. cbn. by rewrite andb_false_r.
      - rewrite app_nth2, Nat.sub_diag by lia. cbn. by rewrite andb_false_r. }
    rewrite E1, E2, E3, E4. cbn [andb]. by rewrite drop_app_length.
  - split.
    + intros Hno. destruct (Hno ht eq_refl) as [->|Hnp].
      * cbn. reflexivity.
      * assert (E : (len ht <=? len wd) && list_eqb (take (length ht) wd) ht = false).
        { destruct (Z.leb_spec (len ht) (len wd)); [|reflexivity]. cbn [andb].
          unfold list_eqb. apply bool_decide_eq_false_2. intros E. apply Hnp.
          exists (drop (length ht) wd). by rewrite <- E at 1; rewrite take_drop. }
        rewrite <- !andb_assoc, (andb_assoc (len ht <=? len wd)), E.
        rewrite andb_false_l, andb_false_r. reflexivity.
    + intros h c r [= <-] Hhne -> -> Hc47 Hc92.
      assert (E4 : negb ((len ht <? len (ht ++ c :: r))
                         && (negb (nth (length ht) (ht ++ c :: r) 0 =? 47)
                             && (true && negb (nth (length ht) (ht ++ c :: r) 0 =? 92))))
                   = false).
      { rewrite app_nth2, Nat.sub_diag by lia. cbn [nth andb].
        apply Z.eqb_neq in Hc47, Hc92. rewrite Hc47, Hc92. cbn [negb andb].
        rewrite len_app, len_cons. pose proof (len_nonneg r).
        destruct (Z.ltb_spec (len ht) (len ht + (1 + len r))); [reflexivity|lia]. }
      rewrite E4, andb_false_r. cbn [app]. reflexivity.
Qed.

Lemma refresh_cwd_home_witness :
  exists at2 env2,
    drsh_refresh_cwd (bytes_of "/roots/x") (st_at posix_state) (st_env posix_state) false
    = Ok (at2, env2)
    /\ env_text at2 env2 (bytes_of "PWD") = Some (bytes_of "/roots/x")
    /\ (forall h rest,
          home_text posix_state = Some h -> h <> [] -> bytes_of "/roots/x" = h ++ rest ->
          (false = true -> rest = [] \/ exists r, rest = 47 :: r \/ rest = 92 :: r) ->
          env_cwd env2
          = drsh_dir_condense
              (126 :: (if false then (fun c => if c =? 92 then 47 else c) <$> rest
                       else rest)))
    /\ ((forall h, home_text posix_state = Some h ->
                   h = [] \/ ~ h `prefix_of` bytes_of "/roots/x") ->
        env_cwd env2
        = drsh_dir_condense
            (if false then (fun c => if c =? 92 then 47 else c) <$> bytes_of "/roots/x"
             else bytes_of "/roots/x"))
    /\ (forall h c r,
          home_text posix_state = Some h -> h <> [] -> false = true ->
          bytes_of "/roots/x" = h ++ c :: r -> c <> 47 -> c <> 92 ->
          env_cwd env2
          = drsh_dir_condense
              ((fun c => if c =? 92 then 47 else c) <$> bytes_of "/roots/x")).
Proof.
  apply (@refresh_cwd_home murmur posix_state (bytes_of "/roots/x") false posix_state_wf).
  - decided.
  - decided.
  - discriminate.
  - decided.
Defined.

(** ** The [pwd] built-in *)



(** ** Blank lines *)

(** X26.  A line of white space only (the empty line included, which is
    what the editor returns when Enter is pressed at the prompt) has no
    word to run: it writes [error] and a line end and changes nothing
    else.  Only a line that is exactly one carriage return or one line
    feed is passed over in silence. *)
Theorem blank_line_error `{Hash} (IS_WINDOWS : bool)
    (glob : list Z -> option (list (list Z))) (st : DrshState) (line : list Z) :
  forallb is_space line = true ->
  exists st',
    drsh_process_line IS_WINDOWS glob st line = Ok (st', Returned EC_OK)
    /\ st_at st' = st_at st /\ st_env st' = st_env st
    /\ st_out st'
       = st_out st
         ++ (if bool_decide (line = [13]) || bool_decide (line = [10]) then []
             else bytes_of "error" ++ CRLF).
Proof.
  intros Hs. unfold drsh_process_line.
  destruct (bool_decide (line = [13]) || bool_decide (line = [10])).
  - exists st. by rewrite app_nil_r.
  - assert (Ht : drsh_tokenize_line line = []).
    { unfold drsh_tokenize_line. by rewrite (tokenize_loop_spaces line 0 false [] 0 Hs). }
    rewrite Ht. cbn [drsh_tokens_to_argv tokens_to_argv_loop dispatch].
    eexists. split; [reflexivity|]. by cbn.
Qed.

Lemma blank_line_error_witness :
  exists st',
    drsh_process_line false glob_nocheck posix_state [] = Ok (st', Returned EC_OK)
    /\ st_at st' = st_at posix_state /\ st_env st' = st_env posix_state
    /\ st_out st'
       = st_out posix_state
         ++ (if bool_decide (@nil Z = [13]) || bool_decide (@nil Z = [10]) then []
             else bytes_of "error" ++ CRLF).
Proof.
  apply (@blank_line_error murmur false glob_nocheck posix_state []). reflexivity.
Defined.

(** ** The words of tokens *)

Section WordRules.
Context (getenv : list Z -> option (list Z)) (tok : list Z).

Lemma word_loop_app st p (a b : list Z) :
  word_loop getenv tok st p (a ++ b)
  = word_loop getenv tok (word_loop getenv tok st p a) (p + length a) b.
Proof.
  revert st p. induction a as [|c a IH]; intros st p.
  - cbn. by rewrite Nat.add_0_r.
  - cbn [app word_loop length]. rewrite IH. f_equal. lia.
Qed.

Lemma word_loop_copy (w : list Z) : forall q tmp p,
  forallb is_word_byte w = true ->
  word_loop getenv tok
    {| cs_dollar := None; cs_quoted := q; cs_backslash := false; cs_tmp := tmp |} p w
  = {| cs_dollar := None; cs_quoted := q; cs_backslash := false; cs_tmp := tmp ++ w |}.
Proof.
  induction w as [|c w IH]; intros q tmp p Hw.
  - cbn. by rewrite app_nil_r.
  - cbn [forallb] in Hw. apply andb_prop in Hw as [Hc Hw].
    cbn [word_loop]. unfold word_step, canon_switch. cbn [cs_dollar cs_backslash cs_quoted cs_tmp].
    unfold is_word_byte in Hc. apply negb_true_iff in Hc.
    apply orb_false_iff in Hc as [Hc H92]. apply orb_false_iff in Hc as [H36 Hq].
    rewrite H36, Hq, H92. cbn [andb negb]. rewrite IH by exact Hw.
    by rewrite <- app_assoc.
Qed.

Lemma word_loop_name (n : list Z) : forall st d p,
  cs_dollar st = Some d -> forallb is_name_byte n = true ->
  word_loop getenv tok st p n = st.
Proof.
  induction n as [|c n IH]; intros st d p Hd Hn; [reflexivity|].
  cbn [forallb] in Hn. apply andb_prop in Hn as [Hc Hn].
  cbn [word_loop]. unfold word_step. rewrite Hd, Hc. by apply (IH st d).
Qed.

End WordRules.

Lemma name_byte_not_special c :
  is_name_byte c = true -> c <> 36 /\ is_quote c = false /\ c <> 92 /\ c <> 126 /\ c <> 32.
Proof. unfold is_name_byte, is_quote. lia. Qed.

(** A token without [$], quote or backslash that no [~] rule applies to
    is its own word. *)
Lemma word_of_plain getenv home tok bsep :
  forallb is_word_byte tok = true -> word_home home tok bsep = None ->
  word_of getenv home tok bsep = tok.
Proof.
  intros Hw Hh. unfold word_of. rewrite Hh. cbv zeta iota. cbn [default from_option skipn]. unfold id. rewrite ?drop_0.
  by rewrite (word_loop_copy getenv tok tok 0 [] 0 Hw).
Qed.

(** [~] alone or before a separator is the cached [HOME]. *)
Lemma word_of_tilde getenv h rest bsep :
  h <> [] -> forallb is_word_byte rest = true ->
  rest = [] \/ (exists r, rest = 47 :: r) ->
  word_of getenv (Some h) (126 :: rest) bsep = h ++ rest.
Proof.
  intros Hh Hw Hr. unfold word_of.
  assert (E : word_home (Some h) (126 :: rest) bsep = Some h).
  { unfold word_home. cbn [Z.eqb Pos.eqb].
    assert (E0 : (len h =? 0) = false).
    { destruct h; [done|]. rewrite len_cons. pose proof (len_nonneg h). lia. }
    rewrite E0. destruct Hr as [->|(r & ->)]; reflexivity. }
  rewrite E. cbv zeta iota. cbn [default from_option skipn]. unfold id. rewrite ?drop_0.
  by rewrite (word_loop_copy getenv (126 :: rest) rest 0 h 1 Hw).
Qed.

(** A variable reference, bare or between two quotes of the same kind,
    is the value of the variable, and nothing when it is not set. *)
Lemma word_of_dollar_bare getenv home (n : list Z) bsep :
  n <> [] -> forallb is_name_byte n = true ->
  word_of getenv home (36 :: n) bsep = default [] (getenv n).
Proof.
  intros Hne Hn. unfold word_of.
  assert (Hlen : (0 <? len n) = true).
  { destruct n; [done|]. rewrite len_cons. pose proof (len_nonneg n). lia. }
  assert (E : word_home home (36 :: n) bsep = None) by reflexivity.
  rewrite E. cbv zeta iota. cbn [default from_option skipn]. rewrite ?drop_0.
  assert (Hst : word_loop getenv (36 :: n)
                  {| cs_dollar := None; cs_quoted := 0; cs_backslash := false;
                     cs_tmp := [] |} 0 (36 :: n)
                = {| cs_dollar := Some 0%nat; cs_quoted := 0; cs_backslash := false;
                     cs_tmp := [] |}).
  { cbn [word_loop].
    change (word_step getenv (36 :: n) _ 0 36)
      with {| cs_dollar := Some 0%nat; cs_quoted := 0; cs_backslash := false;
              cs_tmp := [] |}.
    by apply (word_loop_name getenv (36 :: n) n _ 0%nat). }
  rewrite Hst. cbn [cs_dollar cs_tmp]. unfold word_expand.
  cbn [length skipn]. replace (S (length n) - 1)%nat with (length n) by lia.
  rewrite drop_0, firstn_all, Hlen. reflexivity.
Qed.

Lemma word_of_dollar_quoted getenv home (c : Z) (n : list Z) bsep :
  c = 34 \/ c = 39 ->
  n <> [] -> forallb is_name_byte n = true ->
  word_of getenv home (c :: 36 :: n ++ [c]) bsep = default [] (getenv n).
Proof.
  intros Hc Hne Hn. unfold word_of.
  assert (Hlen : (0 <? len n) = true).
  { destruct n; [done|]. rewrite len_cons. pose proof (len_nonneg n). lia. }
  assert (E : word_home home (c :: 36 :: n ++ [c]) bsep = None).
  { by destruct Hc as [-> | ->]. }
  rewrite E. cbv zeta iota. cbn [default from_option skipn]. rewrite ?drop_0.
  set (tok := c :: 36 :: n ++ [c]).
  assert (Hkey : take (2 + length n - 2) (drop 2 tok) = n).
  { unfold tok. cbn [skipn]. rewrite drop_0.
    replace (2 + length n - 2)%nat with (length n) by lia.
    by rewrite take_app_length. }
  assert (Hst : word_loop getenv tok
                  {| cs_dollar := None; cs_quoted := 0; cs_backslash := false;
                     cs_tmp := [] |} 0 tok
                = {| cs_dollar := None; cs_quoted := 0; cs_backslash := false;
                     cs_tmp := default [] (getenv n) |}).
  { unfold tok at 2. cbn [word_loop].
    assert (E1 : word_step getenv tok
                   {| cs_dollar := None; cs_quoted := 0; cs_backslash := false;
                      cs_tmp := [] |} 0 c
                 = {| cs_dollar := None; cs_quoted := c; cs_backslash := false;
                      cs_tmp := [] |}).
    { by destruct Hc as [-> | ->]. }
    rewrite E1.
    change (word_step getenv tok _ 1 36)
      with {| cs_dollar := Some 1%nat; cs_quoted := c; cs_backslash := false;
              cs_tmp := [] |}.
    rewrite (word_loop_app getenv tok _ 2 n [c]).
    erewrite (word_loop_name getenv tok n); [|reflexivity|exact Hn].
    cbn [word_loop]. unfold word_step. cbn [cs_dollar cs_quoted cs_backslash cs_tmp].
    assert (Hnb : is_name_byte c = false) by (by destruct Hc as [-> | ->]).
    rewrite Hnb. unfold word_expand. rewrite Hkey, Hlen.
    unfold canon_switch. cbn [cs_dollar cs_quoted cs_backslash cs_tmp].
    destruct Hc as [-> | ->]; reflexivity. }
  rewrite Hst. reflexivity.
Qed.

(** After a backslash the [$] is an ordinary byte, and the backslash is
    kept. *)
Lemma word_of_escaped_dollar getenv home (w : list Z) bsep :
  forallb is_word_byte w = true ->
  word_of getenv home (92 :: 36 :: w) bsep = 92 :: 36 :: w.
Proof.
  intros Hw. unfold word_of.
  assert (E : word_home home (92 :: 36 :: w) bsep = None) by reflexivity.
  rewrite E. cbv zeta iota. cbn [default from_option skipn]. rewrite ?drop_0.
  assert (Hst : word_loop getenv (92 :: 36 :: w)
                  {| cs_dollar := None; cs_quoted := 0; cs_backslash := false;
                     cs_tmp := [] |} 0 (92 :: 36 :: w)
                = {| cs_dollar := None; cs_quoted := 0; cs_backslash := false;
                     cs_tmp := 92 :: 36 :: w |}).
  { cbn [word_loop].
    change (word_step getenv (92 :: 36 :: w) (word_step getenv (92 :: 36 :: w) _ 0 92) 1 36)
      with {| cs_dollar := None; cs_quoted := 0; cs_backslash := false;
              cs_tmp := [92; 36] |}.
    by rewrite (word_loop_copy getenv (92 :: 36 :: w) w 0 [92; 36] 2 Hw). }
  by rewrite Hst.
Qed.

(** X27.  The rules of [drsh_canonicalize], on a state that satisfies
    the invariants: the atom returned holds the word of the token, and
    - a token without [$], quote or backslash that does not begin with
      [~] is its own word;
    - [$NAME], alone or between two double or two single quotes, is the
      value of the variable (nothing when it is not set): single quotes
      do not keep a [$] from being expanded;
    - after a backslash the [$] is not expanded and the backslash stays
      in the word;
    - [~] alone or before [/] is replaced by the cached value of [HOME]
      when that is not empty. *)
Theorem canonicalize_rules `{Hash} (st : DrshState) (tok : list Z) (bsep : bool) :
  state_wf st ->
  at_count (st_at st) + 2 * len tok + 4 <= 2 ^ 28 ->
  len tok < UINT32_MAX ->
  len (word_of (env_text (st_at st) (st_env st)) (home_text st) tok bsep) < UINT32_MAX ->
  exists at2 p w,
    drsh_canonicalize (st_at st) (st_env st) tok bsep = Ok (at2, p)
    /\ txt_of at2 p = Some w
    /\ (forallb is_word_byte tok = true -> head tok <> Some 126 -> w = tok)
    /\ (forall n, n <> [] -> forallb is_name_byte n = true ->
          tok = 36 :: n \/ tok = 34 :: 36 :: n ++ [34] \/ tok = 39 :: 36 :: n ++ [39] ->
          w = default [] (env_text (st_at st) (st_env st) n))
    /\ (forall v, forallb is_word_byte v = true -> tok = 92 :: 36 :: v -> w = tok)
    /\ (forall h rest,
          home_text st = Some h -> h <> [] -> forallb is_word_byte rest = true ->
          tok = 126 :: rest -> rest = [] \/ (exists r, rest = 47 :: r) ->
          w = h ++ rest).
Proof.
  intros [WF Hr EW Hcap Hhome] Hc Htok Hword.
  destruct (canonicalize_spec (st_at st) (st_at st) (st_env st) tok bsep
              WF EW Hcap Hhome WF (at_extends_refl _) Hc Htok Hword)
    as (at2 & p & E & _ & _ & _ & Hp).
  exists at2, p. eexists. split; [exact E|]. split; [exact Hp|].
  fold (home_text st). split; [|split; [|split]].
  - intros Hw Hhd. apply word_of_plain; [exact Hw|].
    destruct tok as [|c tok']; [reflexivity|]. unfold word_home.
    destruct (Z.eqb_spec c 126) as [->|_]; [by destruct Hhd|reflexivity].
  - intros n Hne Hn [->|[-> | ->]].
    + by apply word_of_dollar_bare.
    + apply word_of_dollar_quoted; [by left|assumption..].
    + apply word_of_dollar_quoted; [by right|assumption..].
  - intros v Hv ->. by apply word_of_escaped_dollar.
  - intros h rest Hh Hne Hw -> Hrest. rewrite Hh. by apply word_of_tilde.
Qed.

Lemma canonicalize_rules_witness :
  exists at2 p w,
    drsh_canonicalize (st_at posix_state) (st_env posix_state) (bytes_of "'$HOME'") false
    = Ok (at2, p)
    /\ txt_of at2 p = Some w
    /\ (forallb is_word_byte (bytes_of "'$HOME'") = true ->
        head (bytes_of "'$HOME'") <> Some 126 -> w = bytes_of "'$HOME'")
    /\ (forall n, n <> [] -> forallb is_name_byte n = true ->
          bytes_of "'$HOME'" = 36 :: n \/ bytes_of "'$HOME'" = 34 :: 36 :: n ++ [34]
          \/ bytes_of "'$HOME'" = 39 :: 36 :: n ++ [39] ->
          w = default [] (env_text (st_at posix_state) (st_env posix_state) n))
    /\ (forall v, forallb is_word_byte v = true -> bytes_of "'$HOME'" = 92 :: 36 :: v ->
        w = bytes_of "'$HOME'")
    /\ (forall h rest,
          home_text posix_state = Some h -> h <> [] -> forallb is_word_byte rest = true ->
          bytes_of "'$HOME'" = 126 :: rest -> rest = [] \/ (exists r, rest = 47 :: r) ->
          w = h ++ rest).
Proof.
  apply (@canonicalize_rules murmur posix_state (bytes_of "'$HOME'") false posix_state_wf).
  - decided.
  - decided.
  - word_small idtac.
Defined.

(** ** Lines of plain words *)

Lemma c_str_plain (w : list Z) : forallb is_plain w = true -> c_str w = w.
Proof.
  induction w as [|c w IH]; intros Hw; [reflexivity|].
  cbn [forallb] in Hw. apply andb_prop in Hw as [Hc Hw]. cbn [c_str].
  assert (E : (c =? 0) = false).
  { unfold is_plain, is_space in Hc. lia. }
  by rewrite E, IH.
Qed.

Lemma name_bytes_plain (n : list Z) :
  forallb is_name_byte n = true ->
  forallb is_plain n = true /\ forallb is_word_byte n = true /\ head n <> Some 126.
Proof.
  induction n as [|c n IH]; intros Hn; [done|].
  cbn [forallb] in Hn. apply andb_prop in Hn as [Hc Hn].
  destruct (IH Hn) as (H1 & H2 & _). cbn [forallb head]. rewrite H1, H2.
  assert (Hp : is_plain c = true /\ is_word_byte c = true /\ c <> 126).
  { unfold is_name_byte, is_plain, is_word_byte, is_space, is_quote in *. lia. }
  destruct Hp as (-> & -> & H126). split_and!; [done..|]. by intros [= ->].
Qed.

Lemma word_home_not_tilde home tok bsep :
  head tok <> Some 126 -> word_home home tok bsep = None.
Proof.
  intros Hhd. destruct tok as [|c tok']; [reflexivity|]. unfold word_home.
  destruct (Z.eqb_spec c 126) as [->|_]; [by destruct Hhd|reflexivity].
Qed.

Section SpacedLines.
Context (W : bool) (glob : list Z -> option (list (list Z))).
Context (getenv : list Z -> option (list Z)) (home : option (list Z)).

Lemma argv_words_bytes line (toks : list DrshToken) :
  argv_words W glob getenv home line toks
  = (token_bytes line <$> toks) ≫= word_paths W glob getenv home.
Proof.
  unfold argv_words. induction toks as [|tok toks IH]; [reflexivity|].
  rewrite fmap_cons, !bind_cons, IH. reflexivity.
Qed.

(** A line of plain words each of which gives one argument. *)
Lemma spaced_line_fits at' (ws : list (list Z * list Z)) (words : list (list Z)) :
  Forall (fun ws => ws.1 <> [] /\ forallb is_plain ws.1 = true
                    /\ forallb is_sep ws.2 = true) ws ->
  seps_ok ws ->
  Forall2 (fun b w => word_paths W glob getenv home b = [w]
                      /\ len (word_of getenv home b W) < UINT32_MAX
                      /\ len w < UINT32_MAX) (fst <$> ws) words ->
  len (spaced_line ws) < UINT32_MAX ->
  at_count at' + 2 * len (spaced_line ws) + 6 * len ws <= 2 ^ 28 ->
  line_fits W glob at' getenv home (spaced_line ws)
  /\ argv_cost W glob getenv home (spaced_line ws) (drsh_tokenize_line (spaced_line ws))
     <= 2 * len (spaced_line ws) + 6 * len ws
  /\ argv_words W glob getenv home (spaced_line ws) (drsh_tokenize_line (spaced_line ws))
     = words.
Proof.
  intros Hws Hseps Hwords Hlen Hcount.
  assert (Etok : drsh_tokenize_line (spaced_line ws) = expected_tokens 0 ws).
  { unfold drsh_tokenize_line.
    pose proof (tokenize_words ws [] 0 Hws Hseps) as Hfin.
    unfold tokenize_finish in Hfin. by rewrite Z.add_0_l in Hfin. }
  pose proof (expected_token_bytes ws []) as Ebytes.
  change (len (@nil Z)) with 0 in Ebytes. cbn [app] in Ebytes.
  set (line := spaced_line ws) in *. set (toks := expected_tokens 0 ws) in *.
  rewrite Etok.
  assert (Ew : argv_words W glob getenv home line toks = words).
  { rewrite argv_words_bytes, Ebytes. clear -Hwords.
    induction Hwords as [|b w bs words (Hb & _) _ IH]; [reflexivity|].
    rewrite bind_cons, Hb, IH. reflexivity. }
  assert (Hlens : Forall2 (fun (b : list Z) (w : list Z) => True) (fst <$> ws) words).
  { eapply Forall2_impl; [exact Hwords|]. done. }
  assert (Ec : argv_cost W glob getenv home line toks
               <= 2 * len line + 6 * len ws).
  { assert (Hgen : forall (ts : list DrshToken),
              Forall (fun tok => len (token_words W glob getenv home line tok) = 1) ts ->
              argv_cost W glob getenv home line ts
              = 2 * foldr (fun tok acc => len (token_bytes line tok) + acc) 0 ts
                + 6 * len ts).
    { induction 1 as [|tok ts Ht _ IH]; [reflexivity|].
      cbn [argv_cost foldr]. fold (argv_cost W glob getenv home line ts).
      rewrite IH, Ht, len_cons. ring. }
    rewrite Hgen.
    - assert (Hsum : foldr (fun tok acc => len (token_bytes line tok) + acc) 0 toks
                     <= len line).
      { assert (Hs : forall ts : list DrshToken,
                  foldr (fun tok acc => len (token_bytes line tok) + acc) 0 ts
                  = foldr (fun b acc => len b + acc) 0 (token_bytes line <$> ts)).
        { intros ts. induction ts as [|t ts IH]; [reflexivity|]. cbn. by rewrite IH. }
        rewrite Hs, Ebytes.
        assert (Hg : forall l : list (list Z * list Z),
                  foldr (fun b acc => len b + acc) 0 (fst <$> l) <= len (spaced_line l)).
        { intros l. induction l as [|[w s] l IH]; [reflexivity|].
          unfold spaced_line. rewrite fmap_cons, bind_cons. fold (spaced_line l).
          cbn [foldr fst snd]. rewrite !len_app. pose proof (len_nonneg s). lia. }
        apply Hg. }
      assert (Hn : forall (l : list (list Z * list Z)) i,
                len (expected_tokens i l) = len l).
      { intros l. induction l as [|[w s] l IH]; intros i; [reflexivity|].
        cbn [expected_tokens]. rewrite !len_cons. by rewrite IH. }
      assert (Hn' : len toks = len ws) by apply Hn.
      rewrite Hn'. lia.
    - apply Forall_forall. intros tok Hin.
      change (token_words W glob getenv home line tok)
        with (word_paths W glob getenv home (token_bytes line tok)).
      assert (Hb : token_bytes line tok ∈ fst <$> ws).
      { rewrite <- Ebytes. apply list_elem_of_fmap. exists tok. split; [reflexivity|].
        exact Hin. }
      apply list_elem_of_lookup in Hb as (i & Hi).
      destruct (Forall2_lookup_l _ _ _ _ _ Hwords Hi) as (w & _ & Hw & _).
      by rewrite Hw. }
  split; [|split; [exact Ec|exact Ew]].
  split.
  - exact Hlen.
  - rewrite Etok. apply Forall_forall. intros tok Hin.
    assert (Hb : token_bytes line tok ∈ fst <$> ws).
    { rewrite <- Ebytes. apply list_elem_of_fmap. exists tok. split; [reflexivity|].
      exact Hin. }
    apply list_elem_of_lookup in Hb as (i & Hi).
    destruct (Forall2_lookup_l _ _ _ _ _ Hwords Hi) as (w & _ & _ & Hw & _).
    exact Hw.
  - rewrite Etok, Ew. apply Forall_forall. intros w Hin.
    apply list_elem_of_lookup in Hin as (i & Hi).
    destruct (Forall2_lookup_r _ _ _ _ _ Hwords Hi) as (b & _ & _ & _ & Hw).
    exact Hw.
  - rewrite Etok. lia.
Qed.

End SpacedLines.

Lemma word_paths_plain W glob getenv home (b : list Z) :
  forallb is_plain b = true -> forallb is_word_byte b = true -> head b <> Some 126 ->
  (W = false -> glob b = Some [b]) ->
  word_paths W glob getenv home b = [b]
  /\ word_of getenv home b W = b.
Proof.
  intros Hp Hw Hhd Hg.
  assert (E : word_of getenv home b W = b).
  { apply word_of_plain; [exact Hw|by apply word_home_not_tilde]. }
  split; [|exact E]. unfold word_paths. rewrite E. destruct W; [reflexivity|].
  rewrite (c_str_plain b Hp), (Hg eq_refl). cbn. by rewrite (c_str_plain b Hp).
Qed.

(** X28.  A variable that has been set is what its reference stands
    for: after the line [set NAME VALUE], which writes nothing, the line
    [echo $NAME] writes the value, a space and a line end.  This holds
    from every state that satisfies the invariants (with room in the
    tables), for a name of letters, digits and [_] and a value without
    white space, quote, backslash or [$] that does not begin with [~];
    outside the DOS family, when [glob] gives back each of the words
    unchanged. *)
Theorem set_then_echo_value `{Hash} (IS_WINDOWS : bool)
    (glob : list Z -> option (list (list Z))) (st : DrshState) (n v : list Z) :
  state_wf st ->
  n <> [] -> forallb is_name_byte n = true ->
  v <> [] -> forallb is_plain v = true -> forallb is_word_byte v = true ->
  head v <> Some 126 ->
  at_count (st_at st) + 4 * len n + 2 * len v + 64 <= 2 ^ 28 ->
  env_count (st_env st) + 1 < 2 ^ 28 ->
  (IS_WINDOWS = false ->
   Forall (fun w => glob w = Some [w]) [bytes_of "set"; n; v; bytes_of "echo"]) ->
  exists st1 st2,
    drsh_process_line IS_WINDOWS glob st (bytes_of "set " ++ n ++ [32] ++ v)
    = Ok (st1, Returned EC_OK)
    /\ st_out st1 = st_out st
    /\ drsh_process_line IS_WINDOWS glob st1 (bytes_of "echo $" ++ n)
       = Ok (st2, Returned EC_OK)
    /\ st_out st2 = st_out st1 ++ v ++ [32] ++ CRLF.
Proof.
  intros SW Hnne Hn Hvne Hvp Hvw Hvh Hc Hec Hglob.
  destruct (name_bytes_plain n Hn) as (Hnp & Hnw & Hnh).
  pose proof (len_nonneg n) as Hn0. pose proof (len_nonneg v) as Hv0.
  pose proof (len_nonneg (at_atoms (st_at st))) as Hat0. unfold at_count in Hc.
  assert (Hg : IS_WINDOWS = false ->
     glob (bytes_of "set") = Some [bytes_of "set"] /\ glob n = Some [n]
     /\ glob v = Some [v] /\ glob (bytes_of "echo") = Some [bytes_of "echo"]).
  { intros E. specialize (Hglob E).
    repeat (apply Forall_cons in Hglob as [? Hglob]). by split_and!. }
  clear Hglob.
  assert (Hsmall : forall x, x < 2 ^ 28 -> x < UINT32_MAX).
  { intros x Hx. unfold UINT32_MAX. lia. }
  (* the first line *)
  assert (Hl1 : bytes_of "set " ++ n ++ [32] ++ v
                = spaced_line [(bytes_of "set", [32]); (n, [32]); (v, [])]).
  { unfold spaced_line. cbn. by rewrite !app_nil_r, <- app_assoc. }
  assert (Hlen1 : len (spaced_line [(bytes_of "set", [32]); (n, [32]); (v, [])])
                  = 5 + len n + len v).
  { rewrite <- Hl1. rewrite !len_app. change (len (bytes_of "set ")) with 4.
    change (len [32]) with 1. lia. }
  destruct (spaced_line_fits IS_WINDOWS glob (env_text (st_at st) (st_env st)) (home_text st)
              (st_at st) [(bytes_of "set", [32]); (n, [32]); (v, [])]
              [bytes_of "set"; n; v]) as (Hfits1 & Hcost1 & Hwords1).
  { repeat apply Forall_cons_2; [..|apply Forall_nil_2]; cbn [fst snd];
      split_and!; try done. }
  { cbn. split_and!; done. }
  { cbn [fmap list_fmap fst]. repeat apply Forall2_cons_2; [..|apply Forall2_nil_2].
    - destruct (word_paths_plain IS_WINDOWS glob (env_text (st_at st) (st_env st))
                  (home_text st) (bytes_of "set")) as [E1 E2];
        [done|done|done|intros E; by destruct (Hg E)|].
      rewrite E1, E2. by split_and!.
    - destruct (word_paths_plain IS_WINDOWS glob (env_text (st_at st) (st_env st))
                  (home_text st) n Hnp Hnw Hnh) as [E1 E2].
      { intros E. by destruct (Hg E) as (_ & ? & _). }
      rewrite E1, E2. split_and!; [done|apply Hsmall; lia..].
    - destruct (word_paths_plain IS_WINDOWS glob (env_text (st_at st) (st_env st))
                  (home_text st) v Hvp Hvw Hvh) as [E1 E2].
      { intros E. by destruct (Hg E) as (_ & _ & ? & _). }
      rewrite E1, E2. split_and!; [done|apply Hsmall; lia..]. }
  { rewrite Hlen1. apply Hsmall. lia. }
  { rewrite Hlen1. unfold at_count. change (len [_; _; _]) with 3. lia. }
  rewrite <- Hl1 in Hfits1, Hcost1, Hwords1.
  destruct (process_line_set IS_WINDOWS glob st _ [n; v] SW Hec Hfits1 Hwords1)
    as (st1 & E1 & SW1 & _ & Hc1 & Hout1 & Hx).
  rewrite decide_False in Hx by exact Hnne.
  rewrite Hl1, Hlen1, <- Hl1 in Hcost1. change (len [_; _; _]) with 3 in Hcost1.
  exists st1.
  (* the second line *)
  assert (Hl2 : bytes_of "echo $" ++ n
                = spaced_line [(bytes_of "echo", [32]); (36 :: n, [])]).
  { unfold spaced_line. cbn. by rewrite !app_nil_r. }
  assert (Hlen2 : len (spaced_line [(bytes_of "echo", [32]); (36 :: n, [])]) = 6 + len n).
  { rewrite <- Hl2. rewrite !len_app. change (len (bytes_of "echo $")) with 6. lia. }
  destruct (spaced_line_fits IS_WINDOWS glob (env_text (st_at st1) (st_env st1))
              (home_text st1) (st_at st1) [(bytes_of "echo", [32]); (36 :: n, [])]
              [bytes_of "echo"; v]) as (Hfits2 & _ & Hwords2).
  { repeat apply Forall_cons_2; [..|apply Forall_nil_2]; cbn [fst snd];
      split_and!; try done. }
  { cbn. split_and!; done. }
  { cbn [fmap list_fmap fst]. repeat apply Forall2_cons_2; [..|apply Forall2_nil_2].
    - destruct (word_paths_plain IS_WINDOWS glob (env_text (st_at st1) (st_env st1))
                  (home_text st1) (bytes_of "echo")) as [E1' E2'];
        [done|done|done|intros E; by destruct (Hg E) as (_ & _ & _ & ?)|].
      rewrite E1', E2'. by split_and!.
    - assert (Ew : word_of (env_text (st_at st1) (st_env st1)) (home_text st1)
                     (36 :: n) IS_WINDOWS = v).
      { rewrite (word_of_dollar_bare _ _ n IS_WINDOWS Hnne Hn), Hx. reflexivity. }
      unfold word_paths. rewrite Ew. split_and!; [|apply Hsmall; lia..].
      destruct IS_WINDOWS eqn:EW; [reflexivity|].
      destruct (Hg eq_refl) as (_ & _ & Hgv & _).
      rewrite (c_str_plain v Hvp), Hgv. cbn. by rewrite (c_str_plain v Hvp). }
  { rewrite Hlen2. apply Hsmall. lia. }
  { rewrite Hlen2. change (len [_; _]) with 2. unfold at_count in *. lia. }
  rewrite <- Hl2 in Hfits2, Hwords2.
  destruct (process_line_echo IS_WINDOWS glob st1 _ [v] SW1 Hfits2 Hwords2)
    as (st2 & E2 & _ & Hout2).
  exists st2. split; [exact E1|]. split; [exact Hout1|]. split; [exact E2|].
  rewrite Hout2. cbn. rewrite (c_str_plain v Hvp), app_nil_r.
  by rewrite <- !app_assoc.
Qed.

Lemma set_then_echo_value_witness :
  exists st1 st2,
    drsh_process_line false glob_nocheck posix_state
      (bytes_of "set " ++ bytes_of "GREETING" ++ [32] ++ bytes_of "hello")
    = Ok (st1, Returned EC_OK)
    /\ st_out st1 = st_out posix_state
    /\ drsh_process_line false glob_nocheck st1 (bytes_of "echo $" ++ bytes_of "GREETING")
       = Ok (st2, Returned EC_OK)
    /\ st_out st2 = st_out st1 ++ bytes_of "hello" ++ [32] ++ CRLF.
Proof.
  apply (@set_then_echo_value murmur false glob_nocheck posix_state
           (bytes_of "GREETING") (bytes_of "hello") posix_state_wf).
  - discriminate.
  - reflexivity.
  - discriminate.
  - reflexivity.
  - reflexivity.
  - discriminate.
  - decided.
  - decided.
  - intros _. repeat (apply Forall_cons_2; [reflexivity|]). apply Forall_nil_2.
Defined.

(** ** The environment of a child *)

Lemma c_str_no_nul (s : list Z) : 0 ∉ s -> c_str s = s.
Proof.
  induction s as [|c s IH]; intros Hn; [reflexivity|]. cbn [c_str].
  destruct (Z.eqb_spec c 0) as [->|_]; [exfalso; apply Hn; by left|].
  rewrite IH; [reflexivity|]. intros Hin. apply Hn. by right.
Qed.

Lemma strchr_eq (k v : list Z) :
  61 ∉ k -> 0 ∉ k -> strchr (k ++ 61 :: v) 61 = Some (length k).
Proof.
  induction k as [|c k IH]; intros H61 H0; [reflexivity|].
  cbn [app strchr length].
  destruct (Z.eqb_spec c 0) as [->|_]; [exfalso; apply H0; by left|].
  destruct (Z.eqb_spec c 61) as [->|_]; [exfalso; apply H61; by left|].
  rewrite IH; [reflexivity| |]; intros Hin; [apply H61|apply H0]; by right.
Qed.

Section ChildEnvironment.
Context `{Hash}.

(** The strings written for well-formed entries read back as the table
    reads: a name has one entry at most, so the last string that
    defines it is the first entry spelled so. *)
Lemma envp_value_entries at' ci (entries : list (nat * nat)) :
  at_wf at' ->
  Forall (exportable at') entries ->
  NoDup ((fun e => lkey_of at' ci e.1) <$> entries) ->
  exists strings,
    envp_strings at' entries = Ok strings
    /\ length strings = length entries
    /\ Forall (fun p => is_Some (strchr (c_str p) 61) /\ len p < UINT32_MAX) strings
    /\ forall key,
         envp_value ci strings key
         = find (fun e => bool_decide (fold_key ci <$> txt_of at' e.1
                                       = Some (fold_key ci key))) entries
           ≫= fun e => txt_of at' e.2.
Proof.
  intros WF Hex Hnd. induction Hex as [|[k v] entries (kt & vt & Hk & Hv & H61 & H0 & Hv0 & Hlen) Hex IH].
  - exists []. by split_and!.
  - cbn [fst snd] in *. rewrite fmap_cons in Hnd. apply NoDup_cons in Hnd as [Hnin Hnd].
    destruct (IH Hnd) as (strings & E & Hl & Hs & Hval).
    assert (Hka : exists a, at_atoms at' !! k = Some a /\ atom_txt a = kt).
    { unfold txt_of in Hk. destruct (at_atoms at' !! k) as [a|]; [|discriminate].
      injection Hk as <-. by exists a. }
    assert (Hva : exists a, at_atoms at' !! v = Some a /\ atom_txt a = vt).
    { unfold txt_of in Hv. destruct (at_atoms at' !! v) as [a|]; [|discriminate].
      injection Hv as <-. by exists a. }
    destruct Hka as (ka & Hka & Hkt). destruct Hva as (va & Hva & Hvt).
    destruct (aw_atoms _ (aw_wf0 _ WF) k ka Hka) as (_ & Hlk & _).
    destruct (aw_atoms _ (aw_wf0 _ WF) v va Hva) as (_ & Hlv & _).
    assert (Etk : take (Z.to_nat (atom_len ka)) (atom_txt ka) = kt).
    { rewrite Hlk, <- Hkt. unfold len. rewrite Nat2Z.id. apply firstn_all. }
    assert (Etv : take (Z.to_nat (atom_len va)) (atom_txt va) = vt).
    { rewrite Hlv, <- Hvt. unfold len. rewrite Nat2Z.id. apply firstn_all. }
    cbn [envp_strings]. unfold atom_at. rewrite Hka, Hva. cbn [rbind]. rewrite E.
    cbn [rbind]. rewrite Etk, Etv. eexists. split; [reflexivity|].
    assert (Hcs : c_str (kt ++ [61] ++ vt) = kt ++ 61 :: vt).
    { apply c_str_no_nul. intros Hin. apply elem_of_app in Hin as [Hin|Hin]; [by apply H0|].
      apply elem_of_cons in Hin as [Hin|Hin]; [discriminate|by apply Hv0]. }
    split; [cbn; by rewrite Hl|]. split.
    { apply Forall_cons_2; [|exact Hs]. rewrite Hcs, (strchr_eq kt vt H61 H0).
      split; [by eexists|]. rewrite !len_app. change (len [61]) with 1. lia. }
    intros key. cbn [envp_value find fst snd]. rewrite Hval, Hcs, (strchr_eq kt vt H61 H0).
    rewrite take_app_length.
    replace (drop (S (length kt)) (kt ++ 61 :: vt)) with vt.
    2:{ change (kt ++ 61 :: vt) with (kt ++ [61] ++ vt). rewrite app_assoc.
        replace (S (length kt)) with (length (kt ++ [61])) by (rewrite length_app; cbn; lia).
        by rewrite drop_app_length. }
    rewrite Hk. cbn [fmap option_fmap option_map].
    destruct (decide (fold_key ci kt = fold_key ci key)) as [Em|Em].
    + rewrite (bool_decide_eq_true_2 _ Em).
      rewrite (bool_decide_eq_true_2 (Some (fold_key ci kt) = Some (fold_key ci key)))
        by (by rewrite Em).
      cbn [mbind option_bind snd]. rewrite Hv.
      assert (Hnone : find (fun e => bool_decide (fold_key ci <$> txt_of at' e.1
                                                  = Some (fold_key ci key))) entries = None).
      { destruct (find _ entries) as [[k' v']|] eqn:Ef; [|reflexivity]. exfalso.
        apply find_some in Ef as [Hin Hd]. apply bool_decide_eq_true_1 in Hd.
        cbn [fst] in Hd. apply Hnin. apply list_elem_of_fmap. exists (k', v').
        split; [|by apply list_elem_of_In].
        destruct (txt_of at' k') as [kt'|] eqn:Hk'; [|discriminate].
        injection Hd as Hd. cbn [fst].
        apply (lkey_eq_text at' ci k k' kt kt' WF Hk Hk'). by rewrite Em, Hd. }
      rewrite Hnone. reflexivity.
    + rewrite (bool_decide_eq_false_2 _ Em).
      rewrite (bool_decide_eq_false_2 (Some (fold_key ci kt) = Some (fold_key ci key)))
        by (intros [= ?]; contradiction).
      by destruct (find _ entries ≫= _).
Qed.

End ChildEnvironment.

Lemma find_unique {A} (P : A -> bool) (l : list A) (e : A) :
  (forall e1 e2, e1 ∈ l -> e2 ∈ l -> P e1 = true -> P e2 = true -> e1 = e2) ->
  e ∈ l -> P e = true -> find P l = Some e.
Proof.
  induction l as [|x l IH]; intros Hu Hin He; [by apply elem_of_nil in Hin|].
  cbn [find]. destruct (P x) eqn:Hx.
  - f_equal. apply Hu; [by left|exact Hin|exact Hx|exact He].
  - apply elem_of_cons in Hin as [->|Hin]; [congruence|].
    apply IH; [|exact Hin|exact He].
    intros e1 e2 H1 H2. apply Hu; by right.
Qed.

Lemma find_perm_unique {A} (P : A -> bool) (l l' : list A) :
  (forall e1 e2, e1 ∈ l -> e2 ∈ l -> P e1 = true -> P e2 = true -> e1 = e2) ->
  l ≡ₚ l' -> find P l' = find P l.
Proof.
  intros Hu Hp. destruct (find P l) as [e|] eqn:Ef.
  - apply find_some in Ef as [Hin He]. apply list_elem_of_In in Hin.
    apply find_unique; [|by rewrite <- Hp|exact He].
    intros e1 e2 H1 H2. rewrite <- Hp in H1, H2. by apply Hu.
  - destruct (find P l') as [e'|] eqn:Ef'; [|reflexivity]. exfalso.
    apply find_some in Ef' as [Hin He]. apply list_elem_of_In in Hin.
    rewrite <- Hp in Hin. apply list_elem_of_In in Hin.
    pose proof (find_none _ _ Ef e' Hin). congruence.
Qed.

Section ChildEnvironmentTheorem.
Context `{Hash}.

Lemma env_text_perm at' env env' key :
  at_wf at' -> env_wf at' env ->
  env_entries env' ≡ₚ env_entries env ->
  env_case_insensitive env' = env_case_insensitive env ->
  env_text at' env' key = env_text at' env key.
Proof.
  intros WF EW Hp Hci. unfold env_text. rewrite Hci.
  set (ci := env_case_insensitive env).
  rewrite (find_perm_unique _ (env_entries env) (env_entries env')); [reflexivity| |by symmetry].
  intros e1 e2 H1 H2 P1 P2.
  apply bool_decide_eq_true_1 in P1, P2.
  destruct (txt_of at' e1.1) as [t1|] eqn:T1; [|discriminate].
  destruct (txt_of at' e2.1) as [t2|] eqn:T2; [|discriminate].
  injection P1 as P1. injection P2 as P2.
  assert (El : lkey_of at' ci e1.1 = lkey_of at' ci e2.1).
  { apply (lkey_eq_text at' ci e1.1 e2.1 t1 t2 WF T1 T2). by rewrite P1, P2. }
  apply list_elem_of_lookup in H1 as (i & Hi). apply list_elem_of_lookup in H2 as (j & Hj).
  assert (Eij : i = j).
  { apply (NoDup_lookup _ i j (lkey_of at' ci e1.1) (ew_nodup _ _ EW)).
    - by rewrite list_lookup_fmap, Hi.
    - by rewrite list_lookup_fmap, Hj, El. }
  subst j. congruence.
Qed.

End ChildEnvironmentTheorem.

(** X29.  What a child is given is what the shell holds: the strings
    [drsh_env_get_envp] writes for the (sorted) table, read by
    [drsh_env_init] of a shell started with them, give every name the
    value it has in the parent, and leave unset what is unset there.
    This holds for entries whose names contain no [=] and no terminator
    byte and whose values contain no terminator byte. *)
Theorem envp_round_trip `{Hash} (st : DrshState) (ws : bool) (flavor : OsFlavor)
    (at0 : DrshAtomTable) :
  state_wf st ->
  Forall (exportable (st_at st)) (env_entries (st_env st)) ->
  env_entries (st_env st) <> [] ->
  at_wf at0 -> at_ready at0 ->
  at_count at0 + 4 * env_count (st_env st) <= 2 ^ 28 ->
  exists env' envp at2 env2,
    drsh_env_get_envp (st_at st) (st_env st) ws = Ok (env', envp)
    /\ env_entries env' ≡ₚ env_entries (st_env st)
    /\ drsh_env_init flavor env_zero at0 envp (env_case_insensitive (st_env st))
       = Ok (at2, env2)
    /\ forall key, env_text at2 env2 key = env_text (st_at st) (st_env st) key.
Proof.
  intros [WF Hr EW Hcap Hhome] Hex Hne WF0 Hr0 Hc.
  destruct (sort_env_spec (st_at st) WF (st_env st) EW)
    as (env' & E & EW' & Hperm & _ & _ & Hci).
  destruct (envp_value_entries (st_at st) (env_case_insensitive (st_env st))
              (env_entries env') WF) as (envp & Es & Hl & Hs & Hval).
  { by rewrite Hperm. }
  { rewrite <- Hci. apply (ew_nodup _ _ EW'). }
  assert (Hlen : len envp = env_count (st_env st)).
  { unfold env_count, len. rewrite Hl. f_equal. by apply Permutation_length. }
  destruct (env_init_spec flavor at0 envp (env_case_insensitive (st_env st)) [] WF0 Hr0)
    as (at2 & env2 & Ei & _ & _ & _ & _ & _ & Htext & _).
  { intros _. eapply Forall_impl; [exact Hs|]. by intros p [? _]. }
  { destruct envp as [|p envp].
    - exfalso. apply Hne. apply Permutation_length in Hperm.
      destruct (env_entries (st_env st)); [reflexivity|].
      destruct (env_entries env'); discriminate.
    - apply Exists_cons_hd. apply Forall_cons in Hs as [[Hp _] _]. exact Hp. }
  { rewrite Hlen. exact Hc. }
  { eapply Forall_impl; [exact Hs|]. by intros p [_ ?]. }
  exists env', envp, at2, env2. unfold drsh_env_get_envp. rewrite E. cbn [rbind].
  rewrite Es. cbn [rbind]. split; [reflexivity|]. split; [exact Hperm|].
  split; [exact Ei|]. intros key. rewrite Htext, Hval.
  symmetry. fold (env_text (st_at st) (st_env st) key).
  rewrite <- (env_text_perm (st_at st) (st_env st) env' key WF EW Hperm Hci).
  unfold env_text. by rewrite Hci.
Qed.

Lemma envp_round_trip_witness :
  exists env' envp at2 env2,
    drsh_env_get_envp (st_at posix_state) (st_env posix_state) false = Ok (env', envp)
    /\ env_entries env' ≡ₚ env_entries (st_env posix_state)
    /\ drsh_env_init OS_LINUX env_zero (st_at posix_state) envp
         (env_case_insensitive (st_env posix_state)) = Ok (at2, env2)
    /\ forall key,
         env_text at2 env2 key = env_text (st_at posix_state) (st_env posix_state) key.
Proof.
  apply (@envp_round_trip murmur posix_state false OS_LINUX (st_at posix_state)
           posix_state_wf).
  - repeat (apply Forall_cons_2;
            [eexists _, _; split; [reflexivity|]; split; [reflexivity|];
             split; [apply (bool_decide_unpack _); decided|];
             split; [apply (bool_decide_unpack _); decided|];
             split; [apply (bool_decide_unpack _); decided|decided]|]).
    apply Forall_nil_2.
  - discriminate.
  - exact (sw_at _ posix_state_wf).
  - exact (sw_ready _ posix_state_wf).
  - decided.
Defined.
